(** * beniget: def-use chains of a Python module

    A shallow embedding of [beniget/beniget.py]: the [Def] records, the
    [CollectLocals] pre-pass, the [DefUseChains] visitor with its stacks of
    definition layers, and the [UseDefChains] adaptor.

    Python objects that the analyzer mutates and shares ([Def] records,
    [ordered_set]s, the [defaultdict] layers) live in explicit heaps and are
    referred to by address, so that the aliasing created by [dict.copy()] and
    by the snapshots of the deferred queue is the one of the source.  Stacks
    are Python lists: the top of a stack is the last element. *)

From Stdlib Require Import ZArith Lia Bool Ascii String.
From stdpp Require Import base decidable option list strings.

Set Warnings "-register-all".

Open Scope string_scope.
Open Scope list_scope.
Open Scope nat_scope.

(** ** Python lists *)

Module Py.

(** [l[-1]] *)
Definition last {A} (l : list A) : option A := List.last (List.map Some l) None.

(** [l.pop()] (the list that remains) *)
Definition pop {A} (l : list A) : list A := List.removelast l.

(** An index of a slice bound: negative indices count from the end and
    everything is clamped to [0, len]. *)
Definition bound (len i : Z) : Z :=
  (if i <? 0 then Z.max (i + len) 0 else Z.min i len)%Z.

(** [l[lo:hi]], a missing bound is [None]. *)
Definition slice {A} (l : list A) (lo hi : option Z) : list A :=
  let n := Z.of_nat (length l) in
  let a := match lo with Some i => bound n i | None => 0%Z end in
  let b := match hi with Some i => bound n i | None => n end in
  firstn (Z.to_nat (b - a)%Z) (skipn (Z.to_nat a) l).

(** [l[-1] = x] on a non-empty list *)
Definition set_last {A} (x : A) (l : list A) : list A := pop l ++ [x].

(** [x or y] on an optional string: [None] and the empty string are falsy. *)
Definition str_or (x : option string) (y : string) : string :=
  match x with
  | Some s => if decide (s = EmptyString) then y else s
  | None => y
  end.

(** [s.split(".", 1)[0]] *)
Fixpoint split_dot_head (s : string) : string :=
  match s with
  | EmptyString => EmptyString
  | String c r => if Ascii.eqb c "."%char then EmptyString
                  else String c (split_dot_head r)
  end.

Lemma last_snoc {A} (l : list A) (x : A) : last (l ++ [x]) = Some x.
Proof. unfold last. rewrite List.map_app. simpl. apply List.last_last. Qed.

Lemma pop_snoc {A} (l : list A) (x : A) : pop (l ++ [x]) = l.
Proof. apply List.removelast_last. Qed.

Lemma last_Some_snoc {A} (l : list A) (x : A) :
  last l = Some x -> l = pop l ++ [x].
Proof.
  destruct l as [|a l] using List.rev_ind; [discriminate|].
  rewrite last_snoc, pop_snoc. congruence.
Qed.

Lemma length_set_last {A} (l : list A) (x y : A) :
  last l = Some y -> length (set_last x l) = length l.
Proof.
  intros H. rewrite (last_Some_snoc _ _ H) at 2.
  unfold set_last. rewrite !length_app. reflexivity.
Qed.

End Py.

(** ** Insertion-ordered dictionaries

    A Python [dict] (and [OrderedDict]): an association list in insertion
    order, a key occurs at most once. *)

Section odict.
Context {K V : Type} `{EqDecision K}.

Fixpoint od_get (k : K) (m : list (K * V)) : option V :=
  match m with
  | [] => None
  | (k', v) :: r => if decide (k = k') then Some v else od_get k r
  end.

Definition od_mem (k : K) (m : list (K * V)) : bool :=
  match od_get k m with Some _ => true | None => false end.

(** [m[k] = v]: an existing key keeps its position. *)
Fixpoint od_set (k : K) (v : V) (m : list (K * V)) : list (K * V) :=
  match m with
  | [] => [(k, v)]
  | (k', v') :: r =>
      if decide (k = k') then (k, v) :: r else (k', v') :: od_set k v r
  end.

Definition od_keys (m : list (K * V)) : list K := List.map fst m.
Definition od_values (m : list (K * V)) : list V := List.map snd m.

Lemma od_get_set_eq k v m : od_get k (od_set k v m) = Some v.
Proof.
  induction m as [|[k' v'] r IH]; simpl.
  - destruct (decide (k = k)); congruence.
  - destruct (decide (k = k')) as [->|Hne]; simpl.
    + destruct (decide (k' = k')); congruence.
    + destruct (decide (k = k')); congruence.
Qed.

Lemma od_get_set_ne k k' v m : k <> k' -> od_get k' (od_set k v m) = od_get k' m.
Proof.
  intros Hne. induction m as [|[k0 v0] r IH]; simpl.
  - destruct (decide (k' = k)); congruence.
  - destruct (decide (k = k0)) as [->|Hk]; simpl.
    + destruct (decide (k' = k0)); congruence.
    + destruct (decide (k' = k0)); congruence.
Qed.

Lemma od_get_In k v m : od_get k m = Some v -> In (k, v) m.
Proof.
  induction m as [|[k' v'] r IH]; simpl; [discriminate|].
  destruct (decide (k = k')) as [->|Hne]; intros H.
  - left. congruence.
  - right. auto.
Qed.

Lemma od_get_values k v m : od_get k m = Some v -> In v (od_values m).
Proof.
  intros H. apply od_get_In in H. unfold od_values.
  apply List.in_map_iff. exists (k, v). auto.
Qed.

Lemma od_mem_true k m : od_mem k m = true <-> exists v, od_get k m = Some v.
Proof.
  unfold od_mem. destruct (od_get k m); split; eauto; try discriminate.
  intros [v Hv]. discriminate.
Qed.
End odict.

(** ** The abstract syntax tree (gast)

    Every node carries [nid], its identity: the analyzer keys its tables by
    node objects.  Node classes that share one visitor in the source share
    one constructor here and are told apart by a tag:
    [visit_YieldFrom = visit_Repr = visit_Attribute = visit_Starred =
    visit_Await], [visit_SetComp = visit_GeneratorExp = visit_ListComp],
    [visit_Tuple = visit_List], [visit_AsyncFunctionDef = visit_FunctionDef],
    [visit_AsyncFor = visit_For] and [visit_AsyncWith = visit_With]. *)

Inductive expr_context := Load | Store | Del | AugLoad | AugStore | Param.

Inductive value_kind := KAwait | KYieldFrom | KRepr | KAttribute (attr : string) | KStarred.
Inductive comp_kind := KListComp | KSetComp | KGeneratorExp.
Inductive seq_kind := KList | KTuple.

Inductive expr :=
| BoolOp (nid : nat) (values : list expr)
| NamedExpr (nid : nat) (target value : expr)
| BinOp (nid : nat) (left right : expr)
| UnaryOp (nid : nat) (operand : expr)
| Lambda (nid : nat) (args : arguments) (body : expr)
| IfExp (nid : nat) (test body orelse : expr)
| Dict (nid : nat) (keys : list (option expr)) (values : list expr)
| SetE (nid : nat) (elts : list expr)
| Comp (k : comp_kind) (nid : nat) (elt : expr) (generators : list comprehension)
| DictComp (nid : nat) (key value : expr) (generators : list comprehension)
| ValueOp (k : value_kind) (nid : nat) (value : expr)
| Yield (nid : nat) (value : option expr)
| Compare (nid : nat) (left : expr) (comparators : list expr)
| Call (nid : nat) (func : expr) (args : list expr) (keywords : list keyword)
| Constant (nid : nat)
| FormattedValue (nid : nat) (value : expr) (format_spec : option expr)
| JoinedStr (nid : nat) (values : list expr)
| Subscript (nid : nat) (value slice : expr)
| Name (nid : nat) (id : string) (ctx : expr_context) (annotation : option expr)
| Seq (k : seq_kind) (nid : nat) (elts : list expr) (ctx : expr_context)
| Slice (nid : nat) (lower upper step : option expr)
with comprehension :=
| Comprehension (nid : nat) (target iter : expr) (ifs : list expr)
with arguments :=
| Arguments (nid : nat) (args posonlyargs : list expr) (vararg : option expr)
    (kwonlyargs : list expr) (kw_defaults : list (option expr))
    (kwarg : option expr) (defaults : list expr)
with keyword :=
| Keyword (nid : nat) (arg : option string) (value : expr).

Inductive alias := Alias (nid : nat) (name : string) (asname : option string).

Inductive withitem :=
| Withitem (nid : nat) (context_expr : expr) (optional_vars : option expr).

Inductive stmt :=
| FunctionDef (async : bool) (nid : nat) (name : string) (args : arguments)
    (body : list stmt) (decorator_list : list expr) (returns : option expr)
| ClassDef (nid : nat) (name : string) (bases : list expr)
    (keywords : list keyword) (body : list stmt) (decorator_list : list expr)
| Return (nid : nat) (value : option expr)
| Delete (nid : nat) (targets : list expr)
| Assign (nid : nat) (targets : list expr) (value : expr)
| AugAssign (nid : nat) (target value : expr)
| AnnAssign (nid : nat) (target annotation : expr) (value : option expr)
| Print (nid : nat) (dest : option expr) (values : list expr)
| For (async : bool) (nid : nat) (target iter : expr) (body orelse : list stmt)
| While (nid : nat) (test : expr) (body orelse : list stmt)
| If (nid : nat) (test : expr) (body orelse : list stmt)
| With (async : bool) (nid : nat) (items : list withitem) (body : list stmt)
| Raise (nid : nat) (exc cause : option expr)
| Try (nid : nat) (body : list stmt) (handlers : list excepthandler)
    (orelse finalbody : list stmt)
| Assert (nid : nat) (test : expr) (msg : option expr)
| Import (nid : nat) (names : list alias)
| ImportFrom (nid : nat) (names : list alias)
| Exec (nid : nat) (body : expr) (globals locals : option expr)
| Global (nid : nat) (names : list string)
| Nonlocal (nid : nat) (names : list string)
| Expr (nid : nat) (value : expr)
| Pass (nid : nat)
| Break (nid : nat)
| Continue (nid : nat)
with excepthandler :=
| ExceptHandler (nid : nat) (type : option expr) (name : option expr)
    (body : list stmt).

Inductive module_ := Module (nid : nat) (body : list stmt).

(** Any node object: what [self.visit] is applied to and what a [Def], a
    scope or a queue entry refers to. *)
Inductive AST :=
| NModule (m : module_)
| NStmt (s : stmt)
| NExpr (e : expr)
| NComprehension (c : comprehension)
| NArguments (a : arguments)
| NKeyword (k : keyword)
| NAlias (a : alias)
| NWithitem (w : withitem)
| NExceptHandler (h : excepthandler).

Definition expr_id (e : expr) : nat :=
  match e with
  | BoolOp n _ | NamedExpr n _ _ | BinOp n _ _ | UnaryOp n _ | Lambda n _ _
  | IfExp n _ _ _ | Dict n _ _ | SetE n _ | Comp _ n _ _ | DictComp n _ _ _
  | ValueOp _ n _ | Yield n _ | Compare n _ _ | Call n _ _ _ | Constant n
  | FormattedValue n _ _ | JoinedStr n _ | Subscript n _ _ | Name n _ _ _
  | Seq _ n _ _ | Slice n _ _ _ => n
  end.

Definition stmt_id (s : stmt) : nat :=
  match s with
  | FunctionDef _ n _ _ _ _ _ | ClassDef n _ _ _ _ _ | Return n _ | Delete n _
  | Assign n _ _ | AugAssign n _ _ | AnnAssign n _ _ _ | Print n _ _
  | For _ n _ _ _ _ | While n _ _ _ | If n _ _ _ | With _ n _ _ | Raise n _ _
  | Try n _ _ _ _ | Assert n _ _ | Import n _ | ImportFrom n _ | Exec n _ _ _
  | Global n _ | Nonlocal n _ | Expr n _ | Pass n | Break n | Continue n => n
  end.

Definition node_id (n : AST) : nat :=
  match n with
  | NModule (Module i _) => i
  | NStmt s => stmt_id s
  | NExpr e => expr_id e
  | NComprehension (Comprehension i _ _ _) => i
  | NArguments (Arguments i _ _ _ _ _ _ _) => i
  | NKeyword (Keyword i _ _) => i
  | NAlias (Alias i _ _) => i
  | NWithitem (Withitem i _ _) => i
  | NExceptHandler (ExceptHandler i _ _ _) => i
  end.

(** [isinstance(node, ast.ClassDef)] *)
Definition is_ClassDef (n : AST) : bool :=
  match n with NStmt (ClassDef _ _ _ _ _ _) => true | _ => false end.

(** [isinstance(node, ast.Name)] *)
Definition is_Name (n : AST) : bool :=
  match n with NExpr (Name _ _ _ _) => true | _ => false end.

(** [type(node).__name__] *)
Definition type_name (n : AST) : string :=
  match n with
  | NModule _ => "Module"
  | NStmt s =>
      match s with
      | FunctionDef a _ _ _ _ _ _ => if a then "AsyncFunctionDef" else "FunctionDef"
      | ClassDef _ _ _ _ _ _ => "ClassDef"
      | Return _ _ => "Return" | Delete _ _ => "Delete" | Assign _ _ _ => "Assign"
      | AugAssign _ _ _ => "AugAssign" | AnnAssign _ _ _ _ => "AnnAssign"
      | Print _ _ _ => "Print"
      | For a _ _ _ _ _ => if a then "AsyncFor" else "For"
      | While _ _ _ _ => "While" | If _ _ _ _ => "If"
      | With a _ _ _ => if a then "AsyncWith" else "With"
      | Raise _ _ _ => "Raise" | Try _ _ _ _ _ => "Try" | Assert _ _ _ => "Assert"
      | Import _ _ => "Import" | ImportFrom _ _ => "ImportFrom"
      | Exec _ _ _ _ => "Exec" | Global _ _ => "Global" | Nonlocal _ _ => "Nonlocal"
      | Expr _ _ => "Expr" | Pass _ => "Pass" | Break _ => "Break"
      | Continue _ => "Continue"
      end
  | NExpr e =>
      match e with
      | BoolOp _ _ => "BoolOp" | NamedExpr _ _ _ => "NamedExpr" | BinOp _ _ _ => "BinOp"
      | UnaryOp _ _ => "UnaryOp" | Lambda _ _ _ => "Lambda" | IfExp _ _ _ _ => "IfExp"
      | Dict _ _ _ => "Dict" | SetE _ _ => "Set"
      | Comp KListComp _ _ _ => "ListComp" | Comp KSetComp _ _ _ => "SetComp"
      | Comp KGeneratorExp _ _ _ => "GeneratorExp" | DictComp _ _ _ _ => "DictComp"
      | ValueOp KAwait _ _ => "Await" | ValueOp KYieldFrom _ _ => "YieldFrom"
      | ValueOp KRepr _ _ => "Repr" | ValueOp (KAttribute _) _ _ => "Attribute"
      | ValueOp KStarred _ _ => "Starred" | Yield _ _ => "Yield"
      | Compare _ _ _ => "Compare" | Call _ _ _ _ => "Call" | Constant _ => "Constant"
      | FormattedValue _ _ _ => "FormattedValue" | JoinedStr _ _ => "JoinedStr"
      | Subscript _ _ _ => "Subscript" | Name _ _ _ _ => "Name"
      | Seq KList _ _ _ => "List" | Seq KTuple _ _ _ => "Tuple"
      | Slice _ _ _ _ => "Slice"
      end
  | NComprehension _ => "comprehension"
  | NArguments _ => "arguments"
  | NKeyword _ => "keyword"
  | NAlias _ => "alias"
  | NWithitem _ => "withitem"
  | NExceptHandler _ => "ExceptHandler"
  end.

(** ** Sets of identifiers (Python [set] of [str]) *)

Definition name_in (x : string) (l : list string) : bool :=
  bool_decide (x ∈ l).

Definition name_add (x : string) (l : list string) : list string :=
  if name_in x l then l else l ++ [x].

(** ** CollectLocals

    The pre-pass that computes the identifiers bound in a scope.  The
    methods of the class are the cases of [cl_expr] and [cl_stmt]; a node
    class without a method is traversed field by field ([generic_visit]).
    The analyzed dialect is Python 3, where comprehensions are skipped. *)

Record CollectLocals := mkCollectLocals {
  Locals : list string;
  NonLocals : list string;
}.

Definition cl_add_local (x : string) (c : CollectLocals) : CollectLocals :=
  mkCollectLocals (name_add x (Locals c)) (NonLocals c).

Definition cl_opt {A} (f : A -> CollectLocals -> CollectLocals)
    (o : option A) (c : CollectLocals) : CollectLocals :=
  match o with Some x => f x c | None => c end.

Definition cl_list {A} (f : A -> CollectLocals -> CollectLocals)
    (l : list A) (c : CollectLocals) : CollectLocals :=
  fold_left (fun c x => f x c) l c.

Fixpoint cl_expr (e : expr) (c : CollectLocals) {struct e} : CollectLocals :=
  match e with
  | Name _ id ctx _ =>
      (* visit_Name *)
      match ctx with
      | Store => if name_in id (NonLocals c) then c else cl_add_local id c
      | _ => c
      end
  | Comp _ _ _ _ | DictComp _ _ _ _ | Lambda _ _ _ => c   (* skip *)
  | BoolOp _ values => cl_list cl_expr values c
  | NamedExpr _ target value => cl_expr value (cl_expr target c)
  | BinOp _ l r => cl_expr r (cl_expr l c)
  | UnaryOp _ operand => cl_expr operand c
  | IfExp _ test body orelse => cl_expr orelse (cl_expr body (cl_expr test c))
  | Dict _ keys values =>
      cl_list cl_expr values (cl_list (cl_opt cl_expr) keys c)
  | SetE _ elts => cl_list cl_expr elts c
  | ValueOp _ _ value => cl_expr value c
  | Yield _ value => cl_opt cl_expr value c
  | Compare _ l comparators => cl_list cl_expr comparators (cl_expr l c)
  | Call _ func args keywords =>
      cl_list cl_keyword keywords (cl_list cl_expr args (cl_expr func c))
  | Constant _ => c
  | FormattedValue _ value format_spec =>
      cl_opt cl_expr format_spec (cl_expr value c)
  | JoinedStr _ values => cl_list cl_expr values c
  | Subscript _ value slice => cl_expr slice (cl_expr value c)
  | Seq _ _ elts _ => cl_list cl_expr elts c
  | Slice _ lower upper step =>
      cl_opt cl_expr step (cl_opt cl_expr upper (cl_opt cl_expr lower c))
  end
with cl_keyword (k : keyword) (c : CollectLocals) {struct k} : CollectLocals :=
  match k with Keyword _ _ value => cl_expr value c end.

(** [generic_visit] of the node classes below [expr] that are scopes or are
    reached from statements. *)
Definition cl_arguments (a : arguments) (c : CollectLocals) : CollectLocals :=
  match a with
  | Arguments _ args posonlyargs vararg kwonlyargs kw_defaults kwarg defaults =>
      let c := cl_list cl_expr args c in
      let c := cl_list cl_expr posonlyargs c in
      let c := cl_opt cl_expr vararg c in
      let c := cl_list cl_expr kwonlyargs c in
      let c := cl_list (cl_opt cl_expr) kw_defaults c in
      let c := cl_opt cl_expr kwarg c in
      cl_list cl_expr defaults c
  end.

Definition cl_comprehension (g : comprehension) (c : CollectLocals) : CollectLocals :=
  match g with
  | Comprehension _ target iter ifs =>
      cl_list cl_expr ifs (cl_expr iter (cl_expr target c))
  end.

Definition cl_withitem (w : withitem) (c : CollectLocals) : CollectLocals :=
  match w with
  | Withitem _ context_expr optional_vars =>
      cl_opt cl_expr optional_vars (cl_expr context_expr c)
  end.

Definition alias_base (a : alias) : string :=
  match a with Alias _ name _ => Py.split_dot_head name end.

Fixpoint cl_stmt (s : stmt) (c : CollectLocals) {struct s} : CollectLocals :=
  match s with
  | FunctionDef _ _ name _ _ _ _ | ClassDef _ name _ _ _ _ =>
      (* visit_FunctionDef *)
      cl_add_local name c
  | Nonlocal _ names | Global _ names =>
      (* visit_Nonlocal *)
      mkCollectLocals (Locals c) (fold_left (fun l x => name_add x l) names (NonLocals c))
  | Import _ names =>
      fold_left (fun c a =>
        match a with
        | Alias _ _ asname => cl_add_local (Py.str_or asname (alias_base a)) c
        end) names c
  | ImportFrom _ names =>
      fold_left (fun c a =>
        match a with
        | Alias _ name asname => cl_add_local (Py.str_or asname name) c
        end) names c
  | Return _ value => cl_opt cl_expr value c
  | Delete _ targets => cl_list cl_expr targets c
  | Assign _ targets value => cl_expr value (cl_list cl_expr targets c)
  | AugAssign _ target value => cl_expr value (cl_expr target c)
  | AnnAssign _ target annotation value =>
      cl_opt cl_expr value (cl_expr annotation (cl_expr target c))
  | Print _ dest values => cl_list cl_expr values (cl_opt cl_expr dest c)
  | For _ _ target iter body orelse =>
      cl_list cl_stmt orelse (cl_list cl_stmt body (cl_expr iter (cl_expr target c)))
  | While _ test body orelse | If _ test body orelse =>
      cl_list cl_stmt orelse (cl_list cl_stmt body (cl_expr test c))
  | With _ _ items body => cl_list cl_stmt body (cl_list cl_withitem items c)
  | Raise _ exc cause => cl_opt cl_expr cause (cl_opt cl_expr exc c)
  | Try _ body handlers orelse finalbody =>
      cl_list cl_stmt finalbody
        (cl_list cl_stmt orelse
           (cl_list cl_handler handlers (cl_list cl_stmt body c)))
  | Assert _ test msg => cl_opt cl_expr msg (cl_expr test c)
  | Exec _ body globals locals =>
      cl_opt cl_expr locals (cl_opt cl_expr globals (cl_expr body c))
  | Expr _ value => cl_expr value c
  | Pass _ | Break _ | Continue _ => c
  end
with cl_handler (h : excepthandler) (c : CollectLocals) {struct h} : CollectLocals :=
  match h with
  | ExceptHandler _ type name body =>
      cl_list cl_stmt body (cl_opt cl_expr name (cl_opt cl_expr type c))
  end.

(** [collect_locals(node)]: [generic_visit] of the scope node itself. *)
Definition collect_locals (n : AST) : list string :=
  let c0 := mkCollectLocals [] [] in
  Locals
    match n with
    | NModule (Module _ body) => cl_list cl_stmt body c0
    | NStmt (FunctionDef _ _ _ args body decorator_list returns) =>
        cl_opt cl_expr returns
          (cl_list cl_expr decorator_list
             (cl_list cl_stmt body (cl_arguments args c0)))
    | NStmt (ClassDef _ _ bases keywords body decorator_list) =>
        cl_list cl_expr decorator_list
          (cl_list cl_stmt body
             (cl_list cl_keyword keywords (cl_list cl_expr bases c0)))
    | NExpr (Lambda _ args body) => cl_expr body (cl_arguments args c0)
    | NExpr (Comp _ _ elt generators) =>
        cl_list cl_comprehension generators (cl_expr elt c0)
    | NExpr (DictComp _ key value generators) =>
        cl_list cl_comprehension generators (cl_expr value (cl_expr key c0))
    | NStmt (Global _ _ | Nonlocal _ _ | Import _ _ | ImportFrom _ _) => c0
    | NStmt s => cl_stmt s c0
    | NExpr (Name _ _ _ annotation) => cl_opt cl_expr annotation c0
    | NExpr e => cl_expr e c0
    | NComprehension g => cl_comprehension g c0
    | NArguments a => cl_arguments a c0
    | NKeyword k => cl_keyword k c0
    | NWithitem w => cl_withitem w c0
    | NExceptHandler h => cl_handler h c0
    | NAlias _ => c0
    end.

(** ** Def records and the analyzer state *)

(** What the [node] field of a [Def] holds: an AST node, the string of
    [Def("__class__")], a pair, or a value of the builtins module (of which
    only the name of its type is observable, through [name()]). *)
Inductive pyobj :=
| ONode (n : AST)
| OStr (s : string)
| OTuple (a b : string)
| OValue (tyname : string).

(** [Def]: [_users] is an ordered set of [Def]s, held by address. *)
Record Def := mkDef {
  node : pyobj;
  _users : list nat;
}.

(** An entry of the queue of deferred function bodies:
    [(fnode, defs, scopes, scope_depths, precomputed_locals)]. *)
Definition deferred : Type :=
  AST * list nat * list AST * list Z * list (list string).

(** The [DefUseChains] instance.  [heap_defs], [heap_sets] and [heap_dicts]
    are the stores of the [Def], [ordered_set] and [defaultdict(ordered_set)]
    objects; an address is an index.  [stdout] collects what
    [unbound_identifier] prints: the identifier and the offending node. *)
Record DefUseChains := mkDefUseChains {
  heap_defs : list Def;
  heap_sets : list (list nat);
  heap_dicts : list (list (string * nat));
  chains : list (nat * nat);
  locals : list (nat * list nat);
  _builtins : list (string * nat);
  _defered : list deferred;
  _definitions : list nat;
  _scope_depths : list Z;
  _globals : list (list string);
  _precomputed_locals : list (list string);
  _undefs : list (list (string * list (nat * list nat)));
  _scopes : list AST;
  _breaks : list nat;
  _continues : list nat;
  _deadcode : Z;
  module : option AST;
  stdout : list (string * pyobj);
}.

Definition upd_heap_defs (f : list Def -> list Def) (s : DefUseChains) : DefUseChains :=
  mkDefUseChains
    (f (heap_defs s)) (heap_sets s) (heap_dicts s) (chains s) (locals s)
    (_builtins s) (_defered s) (_definitions s) (_scope_depths s)
    (_globals s) (_precomputed_locals s) (_undefs s) (_scopes s) (_breaks s)
    (_continues s) (_deadcode s) (module s) (stdout s).

Definition upd_heap_sets (f : list (list nat) -> list (list nat)) (s : DefUseChains) : DefUseChains :=
  mkDefUseChains
    (heap_defs s) (f (heap_sets s)) (heap_dicts s) (chains s) (locals s)
    (_builtins s) (_defered s) (_definitions s) (_scope_depths s)
    (_globals s) (_precomputed_locals s) (_undefs s) (_scopes s) (_breaks s)
    (_continues s) (_deadcode s) (module s) (stdout s).

Definition upd_heap_dicts (f : list (list (string * nat)) -> list (list (string * nat))) (s : DefUseChains) : DefUseChains :=
  mkDefUseChains
    (heap_defs s) (heap_sets s) (f (heap_dicts s)) (chains s) (locals s)
    (_builtins s) (_defered s) (_definitions s) (_scope_depths s)
    (_globals s) (_precomputed_locals s) (_undefs s) (_scopes s) (_breaks s)
    (_continues s) (_deadcode s) (module s) (stdout s).

Definition upd_chains (f : list (nat * nat) -> list (nat * nat)) (s : DefUseChains) : DefUseChains :=
  mkDefUseChains
    (heap_defs s) (heap_sets s) (heap_dicts s) (f (chains s)) (locals s)
    (_builtins s) (_defered s) (_definitions s) (_scope_depths s)
    (_globals s) (_precomputed_locals s) (_undefs s) (_scopes s) (_breaks s)
    (_continues s) (_deadcode s) (module s) (stdout s).

Definition upd_locals (f : list (nat * list nat) -> list (nat * list nat)) (s : DefUseChains) : DefUseChains :=
  mkDefUseChains
    (heap_defs s) (heap_sets s) (heap_dicts s) (chains s) (f (locals s))
    (_builtins s) (_defered s) (_definitions s) (_scope_depths s)
    (_globals s) (_precomputed_locals s) (_undefs s) (_scopes s) (_breaks s)
    (_continues s) (_deadcode s) (module s) (stdout s).

Definition upd_builtins (f : list (string * nat) -> list (string * nat)) (s : DefUseChains) : DefUseChains :=
  mkDefUseChains
    (heap_defs s) (heap_sets s) (heap_dicts s) (chains s) (locals s)
    (f (_builtins s)) (_defered s) (_definitions s) (_scope_depths s)
    (_globals s) (_precomputed_locals s) (_undefs s) (_scopes s) (_breaks s)
    (_continues s) (_deadcode s) (module s) (stdout s).

Definition upd_defered (f : list deferred -> list deferred) (s : DefUseChains) : DefUseChains :=
  mkDefUseChains
    (heap_defs s) (heap_sets s) (heap_dicts s) (chains s) (locals s)
    (_builtins s) (f (_defered s)) (_definitions s) (_scope_depths s)
    (_globals s) (_precomputed_locals s) (_undefs s) (_scopes s) (_breaks s)
    (_continues s) (_deadcode s) (module s) (stdout s).

Definition upd_definitions (f : list nat -> list nat) (s : DefUseChains) : DefUseChains :=
  mkDefUseChains
    (heap_defs s) (heap_sets s) (heap_dicts s) (chains s) (locals s)
    (_builtins s) (_defered s) (f (_definitions s)) (_scope_depths s)
    (_globals s) (_precomputed_locals s) (_undefs s) (_scopes s) (_breaks s)
    (_continues s) (_deadcode s) (module s) (stdout s).

Definition upd_scope_depths (f : list Z -> list Z) (s : DefUseChains) : DefUseChains :=
  mkDefUseChains
    (heap_defs s) (heap_sets s) (heap_dicts s) (chains s) (locals s)
    (_builtins s) (_defered s) (_definitions s) (f (_scope_depths s))
    (_globals s) (_precomputed_locals s) (_undefs s) (_scopes s) (_breaks s)
    (_continues s) (_deadcode s) (module s) (stdout s).

Definition upd_globals (f : list (list string) -> list (list string)) (s : DefUseChains) : DefUseChains :=
  mkDefUseChains
    (heap_defs s) (heap_sets s) (heap_dicts s) (chains s) (locals s)
    (_builtins s) (_defered s) (_definitions s) (_scope_depths s)
    (f (_globals s)) (_precomputed_locals s) (_undefs s) (_scopes s)
    (_breaks s) (_continues s) (_deadcode s) (module s) (stdout s).

Definition upd_precomputed_locals (f : list (list string) -> list (list string)) (s : DefUseChains) : DefUseChains :=
  mkDefUseChains
    (heap_defs s) (heap_sets s) (heap_dicts s) (chains s) (locals s)
    (_builtins s) (_defered s) (_definitions s) (_scope_depths s)
    (_globals s) (f (_precomputed_locals s)) (_undefs s) (_scopes s)
    (_breaks s) (_continues s) (_deadcode s) (module s) (stdout s).

Definition upd_undefs (f : list (list (string * list (nat * list nat))) -> list (list (string * list (nat * list nat)))) (s : DefUseChains) : DefUseChains :=
  mkDefUseChains
    (heap_defs s) (heap_sets s) (heap_dicts s) (chains s) (locals s)
    (_builtins s) (_defered s) (_definitions s) (_scope_depths s)
    (_globals s) (_precomputed_locals s) (f (_undefs s)) (_scopes s)
    (_breaks s) (_continues s) (_deadcode s) (module s) (stdout s).

Definition upd_scopes (f : list AST -> list AST) (s : DefUseChains) : DefUseChains :=
  mkDefUseChains
    (heap_defs s) (heap_sets s) (heap_dicts s) (chains s) (locals s)
    (_builtins s) (_defered s) (_definitions s) (_scope_depths s)
    (_globals s) (_precomputed_locals s) (_undefs s) (f (_scopes s))
    (_breaks s) (_continues s) (_deadcode s) (module s) (stdout s).

Definition upd_breaks (f : list nat -> list nat) (s : DefUseChains) : DefUseChains :=
  mkDefUseChains
    (heap_defs s) (heap_sets s) (heap_dicts s) (chains s) (locals s)
    (_builtins s) (_defered s) (_definitions s) (_scope_depths s)
    (_globals s) (_precomputed_locals s) (_undefs s) (_scopes s)
    (f (_breaks s)) (_continues s) (_deadcode s) (module s) (stdout s).

Definition upd_continues (f : list nat -> list nat) (s : DefUseChains) : DefUseChains :=
  mkDefUseChains
    (heap_defs s) (heap_sets s) (heap_dicts s) (chains s) (locals s)
    (_builtins s) (_defered s) (_definitions s) (_scope_depths s)
    (_globals s) (_precomputed_locals s) (_undefs s) (_scopes s) (_breaks s)
    (f (_continues s)) (_deadcode s) (module s) (stdout s).

Definition upd_deadcode (f : Z -> Z) (s : DefUseChains) : DefUseChains :=
  mkDefUseChains
    (heap_defs s) (heap_sets s) (heap_dicts s) (chains s) (locals s)
    (_builtins s) (_defered s) (_definitions s) (_scope_depths s)
    (_globals s) (_precomputed_locals s) (_undefs s) (_scopes s) (_breaks s)
    (_continues s) (f (_deadcode s)) (module s) (stdout s).

Definition upd_module (f : option AST -> option AST) (s : DefUseChains) : DefUseChains :=
  mkDefUseChains
    (heap_defs s) (heap_sets s) (heap_dicts s) (chains s) (locals s)
    (_builtins s) (_defered s) (_definitions s) (_scope_depths s)
    (_globals s) (_precomputed_locals s) (_undefs s) (_scopes s) (_breaks s)
    (_continues s) (_deadcode s) (f (module s)) (stdout s).

Definition upd_stdout (f : list (string * pyobj) -> list (string * pyobj)) (s : DefUseChains) : DefUseChains :=
  mkDefUseChains
    (heap_defs s) (heap_sets s) (heap_dicts s) (chains s) (locals s)
    (_builtins s) (_defered s) (_definitions s) (_scope_depths s)
    (_globals s) (_precomputed_locals s) (_undefs s) (_scopes s) (_breaks s)
    (_continues s) (_deadcode s) (module s) (f (stdout s)).

(** ** The analyzer monad

    A method of the analyzer transforms the instance and returns a value,
    raises a Python exception, or runs out of the fuel that bounds the
    recursion of [visit]. *)

Inductive exn :=
| AttributeError | IndexError | KeyError | TypeError | StopIteration
| AssertionError | NotImplementedError.

Inductive outcome (A : Type) :=
| Ok (a : A) (s : DefUseChains)
| Raised (e : exn)
| OutOfFuel.
Arguments Ok {A} a s.
Arguments Raised {A} e.
Arguments OutOfFuel {A}.

Definition M (A : Type) : Type := DefUseChains -> outcome A.

Definition ret {A} (a : A) : M A := fun s => Ok a s.

Definition bind {A B} (m : M A) (k : A -> M B) : M B :=
  fun s => match m s with
           | Ok a s' => k a s'
           | Raised e => Raised e
           | OutOfFuel => OutOfFuel
           end.

Definition raise {A} (e : exn) : M A := fun _ => Raised e.
Definition out_of_fuel {A} : M A := fun _ => OutOfFuel.
Definition get : M DefUseChains := fun s => Ok s s.
Definition modify (f : DefUseChains -> DefUseChains) : M unit := fun s => Ok tt (f s).

Declare Scope py_scope.
Delimit Scope py_scope with py.
Notation "x <- m ;; k" := (bind m (fun x => k))
  (at level 100, m at next level, right associativity) : py_scope.
Notation "m ;; k" := (bind m (fun _ => k))
  (at level 100, right associativity) : py_scope.
Open Scope py_scope.

(** [for x in l: f(x)] *)
Fixpoint forM_ {A} (l : list A) (f : A -> M unit) : M unit :=
  match l with
  | [] => ret tt
  | x :: r => f x ;; forM_ r f
  end.

(** [if c: m] *)
Definition when (c : bool) (m : M unit) : M unit := if c then m else ret tt.

(** [assert c] *)
Definition assert (c : bool) : M unit := if c then ret tt else raise AssertionError.

(** A value that exists or else the given exception. *)
Definition expect {A} (o : option A) (e : exn) : M A :=
  match o with Some a => ret a | None => raise e end.

(** ** Objects in the stores *)

Definition def_at (s : DefUseChains) (d : nat) : option Def := heap_defs s !! d.

(** [d.users()] *)
Definition users (s : DefUseChains) (d : nat) : list nat :=
  match def_at s d with Some D => _users D | None => [] end.

(** [d.node]; an address always refers to an allocated object, the default
    is there for totality only. *)
Definition node_of (s : DefUseChains) (d : nat) : pyobj :=
  match def_at s d with Some D => node D | None => OStr EmptyString end.

(** The elements of an [ordered_set], in insertion order *)
Definition set_elems (s : DefUseChains) (sid : nat) : list nat :=
  default [] (heap_sets s !! sid).

(** The items of a dictionary of [ordered_set]s *)
Definition dict_items (s : DefUseChains) (lid : nat) : list (string * nat) :=
  default [] (heap_dicts s !! lid).

(** [name in defs] *)
Definition dict_mem (s : DefUseChains) (lid : nat) (name : string) : bool :=
  od_mem name (dict_items s lid).

(** Insertion into an ordered set: a present element keeps its place. *)
Definition oset_add (x : nat) (l : list nat) : list nat :=
  if bool_decide (x ∈ l) then l else l ++ [x].

(** [ordered_set.update], also [OrderedDict.fromkeys] from the empty set *)
Definition oset_update (l : list nat) (xs : list nat) : list nat :=
  fold_left (fun acc x => oset_add x acc) xs l.

(** [Def(node)] *)
Definition new_Def (o : pyobj) : M nat :=
  fun s => Ok (length (heap_defs s)) (upd_heap_defs (fun h => h ++ [mkDef o []]) s).

(** [d.add_user(u)] *)
Definition add_user (d u : nat) : M unit :=
  modify (upd_heap_defs (alter (fun D => mkDef (node D) (oset_add u (_users D))) d)).

(** [r.add_user(u)] where [r] is what a visit returned: [None] has no
    such attribute. *)
Definition add_user_to (r : option nat) (u : nat) : M unit :=
  match r with
  | Some d => add_user d u
  | None => raise AttributeError
  end.

(** [ordered_set(elements)] *)
Definition new_set (elements : list nat) : M nat :=
  fun s => Ok (length (heap_sets s))
              (upd_heap_sets (fun h => h ++ [oset_update [] elements]) s).

(** [defaultdict(ordered_set)] with the given items ([dict.copy()] when they
    are those of another dictionary: the sets are shared). *)
Definition new_dict (items : list (string * nat)) : M nat :=
  fun s => Ok (length (heap_dicts s)) (upd_heap_dicts (fun h => h ++ [items]) s).

(** [d[name] = the set at sid] *)
Definition dict_set (lid : nat) (name : string) (sid : nat) : M unit :=
  modify (upd_heap_dicts (alter (od_set name sid) lid)).

(** [d.clear()] *)
Definition dict_clear (lid : nat) : M unit :=
  modify (upd_heap_dicts (alter (fun _ => []) lid)).

(** [d[name]] on a [defaultdict(ordered_set)]: a missing key is created
    with a fresh empty set. *)
Definition dict_getitem (lid : nat) (name : string) : M nat :=
  s <- get ;;
  match od_get name (dict_items s lid) with
  | Some sid => ret sid
  | None => sid <- new_set [] ;; dict_set lid name sid ;; ret sid
  end.

(** The argument [dnode_or_dnodes] of the definition setters: one [Def],
    an [ordered_set] object, or a sequence of [Def]s. *)
Inductive dnodes :=
| OneDef (d : nat)
| SetRef (sid : nat)
| DefList (l : list nat).

Definition dnodes_elems (s : DefUseChains) (a : dnodes) : list nat :=
  match a with
  | OneDef d => [d]
  | SetRef sid => set_elems s sid
  | DefList l => l
  end.

(** [self.chains.setdefault(node, Def(node))]: the [Def] is built before
    the table is consulted. *)
Definition chains_setdefault (n : AST) : M nat :=
  d <- new_Def (ONode n) ;;
  s <- get ;;
  match od_get (node_id n) (chains s) with
  | Some d' => ret d'
  | None => modify (upd_chains (od_set (node_id n) d)) ;; ret d
  end.

(** [self.locals[scope]] on a [defaultdict(list)]: the key is created. *)
Definition locals_getitem (scope : AST) : M (list nat) :=
  s <- get ;;
  match od_get (node_id scope) (locals s) with
  | Some l => ret l
  | None => modify (upd_locals (od_set (node_id scope) [])) ;; ret []
  end.

(** [self.locals[scope].append(d)] *)
Definition locals_append (scope : AST) (d : nat) : M unit :=
  l <- locals_getitem scope ;;
  modify (upd_locals (od_set (node_id scope) (l ++ [d]))).

(** [self._scopes[-1]] and the like *)
Definition top {A} (f : DefUseChains -> list A) : M A :=
  s <- get ;; expect (Py.last (f s)) IndexError.

(** [stack.pop()], the popped element returned *)
Definition pop_from {A} (f : DefUseChains -> list A)
    (upd : (list A -> list A) -> DefUseChains -> DefUseChains) : M A :=
  x <- top f ;;
  modify (upd Py.pop) ;;
  ret x.

(** [Def.name()] *)
Definition Def_name (D : Def) : string :=
  match node D with
  | ONode (NStmt (ClassDef _ name _ _ _ _)) => name
  | ONode (NStmt (FunctionDef _ _ name _ _ _ _)) => name
  | ONode (NExpr (Name _ id _ _)) => id
  | ONode (NAlias (Alias _ name asname)) => Py.str_or asname (Py.split_dot_head name)
  | OTuple _ b => b
  | ONode n => type_name n
  | OStr _ => "str"
  | OValue tyname => tyname
  end.

Definition name_of (s : DefUseChains) (d : nat) : string :=
  match def_at s d with Some D => Def_name D | None => EmptyString end.

(** ** DefUseChains: helpers *)

(** [DefUseChains.__init__]: [Builtins] lists the entries of the builtins
    module, each with the name of the type of its value. *)
Definition DefUseChains_init (Builtins : list (string * string)) : DefUseChains :=
  mkDefUseChains
    (List.map (fun kv => mkDef (OValue (snd kv)) []) Builtins)
    [] [] [] []
    (List.map (fun ikv => (fst (snd ikv), fst ikv))
       (List.combine (seq 0 (length Builtins)) Builtins))
    [] [] [] [] [] [] [] [] [] 0%Z None [].

(** [unbound_identifier]: the default hook prints a warning. *)
Definition unbound_identifier (name : string) (n : pyobj) : M unit :=
  modify (upd_stdout (fun out => out ++ [(name, n)])).

(** [invalid_name_lookup]: a name of the precomputed locals that no layer
    of the scope binds yet ([None] of the source is falsy, hence [false]) *)
Definition invalid_name_lookup (name : string) (scope : AST)
    (precomputed_locals : list string) (local_defs : list nat) : M bool :=
  if negb (name_in name precomputed_locals) then ret false
  else
    s <- get ;;
    let islocal :=
      existsb (fun defs => dict_mem s defs name || dict_mem s defs "*") local_defs in
    if is_ClassDef scope then
      d0 <- expect (head (_scope_depths s)) IndexError ;;
      let top_level_definitions :=
        Py.slice (_definitions s) (Some 0%Z) (Some (- d0)%Z) in
      let isglobal :=
        existsb (fun top_lvl_def =>
                   dict_mem s top_lvl_def name || dict_mem s top_lvl_def "*")
          top_level_definitions in
      ret (negb islocal && negb isglobal)
    else ret (negb islocal).

(** The loop of [defs] over the enclosing scopes: [frames] is what is left
    of the three zipped iterators, [looked_up_definitions] the list built
    so far. *)
Fixpoint defs_scopes (name : string) (base_scope : AST)
    (frames : list (AST * Z * list string)) (lvl : Z)
    (looked_up_definitions : list nat) : M (list nat) :=
  match frames with
  | [] => ret looked_up_definitions
  | (scope, depth, precomputed_locals) :: frames' =>
      if negb (is_ClassDef scope) then
        s <- get ;;
        let defs := Py.slice (_definitions s) (Some (lvl + depth)%Z) (Some lvl) in
        invalid <- invalid_name_lookup name base_scope precomputed_locals defs ;;
        if invalid then ret []
        else defs_scopes name base_scope frames' (lvl + depth)%Z
               (looked_up_definitions ++ rev defs)
      else defs_scopes name base_scope frames' (lvl + depth)%Z looked_up_definitions
  end.

Fixpoint zip3 {A B C} (a : list A) (b : list B) (c : list C) : list (A * B * C) :=
  match a, b, c with
  | x :: a', y :: b', z :: c' => (x, y, z) :: zip3 a' b' c'
  | _, _, _ => []
  end.

(** The layers that [defs] searches, in search order. *)
Definition looked_up (name : string) : M (list nat) :=
  s <- get ;;
  if existsb (name_in name) (_globals s) then
    d0 <- expect (head (_scope_depths s)) IndexError ;;
    ret (Py.slice (_definitions s) (Some 0%Z) (Some (- d0)%Z))
  else
    match rev (_scope_depths s), rev (_precomputed_locals s), rev (_scopes s) with
    | depth :: depths, precomputed_locals :: plocals, base_scope :: scopes =>
        let defs := Py.slice (_definitions s) (Some depth) None in
        invalid <- invalid_name_lookup name base_scope precomputed_locals defs ;;
        if negb invalid then
          defs_scopes name base_scope (zip3 scopes depths plocals) depth (rev defs)
        else ret []
    | _, _, _ => raise StopIteration
    end.

(** The search itself: the definitions of the first layer that binds
    [name], after the wildcards of the layers passed on the way ([inl]), or
    the wildcards alone when no layer binds it ([inr]). *)
Fixpoint lookup (s : DefUseChains) (name : string)
    (looked_up_definitions : list nat) (stars : list nat) : list nat + list nat :=
  match looked_up_definitions with
  | [] => inr stars
  | defs :: rest =>
      match od_get name (dict_items s defs) with
      | Some sid =>
          inl (match stars with
               | [] => set_elems s sid
               | _ => stars ++ set_elems s sid
               end)
      | None =>
          match od_get "*" (dict_items s defs) with
          | Some star => lookup s name rest (stars ++ set_elems s star)
          | None => lookup s name rest stars
          end
      end
  end.

(** [defs(node, quiet)] for the [Name] node with the given identifier *)
Definition defs (n : AST) (name : string) (quiet : bool) : M (list nat) :=
  looked_up_definitions <- looked_up name ;;
  s <- get ;;
  match lookup s name looked_up_definitions [] with
  | inl found => ret found
  | inr stars =>
      d <- chains_setdefault n ;;
      s <- get ;;
      match Py.last (_undefs s) with
      | Some u =>
          let pending := default [] (od_get name u) in
          modify (upd_undefs (Py.set_last (od_set name (pending ++ [(d, stars)]) u)))
      | None => ret tt
      end ;;
      match stars with
      | [] =>
          when (bool_decide (_undefs s = []) && negb quiet)
            (unbound_identifier name (ONode n)) ;;
          ret [d]
      | _ => ret (stars ++ [d])
      end
  end.

(** [isinstance(stmt, (ast.Break, ast.Continue, ast.Raise))] *)
Definition is_jump (n : stmt) : bool :=
  match n with Break _ | Continue _ | Raise _ _ _ => true | _ => false end.

(** The recursive methods of the visitor, as the calls that [self] takes. *)
Inductive call :=
| Visit (n : AST)
| VisitDestructured (e : expr).

Definition Self : Type := call -> M (option nat).

Fixpoint process_body_loop (self : Self) (stmts : list stmt) (deadcode : bool) : M bool :=
  match stmts with
  | [] => ret deadcode
  | stmt :: rest =>
      deadcode' <-
        (if is_jump stmt && negb deadcode then
           modify (upd_deadcode (fun n => n + 1)%Z) ;; ret true
         else ret deadcode) ;;
      self (Visit (NStmt stmt)) ;;
      process_body_loop self rest deadcode'
  end.

Definition process_body (self : Self) (stmts : list stmt) : M unit :=
  deadcode <- process_body_loop self stmts false ;;
  when deadcode (modify (upd_deadcode (fun n => n - 1)%Z)).

Definition process_undefs : M unit :=
  undefs <- top _undefs ;;
  forM_ undefs (fun item =>
    let '(undef_name, _undefs) := item in
    s <- get ;;
    current <- expect (Py.last (_definitions s)) IndexError ;;
    match od_get undef_name (dict_items s current) with
    | Some sid =>
        forM_ (set_elems s sid) (fun newdef =>
          forM_ _undefs (fun undef =>
            s <- get ;;
            forM_ (users s (fst undef)) (fun user => add_user newdef user)))
    | None =>
        forM_ _undefs (fun undef =>
          s <- get ;;
          match snd undef with
          | [] => unbound_identifier undef_name (node_of s (fst undef))
          | _ => ret tt
          end)
    end) ;;
  pop_from _undefs upd_undefs ;;
  ret tt.

(** ** Context managers *)

Definition ScopeContext {A} (n : AST) (body : M A) : M A :=
  modify (upd_scopes (fun l => l ++ [n])) ;;
  modify (upd_scope_depths (fun l => l ++ [(-1)%Z])) ;;
  layer <- new_dict [] ;;
  modify (upd_definitions (fun l => l ++ [layer])) ;;
  modify (upd_globals (fun l => l ++ [[]])) ;;
  modify (upd_precomputed_locals (fun l => l ++ [collect_locals n])) ;;
  r <- body ;;
  pop_from _precomputed_locals upd_precomputed_locals ;;
  pop_from _globals upd_globals ;;
  pop_from _definitions upd_definitions ;;
  pop_from _scope_depths upd_scope_depths ;;
  pop_from _scopes upd_scopes ;;
  ret r.

(** Python 3: [CompScopeContext = ScopeContext] *)
Definition CompScopeContext {A} := @ScopeContext A.

(** [self._scope_depths[-1] += k] *)
Definition shift_scope_depth (k : Z) : M unit :=
  depth <- top _scope_depths ;;
  modify (upd_scope_depths (Py.set_last (depth + k)%Z)).

(** [with self.DefinitionContext(definitions) as defs: body]; the value
    bound by [as] is the dictionary that was passed. *)
Definition DefinitionContext {A} (definitions : nat) (body : M A) : M A :=
  modify (upd_definitions (fun l => l ++ [definitions])) ;;
  shift_scope_depth (-1) ;;
  r <- body ;;
  shift_scope_depth 1 ;;
  pop_from _definitions upd_definitions ;;
  ret r.

Definition SwitchScopeContext {A} (defs : list nat) (scopes : list AST)
    (scope_depths : list Z) (precomputed_locals : list (list string))
    (body : M A) : M A :=
  saved <- get ;;
  modify (upd_scope_depths (fun _ => scope_depths)) ;;
  modify (upd_scopes (fun _ => scopes)) ;;
  modify (upd_definitions (fun _ => defs)) ;;
  modify (upd_precomputed_locals (fun _ => precomputed_locals)) ;;
  r <- body ;;
  modify (upd_definitions (fun _ => _definitions saved)) ;;
  modify (upd_scopes (fun _ => _scopes saved)) ;;
  modify (upd_scope_depths (fun _ => _scope_depths saved)) ;;
  modify (upd_precomputed_locals (fun _ => _precomputed_locals saved)) ;;
  ret r.

(** [self._definitions[-1].copy()] *)
Definition copy_top_definitions : M nat :=
  current <- top _definitions ;;
  s <- get ;;
  new_dict (dict_items s current).

(** ** Writing definitions *)

Definition set_definition (name : string) (dnode_or_dnodes : dnodes) : M unit :=
  s <- get ;;
  if bool_decide (_deadcode s <> 0%Z) then ret tt
  else
    current <- top _definitions ;;
    sid <- new_set (dnodes_elems s dnode_or_dnodes) ;;
    dict_set current name sid.

Definition add_to_definition (definition : nat) (name : string)
    (dnode_or_dnodes : dnodes) : M unit :=
  sid <- dict_getitem definition name ;;
  s <- get ;;
  modify (upd_heap_sets
            (alter (fun l => oset_update l (dnodes_elems s dnode_or_dnodes)) sid)).

Definition extend_definition (name : string) (dnode_or_dnodes : dnodes) : M unit :=
  s <- get ;;
  if bool_decide (_deadcode s <> 0%Z) then ret tt
  else
    current <- top _definitions ;;
    add_to_definition current name dnode_or_dnodes.

Definition extend_global (name : string) (dnode_or_dnodes : dnodes) : M unit :=
  s <- get ;;
  if bool_decide (_deadcode s <> 0%Z) then ret tt
  else
    base <- expect (head (_definitions s)) IndexError ;;
    add_to_definition base name dnode_or_dnodes.

Definition set_or_extend_global (name : string) (dnode : nat) : M unit :=
  s <- get ;;
  if bool_decide (_deadcode s <> 0%Z) then ret tt
  else
    base <- expect (head (_definitions s)) IndexError ;;
    (if dict_mem s base name then ret tt
     else
       m <- expect (module s) AttributeError ;;
       locals_append m dnode) ;;
    base <- expect (head (_definitions s)) IndexError ;;
    add_to_definition base name (OneDef dnode).

(** ** The visitor

    Each method takes [self], through which it calls [self.visit] and
    [self.visit_Destructured] on its children. *)

Inductive step := DeclarationStep | DefinitionStep.

Section Visitor.
Variable self : Self.

Definition visit (n : AST) : M (option nat) := self (Visit n).
Definition visit_e (e : expr) : M (option nat) := visit (NExpr e).

(** [self.visit(e)] for its effect only *)
Definition visit_ (e : expr) : M unit := visit_e e ;; ret tt.

Definition visit_opt (o : option expr) : M unit :=
  match o with Some e => visit_ e | None => ret tt end.

(** [d.add_user(u)] on what two visits returned: [None] has no
    [add_user], and [add_user] asserts that its argument is a [Def]. *)
Definition link (d u : option nat) : M unit :=
  match d, u with
  | None, _ => raise AttributeError
  | Some _, None => raise AssertionError
  | Some d, Some u => add_user d u
  end.

(** [self.visit(e).add_user(dnode)] *)
Definition visit_link (dnode : nat) (e : expr) : M unit :=
  r <- visit_e e ;; add_user_to r dnode.

Definition visit_link_opt (dnode : nat) (o : option expr) : M unit :=
  match o with Some e => visit_link dnode e | None => ret tt end.

(** [filter(None, l)] *)
Definition filter_None {A} (l : list (option A)) : list A := omap id l.

(** [for d, u in defs.items(): self.extend_definition(d, u)] *)
Definition extend_all (defs : nat) : M unit :=
  s <- get ;;
  forM_ (dict_items s defs) (fun du => extend_definition (fst du) (SetRef (snd du))).

Definition annotation_of (e : expr) : option expr :=
  match e with Name _ _ _ annotation => annotation | _ => None end.

Definition visit_annotation (e : expr) : M unit := visit_opt (annotation_of e).

(** [visit_Name(node, skip_annotation)]; [ctx] is [node.ctx] at the time
    of the call, which the source changes around some calls. *)
Definition visit_Name (n : expr) (id : string) (ctx : expr_context)
    (annotation : option expr) (skip_annotation : bool) : M nat :=
  match ctx with
  | Param | Store =>
      dnode <- chains_setdefault (NExpr n) ;;
      s <- get ;;
      (if existsb (name_in id) (_globals s) then set_or_extend_global id dnode
       else
         set_definition id (OneDef dnode) ;;
         scope <- top _scopes ;;
         l <- locals_getitem scope ;;
         when (negb (bool_decide (dnode ∈ l)))
           (scope <- top _scopes ;; locals_append scope dnode)) ;;
      (match annotation with
       | Some a => if skip_annotation then ret tt else visit_ a
       | None => ret tt
       end) ;;
      ret dnode
  | Load | Del =>
      s <- get ;;
      let node_in_chains := od_get (expr_id n) (chains s) in
      dnode <- match node_in_chains with
               | Some d => ret d
               | None => new_Def (ONode (NExpr n))
               end ;;
      ds <- defs (NExpr n) id false ;;
      forM_ ds (fun d => add_user d dnode) ;;
      (match node_in_chains with
       | Some _ => ret tt
       | None => modify (upd_chains (od_set (expr_id n) dnode))
       end) ;;
      (* currently ignore the effect of a del *)
      ret dnode
  | AugLoad | AugStore => raise NotImplementedError
  end.

Definition visit_skip_annotation (e : expr) : M unit :=
  match e with
  | Name _ id ctx annotation => visit_Name e id ctx annotation true ;; ret tt
  | _ => visit_ e
  end.

Definition defer (n : AST) : M unit :=
  s <- get ;;
  modify (upd_defered (fun q =>
    q ++ [(n, _definitions s, _scopes s, _scope_depths s, _precomputed_locals s)])).

Definition visit_FunctionDef (n : stmt) (name : string) (args : arguments)
    (body : list stmt) (decorator_list : list expr) (returns : option expr)
    (st : step) : M (option nat) :=
  match args with
  | Arguments _ a_args a_posonlyargs a_vararg a_kwonlyargs a_kw_defaults
      a_kwarg a_defaults =>
      match st with
      | DeclarationStep =>
          dnode <- chains_setdefault (NStmt n) ;;
          scope <- top _scopes ;;
          locals_append scope dnode ;;
          forM_ a_args visit_annotation ;;
          forM_ a_posonlyargs visit_annotation ;;
          match a_vararg with Some v => visit_annotation v | None => ret tt end ;;
          forM_ a_kwonlyargs visit_annotation ;;
          match a_kwarg with Some v => visit_annotation v | None => ret tt end ;;
          forM_ (filter_None a_kw_defaults) (visit_link dnode) ;;
          forM_ a_defaults (visit_link dnode) ;;
          forM_ decorator_list visit_ ;;
          visit_opt returns ;;
          set_definition name (OneDef dnode) ;;
          defer (NStmt n) ;;
          ret None
      | DefinitionStep =>
          ScopeContext (NStmt n)
            (forM_ a_args visit_skip_annotation ;;
             forM_ a_posonlyargs visit_skip_annotation ;;
             match a_vararg with Some v => visit_skip_annotation v | None => ret tt end ;;
             forM_ a_kwonlyargs visit_skip_annotation ;;
             match a_kwarg with Some v => visit_skip_annotation v | None => ret tt end ;;
             process_body self body) ;;
          ret None
      end
  end.

Definition visit_ClassDef (n : stmt) (name : string) (bases : list expr)
    (keywords : list keyword) (body : list stmt) (decorator_list : list expr)
    : M (option nat) :=
  dnode <- chains_setdefault (NStmt n) ;;
  scope <- top _scopes ;;
  locals_append scope dnode ;;
  forM_ bases (visit_link dnode) ;;
  forM_ keywords (fun kw => match kw with Keyword _ _ v => visit_link dnode v end) ;;
  forM_ decorator_list (visit_link dnode) ;;
  ScopeContext (NStmt n)
    (d <- new_Def (OStr "__class__") ;;
     set_definition "__class__" (OneDef d) ;;
     process_body self body) ;;
  set_definition name (OneDef dnode) ;;
  ret None.

Definition visit_Return (value : option expr) : M (option nat) :=
  visit_opt value ;; ret None.

(** [visit_Break] and [visit_Continue]: the current layer is poured into
    the carrier on top of the given stack, then cleared. *)
Definition drain_into (carriers : DefUseChains -> list nat) : M (option nat) :=
  current <- top _definitions ;;
  s <- get ;;
  forM_ (dict_items s current) (fun kv =>
    carrier <- top carriers ;;
    add_to_definition carrier (fst kv) (SetRef (snd kv))) ;;
  current <- top _definitions ;;
  dict_clear current ;;
  ret None.

Definition visit_Break : M (option nat) := drain_into _breaks.
Definition visit_Continue : M (option nat) := drain_into _continues.

Definition visit_Delete (targets : list expr) : M (option nat) :=
  forM_ targets visit_ ;; ret None.

Definition visit_Assign (targets : list expr) (value : expr) : M (option nat) :=
  (* link is implicit through ctx *)
  visit_ value ;;
  forM_ targets visit_ ;;
  ret None.

Definition visit_AnnAssign (target annotation : expr) (value : option expr)
    : M (option nat) :=
  dvalue <- match value with Some v => visit_e v | None => ret None end ;;
  dannotation <- visit_e annotation ;;
  dtarget <- visit_e target ;;
  link dtarget dannotation ;;
  match value with Some _ => link dvalue dtarget | None => ret tt end ;;
  ret None.

Definition visit_AugAssign (target value : expr) : M (option nat) :=
  dvalue <- visit_e value ;;
  match target with
  | Name _ id _ annotation =>
      dtarget <- visit_Name target id Load annotation false ;;
      add_user_to dvalue dtarget ;;
      s <- get ;;
      if existsb (name_in id) (_globals s) then
        extend_global id (OneDef dtarget) ;;
        ret None
      else
        ds <- defs (NExpr target) id true ;;
        s <- get ;;
        let loaded_from := List.map (name_of s) ds in
        set_definition id (OneDef dtarget) ;;
        (* If we augassign from a value that comes from '*', let's use
           this node as the definition point. *)
        when (name_in "*" loaded_from)
          (scope <- top _scopes ;; locals_append scope dtarget) ;;
        ret None
  | _ =>
      dtarget <- visit_e target ;;
      link dtarget dvalue ;;
      ret None
  end.

Definition visit_Print (dest : option expr) (values : list expr) : M (option nat) :=
  visit_opt dest ;;
  forM_ values visit_ ;;
  ret None.

Definition push_carrier
    (upd : (list nat -> list nat) -> DefUseChains -> DefUseChains) : M unit :=
  c <- new_dict [] ;;
  modify (upd (fun l => l ++ [c])).

Definition visit_For (target iter : expr) (body orelse : list stmt)
    : M (option nat) :=
  visit_ iter ;;
  push_carrier upd_breaks ;;
  push_carrier upd_continues ;;
  modify (upd_undefs (fun l => l ++ [[]])) ;;
  body_defs <- copy_top_definitions ;;
  r <- DefinitionContext body_defs
    (visit_ target ;;
     process_body self body ;;
     process_undefs ;;
     continue_defs <- pop_from _continues upd_continues ;;
     extend_all continue_defs ;;
     push_carrier upd_continues ;;
     (* extra round to ``emulate'' looping *)
     visit_ target ;;
     process_body self body ;;
     (* process else clause in case of late break *)
     orelse_defs <- new_dict [] ;;
     DefinitionContext orelse_defs (process_body self orelse) ;;
     break_defs <- pop_from _breaks upd_breaks ;;
     continue_defs <- pop_from _continues upd_continues ;;
     ret (orelse_defs, continue_defs, break_defs)) ;;
  let '(orelse_defs, continue_defs, break_defs) := r in
  extend_all orelse_defs ;;
  extend_all continue_defs ;;
  extend_all break_defs ;;
  extend_all body_defs ;;
  ret None.

Definition visit_While (test : expr) (body orelse : list stmt) : M (option nat) :=
  throwaway <- copy_top_definitions ;;
  DefinitionContext throwaway
    (modify (upd_undefs (fun l => l ++ [[]])) ;;
     push_carrier upd_breaks ;;
     push_carrier upd_continues ;;
     process_body self orelse) ;;
  body_defs <- copy_top_definitions ;;
  orelse_defs <- DefinitionContext body_defs
    (visit_ test ;;
     process_body self body ;;
     process_undefs ;;
     continue_defs <- pop_from _continues upd_continues ;;
     extend_all continue_defs ;;
     push_carrier upd_continues ;;
     (* extra round to simulate loop *)
     visit_ test ;;
     process_body self body ;;
     (* the false branch of the eval *)
     visit_ test ;;
     orelse_defs <- copy_top_definitions ;;
     DefinitionContext orelse_defs (process_body self orelse) ;;
     ret orelse_defs) ;;
  break_defs <- pop_from _breaks upd_breaks ;;
  continue_defs <- pop_from _continues upd_continues ;;
  extend_all continue_defs ;;
  extend_all break_defs ;;
  extend_all orelse_defs ;;
  extend_all body_defs ;;
  ret None.

(** The two loops that close [visit_If]. *)
Definition merge_branches (body_defs orelse_defs : nat) : M unit :=
  s <- get ;;
  forM_ (od_keys (dict_items s body_defs)) (fun d =>
    s <- get ;;
    if dict_mem s orelse_defs d then
      b <- dict_getitem body_defs d ;;
      o <- dict_getitem orelse_defs d ;;
      s <- get ;;
      set_definition d (DefList (oset_update (set_elems s b) (set_elems s o)))
    else
      b <- dict_getitem body_defs d ;;
      extend_definition d (SetRef b)) ;;
  s <- get ;;
  forM_ (od_keys (dict_items s orelse_defs)) (fun d =>
    s <- get ;;
    if dict_mem s body_defs d then ret tt  (* already done in the previous loop *)
    else
      o <- dict_getitem orelse_defs d ;;
      extend_definition d (SetRef o)).

Definition visit_If (test : expr) (body orelse : list stmt) : M (option nat) :=
  visit_ test ;;
  (* putting a copy of current level to handle nested conditions *)
  body_defs <- copy_top_definitions ;;
  DefinitionContext body_defs (process_body self body) ;;
  orelse_defs <- copy_top_definitions ;;
  DefinitionContext orelse_defs (process_body self orelse) ;;
  merge_branches body_defs orelse_defs ;;
  ret None.

Definition visit_With (items : list withitem) (body : list stmt) : M (option nat) :=
  forM_ items (fun w => visit (NWithitem w) ;; ret tt) ;;
  process_body self body ;;
  ret None.

Definition visit_Raise (exc cause : option expr) : M (option nat) :=
  visit_opt exc ;; visit_opt cause ;; ret None.

Definition visit_Try (body : list stmt) (handlers : list excepthandler)
    (orelse finalbody : list stmt) : M (option nat) :=
  failsafe_defs <- copy_top_definitions ;;
  DefinitionContext failsafe_defs
    (process_body self body ;; process_body self orelse) ;;
  (* handle the fact that definitions may have fail *)
  extend_all failsafe_defs ;;
  forM_ handlers (fun excepthandler =>
    handler_def <- new_dict [] ;;
    DefinitionContext handler_def (visit (NExceptHandler excepthandler)) ;;
    extend_all handler_def) ;;
  process_body self finalbody ;;
  ret None.

Definition visit_Assert (test : expr) (msg : option expr) : M (option nat) :=
  visit_ test ;; visit_opt msg ;; ret None.

Definition visit_Import (names : list alias) : M (option nat) :=
  forM_ names (fun a =>
    match a with
    | Alias _ name asname =>
        dalias <- chains_setdefault (NAlias a) ;;
        let base := Py.split_dot_head name in
        set_definition (Py.str_or asname base) (OneDef dalias) ;;
        scope <- top _scopes ;;
        locals_append scope dalias
    end) ;;
  ret None.

Definition visit_ImportFrom (names : list alias) : M (option nat) :=
  forM_ names (fun a =>
    match a with
    | Alias _ name asname =>
        dalias <- chains_setdefault (NAlias a) ;;
        set_definition (Py.str_or asname name) (OneDef dalias) ;;
        scope <- top _scopes ;;
        locals_append scope dalias
    end) ;;
  ret None.

(** The loops of [visit_Exec] over the local layers: [visible_locals] is
    the set of the names met so far. *)
Fixpoint exec_items (dnode : nat) (items : list (string * nat))
    (visible_locals : list string) : M (list string) :=
  match items with
  | [] => ret visible_locals
  | (dname, defs) :: rest =>
      if name_in dname visible_locals then exec_items dnode rest visible_locals
      else
        s <- get ;;
        forM_ (set_elems s defs) (fun d => add_user d dnode) ;;
        exec_items dnode rest (name_add dname visible_locals)
  end.

Fixpoint exec_locals (dnode : nat) (layers : list nat)
    (visible_locals : list string) : M unit :=
  match layers with
  | [] => ret tt
  | _definitions :: rest =>
      s <- get ;;
      visible_locals' <- exec_items dnode (dict_items s _definitions) visible_locals ;;
      exec_locals dnode rest visible_locals'
  end.

Definition visit_Exec (n : stmt) (body : expr) (globals locals : option expr)
    : M (option nat) :=
  dnode <- chains_setdefault (NStmt n) ;;
  visit_ body ;;
  match globals with
  | Some g => visit_ g
  | None =>
      (* any global may be used by this exec! *)
      s <- get ;;
      base <- expect (head (_definitions s)) IndexError ;;
      forM_ (od_values (dict_items s base)) (fun defs =>
        s <- get ;;
        forM_ (set_elems s defs) (fun d => add_user d dnode))
  end ;;
  match locals with
  | Some l => visit_ l
  | None =>
      (* any local may be used by this exec! *)
      s <- get ;;
      exec_locals dnode (rev (Py.slice (_definitions s) (Some 1%Z) None)) []
  end ;;
  extend_definition "*" (OneDef dnode) ;;
  ret None.

Definition visit_Global (names : list string) : M (option nat) :=
  forM_ names (fun name =>
    g <- top _globals ;;
    modify (upd_globals (Py.set_last (name_add name g)))) ;;
  ret None.

(** The scan of [visit_Nonlocal] for one name; [None] when the [for]
    loop ends without [break]. *)
Fixpoint nonlocal_scan (s : DefUseChains) (name : string) (layers : list nat)
    : option nat :=
  match layers with
  | [] => None
  | d :: rest =>
      match od_get name (dict_items s d) with
      | None => nonlocal_scan s name rest
      | Some sid => Some sid
      end
  end.

(** The body of the loop of [visit_Nonlocal] over the names. *)
Definition visit_Nonlocal_name (n : stmt) (name : string) : M unit :=
  s <- get ;;
  match nonlocal_scan s name (rev (Py.slice (_definitions s) None (Some (-1)%Z))) with
  | Some sid =>
      (* this rightfully creates aliasing *)
      set_definition name (SetRef sid)
  | None => unbound_identifier name (ONode (NStmt n))
  end.

Definition visit_Nonlocal (n : stmt) (names : list string) : M (option nat) :=
  forM_ names (visit_Nonlocal_name n) ;;
  ret None.

(** [generic_visit] of an [Expr] statement *)
Definition visit_Expr (value : expr) : M (option nat) :=
  visit_ value ;; ret None.
End Visitor.

Section ExprVisitor.
Variable self : Self.

Definition visit_BoolOp (n : expr) (values : list expr) : M (option nat) :=
  dnode <- chains_setdefault (NExpr n) ;;
  forM_ values (visit_link self dnode) ;;
  ret (Some dnode).

Definition visit_BinOp (n : expr) (l r : expr) : M (option nat) :=
  dnode <- chains_setdefault (NExpr n) ;;
  visit_link self dnode l ;;
  visit_link self dnode r ;;
  ret (Some dnode).

Definition visit_UnaryOp (n : expr) (operand : expr) : M (option nat) :=
  dnode <- chains_setdefault (NExpr n) ;;
  visit_link self dnode operand ;;
  ret (Some dnode).

Definition visit_Lambda (n : expr) (args : arguments) (body : expr) (st : step)
    : M (option nat) :=
  match st with
  | DeclarationStep =>
      dnode <- chains_setdefault (NExpr n) ;;
      ret (Some dnode)
  | DefinitionStep =>
      s <- get ;;
      dnode <- expect (od_get (expr_id n) (chains s)) KeyError ;;
      ScopeContext (NExpr n)
        (visit self (NArguments args) ;;
         visit_link self dnode body) ;;
      ret (Some dnode)
  end.

Definition visit_IfExp (n : expr) (test body orelse : expr) : M (option nat) :=
  dnode <- chains_setdefault (NExpr n) ;;
  visit_link self dnode test ;;
  visit_link self dnode body ;;
  visit_link self dnode orelse ;;
  ret (Some dnode).

Definition visit_Dict (n : expr) (keys : list (option expr)) (values : list expr)
    : M (option nat) :=
  dnode <- chains_setdefault (NExpr n) ;;
  forM_ (filter_None keys) (visit_link self dnode) ;;
  forM_ values (visit_link self dnode) ;;
  ret (Some dnode).

Definition visit_Set (n : expr) (elts : list expr) : M (option nat) :=
  dnode <- chains_setdefault (NExpr n) ;;
  forM_ elts (visit_link self dnode) ;;
  ret (Some dnode).

(** [self.visit(comprehension).add_user(dnode)] *)
Definition visit_link_comprehension (dnode : nat) (c : comprehension) : M unit :=
  r <- visit self (NComprehension c) ;; add_user_to r dnode.

Definition visit_ListComp (n : expr) (elt : expr)
    (generators : list comprehension) : M (option nat) :=
  dnode <- chains_setdefault (NExpr n) ;;
  CompScopeContext (NExpr n)
    (forM_ generators (visit_link_comprehension dnode) ;;
     visit_link self dnode elt) ;;
  ret (Some dnode).

Definition visit_DictComp (n : expr) (key value : expr)
    (generators : list comprehension) : M (option nat) :=
  dnode <- chains_setdefault (NExpr n) ;;
  CompScopeContext (NExpr n)
    (forM_ generators (visit_link_comprehension dnode) ;;
     visit_link self dnode key ;;
     visit_link self dnode value) ;;
  ret (Some dnode).

Definition visit_Await (n : expr) (value : expr) : M (option nat) :=
  dnode <- chains_setdefault (NExpr n) ;;
  visit_link self dnode value ;;
  ret (Some dnode).

Definition visit_Yield (n : expr) (value : option expr) : M (option nat) :=
  dnode <- chains_setdefault (NExpr n) ;;
  visit_link_opt self dnode value ;;
  ret (Some dnode).

Definition visit_Compare (n : expr) (l : expr) (comparators : list expr)
    : M (option nat) :=
  dnode <- chains_setdefault (NExpr n) ;;
  visit_link self dnode l ;;
  forM_ comparators (visit_link self dnode) ;;
  ret (Some dnode).

Definition visit_Call (n : expr) (func : expr) (args : list expr)
    (keywords : list keyword) : M (option nat) :=
  dnode <- chains_setdefault (NExpr n) ;;
  visit_link self dnode func ;;
  forM_ args (visit_link self dnode) ;;
  forM_ keywords (fun kw => match kw with Keyword _ _ v => visit_link self dnode v end) ;;
  ret (Some dnode).

Definition visit_Constant (n : expr) : M (option nat) :=
  dnode <- chains_setdefault (NExpr n) ;;
  ret (Some dnode).

Definition visit_FormattedValue (n : expr) (value : expr)
    (format_spec : option expr) : M (option nat) :=
  dnode <- chains_setdefault (NExpr n) ;;
  visit_link self dnode value ;;
  visit_link_opt self dnode format_spec ;;
  ret (Some dnode).

Definition visit_JoinedStr (n : expr) (values : list expr) : M (option nat) :=
  dnode <- chains_setdefault (NExpr n) ;;
  forM_ values (visit_link self dnode) ;;
  ret (Some dnode).

Definition visit_Subscript (n : expr) (value slice : expr) : M (option nat) :=
  dnode <- chains_setdefault (NExpr n) ;;
  visit_link self dnode value ;;
  visit_link self dnode slice ;;
  ret (Some dnode).

Definition visit_NamedExpr (n : expr) (target value : expr) : M (option nat) :=
  dnode <- chains_setdefault (NExpr n) ;;
  visit_link self dnode value ;;
  visit_ self target ;;
  ret (Some dnode).

Definition visit_Destructured (n : expr) (elts : list expr) : M (option nat) :=
  dnode <- chains_setdefault (NExpr n) ;;
  forM_ elts (fun elt =>
    match elt with
    | Name _ id _ annotation =>
        (* the element is visited with a [Store] context put in place of
           its own, which is restored afterwards *)
        visit_Name self elt id Store annotation false ;; ret tt
    | Subscript _ _ _ => visit_ self elt
    | Seq _ _ _ _ => self (VisitDestructured elt) ;; ret tt
    | _ => ret tt
    end) ;;
  ret (Some dnode).

Definition visit_List (n : expr) (elts : list expr) (ctx : expr_context)
    : M (option nat) :=
  match ctx with
  | Load =>
      dnode <- chains_setdefault (NExpr n) ;;
      forM_ elts (visit_link self dnode) ;;
      ret (Some dnode)
  (* unfortunately, destructured node are marked as Load,
     only the parent List/Tuple is marked as Store *)
  | Store => visit_Destructured n elts
  | _ => ret None
  end.

Definition visit_Slice (n : expr) (lower upper step_ : option expr)
    : M (option nat) :=
  dnode <- chains_setdefault (NExpr n) ;;
  visit_link_opt self dnode lower ;;
  visit_link_opt self dnode upper ;;
  visit_link_opt self dnode step_ ;;
  ret (Some dnode).

Definition visit_comprehension (c : comprehension) : M (option nat) :=
  match c with
  | Comprehension _ target iter ifs =>
      dnode <- chains_setdefault (NComprehension c) ;;
      visit_link self dnode iter ;;
      visit_ self target ;;
      forM_ ifs (visit_link self dnode) ;;
      ret (Some dnode)
  end.

(** [visit_excepthandler]: the handlers of a [Try] are instances of the
    class [ExceptHandler], for which [visit] looks up
    [visit_ExceptHandler]; nothing calls this method. *)
Definition visit_excepthandler (h : excepthandler) : M (option nat) :=
  match h with
  | ExceptHandler _ type name body =>
      dnode <- chains_setdefault (NExceptHandler h) ;;
      visit_link_opt self dnode type ;;
      visit_link_opt self dnode name ;;
      process_body self body ;;
      ret (Some dnode)
  end.

Definition visit_arguments (a : arguments) : M (option nat) :=
  match a with
  | Arguments _ args posonlyargs vararg kwonlyargs _ kwarg _ =>
      forM_ args (visit_ self) ;;
      forM_ posonlyargs (visit_ self) ;;
      visit_opt self vararg ;;
      forM_ kwonlyargs (visit_ self) ;;
      visit_opt self kwarg ;;
      ret None
  end.

Definition visit_withitem (w : withitem) : M (option nat) :=
  match w with
  | Withitem _ context_expr optional_vars =>
      dnode <- chains_setdefault (NWithitem w) ;;
      visit_link self dnode context_expr ;;
      visit_opt self optional_vars ;;
      ret (Some dnode)
  end.

(** [generic_visit] of an [ExceptHandler]: its fields in order. *)
Definition generic_visit_ExceptHandler (h : excepthandler) : M (option nat) :=
  match h with
  | ExceptHandler _ type name body =>
      visit_opt self type ;;
      visit_opt self name ;;
      forM_ body (fun stmt => visit self (NStmt stmt) ;; ret tt) ;;
      ret None
  end.

(** The deferred bodies: [for ... in self._defered], a list that grows
    while it is traversed; [i] is the position of the iterator. *)
Fixpoint drain_defered (fuel : nat) (i : nat) : M unit :=
  match fuel with
  | O => out_of_fuel
  | S fuel' =>
      s <- get ;;
      match _defered s !! i with
      | None => ret tt
      | Some (fnode, defs, scopes, scope_depths, precomputed_locals) =>
          SwitchScopeContext defs scopes scope_depths precomputed_locals
            match fnode with
            | NStmt (FunctionDef _ _ name args body decorator_list returns as n) =>
                visit_FunctionDef self n name args body decorator_list returns
                  DefinitionStep
            | NExpr (Lambda _ args body as n) =>
                visit_Lambda n args body DefinitionStep
            | _ => raise TypeError
            end ;;
          drain_defered fuel' (S i)
      end
  end.

(** The sanity checks of [visit_Module], run when [__debug__] holds. *)
Definition sanity_checks (n : AST) : M unit :=
  heads <- locals_getitem n ;;
  s <- get ;;
  base <- expect (head (_definitions s)) IndexError ;;
  forM_ heads (fun d =>
    s <- get ;;
    base <- expect (head (_definitions s)) IndexError ;;
    assert (dict_mem s base (name_of s d))) ;;
  s <- get ;;
  let names := List.map (name_of s) heads in
  let overloaded_builtins :=
    fold_left (fun acc x => if od_mem x (_builtins s) then name_add x acc else acc)
      names [] in
  base <- expect (head (_definitions s)) IndexError ;;
  let nb_defs := length (dict_items s base) in
  let nb_bltns := length (_builtins s) in
  let nb_overloaded_bltns := length overloaded_builtins in
  heads' <- locals_getitem n ;;
  let nb_heads := length (fold_left (fun acc x => name_add x acc)
                            (List.map (name_of s) heads') []) in
  assert (bool_decide
            (Z.of_nat nb_defs
             = Z.of_nat nb_heads + Z.of_nat nb_bltns - Z.of_nat nb_overloaded_bltns)%Z).

Definition visit_Module (fuel : nat) (m : module_) : M (option nat) :=
  match m with
  | Module _ body =>
      modify (upd_module (fun _ => Some (NModule m))) ;;
      ScopeContext (NModule m)
        (s <- get ;;
         current <- top _definitions ;;
         forM_ (_builtins s) (fun kv =>
           sid <- new_set [snd kv] ;; dict_set current (fst kv) sid) ;;
         process_body self body ;;
         (* handle function bodies *)
         drain_defered fuel 0 ;;
         (* various sanity checks *)
         sanity_checks (NModule m)) ;;
      s <- get ;;
      assert (bool_decide (_definitions s = [])) ;;
      assert (bool_decide (_scopes s = [])) ;;
      assert (bool_decide (_scope_depths s = [])) ;;
      assert (bool_decide (_precomputed_locals s = [])) ;;
      ret None
  end.

(** [visit(node)]: the method of the class of the node, or
    [generic_visit]. *)
Definition dispatch (fuel : nat) (n : AST) : M (option nat) :=
  match n with
  | NModule m => visit_Module fuel m
  | NStmt s =>
      match s with
      | FunctionDef _ _ name args body decorator_list returns =>
          visit_FunctionDef self s name args body decorator_list returns
            DeclarationStep
      | ClassDef _ name bases keywords body decorator_list =>
          visit_ClassDef self s name bases keywords body decorator_list
      | Return _ value => visit_Return self value
      | Delete _ targets => visit_Delete self targets
      | Assign _ targets value => visit_Assign self targets value
      | AugAssign _ target value => visit_AugAssign self target value
      | AnnAssign _ target annotation value =>
          visit_AnnAssign self target annotation value
      | Print _ dest values => visit_Print self dest values
      | For _ _ target iter body orelse => visit_For self target iter body orelse
      | While _ test body orelse => visit_While self test body orelse
      | If _ test body orelse => visit_If self test body orelse
      | With _ _ items body => visit_With self items body
      | Raise _ exc cause => visit_Raise self exc cause
      | Try _ body handlers orelse finalbody =>
          visit_Try self body handlers orelse finalbody
      | Assert _ test msg => visit_Assert self test msg
      | Import _ names => visit_Import names
      | ImportFrom _ names => visit_ImportFrom names
      | Exec _ body globals locals => visit_Exec self s body globals locals
      | Global _ names => visit_Global names
      | Nonlocal _ names => visit_Nonlocal s names
      | Expr _ value => visit_Expr self value
      | Pass _ => ret None
      | Break _ => visit_Break
      | Continue _ => visit_Continue
      end
  | NExpr e =>
      match e with
      | BoolOp _ values => visit_BoolOp e values
      | NamedExpr _ target value => visit_NamedExpr e target value
      | BinOp _ l r => visit_BinOp e l r
      | UnaryOp _ operand => visit_UnaryOp e operand
      | Lambda _ args body => visit_Lambda e args body DeclarationStep
      | IfExp _ test body orelse => visit_IfExp e test body orelse
      | Dict _ keys values => visit_Dict e keys values
      | SetE _ elts => visit_Set e elts
      | Comp _ _ elt generators => visit_ListComp e elt generators
      | DictComp _ key value generators => visit_DictComp e key value generators
      | ValueOp _ _ value => visit_Await e value
      | Yield _ value => visit_Yield e value
      | Compare _ l comparators => visit_Compare e l comparators
      | Call _ func args keywords => visit_Call e func args keywords
      | Constant _ => visit_Constant e
      | FormattedValue _ value format_spec =>
          visit_FormattedValue e value format_spec
      | JoinedStr _ values => visit_JoinedStr e values
      | Subscript _ value slice => visit_Subscript e value slice
      | Name _ id ctx annotation =>
          dnode <- visit_Name self e id ctx annotation false ;; ret (Some dnode)
      | Seq _ _ elts ctx => visit_List e elts ctx
      | Slice _ lower upper step_ => visit_Slice e lower upper step_
      end
  | NComprehension c => visit_comprehension c
  | NArguments a => visit_arguments a
  | NKeyword (Keyword _ _ value) => visit_ self value ;; ret None
  | NAlias _ => ret None
  | NWithitem w => visit_withitem w
  | NExceptHandler h => generic_visit_ExceptHandler h
  end.
End ExprVisitor.

(** Tying the knot: [fuel] bounds the depth of the calls. *)
Fixpoint run (fuel : nat) (c : call) : M (option nat) :=
  match fuel with
  | O => out_of_fuel
  | S fuel' =>
      match c with
      | Visit n => dispatch (run fuel') fuel' n
      | VisitDestructured e =>
          match e with
          | Seq _ _ elts _ => visit_Destructured (run fuel') e elts
          | _ => raise AttributeError
          end
      end
  end.

(** [DefUseChains().visit(module)] *)
Definition analyze (fuel : nat) (Builtins : list (string * string)) (m : module_)
    : outcome (option nat) :=
  run fuel (Visit (NModule m)) (DefUseChains_init Builtins).

(** ** UseDefChains *)

(** The key under which an object is stored in a dictionary: a node by its
    identity, a string or a pair by its value. *)
Inductive objkey :=
| ByNode (id : nat)
| ByStr (s : string)
| ByPair (a b : string)
| ByValue (tyname : string).

#[global] Instance objkey_eq_dec : EqDecision objkey.
Proof. solve_decision. Defined.

Definition key_of (o : pyobj) : objkey :=
  match o with
  | ONode n => ByNode (node_id n)
  | OStr s => ByStr s
  | OTuple a b => ByPair a b
  | OValue t => ByValue t
  end.

(** [chains.setdefault(k, [])] *)
Definition ud_setdefault (k : objkey) (m : list (objkey * list nat))
    : list (objkey * list nat) :=
  match od_get k m with Some _ => m | None => od_set k [] m end.

(** [chains.setdefault(k, []).append(chain)] *)
Definition ud_append (k : objkey) (chain : nat) (m : list (objkey * list nat))
    : list (objkey * list nat) :=
  od_set k (default [] (od_get k m) ++ [chain]) m.

(** [for use in chain.users(): self.chains.setdefault(use.node, []).append(chain)] *)
Definition ud_users (defuses : DefUseChains) (chain : nat)
    (m : list (objkey * list nat)) : list (objkey * list nat) :=
  fold_left (fun m use => ud_append (key_of (node_of defuses use)) chain m)
    (users defuses chain) m.

Definition ud_chain (defuses : DefUseChains) (m : list (objkey * list nat))
    (chain : nat) : list (objkey * list nat) :=
  let m :=
    match node_of defuses chain with
    | ONode n => if is_Name n then ud_setdefault (ByNode (node_id n)) m else m
    | _ => m
    end in
  ud_users defuses chain m.

(** [UseDefChains.__init__]: the [chains] of the adaptor *)
Definition UseDefChains (defuses : DefUseChains) : list (objkey * list nat) :=
  let m := fold_left (ud_chain defuses) (od_values (chains defuses)) [] in
  fold_left (fun m chain => ud_users defuses chain m)
    (od_values (_builtins defuses)) m.

(** * Properties *)

(** ** Weakest preconditions of the analyzer monad

    [wp m Q s]: when [m] returns normally from [s], the result and the final
    instance satisfy [Q]. *)

Definition wp {A} (m : M A) (Q : A -> DefUseChains -> Prop) (s : DefUseChains) : Prop :=
  match m s with
  | Ok a s' => Q a s'
  | _ => True
  end.

Lemma wp_Ok {A} (m : M A) Q s a s' : wp m Q s -> m s = Ok a s' -> Q a s'.
Proof. unfold wp. intros H E. rewrite E in H. exact H. Qed.

Lemma wp_intro {A} (m : M A) (Q : A -> DefUseChains -> Prop) s :
  (forall a s', m s = Ok a s' -> Q a s') -> wp m Q s.
Proof. unfold wp. intros H. destruct (m s); auto. Qed.

Lemma wp_ret {A} (a : A) (Q : A -> DefUseChains -> Prop) s : Q a s -> wp (ret a) Q s.
Proof. auto. Qed.

Lemma wp_bind {A B} (m : M A) (k : A -> M B) Q s :
  wp m (fun a s' => wp (k a) Q s') s -> wp (bind m k) Q s.
Proof. unfold wp, bind. destruct (m s); auto. Qed.

Lemma wp_mono {A} (m : M A) (Q Q' : A -> DefUseChains -> Prop) s :
  wp m Q s -> (forall a s', Q a s' -> Q' a s') -> wp m Q' s.
Proof. unfold wp. destruct (m s); auto. Qed.

Lemma wp_raise {A} e (Q : A -> DefUseChains -> Prop) s : wp (raise e) Q s.
Proof. exact I. Qed.

Lemma wp_out_of_fuel {A} (Q : A -> DefUseChains -> Prop) s : wp out_of_fuel Q s.
Proof. exact I. Qed.

Lemma wp_get (Q : DefUseChains -> DefUseChains -> Prop) s : Q s s -> wp get Q s.
Proof. auto. Qed.

Lemma wp_modify f (Q : unit -> DefUseChains -> Prop) s : Q tt (f s) -> wp (modify f) Q s.
Proof. auto. Qed.

Lemma wp_expect {A} (o : option A) e (Q : A -> DefUseChains -> Prop) s :
  (forall a, o = Some a -> Q a s) -> wp (expect o e) Q s.
Proof. destruct o; simpl; intros H; [apply H; reflexivity | exact I]. Qed.

Lemma wp_assert c (Q : unit -> DefUseChains -> Prop) s :
  (c = true -> Q tt s) -> wp (assert c) Q s.
Proof. destruct c; simpl; intros H; [apply H; reflexivity | exact I]. Qed.

(** Inversion of a normal return through [bind]. *)
Lemma bind_Ok {A B} (m : M A) (k : A -> M B) s b s' :
  bind m k s = Ok b s' -> exists a s1, m s = Ok a s1 /\ k a s1 = Ok b s'.
Proof. unfold bind. destruct (m s) as [a s1| |]; try discriminate. eauto. Qed.

(** ** Relations that every step respects

    [respects R m]: a normal return of [m] takes an instance to one related
    to it by [R].  For a preorder this is closed under sequencing and
    loops. *)

Section Respects.
Context (R : DefUseChains -> DefUseChains -> Prop) `{!PreOrder R}.

Definition respects {A} (m : M A) : Prop :=
  forall s, wp m (fun _ s' => R s s') s.

Lemma respects_ret {A} (a : A) : respects (ret a).
Proof. intros s. apply wp_ret. apply PreOrder_Reflexive. Qed.

Lemma respects_bind {A B} (m : M A) (k : A -> M B) :
  respects m -> (forall a, respects (k a)) -> respects (bind m k).
Proof.
  intros Hm Hk s. apply wp_bind. eapply wp_mono; [apply Hm|].
  intros a s1 H1. eapply wp_mono; [apply Hk|].
  intros b s2 H2. exact (PreOrder_Transitive _ _ _ H1 H2).
Qed.

Lemma respects_raise {A} e : respects (@raise A e).
Proof. intros s. exact I. Qed.

Lemma respects_out_of_fuel {A} : respects (@out_of_fuel A).
Proof. intros s. exact I. Qed.

Lemma respects_get : respects get.
Proof. intros s. apply wp_get. apply PreOrder_Reflexive. Qed.

Lemma respects_expect {A} (o : option A) e : respects (expect o e).
Proof. destruct o; [apply respects_ret | apply respects_raise]. Qed.

Lemma respects_assert c : respects (assert c).
Proof. destruct c; [apply respects_ret | apply respects_raise]. Qed.

Lemma respects_when c m : respects m -> respects (when c m).
Proof. destruct c; [auto | intros _; apply respects_ret]. Qed.

Lemma respects_modify f : (forall s, R s (f s)) -> respects (modify f).
Proof. intros H s. apply H. Qed.

Lemma respects_forM {A} (l : list A) (f : A -> M unit) :
  (forall x, respects (f x)) -> respects (forM_ l f).
Proof.
  intros H. induction l as [|x l IH]; simpl.
  - apply respects_ret.
  - apply respects_bind; auto.
Qed.

Lemma respects_top {A} (f : DefUseChains -> list A) : respects (top f).
Proof.
  unfold top. apply respects_bind; [apply respects_get|].
  intros s. apply respects_expect.
Qed.
End Respects.

(** The steps of a proof of [respects R m] that follow the structure of the
    monadic code. *)
Ltac respects_struct :=
  lazymatch goal with
  | |- respects _ (bind _ _) => apply respects_bind; [exact _ | | intro]
  | |- respects _ (ret _) => apply respects_ret; exact _
  | |- respects _ (raise _) => apply respects_raise
  | |- respects _ out_of_fuel => apply respects_out_of_fuel
  | |- respects _ get => apply respects_get; exact _
  | |- respects _ (expect _ _) => apply respects_expect; exact _
  | |- respects _ (assert _) => apply respects_assert; exact _
  | |- respects _ (when _ _) => apply respects_when; [exact _ |]
  | |- respects _ (top _) => apply respects_top; exact _
  | |- respects _ (forM_ _ _) => apply respects_forM; [exact _ | intro]
  | |- respects _ (match ?x with _ => _ end) => destruct x
  | |- respects _ (let (_, _) := ?x in _) => destruct x
  end.

Ltac head_of t := lazymatch t with ?f _ => head_of f | _ => t end.

(** Structure first, then what [leaf] knows about the method at hand, then
    its definition. *)
Ltac respects_go leaf :=
  repeat first
    [ respects_struct
    | leaf
    | lazymatch goal with
      | |- respects _ ?m => let h := head_of m in unfold h
      end ].

(** ** The stacks are left as they were found

    [frame s s']: the stacks of definition layers, scopes, scope depths and
    precomputed locals, and the dead-code counter are the same in [s'] as in
    [s]; the stack of [global] declarations has the same height (a [global]
    statement adds to its top set). *)

Definition frame (s s' : DefUseChains) : Prop :=
  _definitions s' = _definitions s /\
  _scopes s' = _scopes s /\
  _scope_depths s' = _scope_depths s /\
  _precomputed_locals s' = _precomputed_locals s /\
  _deadcode s' = _deadcode s /\
  length (_globals s') = length (_globals s).

#[global] Instance frame_preorder : PreOrder frame.
Proof.
  split.
  - intros s. repeat split.
  - intros s1 s2 s3. unfold frame. intuition congruence.
Qed.

Abbreviation keeps := (respects frame).

Create HintDb keeps.
(** A field update that leaves the framed fields alone. *)
Ltac frame_solve := intros; unfold frame; simpl; repeat split; reflexivity.

Lemma keeps_new_Def o : keeps (new_Def o).
Proof. intros s. unfold wp, new_Def. frame_solve. Qed.

Lemma keeps_new_set l : keeps (new_set l).
Proof. intros s. unfold wp, new_set. frame_solve. Qed.

Lemma keeps_new_dict l : keeps (new_dict l).
Proof. intros s. unfold wp, new_dict. frame_solve. Qed.

#[local] Hint Resolve keeps_new_Def keeps_new_set keeps_new_dict : keeps.

(** Inversion of normal returns. *)
Lemma ret_Ok {A} (a b : A) s s' : ret a s = Ok b s' -> b = a /\ s' = s.
Proof. intros H. inversion H. auto. Qed.

Lemma modify_Ok f s u s' : modify f s = Ok u s' -> s' = f s.
Proof. intros H. inversion H. auto. Qed.

Lemma get_Ok s a s' : get s = Ok a s' -> a = s /\ s' = s.
Proof. intros H. inversion H. auto. Qed.

Lemma expect_Ok {A} (o : option A) e s a s' :
  expect o e s = Ok a s' -> o = Some a /\ s' = s.
Proof. destruct o; simpl; intros H; inversion H. auto. Qed.

Lemma top_Ok {A} (f : DefUseChains -> list A) s a s' :
  top f s = Ok a s' -> Py.last (f s) = Some a /\ s' = s.
Proof.
  unfold top. intros H. apply bind_Ok in H. destruct H as (x & s1 & H1 & H2).
  apply get_Ok in H1. destruct H1; subst. apply expect_Ok in H2. exact H2.
Qed.

Lemma pop_from_Ok {A} (f : DefUseChains -> list A) upd s a s' :
  pop_from f upd s = Ok a s' -> Py.last (f s) = Some a /\ s' = upd Py.pop s.
Proof.
  unfold pop_from. intros H. apply bind_Ok in H. destruct H as (x & s1 & H1 & H2).
  apply top_Ok in H1. destruct H1 as [H1 ->].
  apply bind_Ok in H2. destruct H2 as (u & s2 & H2 & H3).
  apply modify_Ok in H2. apply ret_Ok in H3. destruct H3; subst. auto.
Qed.

Lemma assert_Ok c s u s' : assert c s = Ok u s' -> c = true /\ s' = s.
Proof. destruct c; simpl; intros H; inversion H. auto. Qed.

Lemma when_Ok c m s u s' :
  when c m s = Ok u s' -> (c = true /\ m s = Ok u s') \/ (c = false /\ s' = s).
Proof. destruct c; simpl; intros H; [left | right; inversion H]; auto. Qed.

Lemma new_Def_Ok o s a s' :
  new_Def o s = Ok a s' ->
  a = length (heap_defs s) /\ s' = upd_heap_defs (fun h => h ++ [mkDef o []]) s.
Proof. intros H. inversion H. auto. Qed.

Lemma new_set_Ok l s a s' :
  new_set l s = Ok a s' ->
  a = length (heap_sets s) /\ s' = upd_heap_sets (fun h => h ++ [oset_update [] l]) s.
Proof. intros H. inversion H. auto. Qed.

Lemma new_dict_Ok l s a s' :
  new_dict l s = Ok a s' ->
  a = length (heap_dicts s) /\ s' = upd_heap_dicts (fun h => h ++ [l]) s.
Proof. intros H. inversion H. auto. Qed.

Ltac inv_ok :=
  repeat match goal with
  | H : bind _ _ _ = Ok _ _ |- _ =>
      let a := fresh "a" in let s := fresh "s" in let H1 := fresh "H" in
      apply bind_Ok in H; destruct H as (a & s & H1 & H)
  | H : ret _ _ = Ok _ _ |- _ => apply ret_Ok in H; destruct H; subst
  | H : modify _ _ = Ok _ _ |- _ => apply modify_Ok in H; subst
  | H : get _ = Ok _ _ |- _ => apply get_Ok in H; destruct H; subst
  | H : expect _ _ _ = Ok _ _ |- _ => apply expect_Ok in H; destruct H; subst
  | H : top _ _ = Ok _ _ |- _ => apply top_Ok in H; destruct H; subst
  | H : pop_from _ _ _ = Ok _ _ |- _ => apply pop_from_Ok in H; destruct H; subst
  | H : assert _ _ = Ok _ _ |- _ => apply assert_Ok in H; destruct H; subst
  | H : new_Def _ _ = Ok _ _ |- _ => apply new_Def_Ok in H; destruct H; subst
  | H : new_set _ _ = Ok _ _ |- _ => apply new_set_Ok in H; destruct H; subst
  | H : new_dict _ _ = Ok _ _ |- _ => apply new_dict_Ok in H; destruct H; subst
  | H : raise _ _ = Ok _ _ |- _ => discriminate H
  | H : out_of_fuel _ = Ok _ _ |- _ => discriminate H
  end.

Lemma keeps_ScopeContext {A} n (body : M A) : keeps body -> keeps (ScopeContext n body).
Proof.
  intros Hb s. apply wp_intro. intros r s' H. unfold ScopeContext in H.
  inv_ok.
  match goal with H : body _ = Ok _ _ |- _ =>
    apply (wp_Ok _ _ _ _ _ (Hb _)) in H; destruct H as (F1 & F2 & F3 & F4 & F5 & F6)
  end.
  simpl in *. unfold frame; simpl.
  rewrite F1, F2, F3, F4, F5, !Py.pop_snoc.
  repeat split; try reflexivity.
  rewrite length_app in F6. simpl in F6.
  match goal with |- length (Py.pop ?g) = _ =>
    destruct g as [|x gs _] using List.rev_ind; simpl in *; [lia|]
  end.
  rewrite Py.pop_snoc. rewrite length_app in F6. simpl in F6. lia.
Qed.

Lemma keeps_DefinitionContext {A} d (body : M A) :
  keeps body -> keeps (DefinitionContext d body).
Proof.
  intros Hb s. apply wp_intro. intros r s' H.
  unfold DefinitionContext, shift_scope_depth in H. inv_ok.
  match goal with H : body _ = Ok _ _ |- _ =>
    apply (wp_Ok _ _ _ _ _ (Hb _)) in H; destruct H as (F1 & F2 & F3 & F4 & F5 & F6)
  end.
  simpl in *. unfold frame; simpl.
  rewrite F1, F2, F4, F5, F6, !Py.pop_snoc.
  repeat split; try reflexivity.
  repeat match goal with
  | H : Py.last (_scope_depths ?x) = _ |- _ =>
      first [rewrite F3 in H; unfold Py.set_last in H; rewrite Py.last_snoc in H;
             inversion H; subst; clear H
            | apply Py.last_Some_snoc in H; revert H ]
  end.
  intros L0. rewrite F3. unfold Py.set_last. rewrite !Py.pop_snoc.
  rewrite L0 at 2. f_equal. f_equal. lia.
Qed.

Lemma keeps_SwitchScopeContext {A} defs scopes depths pls (body : M A) :
  keeps body -> keeps (SwitchScopeContext defs scopes depths pls body).
Proof.
  intros Hb s. apply wp_intro. intros r s' H. unfold SwitchScopeContext in H.
  inv_ok.
  match goal with H : body _ = Ok _ _ |- _ =>
    apply (wp_Ok _ _ _ _ _ (Hb _)) in H; destruct H as (F1 & F2 & F3 & F4 & F5 & F6)
  end.
  simpl in *. unfold frame. simpl. repeat split; auto.
Qed.

(** What is known of the methods as to the frame: the context managers,
    the field updates, the lemmas proved so far. *)
Ltac keeps_leaf :=
  first
    [ lazymatch goal with
      | |- respects frame (modify _) => apply respects_modify; frame_solve
      | |- respects frame (ScopeContext _ _) => apply keeps_ScopeContext
      | |- respects frame (CompScopeContext _ _) => apply keeps_ScopeContext
      | |- respects frame (DefinitionContext _ _) => apply keeps_DefinitionContext
      | |- respects frame (SwitchScopeContext _ _ _ _ _) =>
          apply keeps_SwitchScopeContext
      end
    | solve [auto 2 with keeps] ].

Ltac keeps_go := respects_go keeps_leaf.

Lemma keeps_set_definition name a : keeps (set_definition name a).
Proof. keeps_go. Qed.

Lemma keeps_add_to_definition d name a : keeps (add_to_definition d name a).
Proof. keeps_go. Qed.

Lemma keeps_extend_definition name a : keeps (extend_definition name a).
Proof. keeps_go. Qed.

Lemma keeps_extend_global name a : keeps (extend_global name a).
Proof. keeps_go. Qed.

Lemma keeps_set_or_extend_global name d : keeps (set_or_extend_global name d).
Proof. keeps_go. Qed.

Lemma keeps_chains_setdefault n : keeps (chains_setdefault n).
Proof. keeps_go. Qed.

Lemma keeps_locals_append n d : keeps (locals_append n d).
Proof. keeps_go. Qed.

Lemma keeps_invalid_name_lookup name scope pl l :
  keeps (invalid_name_lookup name scope pl l).
Proof. keeps_go. Qed.

#[local] Hint Resolve keeps_set_definition keeps_add_to_definition
  keeps_extend_definition keeps_extend_global keeps_set_or_extend_global
  keeps_chains_setdefault keeps_locals_append keeps_invalid_name_lookup : keeps.

Lemma keeps_defs_scopes name base frames lvl looked :
  keeps (defs_scopes name base frames lvl looked).
Proof.
  revert lvl looked. induction frames as [|[[scope depth] pl] frames IH];
    intros lvl looked; simpl; keeps_go.
Qed.

#[local] Hint Resolve keeps_defs_scopes : keeps.

Lemma keeps_defs n name quiet : keeps (defs n name quiet).
Proof. keeps_go. Qed.

Lemma keeps_process_undefs : keeps process_undefs.
Proof. keeps_go. Qed.

Lemma keeps_exec_items dnode items visible : keeps (exec_items dnode items visible).
Proof.
  revert visible. induction items as [|[dname sid] items IH]; intros visible; simpl;
    keeps_go.
Qed.

#[local] Hint Resolve keeps_exec_items : keeps.

Lemma keeps_exec_locals dnode layers visible : keeps (exec_locals dnode layers visible).
Proof.
  revert visible. induction layers as [|l layers IH]; intros visible; simpl; keeps_go.
Qed.

#[local] Hint Resolve keeps_defs keeps_process_undefs keeps_exec_locals : keeps.

Definition Z_of_bool (b : bool) : Z := if b then 1%Z else 0%Z.

Section KeepsVisitor.
Variable self : Self.
Hypothesis keeps_self : forall c, keeps (self c).

Lemma keeps_process_body_loop stmts deadcode s :
  wp (process_body_loop self stmts deadcode)
     (fun deadcode' s' =>
        frame (upd_deadcode (fun n => n + (Z_of_bool deadcode' - Z_of_bool deadcode))%Z s) s')
     s.
Proof.
  revert deadcode s. induction stmts as [|stmt stmts IH]; intros deadcode s; simpl.
  - apply wp_ret. unfold frame. simpl. repeat split; try reflexivity. lia.
  - apply wp_intro. intros dc' s' H. inv_ok.
    match goal with H : self _ _ = Ok _ _ |- _ =>
      apply (wp_Ok _ _ _ _ _ (keeps_self _ _)) in H; rename H into Hv end.
    apply (wp_Ok _ _ _ _ _ (IH _ _)) in H.
    assert (Hs : frame (upd_deadcode (fun n => n + (Z_of_bool a - Z_of_bool deadcode))%Z s) s0).
    { destruct (is_jump stmt && negb deadcode) eqn:E; inv_ok.
      - apply andb_prop in E. destruct E as [_ E]. destruct deadcode; [discriminate|].
        unfold frame; simpl. repeat split; reflexivity.
      - unfold frame; simpl. repeat split; try reflexivity. lia. }
    clear H0. unfold frame in *. simpl in *.
    destruct Hs as (A1 & A2 & A3 & A4 & A5 & A6).
    destruct Hv as (B1 & B2 & B3 & B4 & B5 & B6).
    destruct H as (C1 & C2 & C3 & C4 & C5 & C6).
    repeat split; try congruence. lia.
Qed.

Lemma keeps_process_body stmts : keeps (process_body self stmts).
Proof.
  intros s. unfold process_body. apply wp_intro. intros u s' H. inv_ok.
  apply (wp_Ok _ _ _ _ _ (keeps_process_body_loop _ _ _)) in H0.
  unfold frame in *. simpl in *. destruct H0 as (A1 & A2 & A3 & A4 & A5 & A6).
  destruct a; simpl in *; inv_ok; simpl; repeat split; try congruence; lia.
Qed.

Lemma keeps_visit_Global names : keeps (visit_Global names).
Proof.
  unfold visit_Global. apply respects_bind; [exact _ | | intro; apply respects_ret; exact _].
  apply respects_forM; [exact _|]. intros name s. apply wp_intro. intros u s' H. inv_ok.
  unfold frame. simpl. repeat split; try reflexivity.
  eapply Py.length_set_last; eauto.
Qed.

Hint Resolve keeps_process_body keeps_visit_Global keeps_self : keeps.

Lemma keeps_visit_Name n id ctx annotation skip :
  keeps (visit_Name self n id ctx annotation skip).
Proof. keeps_go. Qed.

Hint Resolve keeps_visit_Name : keeps.

Lemma keeps_visit_FunctionDef n name args body decorator_list returns st :
  keeps (visit_FunctionDef self n name args body decorator_list returns st).
Proof. keeps_go. Qed.

Lemma keeps_visit_Lambda n args body st : keeps (visit_Lambda self n args body st).
Proof. keeps_go. Qed.

Hint Resolve keeps_visit_FunctionDef keeps_visit_Lambda : keeps.

Lemma keeps_drain_defered fuel i : keeps (drain_defered self fuel i).
Proof.
  revert i. induction fuel as [|fuel IH]; intros i; simpl; [apply respects_out_of_fuel|].
  apply respects_bind; [exact _ | apply respects_get; exact _ |]. intros s.
  destruct (_defered s !! i) as [[[[[fnode defs] scopes] depths] pls]|]; [|apply respects_ret; exact _].
  apply respects_bind; [exact _ | | intro; apply IH].
  apply keeps_SwitchScopeContext. keeps_go.
Qed.

Hint Resolve keeps_drain_defered : keeps.

Lemma keeps_visit_Destructured n elts : keeps (visit_Destructured self n elts).
Proof. keeps_go. Qed.

Hint Resolve keeps_visit_Destructured : keeps.

(** [visit_Module] restores the frame it finds, whatever it is. *)
Lemma keeps_visit_Module fuel m : keeps (visit_Module self fuel m).
Proof. unfold visit_Module. keeps_go. Qed.

Hint Resolve keeps_visit_Module : keeps.

Lemma keeps_dispatch fuel n : keeps (dispatch self fuel n).
Proof. unfold dispatch. destruct n as [m|st|e|c|a|k|a|w|h]; keeps_go. Qed.
End KeepsVisitor.

Lemma keeps_run fuel c : keeps (run fuel c).
Proof.
  revert c. induction fuel as [|fuel IH]; intros c; simpl.
  - apply respects_out_of_fuel.
  - destruct c as [n|e].
    + apply keeps_dispatch. exact IH.
    + destruct e; try apply respects_raise. apply keeps_visit_Destructured. exact IH.
Qed.

(** ** Example modules *)

(** The entries of the builtins module used in the examples. *)
Definition example_builtins : list (string * string) :=
  [("print", "builtin_function_or_method");
   ("len", "builtin_function_or_method");
   ("range", "type")].

Definition no_arguments (nid : nat) : arguments := Arguments nid [] [] None [] [] None [].

(** [a = 1; a + 2] *)
Definition example_expression : module_ :=
  Module 0 [Assign 1 [Name 2 "a" Store None] (Constant 3);
            Expr 4 (BinOp 5 (Name 6 "a" Load None) (Constant 7))].

(** The instance after a normal return, the fresh instance otherwise. *)
Definition final {A} (o : outcome A) : DefUseChains :=
  match o with Ok _ s => s | _ => DefUseChains_init [] end.

(** C5. After [visit(module)] returns normally on a fresh analyzer, the
    stacks of definition layers, scopes, scope depths, [global] declarations
    and precomputed locals are all empty. *)
Theorem stacks_empty_after_visit fuel Builtins m r s' :
  analyze fuel Builtins m = Ok r s' ->
  _definitions s' = [] /\ _scopes s' = [] /\ _scope_depths s' = [] /\
  _globals s' = [] /\ _precomputed_locals s' = [].
Proof.
  unfold analyze. intros H.
  apply (wp_Ok _ _ _ _ _ (keeps_run fuel _ _)) in H.
  destruct H as (F1 & F2 & F3 & F4 & _ & F6). simpl in *.
  repeat split; auto.
  destruct (_globals s'); [reflexivity | discriminate].
Qed.

Lemma stacks_empty_after_visit_witness :
  let s' := final (analyze 20 example_builtins example_expression) in
  _definitions s' = [] /\ _scopes s' = [] /\ _scope_depths s' = [] /\
  _globals s' = [] /\ _precomputed_locals s' = [].
Proof.
  apply (stacks_empty_after_visit 20 example_builtins example_expression None).
  vm_compute. reflexivity.
Defined.

(** C6. While the dead-code counter is positive, [set_definition],
    [extend_definition], [extend_global] and [set_or_extend_global] return
    at once and leave the whole instance (every layer, the locals table) as
    it was.  The counter is raised by [process_body] at the first [break],
    [continue] or [raise] of a body, before that statement is visited, and
    once per body; and [process_body] restores the counter to the value it
    had on entry, whatever the statements of the body are. *)
Theorem deadcode_suppresses_writes s :
  (0 < _deadcode s)%Z ->
  (forall name dnodes, set_definition name dnodes s = Ok tt s) /\
  (forall name dnodes, extend_definition name dnodes s = Ok tt s) /\
  (forall name dnodes, extend_global name dnodes s = Ok tt s) /\
  (forall name dnode, set_or_extend_global name dnode s = Ok tt s) /\
  (forall self stmt rest deadcode s0,
     process_body_loop self (stmt :: rest) deadcode s0
     = if is_jump stmt && negb deadcode then
         (self (Visit (NStmt stmt)) ;; process_body_loop self rest true)
           (upd_deadcode (fun n => n + 1)%Z s0)
       else
         (self (Visit (NStmt stmt)) ;; process_body_loop self rest deadcode) s0) /\
  (forall fuel stmts s0 s',
     process_body (run fuel) stmts s0 = Ok tt s' -> _deadcode s' = _deadcode s0).
Proof.
  intros Hpos.
  assert (E : bool_decide (_deadcode s <> 0%Z) = true) by (apply bool_decide_eq_true; lia).
  repeat split; intros.
  - unfold set_definition, bind, get. rewrite E. reflexivity.
  - unfold extend_definition, bind, get. rewrite E. reflexivity.
  - unfold extend_global, bind, get. rewrite E. reflexivity.
  - unfold set_or_extend_global, bind, get. rewrite E. reflexivity.
  - simpl. destruct (is_jump _ && negb _); reflexivity.
  - match goal with H : process_body _ _ _ = _ |- _ =>
      apply (wp_Ok _ _ _ _ _ (keeps_process_body _ (keeps_run fuel) _ _)) in H;
      destruct H as (_ & _ & _ & _ & F5 & _); exact F5
    end.
Qed.

(** An instance in dead code: the fresh analyzer with the counter at 1. *)
Definition example_dead : DefUseChains :=
  upd_deadcode (fun _ => 1%Z) (DefUseChains_init example_builtins).

Lemma deadcode_suppresses_writes_witness :
  (forall name dnodes, set_definition name dnodes example_dead = Ok tt example_dead) /\
  (forall name dnodes, extend_definition name dnodes example_dead = Ok tt example_dead) /\
  (forall name dnodes, extend_global name dnodes example_dead = Ok tt example_dead) /\
  (forall name dnode, set_or_extend_global name dnode example_dead = Ok tt example_dead) /\
  (forall self stmt rest deadcode s0,
     process_body_loop self (stmt :: rest) deadcode s0
     = if is_jump stmt && negb deadcode then
         (self (Visit (NStmt stmt)) ;; process_body_loop self rest true)
           (upd_deadcode (fun n => n + 1)%Z s0)
       else
         (self (Visit (NStmt stmt)) ;; process_body_loop self rest deadcode) s0) /\
  (forall fuel stmts s0 s',
     process_body (run fuel) stmts s0 = Ok tt s' -> _deadcode s' = _deadcode s0).
Proof. apply (deadcode_suppresses_writes example_dead). reflexivity. Defined.

(** [x = 1; raise; x = 2] as the body of a module: the second assignment
    is visited in dead code and binds nothing, and the counter is back at
    its value at the end. *)
Example deadcode_example :
  let m := Module 0 [Assign 1 [Name 2 "x" Store None] (Constant 3);
                     Raise 4 None None;
                     Assign 5 [Name 6 "x" Store None] (Constant 7)] in
  let s0 := upd_scopes (fun _ => [NModule m])
              (upd_scope_depths (fun _ => [(-1)%Z])
                 (upd_definitions (fun _ => [0])
                    (upd_globals (fun _ => [[]])
                       (upd_precomputed_locals (fun _ => [["x"]])
                          (upd_heap_dicts (fun _ => [[]])
                             (DefUseChains_init [])))))) in
  let s' := final (process_body (run 5)
                     [Assign 1 [Name 2 "x" Store None] (Constant 3);
                      Raise 4 None None;
                      Assign 5 [Name 6 "x" Store None] (Constant 7)] s0) in
  _deadcode s' = 0%Z /\
  od_keys (chains s') = [3; 2; 7; 6] /\
  dict_items s' 0 = [("x", 0)] /\ set_elems s' 0 = [1].
Proof. vm_compute. repeat split; reflexivity. Qed.

(** ** Name resolution *)

(** [unchanged s s']: nothing was written. *)
Definition unchanged (s s' : DefUseChains) : Prop := s' = s.

#[global] Instance unchanged_preorder : PreOrder unchanged.
Proof. split; unfold unchanged; [intros s | intros s1 s2 s3]; congruence. Qed.

Ltac reads_go := respects_go ltac:(solve [auto 1]).

Lemma reads_invalid_name_lookup name scope pl l :
  respects unchanged (invalid_name_lookup name scope pl l).
Proof. reads_go. Qed.

Lemma reads_defs_scopes name base frames lvl looked :
  respects unchanged (defs_scopes name base frames lvl looked).
Proof.
  pose proof reads_invalid_name_lookup.
  revert lvl looked. induction frames as [|[[scope depth] pl] frames IH];
    intros lvl looked; simpl; reads_go.
Qed.

(** The computation of the layers to search writes nothing. *)
Lemma reads_looked_up name : respects unchanged (looked_up name).
Proof.
  pose proof reads_invalid_name_lookup. pose proof reads_defs_scopes. reads_go.
Qed.

Lemma looked_up_Ok name s l s' : looked_up name s = Ok l s' -> s' = s.
Proof. intros H. exact (wp_Ok _ _ _ _ _ (reads_looked_up name s) H). Qed.

(** The wildcard definitions of a layer, and of a list of layers in search
    order. *)
Definition stars_in (s : DefUseChains) (layer : nat) : list nat :=
  match od_get "*" (dict_items s layer) with
  | Some star => set_elems s star
  | None => []
  end.

Definition stars_of (s : DefUseChains) (layers : list nat) : list nat :=
  flat_map (stars_in s) layers.

Lemma lookup_first_binding s name pre layer post sid stars :
  (forall d, In d pre -> od_get name (dict_items s d) = None) ->
  od_get name (dict_items s layer) = Some sid ->
  lookup s name (pre ++ layer :: post) stars
  = inl (stars ++ stars_of s pre ++ set_elems s sid).
Proof.
  intros Hpre Hl. revert stars.
  induction pre as [|d pre IH]; intros stars; simpl.
  - rewrite Hl. destruct stars; reflexivity.
  - rewrite (Hpre d) by (left; reflexivity).
    assert (Hpre' : forall d', In d' pre -> od_get name (dict_items s d') = None)
      by (intros; apply Hpre; right; assumption).
    unfold stars_in. destruct (od_get "*" (dict_items s d)) as [star|].
    + rewrite (IH Hpre'). rewrite <- !app_assoc. reflexivity.
    + rewrite (IH Hpre'). reflexivity.
Qed.

(** C3. When a searched layer binds the name, [defs] returns the
    definitions of the first such layer, preceded by the wildcard
    definitions of the layers searched before it: the search goes on past a
    layer that only has [*], and the explicit binding is in the answer
    whole; nothing is written and no diagnostic is printed. *)
Theorem defs_wildcards_compose s n name quiet pre layer post sid s1 :
  looked_up name s = Ok (pre ++ layer :: post) s1 ->
  (forall d, In d pre -> od_get name (dict_items s d) = None) ->
  od_get name (dict_items s layer) = Some sid ->
  defs n name quiet s = Ok (stars_of s pre ++ set_elems s sid) s /\
  incl (set_elems s sid) (stars_of s pre ++ set_elems s sid).
Proof.
  intros Hl Hpre Hlayer. pose proof (looked_up_Ok _ _ _ _ Hl) as ->.
  split; [|apply incl_appr, incl_refl].
  unfold defs, bind. rewrite Hl. unfold get.
  rewrite (lookup_first_binding _ _ _ _ _ _ [] Hpre Hlayer). reflexivity.
Qed.

(** A module scope with two layers: the base layer binds [x], the branch
    layer on top of it only has a wildcard. *)
Definition example_star_layers : DefUseChains :=
  mkDefUseChains
    [mkDef (OValue "int") []; mkDef (OValue "int") []]
    [[0]; [1]]
    [[("x", 0)]; [("*", 1)]]
    [] [] [] []
    [0; 1] [(-2)%Z] [[]] [[]] [] [NModule example_expression] [] [] 0%Z None [].

Lemma defs_wildcards_compose_witness :
  defs (NExpr (Name 9 "x" Load None)) "x" false example_star_layers
  = Ok [1; 0] example_star_layers /\
  incl [0] [1; 0].
Proof.
  apply (defs_wildcards_compose example_star_layers (NExpr (Name 9 "x" Load None))
           "x" false [1] 0 [] 0 example_star_layers).
  - vm_compute. reflexivity.
  - intros d [<-|[]]. vm_compute. reflexivity.
  - vm_compute. reflexivity.
Defined.

(** ** The inverse chains *)

(** [m] grows into [m']: every entry of [m] is in [m'], with at least the
    same elements. *)
Definition ud_le (m m' : list (objkey * list nat)) : Prop :=
  forall k l, od_get k m = Some l -> exists l', od_get k m' = Some l' /\ incl l l'.

Lemma ud_le_refl m : ud_le m m.
Proof. intros k l H. exists l. split; [assumption | apply incl_refl]. Qed.

Lemma ud_le_trans m1 m2 m3 : ud_le m1 m2 -> ud_le m2 m3 -> ud_le m1 m3.
Proof.
  intros H12 H23 k l H. destruct (H12 k l H) as (l2 & H2 & I2).
  destruct (H23 k l2 H2) as (l3 & H3 & I3). exists l3. split; [assumption|].
  eapply incl_tran; eassumption.
Qed.

Lemma ud_le_setdefault k m : ud_le m (ud_setdefault k m).
Proof.
  unfold ud_setdefault. destruct (od_get k m) eqn:E; [apply ud_le_refl|].
  intros k' l H. exists l. split; [|apply incl_refl].
  rewrite od_get_set_ne; [assumption | congruence].
Qed.

Lemma ud_le_append k chain m : ud_le m (ud_append k chain m).
Proof.
  unfold ud_append. intros k' l H. destruct (decide (k = k')) as [->|Hne].
  - rewrite od_get_set_eq, H. simpl. eexists. split; [reflexivity|].
    apply incl_appl, incl_refl.
  - rewrite od_get_set_ne by assumption. exists l. split; [assumption | apply incl_refl].
Qed.

Lemma ud_append_has k chain m :
  exists l, od_get k (ud_append k chain m) = Some l /\ In chain l.
Proof.
  unfold ud_append. rewrite od_get_set_eq. eexists. split; [reflexivity|].
  apply in_or_app. right. left. reflexivity.
Qed.

Lemma fold_left_ud_le {A} (f : list (objkey * list nat) -> A -> list (objkey * list nat))
    (xs : list A) m :
  (forall m x, ud_le m (f m x)) -> ud_le m (fold_left f xs m).
Proof.
  intros Hf. revert m. induction xs as [|x xs IH]; intros m; simpl.
  - apply ud_le_refl.
  - eapply ud_le_trans; [apply Hf | apply IH].
Qed.

Lemma ud_le_users defuses chain m : ud_le m (ud_users defuses chain m).
Proof. apply fold_left_ud_le. intros. apply ud_le_append. Qed.

Lemma ud_le_chain defuses m chain : ud_le m (ud_chain defuses m chain).
Proof.
  unfold ud_chain. eapply ud_le_trans; [|apply ud_le_users].
  destruct (node_of defuses chain); try apply ud_le_refl.
  destruct (is_Name n); [apply ud_le_setdefault | apply ud_le_refl].
Qed.

(** What a step over one element establishes is still there at the end of
    the loop. *)
Lemma fold_left_ud_has {A} (f : list (objkey * list nat) -> A -> list (objkey * list nat))
    (xs : list A) (x : A) m k d :
  (forall m x, ud_le m (f m x)) ->
  (forall m, exists l, od_get k (f m x) = Some l /\ In d l) ->
  In x xs ->
  exists l, od_get k (fold_left f xs m) = Some l /\ In d l.
Proof.
  intros Hle Hx. revert m. induction xs as [|y xs IH]; intros m Hin; [destruct Hin|].
  simpl. destruct Hin as [->|Hin]; [|apply IH; assumption].
  destruct (Hx m) as (l & Hl & Hd).
  destruct (fold_left_ud_le f xs (f m x) Hle k l Hl) as (l' & Hl' & Hincl).
  exists l'. split; [assumption | apply Hincl; assumption].
Qed.

Lemma ud_users_has defuses chain m u :
  In u (users defuses chain) ->
  exists l, od_get (key_of (node_of defuses u)) (ud_users defuses chain m) = Some l
            /\ In chain l.
Proof.
  intros Hu. unfold ud_users.
  apply (fold_left_ud_has
           (fun m use => ud_append (key_of (node_of defuses use)) chain m)
           (users defuses chain) u m); auto.
  - intros. apply ud_le_append.
  - intros. apply ud_append_has.
Qed.

(** The [Def]s that [UseDefChains] reads: the values of [chains] and of the
    table of builtins. *)
Definition known (defuses : DefUseChains) (d : nat) : Prop :=
  In d (od_values (chains defuses)) \/ In d (od_values (_builtins defuses)).

(** Every element of an entry is a known [Def] that has a user at the key. *)
Definition ud_justified (defuses : DefUseChains) (m : list (objkey * list nat)) : Prop :=
  forall k l x, od_get k m = Some l -> In x l ->
    known defuses x /\
    exists u, In u (users defuses x) /\ key_of (node_of defuses u) = k.

Lemma ud_justified_setdefault defuses k m :
  ud_justified defuses m -> ud_justified defuses (ud_setdefault k m).
Proof.
  unfold ud_setdefault. intros H. destruct (od_get k m) eqn:E; [assumption|].
  intros k' l x Hl Hx. destruct (decide (k = k')) as [->|Hne].
  - rewrite od_get_set_eq in Hl. inversion Hl; subst. destruct Hx.
  - rewrite od_get_set_ne in Hl by assumption. eapply H; eassumption.
Qed.

Lemma ud_justified_users defuses chain m :
  known defuses chain ->
  ud_justified defuses m -> ud_justified defuses (ud_users defuses chain m).
Proof.
  intros Hk. unfold ud_users.
  assert (Hall : forall u, In u (users defuses chain) -> In u (users defuses chain)) by auto.
  revert m Hall. generalize (users defuses chain) at 1 3.
  intros us. induction us as [|u us IH]; intros m Hall Hm; simpl; [assumption|].
  apply IH; [intros; apply Hall; right; assumption|].
  intros k l x Hl Hx. unfold ud_append in Hl.
  destruct (decide (key_of (node_of defuses u) = k)) as [<-|Hne].
  - rewrite od_get_set_eq in Hl. inversion Hl; subst; clear Hl.
    apply in_app_or in Hx. destruct Hx as [Hx|[<-|[]]].
    + destruct (od_get (key_of (node_of defuses u)) m) as [l0|] eqn:E; [|destruct Hx].
      eapply Hm; eassumption.
    + split; [assumption|]. exists u. split; [apply Hall; left|]; reflexivity.
  - rewrite od_get_set_ne in Hl by assumption. eapply Hm; eassumption.
Qed.

Lemma ud_justified_chains defuses xs m :
  (forall x, In x xs -> known defuses x) ->
  ud_justified defuses m -> ud_justified defuses (fold_left (ud_chain defuses) xs m).
Proof.
  revert m. induction xs as [|x xs IH]; intros m Hxs Hm; simpl; [assumption|].
  apply IH; [intros; apply Hxs; right; assumption|].
  unfold ud_chain. apply ud_justified_users; [apply Hxs; left; reflexivity|].
  destruct (node_of defuses x); try assumption.
  destruct (is_Name n); [apply ud_justified_setdefault|]; assumption.
Qed.

Lemma ud_justified_UseDefChains defuses : ud_justified defuses (UseDefChains defuses).
Proof.
  unfold UseDefChains.
  assert (H1 : ud_justified defuses
                 (fold_left (ud_chain defuses) (od_values (chains defuses)) [])).
  { apply ud_justified_chains; [intros; left; assumption|].
    intros k l x Hl. discriminate. }
  revert H1. generalize (fold_left (ud_chain defuses) (od_values (chains defuses)) []).
  assert (Hall : forall x, In x (od_values (_builtins defuses)) -> known defuses x)
    by (intros; right; assumption).
  revert Hall. generalize (od_values (_builtins defuses)).
  intros xs. induction xs as [|x xs IH]; intros Hall m Hm; simpl; [assumption|].
  apply IH; [intros; apply Hall; right; assumption|].
  apply ud_justified_users; [apply Hall; left; reflexivity | assumption].
Qed.

(** C7 (as the code has it). For a [Def] [d] that the analyzer holds in
    [chains] or in its table of builtins and a user [u] of [d], the inverse
    chains map the node of [u] to a list that contains [d]; the node of
    every [Def] of [chains] that is a [Name] is a key of the inverse chains,
    with the empty list when no known [Def] has a user at that node; and
    the inverse chains list no other [Def]: every element of an entry is a
    [Def] of one of the two tables, with a user at the key.  So a [Def] that
    is in neither table, as the [Def("__class__")] of a class scope, is
    listed nowhere. *)
Theorem use_def_chains_inverse defuses d :
  known defuses d ->
  (forall u, In u (users defuses d) ->
     exists l, od_get (key_of (node_of defuses u)) (UseDefChains defuses) = Some l
               /\ In d l) /\
  (In d (od_values (chains defuses)) ->
   forall n, node_of defuses d = ONode n -> is_Name n = true ->
     exists l, od_get (ByNode (node_id n)) (UseDefChains defuses) = Some l /\
       ((forall x u, known defuses x -> In u (users defuses x) ->
           key_of (node_of defuses u) <> ByNode (node_id n)) -> l = [])) /\
  (forall k l x, od_get k (UseDefChains defuses) = Some l -> In x l ->
     known defuses x /\
     exists u, In u (users defuses x) /\ key_of (node_of defuses u) = k).
Proof.
  intros Hk. split; [|split; [|exact (ud_justified_UseDefChains defuses)]].
  - intros u Hu. unfold UseDefChains. destruct Hk as [Hc|Hb].
    + destruct (fold_left_ud_has (ud_chain defuses) (od_values (chains defuses)) d []
                  (key_of (node_of defuses u)) d) as (l & Hl & Hd); auto.
      * intros. apply ud_le_chain.
      * intros m. unfold ud_chain. apply ud_users_has. assumption.
      * destruct (fold_left_ud_le (fun m chain => ud_users defuses chain m)
                    (od_values (_builtins defuses)) _
                    (fun m x => ud_le_users defuses x m) _ _ Hl) as (l' & Hl' & Hi).
        exists l'. split; [assumption | apply Hi; assumption].
    + apply (fold_left_ud_has (fun m chain => ud_users defuses chain m)
               (od_values (_builtins defuses)) d); auto.
      * intros. apply ud_le_users.
      * intros m. apply ud_users_has. assumption.
  - intros Hc n Hn Hname.
    assert (H1 : exists l, od_get (ByNode (node_id n))
                   (fold_left (ud_chain defuses) (od_values (chains defuses)) []) = Some l).
    { assert (Hstep : forall m, exists l,
                od_get (ByNode (node_id n)) (ud_chain defuses m d) = Some l).
      { intros m. unfold ud_chain. rewrite Hn, Hname.
        assert (Hs : exists l, od_get (ByNode (node_id n))
                       (ud_setdefault (ByNode (node_id n)) m) = Some l).
        { unfold ud_setdefault. destruct (od_get (ByNode (node_id n)) m) eqn:E; eauto.
          rewrite od_get_set_eq. eauto. }
        destruct Hs as (l & Hl).
        destruct (ud_le_users defuses d _ _ _ Hl) as (l' & Hl' & _). eauto. }
      revert Hc. generalize (@nil (objkey * list nat)).
      induction (od_values (chains defuses)) as [|x xs IH]; intros m Hin; [destruct Hin|].
      simpl. destruct Hin as [->|Hin]; [|apply IH; assumption].
      destruct (Hstep m) as (l & Hl).
      destruct (fold_left_ud_le (ud_chain defuses) xs _
                  (fun m x => ud_le_chain defuses m x) _ _ Hl) as (l' & Hl' & _). eauto. }
    destruct H1 as (l & Hl). unfold UseDefChains.
    destruct (fold_left_ud_le (fun m chain => ud_users defuses chain m)
                (od_values (_builtins defuses)) _
                (fun m x => ud_le_users defuses x m) _ _ Hl) as (l' & Hl' & _).
    exists l'. split; [assumption|]. intros Hnone.
    destruct l' as [|x l']; [reflexivity|]. exfalso.
    destruct (ud_justified_UseDefChains defuses _ _ x Hl' (or_introl eq_refl))
      as (Hkx & u & Hu & Hkey).
    exact (Hnone x u Hkx Hu Hkey).
Qed.

(** The analyzer after [a = 1; a + 2]; the [Def] at address 3 is the one of
    the assigned [a]. *)
Definition example_analyzed : DefUseChains :=
  final (analyze 20 example_builtins example_expression).

Lemma use_def_chains_inverse_witness :
  (forall u, In u (users example_analyzed 3) ->
     exists l, od_get (key_of (node_of example_analyzed u))
                 (UseDefChains example_analyzed) = Some l /\ In 3 l) /\
  (In 3 (od_values (chains example_analyzed)) ->
   forall n, node_of example_analyzed 3 = ONode n -> is_Name n = true ->
     exists l, od_get (ByNode (node_id n)) (UseDefChains example_analyzed) = Some l /\
       ((forall x u, known example_analyzed x -> In u (users example_analyzed x) ->
           key_of (node_of example_analyzed u) <> ByNode (node_id n)) -> l = [])) /\
  (forall k l x, od_get k (UseDefChains example_analyzed) = Some l -> In x l ->
     known example_analyzed x /\
     exists u, In u (users example_analyzed x) /\
               key_of (node_of example_analyzed u) = k).
Proof.
  apply (use_def_chains_inverse example_analyzed 3).
  vm_compute. auto 10.
Defined.

(** ** Deletion *)

(** [same_layers s s']: the definition layers, their sets, and everything
    else that name resolution reads are the same in [s'] as in [s]. *)
Definition same_layers (s s' : DefUseChains) : Prop :=
  heap_sets s' = heap_sets s /\
  heap_dicts s' = heap_dicts s /\
  _definitions s' = _definitions s /\
  _scopes s' = _scopes s /\
  _scope_depths s' = _scope_depths s /\
  _globals s' = _globals s /\
  _precomputed_locals s' = _precomputed_locals s /\
  _deadcode s' = _deadcode s.

#[global] Instance same_layers_preorder : PreOrder same_layers.
Proof.
  split.
  - intros s. repeat split.
  - intros s1 s2 s3. unfold same_layers. intuition congruence.
Qed.

Lemma respects_weaken {A} (R R' : DefUseChains -> DefUseChains -> Prop) (m : M A) :
  (forall s s', R s s' -> R' s s') -> respects R m -> respects R' m.
Proof. intros HR Hm s. eapply wp_mono; [apply Hm|]. intros a s'. apply HR. Qed.
















(** ** Ordered sets and users *)

Lemma oset_add_In x u l : In x (oset_add u l) <-> x = u \/ In x l.
Proof.
  unfold oset_add. destruct (bool_decide (u ∈ l)) eqn:E.
  - apply bool_decide_eq_true in E. apply list_elem_of_In in E.
    split; [auto | intros [->|H]; assumption].
  - rewrite in_app_iff. simpl. intuition congruence.
Qed.

Lemma oset_update_In x l xs : In x (oset_update l xs) <-> In x l \/ In x xs.
Proof.
  unfold oset_update. revert l. induction xs as [|y xs IH]; intros l; simpl.
  - tauto.
  - rewrite IH, oset_add_In. intuition congruence.
Qed.

Lemma users_alloc s o d :
  users (upd_heap_defs (fun h => h ++ [mkDef o []]) s) d = users s d.
Proof.
  unfold users, def_at. simpl.
  destruct (decide (d < length (heap_defs s))) as [Hlt|Hge].
  - rewrite lookup_app_l by assumption. reflexivity.
  - rewrite lookup_app_r by lia.
    rewrite (lookup_ge_None_2 (heap_defs s) d) by lia.
    destruct (d - length (heap_defs s)) as [|k]; simpl; [reflexivity|].
    destruct k; reflexivity.
Qed.

(** The users after [d.add_user(u)]: [u] is added to those of [d], when [d]
    is allocated. *)
Definition with_user (d u : nat) (s : DefUseChains) : DefUseChains :=
  upd_heap_defs (alter (fun D => mkDef (node D) (oset_add u (_users D))) d) s.

Lemma add_user_Ok d u s a s' : add_user d u s = Ok a s' -> s' = with_user d u s.
Proof. unfold add_user. intros H. apply modify_Ok in H. exact H. Qed.

Lemma users_with_user d u s d' x :
  In x (users (with_user d u s) d') <->
  In x (users s d') \/ (d' = d /\ x = u /\ d < length (heap_defs s)).
Proof.
  unfold users, def_at, with_user. simpl.
  destruct (decide (d' = d)) as [->|Hne].
  - rewrite list_lookup_alter_eq.
    destruct (heap_defs s !! d) as [D|] eqn:E; simpl.
    + apply lookup_lt_Some in E. rewrite oset_add_In. intuition.
    + apply lookup_ge_None in E. intuition lia.
  - rewrite list_lookup_alter_ne by congruence. intuition congruence.
Qed.

Lemma length_with_user d u s : length (heap_defs (with_user d u s)) = length (heap_defs s).
Proof. unfold with_user. simpl. apply length_alter. Qed.

(** [for d in ds: d.add_user(u)] *)
Definition with_users (ds : list nat) (u : nat) (s : DefUseChains) : DefUseChains :=
  fold_left (fun s d => with_user d u s) ds s.

Lemma add_users_Ok ds u s a s' :
  forM_ ds (fun d => add_user d u) s = Ok a s' -> s' = with_users ds u s.
Proof.
  revert s. induction ds as [|d ds IH]; intros s H; simpl in *.
  - apply ret_Ok in H. destruct H. assumption.
  - apply bind_Ok in H. destruct H as (x & s1 & H1 & H2).
    apply add_user_Ok in H1. subst s1. apply IH. assumption.
Qed.

Lemma chains_with_users ds u s : chains (with_users ds u s) = chains s.
Proof.
  revert s. induction ds as [|d ds IH]; intros s; simpl; [reflexivity|].
  rewrite IH. reflexivity.
Qed.

Lemma length_with_users ds u s :
  length (heap_defs (with_users ds u s)) = length (heap_defs s).
Proof.
  revert s. induction ds as [|d ds IH]; intros s; simpl; [reflexivity|].
  rewrite IH. apply length_with_user.
Qed.

Lemma users_with_users ds u s d' x :
  In x (users (with_users ds u s) d') <->
  In x (users s d') \/ (In d' ds /\ x = u /\ d' < length (heap_defs s)).
Proof.
  revert s. induction ds as [|d ds IH]; intros s; simpl.
  - tauto.
  - rewrite IH, users_with_user, length_with_user. intuition (subst; auto).
Qed.

(** [chains_le s s']: the entries of [chains] stay. *)
Definition chains_le (s s' : DefUseChains) : Prop :=
  forall k d, od_get k (chains s) = Some d -> od_get k (chains s') = Some d.

#[global] Instance chains_le_preorder : PreOrder chains_le.
Proof. split; [intros s k d H | intros s1 s2 s3 H1 H2 k d H]; auto. Qed.





(** ** Nonlocal *)


Lemma set_definition_live name a s T :
  _deadcode s = 0%Z -> Py.last (_definitions s) = Some T ->
  set_definition name a s
  = Ok tt (upd_heap_dicts (alter (od_set name (length (heap_sets s))) T)
             (upd_heap_sets (fun h => h ++ [oset_update [] (dnodes_elems s a)]) s)).
Proof.
  intros Hd HT. unfold set_definition, bind, get, top, bind, get, expect.
  rewrite Hd. simpl. rewrite HT. reflexivity.
Qed.

Lemma set_definition_dead name a s :
  _deadcode s <> 0%Z -> set_definition name a s = Ok tt s.
Proof.
  intros Hd. unfold set_definition, bind, get.
  rewrite (bool_decide_eq_true_2 _ Hd). reflexivity.
Qed.


(** The layer of a function that binds [x], below the empty layer of a
    nested function, in dead code: the state in which the [nonlocal] of
    [def f(): x = 1; def g(): raise E; nonlocal x] is visited. *)
Definition example_dead_nonlocal : DefUseChains :=
  mkDefUseChains
    [mkDef (OValue "int") []]
    [[0]]
    [[("x", 0)]; []]
    [] [] [] []
    [0; 1] [(-1)%Z; (-1)%Z] [[]; []] [[]; []] []
    [NModule example_expression; NModule example_expression] [] [] 1%Z None [].


(** The same layers in live code: the binding is aliased on top. *)
Example nonlocal_aliased_in_live_code :
  let s := upd_deadcode (fun _ => 0%Z) example_dead_nonlocal in
  exists s', visit_Nonlocal_name (Nonlocal 30 ["x"]) "x" s = Ok tt s' /\
    stdout s' = [] /\ od_get "x" (dict_items s' 1) = Some 1 /\ set_elems s' 1 = [0].
Proof. cbv zeta. eexists. repeat split. Qed.

(** ** Lambda *)

(** [lambda x=d: a], with [d] and [a] bound nowhere *)
Definition example_lambda : module_ :=
  Module 0
    [Expr 1 (Lambda 2
               (Arguments 3 [Name 4 "x" Param None] [] None [] [] None
                  [Name 5 "d" Load None])
               (Name 6 "a" Load None))].

(** [def f(x=d): a], its counterpart with a function definition *)
Definition example_def : module_ :=
  Module 0
    [FunctionDef false 2 "f"
       (Arguments 3 [Name 4 "x" Param None] [] None [] [] None
          [Name 5 "d" Load None])
       [Expr 7 (Name 6 "a" Load None)] [] None].

(** C2 (what the code does). The visit of a [Lambda] only registers the
    [Def] of the node: the default values are not visited and the node is
    not put on the queue of deferred bodies, so that the [DefinitionStep] of
    [visit_Lambda] never runs.  On [lambda x=d: a] the analysis ends with
    the lambda alone in [chains], an empty queue and no diagnostic; on
    [def f(x=d): a] the default and the body are visited: [d] and [a] are
    in [chains], both reported unbound, and the function was queued. *)
Theorem lambda_is_not_deferred :
  (forall self fuel i args body,
     dispatch self fuel (NExpr (Lambda i args body))
     = (dnode <- chains_setdefault (NExpr (Lambda i args body)) ;; ret (Some dnode))) /\
  (let s' := final (analyze 20 example_builtins example_lambda) in
   od_keys (chains s') = [2] /\ _defered s' = [] /\ stdout s' = []) /\
  (let s' := final (analyze 20 example_builtins example_def) in
   od_keys (chains s') = [2; 5; 4; 6] /\ length (_defered s') = 1 /\
   List.map fst (stdout s') = ["d"; "a"]).
Proof.
  split; [reflexivity|]. split; vm_compute; repeat split; reflexivity.
Qed.

(** ** Reachability: every user is in [chains]

    [same_core s s']: the store of [Def]s, [chains] and [locals] are the
    same in [s'] as in [s]; the methods that only write layers are so. *)

Definition same_core (s s' : DefUseChains) : Prop :=
  heap_defs s' = heap_defs s /\ chains s' = chains s /\ locals s' = locals s.

#[global] Instance same_core_preorder : PreOrder same_core.
Proof.
  split.
  - intros s. repeat split.
  - intros s1 s2 s3. unfold same_core. intuition congruence.
Qed.

Create HintDb same_core.

Lemma same_core_new_set l : respects same_core (new_set l).
Proof. intros s. unfold wp, new_set, same_core. simpl. repeat split; reflexivity. Qed.

Lemma same_core_new_dict l : respects same_core (new_dict l).
Proof. intros s. unfold wp, new_dict, same_core. simpl. repeat split; reflexivity. Qed.

#[local] Hint Resolve same_core_new_set same_core_new_dict : same_core.

Ltac same_core_leaf :=
  first
    [ lazymatch goal with
      | |- respects same_core (modify _) =>
          apply respects_modify; intros; unfold same_core; simpl;
          repeat split; reflexivity
      end
    | solve [auto 1 with same_core] ].

Ltac same_core_go := respects_go same_core_leaf.

Lemma same_core_defs_scopes name base frames lvl looked :
  respects same_core (defs_scopes name base frames lvl looked).
Proof.
  apply (respects_weaken unchanged); [|apply reads_defs_scopes].
  unfold unchanged. intros s s' ->. apply PreOrder_Reflexive.
Qed.

Lemma same_core_looked_up name : respects same_core (looked_up name).
Proof.
  apply (respects_weaken unchanged); [|apply reads_looked_up].
  unfold unchanged. intros s s' ->. apply PreOrder_Reflexive.
Qed.

#[local] Hint Resolve same_core_defs_scopes same_core_looked_up : same_core.

(** [d] is the [Def] that [chains] holds for some node. *)
Definition in_chains (s : DefUseChains) (d : nat) : Prop :=
  exists k, od_get k (chains s) = Some d.

(** The invariant: the users of every [Def] of the store and the [Def]s of
    [locals] are values of [chains], and the values of [chains] are
    allocated. *)
Definition Good (s : DefUseChains) : Prop :=
  (forall d u, In u (users s d) -> in_chains s u) /\
  (forall k l d, od_get k (locals s) = Some l -> In d l -> in_chains s d) /\
  (forall k d, od_get k (chains s) = Some d -> d < length (heap_defs s)).

(** [ext s s']: [chains] and the store of [Def]s only grew. *)
Definition ext (s s' : DefUseChains) : Prop :=
  chains_le s s' /\ length (heap_defs s) <= length (heap_defs s').

#[global] Instance ext_preorder : PreOrder ext.
Proof.
  split.
  - intros s. split; [apply PreOrder_Reflexive | lia].
  - intros s1 s2 s3 [H1 L1] [H2 L2]. split; [|lia].
    exact (PreOrder_Transitive _ _ _ H1 H2).
Qed.

(** The node a call of the visitor is about. *)
Definition call_id (c : call) : nat :=
  match c with
  | Visit n => node_id n
  | VisitDestructured e => expr_id e
  end.

(** What a visit returned is the [Def] that [chains] holds at [k]. *)
Definition res_in (r : option nat) (k : nat) (s : DefUseChains) : Prop :=
  match r with Some d => od_get k (chains s) = Some d | None => True end.

(** [grows post m]: from a good instance, a normal return of [m] leaves a
    good instance that extends it, and [post] holds of the result. *)
Abbreviation grows post m :=
  (forall s, Good s -> wp m (fun a s' => Good s' /\ ext s s' /\ post a s') s).

Lemma in_chains_ext s s' d : ext s s' -> in_chains s d -> in_chains s' d.
Proof. intros [H _] (k & Hk). exists k. apply H. assumption. Qed.

Lemma res_in_ext s s' r k : ext s s' -> res_in r k s -> res_in r k s'.
Proof. intros [H _]. destruct r; simpl; auto. Qed.

Lemma get_ext s s' k d : ext s s' -> od_get k (chains s) = Some d -> od_get k (chains s') = Some d.
Proof. intros [H _]. apply H. Qed.

Lemma in_chains_intro s k d : od_get k (chains s) = Some d -> in_chains s d.
Proof. intros H. exists k. exact H. Qed.

Lemma Good_same_core s s' : same_core s s' -> Good s -> Good s' /\ ext s s'.
Proof.
  intros (Hh & Hc & Hl) (G1 & G2 & G3).
  unfold Good, ext, chains_le, in_chains, users, def_at in *.
  rewrite Hh, Hc, Hl. repeat split; auto.
Qed.

Lemma grows_same_core {A} (m : M A) :
  respects same_core m -> forall s, Good s ->
  wp m (fun _ s' => Good s' /\ ext s s' /\ True) s.
Proof.
  intros Hm s HG. eapply wp_mono; [apply Hm|]. intros a s' Hs.
  destruct (Good_same_core _ _ Hs HG). auto.
Qed.

Lemma grows_new_Def o s :
  Good s ->
  wp (new_Def o) (fun r s' => Good s' /\ ext s s' /\
                    (r = length (heap_defs s) /\ r < length (heap_defs s') /\
                     chains s' = chains s)) s.
Proof.
  intros (G1 & G2 & G3). unfold wp, new_Def.
  assert (L : length (heap_defs s ++ [mkDef o []]) = S (length (heap_defs s)))
    by (rewrite length_app; simpl; lia).
  refine (conj (conj _ (conj _ _)) (conj (conj _ _) (conj _ (conj _ _)))); simpl;
    auto; try lia.
  - intros d u. rewrite users_alloc. apply G1.
  - intros k d H. apply G3 in H. lia.
  - intros k d H. exact H.
Qed.

Lemma grows_chains_setdefault n s :
  Good s ->
  wp (chains_setdefault n)
     (fun r s' => Good s' /\ ext s s' /\ od_get (node_id n) (chains s') = Some r) s.
Proof.
  intros HG. unfold chains_setdefault. apply wp_bind.
  eapply wp_mono; [apply grows_new_Def; assumption|].
  intros d s1 ((G1 & G2 & G3) & Hext & Hd & Hlt & Hc). apply wp_bind, wp_get.
  destruct (od_get (node_id n) (chains s1)) as [d'|] eqn:E.
  - apply wp_ret. refine (conj (conj _ (conj _ _)) (conj _ _)); auto.
  - apply wp_bind, wp_modify, wp_ret. simpl.
    assert (Hle : chains_le s1 (upd_chains (od_set (node_id n) d) s1)).
    { intros k x Hk. simpl. rewrite od_get_set_ne; [assumption | congruence]. }
    refine (conj (conj _ (conj _ _)) (conj (conj _ _) _)).
    + intros x u Hu. destruct (G1 x u Hu) as (k & Hk). exists k. apply Hle. assumption.
    + intros k l x Hl Hx. destruct (G2 k l x Hl Hx) as (k' & Hk'). exists k'.
      apply Hle. assumption.
    + intros k x. simpl. destruct (decide (node_id n = k)) as [<-|Hne].
      * rewrite od_get_set_eq. intros E'. inversion E'. subst. assumption.
      * rewrite od_get_set_ne by assumption. apply G3.
    + exact (PreOrder_Transitive _ _ _ (proj1 Hext) Hle).
    + simpl. destruct Hext. lia.
    + simpl. apply od_get_set_eq.
Qed.

Lemma grows_add_user d u s :
  Good s -> in_chains s u ->
  wp (add_user d u) (fun _ s' => Good s' /\ ext s s' /\ True) s.
Proof.
  intros (G1 & G2 & G3) Hu. unfold add_user. apply wp_modify.
  fold (with_user d u s).
  refine (conj (conj _ (conj _ _)) (conj (conj _ _) I)).
  - intros x y Hy. apply users_with_user in Hy. unfold in_chains. simpl.
    destruct Hy as [Hy | (_ & -> & _)]; [apply G1 in Hy|]; assumption.
  - exact G2.
  - intros k x Hk. rewrite length_with_user. apply G3 in Hk. assumption.
  - intros k x Hk. exact Hk.
  - rewrite length_with_user. lia.
Qed.

Lemma grows_locals_getitem scope s :
  Good s ->
  wp (locals_getitem scope)
     (fun l s' => Good s' /\ ext s s' /\ od_get (node_id scope) (locals s') = Some l) s.
Proof.
  intros (G1 & G2 & G3). unfold locals_getitem. apply wp_bind, wp_get.
  destruct (od_get (node_id scope) (locals s)) eqn:E.
  - apply wp_ret. refine (conj (conj _ (conj _ _)) (conj _ _)); auto.
    apply PreOrder_Reflexive.
  - apply wp_bind, wp_modify, wp_ret.
    refine (conj (conj _ (conj _ _)) (conj (conj _ _) _)); auto; simpl.
    + intros k l d. destruct (decide (node_id scope = k)) as [<-|Hne].
      * rewrite od_get_set_eq. intros E' Hd. inversion E'. subst. destruct Hd.
      * rewrite od_get_set_ne by assumption. apply G2.
    + intros k d H. exact H.
    + apply od_get_set_eq.
Qed.

Lemma grows_locals_append scope d s :
  Good s -> in_chains s d ->
  wp (locals_append scope d) (fun _ s' => Good s' /\ ext s s' /\ True) s.
Proof.
  intros HG Hd. unfold locals_append. apply wp_bind.
  eapply wp_mono; [apply grows_locals_getitem; assumption|].
  intros l s1 ((G1 & G2 & G3) & Hext & Hl). apply wp_modify.
  refine (conj (conj _ (conj _ _)) (conj (conj _ _) I)); auto; simpl.
  - intros k l' x. destruct (decide (node_id scope = k)) as [<-|Hne].
    + rewrite od_get_set_eq. intros E' Hx. inversion E'. subst.
      apply in_app_or in Hx. destruct Hx as [Hx|[<-|[]]].
      * eapply G2; eassumption.
      * eapply in_chains_ext; eassumption.
    + rewrite od_get_set_ne by assumption. apply G2.
  - destruct Hext as [H _]. exact H.
  - destruct Hext as [_ H]. exact H.
Qed.

Lemma wp_forM_grows {A} (l : list A) (f : A -> M unit) s :
  Good s ->
  (forall x s1, Good s1 -> ext s s1 ->
     wp (f x) (fun _ s' => Good s' /\ ext s1 s' /\ True) s1) ->
  wp (forM_ l f) (fun _ s' => Good s' /\ ext s s' /\ True) s.
Proof.
  intros HG Hf.
  assert (H : forall s1, Good s1 -> ext s s1 ->
            wp (forM_ l f) (fun _ s' => Good s' /\ ext s s' /\ True) s1).
  { induction l as [|x l IH]; intros s1 HG1 Hext; simpl.
    - apply wp_ret. auto.
    - apply wp_bind. eapply wp_mono; [apply Hf; assumption|].
      intros u s2 (HG2 & Hext2 & _). apply IH; [assumption|].
      exact (PreOrder_Transitive _ _ _ Hext Hext2). }
  apply H; [assumption | apply PreOrder_Reflexive].
Qed.

Create HintDb grows.
#[local] Hint Resolve grows_new_Def grows_chains_setdefault grows_add_user
  grows_locals_getitem grows_locals_append in_chains_intro : grows.

(** The facts about [chains] known of the instance that [Hext] extends
    are restated for the one it extends to. *)
Ltac transport_to Hext :=
  repeat match goal with
  | H : od_get _ (chains ?s) = Some _ |- _ =>
      lazymatch type of Hext with ext s _ => apply (get_ext _ _ _ _ Hext) in H end
  | H : in_chains ?s _ |- _ =>
      lazymatch type of Hext with ext s _ => apply (in_chains_ext _ _ _ Hext) in H end
  | H : res_in _ _ ?s |- _ =>
      lazymatch type of Hext with ext s _ => apply (res_in_ext _ _ _ _ Hext) in H end
  | H : ext _ ?s |- _ =>
      lazymatch type of Hext with
      | ext s _ => apply (fun h => PreOrder_Transitive _ _ _ h Hext) in H
      end
  end;
  repeat match goal with
  | H : Good ?s |- _ => lazymatch type of Hext with ext s _ => clear H end
  end.

(** After a step with a known specification: name what it gives, move the
    facts forward. *)
Ltac after_spec :=
  let r := fresh "r" in
  let s1 := fresh "s" in
  let HG := fresh "HG" in
  let Hext := fresh "Hext" in
  let Hp := fresh "Hp" in
  intros r s1 (HG & Hext & Hp); cbv beta; transport_to Hext; clear Hext;
  cbn [res_in call_id node_id] in *.

Ltac grows_finish :=
  refine (conj _ (conj _ _));
  [ assumption
  | first [assumption | apply PreOrder_Reflexive]
  | first [exact I | assumption | reflexivity | cbn [res_in]; assumption | idtac] ].

(** A method that calls [self]. *)
Ltac calls_self m :=
  match m with
  | context [?f ?x] => lazymatch type of x with Self => idtac end
  end.

Ltac grows_spec := eapply wp_mono; [ solve [eauto 3 with grows] | after_spec ].

Ltac grows_step :=
  lazymatch goal with
  | |- Good _ /\ _ => grows_finish
  | |- wp (bind _ _) _ _ => apply wp_bind
  | |- wp (ret _) _ _ =>
      apply wp_ret; cbv beta;
      lazymatch goal with
      | |- Good _ /\ _ => grows_finish
      | |- _ => idtac
      end
  | |- wp (raise _) _ _ => exact I
  | |- wp out_of_fuel _ _ => exact I
  | |- wp get _ _ => apply wp_get; cbv beta
  | |- wp (expect _ _) _ _ => apply wp_expect; intros ? ?
  | |- wp (ScopeContext _ _) _ _ => unfold ScopeContext
  | |- wp (CompScopeContext _ _) _ _ => unfold CompScopeContext, ScopeContext
  | |- wp (DefinitionContext _ _) _ _ => unfold DefinitionContext
  | |- wp (SwitchScopeContext _ _ _ _ _) _ _ => unfold SwitchScopeContext
  | |- wp (match ?x with _ => _ end) _ _ =>
      first
        [ grows_spec
        | tryif is_var x then destruct x else destruct x eqn:?;
          cbn [res_in] in * ]
  | |- wp (let (_, _) := ?x in _) _ _ => destruct x
  | |- wp (forM_ _ _) _ ?s =>
      first
        [ grows_spec
        | eapply wp_mono;
          [ apply wp_forM_grows;
            [ assumption
            | let x := fresh "x" in
              let s1 := fresh "s" in
              let HG := fresh "HG" in
              let Hext := fresh "Hext" in
              let Hb := fresh "Hbase" in
              intros x s1 HG Hext; transport_to Hext; clear Hext;
              assert (Hb : ext s1 s1) by apply PreOrder_Reflexive ]
          | after_spec ] ]
  | |- wp ?m _ ?s =>
      first
        [ grows_spec
        | tryif calls_self m then fail
          else (eapply wp_mono;
                [ apply grows_same_core; [ solve [same_core_go] | assumption ]
                | after_spec ])
        | let h := head_of m in unfold h ]
  end.

Ltac grows_go := repeat grows_step.

(** To prove [grows post m]: start from a good instance. *)
Ltac grows_start :=
  let s := fresh "s" in
  let HG := fresh "HG" in
  let Hb := fresh "Hbase" in
  intros s HG; assert (Hb : ext s s) by apply PreOrder_Reflexive.

Lemma grows_defs n name quiet : grows (fun _ _ => True) (defs n name quiet).
Proof. grows_start. grows_go. Qed.

(** [for user in undef.users(): newdef.add_user(user)]: the users of a
    [Def] are in [chains] already. *)
Lemma grows_copy_users d newdef s :
  Good s ->
  wp (forM_ (users s d) (fun user => add_user newdef user))
     (fun _ s' => Good s' /\ ext s s' /\ True) s.
Proof.
  intros HG.
  assert (H : forall l s1, Good s1 -> (forall u, In u l -> in_chains s1 u) ->
            wp (forM_ l (fun user => add_user newdef user))
               (fun _ s' => Good s' /\ ext s1 s' /\ True) s1).
  { induction l as [|u l IH]; intros s1 HG1 Hl; simpl.
    - apply wp_ret. refine (conj HG1 (conj _ I)). apply PreOrder_Reflexive.
    - apply wp_bind. eapply wp_mono; [apply grows_add_user; auto; apply Hl; left; reflexivity|].
      intros x s2 (HG2 & Hext2 & _). eapply wp_mono.
      + apply IH; [assumption|]. intros v Hv. eapply in_chains_ext; [eassumption|].
        apply Hl. right. assumption.
      + intros y s3 (HG3 & Hext3 & _). refine (conj HG3 (conj _ I)).
        exact (PreOrder_Transitive _ _ _ Hext2 Hext3). }
  apply H; [assumption|]. intros u Hu. destruct HG as (G1 & _). eapply G1. eassumption.
Qed.

#[local] Hint Resolve grows_copy_users grows_defs : grows.

Lemma grows_process_undefs : grows (fun _ _ => True) process_undefs.
Proof. grows_start. grows_go. Qed.

Lemma grows_exec_items dnode items visible s :
  Good s -> in_chains s dnode ->
  wp (exec_items dnode items visible) (fun _ s' => Good s' /\ ext s s' /\ True) s.
Proof.
  revert visible s.
  induction items as [|[dname sid] items IH]; intros visible s HG Hd;
    assert (Hbase : ext s s) by apply PreOrder_Reflexive; simpl; grows_go.
Qed.

Lemma grows_exec_locals dnode layers visible s :
  Good s -> in_chains s dnode ->
  wp (exec_locals dnode layers visible) (fun _ s' => Good s' /\ ext s s' /\ True) s.
Proof.
  pose proof grows_exec_items as Hitems.
  revert visible s.
  induction layers as [|l layers IH]; intros visible s HG Hd;
    assert (Hbase : ext s s) by apply PreOrder_Reflexive; simpl; grows_go.
Qed.

#[local] Hint Resolve grows_process_undefs grows_exec_items grows_exec_locals : grows.

(** [calm s s']: the users of every [Def] and [locals] are the same in [s']
    as in [s], and [chains] and the store only grew; name resolution is
    so. *)
Definition calm (s s' : DefUseChains) : Prop :=
  chains_le s s' /\ (forall d, users s' d = users s d) /\ locals s' = locals s /\
  length (heap_defs s) <= length (heap_defs s').

#[global] Instance calm_preorder : PreOrder calm.
Proof.
  split.
  - intros s. repeat split; auto. intros k d H. exact H.
  - intros s1 s2 s3 (A1 & A2 & A3 & A4) (B1 & B2 & B3 & B4).
    refine (conj _ (conj _ (conj _ _))).
    + exact (PreOrder_Transitive _ _ _ A1 B1).
    + intros d. rewrite B2. apply A2.
    + congruence.
    + lia.
Qed.

Lemma calm_new_Def o : respects calm (new_Def o).
Proof.
  intros s. unfold wp, new_Def. refine (conj _ (conj _ (conj _ _))); simpl; auto.
  - intros k d H. exact H.
  - intros d. apply users_alloc.
  - rewrite length_app. lia.
Qed.

Ltac calm_leaf :=
  first
    [ lazymatch goal with
      | |- respects calm (modify _) =>
          let H := fresh in
          apply respects_modify; intros ?; unfold calm; simpl;
          refine (conj _ (conj _ (conj _ _)));
          [ intros ? ? H; exact H | reflexivity | reflexivity | lia ]
      | |- respects calm (new_Def _) => apply calm_new_Def
      | |- respects calm (looked_up _) =>
          apply (respects_weaken unchanged);
          [unfold unchanged; intros s s' ->; apply PreOrder_Reflexive
          | apply reads_looked_up]
      end
    | solve [auto 2] ].

Lemma calm_chains_setdefault n : respects calm (chains_setdefault n).
Proof.
  intros s. apply wp_intro. intros a s' H. unfold chains_setdefault in H. inv_ok.
  destruct (od_get (node_id n) (chains _)) eqn:E; inv_ok;
    (refine (conj _ (conj _ (conj _ _))); simpl;
     [ | intros d; apply users_alloc | reflexivity | rewrite length_app; lia ]);
    intros k d Hk; simpl in *; [assumption|].
  rewrite od_get_set_ne; [assumption | congruence].
Qed.

#[local] Hint Resolve calm_chains_setdefault : core.

Lemma calm_defs n name quiet : respects calm (defs n name quiet).
Proof. respects_go calm_leaf. Qed.

Lemma locals_with_users ds u s : locals (with_users ds u s) = locals s.
Proof.
  revert s. induction ds as [|d ds IH]; intros s; simpl; [reflexivity|].
  rewrite IH. reflexivity.
Qed.

Lemma Good_with_users ds u s :
  Good s -> in_chains s u -> Good (with_users ds u s) /\ ext s (with_users ds u s).
Proof.
  intros (G1 & G2 & G3) Hu. unfold Good, ext, in_chains, chains_le.
  rewrite chains_with_users, locals_with_users, length_with_users.
  refine (conj (conj _ (conj G2 G3)) (conj _ _)); auto.
  intros d x Hx. apply users_with_users in Hx.
  destruct Hx as [Hx | (_ & -> & _)]; [eapply G1; eassumption | exact Hu].
Qed.

(** The [Def] of a node that [chains] did not hold is made a user of some
    [Def]s and then recorded, over what name resolution may have put at
    that node in between. *)
Lemma Good_record k a ds s1 s2 :
  Good s1 -> od_get k (chains s1) = None -> a < length (heap_defs s1) ->
  calm s1 s2 -> Good s2 ->
  let s4 := upd_chains (od_set k a) (with_users ds a s2) in
  Good s4 /\ ext s1 s4.
Proof.
  intros (G1 & G2 & G3) Hk Ha (C1 & C2 & C3 & C4) (G1' & G2' & G3') s4.
  assert (Hold : forall u, in_chains s1 u -> in_chains s4 u).
  { intros u (k' & Hk'). exists k'. unfold s4. simpl. rewrite chains_with_users.
    rewrite od_get_set_ne by congruence. apply C1. assumption. }
  refine (conj (conj _ (conj _ _)) (conj _ _)).
  - intros d u Hu. unfold s4 in Hu.
    change (In u (users (with_users ds a s2) d)) in Hu.
    apply users_with_users in Hu. destruct Hu as [Hu | (_ & -> & _)].
    + apply Hold. rewrite C2 in Hu. eapply G1. eassumption.
    + exists k. unfold s4. simpl. apply od_get_set_eq.
  - intros k' l d Hl Hd. apply Hold. unfold s4 in Hl. simpl in Hl.
    rewrite locals_with_users, C3 in Hl. eapply G2; eassumption.
  - intros k' d. unfold s4. simpl. rewrite chains_with_users, length_with_users.
    destruct (decide (k = k')) as [<-|Hne].
    + rewrite od_get_set_eq. intros E. inversion E. subst. lia.
    + rewrite od_get_set_ne by assumption. apply G3'.
  - intros k' d Hk'. unfold s4. simpl. rewrite chains_with_users.
    rewrite od_get_set_ne by congruence. apply C1. assumption.
  - unfold s4. simpl. rewrite length_with_users. lia.
Qed.

(** A [Name] that is read: its [Def] is in [chains] afterwards. *)
Lemma grows_visit_Name_read self n id ctx annotation skip s :
  ctx = Load \/ ctx = Del -> Good s ->
  wp (visit_Name self n id ctx annotation skip)
     (fun r s' => Good s' /\ ext s s' /\ od_get (expr_id n) (chains s') = Some r) s.
Proof.
  intros Hctx HG. apply wp_intro. intros dnode s' H.
  assert (H' : visit_Name self n id Load annotation skip s = Ok dnode s')
    by (destruct Hctx as [-> | ->]; exact H).
  clear H Hctx. unfold visit_Name in H'.
  apply bind_Ok in H'. destruct H' as (s0 & s0' & Hget & H). apply get_Ok in Hget.
  destruct Hget; subst s0 s0'.
  apply bind_Ok in H. destruct H as (dn & s1 & Hdnode & H).
  apply bind_Ok in H. destruct H as (ds & s2 & Hdefs & H).
  apply bind_Ok in H. destruct H as (u1 & s3 & Hloop & H).
  apply bind_Ok in H. destruct H as (u2 & s4 & Hfin & H).
  apply ret_Ok in H. destruct H; subst dnode s4.
  apply add_users_Ok in Hloop. subst s3.
  destruct (od_get (expr_id n) (chains s)) as [d0|] eqn:E; inv_ok.
  - pose proof (wp_Ok _ _ _ _ _ (grows_defs _ _ _ _ HG) Hdefs) as (HG2 & Hext & _).
    assert (Hin : in_chains s2 d0) by (exists (expr_id n); eapply get_ext; eassumption).
    destruct (Good_with_users ds d0 s2 HG2 Hin) as (HG3 & Hext3).
    refine (conj HG3 (conj (PreOrder_Transitive _ _ _ Hext Hext3) _)).
    rewrite chains_with_users. eapply get_ext; eassumption.
  - match type of Hdefs with defs _ _ _ ?x = _ => set (s1 := x) in * end.
    assert (HG1 : Good s1 /\ ext s s1).
    { pose proof (grows_new_Def (ONode (NExpr n)) s HG) as (A & B & _). auto. }
    destruct HG1 as (HG1 & Hext1).
    pose proof (wp_Ok _ _ _ _ _ (grows_defs _ _ _ _ HG1) Hdefs) as (HG2 & _ & _).
    pose proof (wp_Ok _ _ _ _ _ (calm_defs _ _ _ _) Hdefs) as Hcalm.
    assert (Ha : length (heap_defs s) < length (heap_defs s1))
      by (unfold s1; simpl; rewrite length_app; simpl; lia).
    destruct (Good_record (expr_id n) (length (heap_defs s)) ds s1 s2 HG1 E Ha Hcalm HG2)
      as (HG4 & Hext4).
    refine (conj HG4 (conj (PreOrder_Transitive _ _ _ Hext1 Hext4) _)).
    simpl. apply od_get_set_eq.
Qed.

Section GrowsVisitor.
Variable self : Self.
Hypothesis grows_self : forall c s, Good s ->
  wp (self c) (fun r s' => Good s' /\ ext s s' /\ res_in r (call_id c) s') s.

Hint Resolve grows_self : grows.

Lemma grows_process_body_loop stmts deadcode s :
  Good s ->
  wp (process_body_loop self stmts deadcode) (fun _ s' => Good s' /\ ext s s' /\ True) s.
Proof.
  revert deadcode s.
  induction stmts as [|stmt stmts IH]; intros deadcode s HG;
    assert (Hbase : ext s s) by apply PreOrder_Reflexive; simpl; grows_go.
Qed.

Hint Resolve grows_process_body_loop : grows.

Lemma grows_process_body stmts : grows (fun _ _ => True) (process_body self stmts).
Proof. grows_start. grows_go. Qed.

Hint Resolve grows_process_body : grows.

Lemma grows_visit_Name n id ctx annotation skip s :
  Good s ->
  wp (visit_Name self n id ctx annotation skip)
     (fun r s' => Good s' /\ ext s s' /\ od_get (expr_id n) (chains s') = Some r) s.
Proof.
  intros HG. assert (Hbase : ext s s) by apply PreOrder_Reflexive.
  destruct ctx; try (apply grows_visit_Name_read; auto; fail); try exact I;
    unfold visit_Name; grows_go.
Qed.

Hint Resolve grows_visit_Name : grows.

Lemma grows_visit_ e : grows (fun _ _ => True) (visit_ self e).
Proof. grows_start. grows_go. Qed.

Hint Resolve grows_visit_ : grows.

Lemma grows_visit_opt o : grows (fun _ _ => True) (visit_opt self o).
Proof. grows_start. grows_go. Qed.

Lemma grows_visit_link dnode e s :
  Good s -> in_chains s dnode ->
  wp (visit_link self dnode e) (fun _ s' => Good s' /\ ext s s' /\ True) s.
Proof.
  intros HG Hd. assert (Hbase : ext s s) by apply PreOrder_Reflexive.
  grows_go.
Qed.

Hint Resolve grows_visit_opt grows_visit_link : grows.

Lemma grows_visit_link_opt dnode o s :
  Good s -> in_chains s dnode ->
  wp (visit_link_opt self dnode o) (fun _ s' => Good s' /\ ext s s' /\ True) s.
Proof.
  intros HG Hd. assert (Hbase : ext s s) by apply PreOrder_Reflexive.
  grows_go.
Qed.

Lemma grows_visit_annotation e : grows (fun _ _ => True) (visit_annotation self e).
Proof. grows_start. grows_go. Qed.

Lemma grows_visit_skip_annotation e :
  grows (fun _ _ => True) (visit_skip_annotation self e).
Proof. grows_start. grows_go. Qed.

Hint Resolve grows_visit_link_opt grows_visit_annotation
  grows_visit_skip_annotation : grows.

Lemma grows_visit_FunctionDef n name args body decorator_list returns st :
  grows (fun r _ => r = None)
    (visit_FunctionDef self n name args body decorator_list returns st).
Proof. grows_start. grows_go. Qed.

Lemma grows_visit_Lambda n args body st :
  grows (fun r s' => res_in r (expr_id n) s') (visit_Lambda self n args body st).
Proof. grows_start. grows_go. Qed.

Hint Resolve grows_visit_FunctionDef grows_visit_Lambda : grows.

Lemma grows_drain_defered fuel i s :
  Good s ->
  wp (drain_defered self fuel i) (fun _ s' => Good s' /\ ext s s' /\ True) s.
Proof.
  revert i s.
  induction fuel as [|fuel IH]; intros i s HG;
    assert (Hbase : ext s s) by apply PreOrder_Reflexive; simpl; grows_go.
Qed.

Hint Resolve grows_drain_defered : grows.

Lemma grows_visit_Destructured n elts :
  grows (fun r s' => res_in r (expr_id n) s') (visit_Destructured self n elts).
Proof. grows_start. grows_go. Qed.

Hint Resolve grows_visit_Destructured : grows.

Lemma grows_visit_Module fuel m : grows (fun r _ => r = None) (visit_Module self fuel m).
Proof. grows_start. grows_go. Qed.

Hint Resolve grows_visit_Module : grows.

Lemma grows_dispatch_stmt fuel st :
  grows (fun r _ => r = None) (dispatch self fuel (NStmt st)).
Proof.
  grows_start. destruct st; cbn [dispatch];
    unfold visit_Break, visit_Continue, drain_into, visit_Global, visit_Nonlocal;
    grows_go.
Qed.

Lemma grows_dispatch_expr fuel e :
  grows (fun r s' => res_in r (expr_id e) s') (dispatch self fuel (NExpr e)).
Proof. grows_start. destruct e; cbn [dispatch]; grows_go. Qed.

Lemma grows_dispatch fuel n :
  grows (fun r s' => res_in r (node_id n) s') (dispatch self fuel n).
Proof.
  destruct n as [m|st|e|c|a|k|a|w|h].
  - intros s HG. eapply wp_mono; [apply grows_visit_Module; assumption|].
    intros r s' (H1 & H2 & ->). exact (conj H1 (conj H2 I)).
  - intros s HG. eapply wp_mono; [apply grows_dispatch_stmt; assumption|].
    intros r s' (H1 & H2 & ->). exact (conj H1 (conj H2 I)).
  - apply grows_dispatch_expr.
  - grows_start. cbn [dispatch]. grows_go.
  - grows_start. cbn [dispatch]. grows_go.
  - grows_start. cbn [dispatch]. grows_go.
  - grows_start. cbn [dispatch]. grows_go.
  - grows_start. cbn [dispatch]. grows_go.
  - grows_start. cbn [dispatch]. grows_go.
Qed.
End GrowsVisitor.

Lemma grows_run fuel c : grows (fun r s' => res_in r (call_id c) s') (run fuel c).
Proof.
  revert c. induction fuel as [|fuel IH]; intros c s HG; [exact I|].
  destruct c as [n|e]; cbn [run call_id].
  - apply grows_dispatch; assumption.
  - destruct e; try exact I. apply grows_visit_Destructured; assumption.
Qed.

Lemma Good_init Builtins : Good (DefUseChains_init Builtins).
Proof.
  refine (conj _ (conj _ _)).
  - intros d u. unfold users, def_at, DefUseChains_init. simpl.
    rewrite list_lookup_fmap. destruct (Builtins !! d); simpl; intros [].
  - intros k l d H. discriminate H.
  - intros k d H. discriminate H.
Qed.

(** *** The [Def]s of [chains] are [Def]s of nodes

    [Nodes_ok s]: the [Def] that [chains] holds for a node is a [Def] of
    that node, and the [Def]s of the table of builtins are [Def]s of builtin
    values. *)
Definition Nodes_ok (s : DefUseChains) : Prop :=
  (forall k d, od_get k (chains s) = Some d ->
     exists n, node_of s d = ONode n /\ node_id n = k) /\
  (forall name d, od_get name (_builtins s) = Some d ->
     exists tyname, node_of s d = OValue tyname).

(** [node_rel s s']: [Nodes_ok] is kept, and the allocated [Def]s keep
    their node. *)
Definition node_rel (s s' : DefUseChains) : Prop :=
  (Nodes_ok s -> Nodes_ok s') /\
  (forall d, d < length (heap_defs s) ->
     d < length (heap_defs s') /\ node_of s' d = node_of s d).

#[global] Instance node_rel_preorder : PreOrder node_rel.
Proof.
  split.
  - intros s. split; auto.
  - intros s1 s2 s3 (A1 & A2) (B1 & B2). split; [auto|].
    intros d Hd. destruct (A2 d Hd) as (Hd2 & E2). destruct (B2 d Hd2) as (Hd3 & E3).
    split; [assumption | congruence].
Qed.

Lemma node_of_allocated s d n : node_of s d = ONode n -> d < length (heap_defs s).
Proof.
  unfold node_of, def_at. destruct (heap_defs s !! d) eqn:E; [|discriminate].
  intros _. eapply lookup_lt_Some. exact E.
Qed.

Lemma node_of_allocated_value s d t : node_of s d = OValue t -> d < length (heap_defs s).
Proof.
  unfold node_of, def_at. destruct (heap_defs s !! d) eqn:E; [|discriminate].
  intros _. eapply lookup_lt_Some. exact E.
Qed.

(** A step that leaves [chains] and the table of builtins alone and keeps
    the nodes. *)
Lemma node_rel_intro s s' :
  chains s' = chains s -> _builtins s' = _builtins s ->
  (forall d, d < length (heap_defs s) ->
     d < length (heap_defs s') /\ node_of s' d = node_of s d) ->
  node_rel s s'.
Proof.
  intros Hc Hb Hn. split; [|exact Hn].
  intros (N1 & N2). split.
  - intros k d. rewrite Hc. intros E. destruct (N1 k d E) as (n & E1 & E2).
    exists n. split; [|exact E2].
    destruct (Hn d (node_of_allocated _ _ _ E1)) as (_ & ->). exact E1.
  - intros name d. rewrite Hb. intros E. destruct (N2 name d E) as (t & E1).
    exists t. destruct (Hn d (node_of_allocated_value _ _ _ E1)) as (_ & ->). exact E1.
Qed.

Lemma node_of_alloc s o d :
  d < length (heap_defs s) ->
  node_of (upd_heap_defs (fun h => h ++ [mkDef o []]) s) d = node_of s d.
Proof.
  intros Hd. unfold node_of, def_at. simpl. rewrite lookup_app_l by assumption.
  reflexivity.
Qed.

Lemma node_new_Def o : respects node_rel (new_Def o).
Proof.
  intros s. apply node_rel_intro; try reflexivity.
  intros d Hd. split; [simpl; rewrite length_app; lia | apply node_of_alloc; assumption].
Qed.

Lemma node_of_with_user d u s x : node_of (with_user d u s) x = node_of s x.
Proof.
  unfold node_of, def_at, with_user. simpl.
  destruct (decide (x = d)) as [->|Hne].
  - rewrite list_lookup_alter_eq. destruct (heap_defs s !! d); reflexivity.
  - rewrite list_lookup_alter_ne by congruence. reflexivity.
Qed.

Lemma node_add_user d u : respects node_rel (add_user d u).
Proof.
  intros s. apply node_rel_intro; try reflexivity.
  intros x Hx. split; [|apply node_of_with_user].
  change (x < length (heap_defs (with_user d u s))). rewrite length_with_user. exact Hx.
Qed.

Lemma node_of_new s o :
  node_of (upd_heap_defs (fun h => h ++ [mkDef o []]) s) (length (heap_defs s)) = o.
Proof.
  unfold node_of, def_at. simpl. rewrite lookup_app_r by lia.
  rewrite Nat.sub_diag. reflexivity.
Qed.

(** Recording a [Def] of the node itself keeps [Nodes_ok]. *)
Lemma Nodes_ok_record n d s :
  node_of s d = ONode n -> Nodes_ok s -> Nodes_ok (upd_chains (od_set (node_id n) d) s).
Proof.
  intros Hd (N1 & N2). split; [|exact N2].
  intros k x. simpl. destruct (decide (node_id n = k)) as [<-|Hne].
  - rewrite od_get_set_eq. intros E. inversion E. subst x. exists n. auto.
  - rewrite od_get_set_ne by assumption. apply N1.
Qed.

Lemma node_chains_setdefault n : respects node_rel (chains_setdefault n).
Proof.
  intros s. apply wp_intro. intros a s' H. unfold chains_setdefault in H. inv_ok.
  pose proof (node_new_Def (ONode n) s) as Hnew. unfold wp, new_Def in Hnew.
  destruct (od_get (node_id n) (chains _)) eqn:E; inv_ok; [exact Hnew|].
  destruct Hnew as (A1 & A2). split; [|exact A2].
  intros HN. apply Nodes_ok_record; [apply node_of_new | apply A1; exact HN].
Qed.

Create HintDb nodes.
#[local] Hint Resolve node_new_Def node_add_user node_chains_setdefault : nodes.

Lemma node_new_set l : respects node_rel (new_set l).
Proof. intros s. apply node_rel_intro; auto. Qed.

Lemma node_new_dict l : respects node_rel (new_dict l).
Proof. intros s. apply node_rel_intro; auto. Qed.

#[local] Hint Resolve node_new_set node_new_dict : nodes.

Ltac node_leaf :=
  first
    [ lazymatch goal with
      | |- respects node_rel (looked_up _) =>
          apply (respects_weaken unchanged);
          [unfold unchanged; intros ? ? ->; apply PreOrder_Reflexive
          | apply reads_looked_up]
      | |- respects node_rel (modify _) =>
          apply respects_modify; intros ?; apply node_rel_intro;
          [reflexivity | reflexivity | auto]
      end
    | solve [auto 2 with nodes] ].

Ltac node_go := respects_go node_leaf.

Lemma node_defs n name quiet : respects node_rel (defs n name quiet).
Proof. node_go. Qed.

#[local] Hint Resolve node_defs : nodes.

Lemma node_exec_items dnode items visible :
  respects node_rel (exec_items dnode items visible).
Proof.
  revert visible. induction items as [|[dname sid] items IH]; intros visible; simpl;
    node_go.
Qed.

#[local] Hint Resolve node_exec_items : nodes.

Lemma node_exec_locals dnode layers visible :
  respects node_rel (exec_locals dnode layers visible).
Proof.
  revert visible. induction layers as [|l layers IH]; intros visible; simpl; node_go.
Qed.

#[local] Hint Resolve node_exec_locals : nodes.

(** A [Name] that is read: the [Def] recorded at the end is the one made
    for the node at the start. *)
Lemma node_visit_Name_read self n id ctx annotation skip :
  ctx = Load \/ ctx = Del ->
  respects node_rel (visit_Name self n id ctx annotation skip).
Proof.
  intros Hctx s. apply wp_intro. intros dnode s' H.
  assert (H' : visit_Name self n id Load annotation skip s = Ok dnode s')
    by (destruct Hctx as [-> | ->]; exact H).
  clear H Hctx. unfold visit_Name in H'.
  apply bind_Ok in H'. destruct H' as (s0 & s0' & Hget & H). apply get_Ok in Hget.
  destruct Hget; subst s0 s0'.
  apply bind_Ok in H. destruct H as (dn & s1 & Hdnode & H).
  apply bind_Ok in H. destruct H as (ds & s2 & Hdefs & H).
  apply bind_Ok in H. destruct H as (u1 & s3 & Hloop & H).
  apply bind_Ok in H. destruct H as (u2 & s4 & Hfin & H).
  apply ret_Ok in H. destruct H; subst dnode s4.
  assert (Hr : respects node_rel (forM_ ds (fun d => add_user d dn)))
    by (apply respects_forM; [exact _ | intros d; apply node_add_user]).
  pose proof (wp_Ok _ _ _ _ _ (Hr _) Hloop) as Hloop'. clear Hr.
  pose proof (wp_Ok _ _ _ _ _ (node_defs _ _ _ _) Hdefs) as Hd.
  destruct (od_get (expr_id n) (chains s)) as [d0|] eqn:E; inv_ok.
  - exact (PreOrder_Transitive _ _ _ Hd Hloop').
  - match type of Hdefs with defs _ _ _ ?x = _ => set (s1 := x) in * end.
    pose proof (node_new_Def (ONode (NExpr n)) s) as H01.
    change (node_rel s s1) in H01.
    pose proof (PreOrder_Transitive _ _ _ H01 (PreOrder_Transitive _ _ _ Hd Hloop'))
      as (A1 & A2).
    split.
    + intros HN. apply (Nodes_ok_record (NExpr n)); [|apply A1; exact HN].
      destruct (PreOrder_Transitive _ _ _ Hd Hloop') as (_ & B2).
      destruct (B2 (length (heap_defs s))) as (_ & ->).
      * unfold s1. simpl. rewrite length_app. simpl. lia.
      * apply node_of_new.
    + exact A2.
Qed.

Section NodeVisitor.
Variable self : Self.
Hypothesis node_self : forall c, respects node_rel (self c).

Hint Resolve node_self : nodes.

Lemma node_process_body_loop stmts deadcode :
  respects node_rel (process_body_loop self stmts deadcode).
Proof.
  revert deadcode. induction stmts as [|stmt stmts IH]; intros deadcode; simpl; node_go.
Qed.

Hint Resolve node_process_body_loop : nodes.

Lemma node_process_body stmts : respects node_rel (process_body self stmts).
Proof. node_go. Qed.

Hint Resolve node_process_body : nodes.

Lemma node_visit_Name n id ctx annotation skip :
  respects node_rel (visit_Name self n id ctx annotation skip).
Proof.
  destruct ctx; try (apply node_visit_Name_read; auto; fail); node_go.
Qed.

Hint Resolve node_visit_Name : nodes.

Lemma node_visit_FunctionDef n name args body decorator_list returns st :
  respects node_rel (visit_FunctionDef self n name args body decorator_list returns st).
Proof. node_go. Qed.

Lemma node_visit_Lambda n args body st :
  respects node_rel (visit_Lambda self n args body st).
Proof. node_go. Qed.

Hint Resolve node_visit_FunctionDef node_visit_Lambda : nodes.

Lemma node_drain_defered fuel i : respects node_rel (drain_defered self fuel i).
Proof.
  revert i. induction fuel as [|fuel IH]; intros i; simpl; [apply respects_out_of_fuel|].
  apply respects_bind; [exact _ | apply respects_get; exact _ |]. intros s.
  destruct (_defered s !! i) as [[[[[fnode defs] scopes] depths] pls]|];
    [|apply respects_ret; exact _].
  apply respects_bind; [exact _ | | intro; apply IH].
  unfold SwitchScopeContext. node_go.
Qed.

Hint Resolve node_drain_defered : nodes.

Lemma node_visit_Destructured n elts :
  respects node_rel (visit_Destructured self n elts).
Proof. node_go. Qed.

Hint Resolve node_visit_Destructured : nodes.

Lemma node_visit_Module fuel m : respects node_rel (visit_Module self fuel m).
Proof. node_go. Qed.

Hint Resolve node_visit_Module : nodes.

Lemma node_dispatch fuel n : respects node_rel (dispatch self fuel n).
Proof. unfold dispatch. destruct n as [m|st|e|c|a|k|a|w|h]; node_go. Qed.
End NodeVisitor.

Lemma node_run fuel c : respects node_rel (run fuel c).
Proof.
  revert c. induction fuel as [|fuel IH]; intros c; simpl.
  - apply respects_out_of_fuel.
  - destruct c as [n|e].
    + apply node_dispatch. exact IH.
    + destruct e; try apply respects_raise. apply node_visit_Destructured. exact IH.
Qed.

Lemma Nodes_ok_init Builtins : Nodes_ok (DefUseChains_init Builtins).
Proof.
  split; [intros k d H; discriminate H|].
  intros name d H. apply od_get_In in H. simpl in H.
  apply List.in_map_iff in H. destruct H as ([i [k v]] & E & Hin). simpl in E.
  inversion E; subst; clear E.
  unfold node_of, def_at. simpl. rewrite list_lookup_fmap.
  assert (Hg : forall l base,
            In (d, (name, v)) (combine (seq base (length l)) l) ->
            base <= d /\ l !! (d - base) = Some (name, v)).
  { induction l as [|x l IH]; intros base H; simpl in H; [destruct H|].
    destruct H as [H|H].
    - inversion H; subst. rewrite Nat.sub_diag. auto.
    - apply IH in H. destruct H as (Hb & Hl). split; [lia|].
      replace (d - base) with (S (d - S base)) by lia. exact Hl. }
  destruct (Hg Builtins 0 Hin) as (_ & Hl). rewrite Nat.sub_0_r in Hl.
  rewrite Hl. simpl. eexists. reflexivity.
Qed.

(** [len], a use of a builtin *)
Definition example_builtin_use : module_ :=
  Module 0 [Expr 1 (Name 2 "len" Load None)].

(** C1 (as the code has it). After [visit(module)] returns normally, every
    user of every [Def] of the store (those of [chains], of [locals], the
    builtin ones, the [__class__] ones and any other) is a value of
    [chains], and so is every [Def] listed in [locals].  The value of
    [chains] at a node is a [Def] of that node: the [Def]s of the table of
    builtins and the [Def("__class__")] of the class scopes are never values
    of [chains]. *)
Theorem users_are_in_chains fuel Builtins m r s' :
  analyze fuel Builtins m = Ok r s' ->
  (forall d u, In u (users s' d) -> in_chains s' u) /\
  (forall scope l d, od_get scope (locals s') = Some l -> In d l -> in_chains s' d) /\
  (forall k d, od_get k (chains s') = Some d ->
     exists n, node_of s' d = ONode n /\ node_id n = k) /\
  (forall name d, od_get name (_builtins s') = Some d -> ~ in_chains s' d) /\
  (forall d x, node_of s' d = OStr x -> ~ in_chains s' d).
Proof.
  unfold analyze. intros H.
  pose proof (wp_Ok _ _ _ _ _ (grows_run fuel _ _ (Good_init Builtins)) H)
    as ((G1 & G2 & _) & _).
  pose proof (wp_Ok _ _ _ _ _ (node_run fuel _ _) H) as (N & _).
  destruct (N (Nodes_ok_init Builtins)) as (N1 & N2).
  split; [exact G1|]. split; [exact G2|]. split; [exact N1|]. split.
  - intros name d Hb (k & Hk). destruct (N1 k d Hk) as (n & E & _).
    destruct (N2 name d Hb) as (t & E'). congruence.
  - intros d x Hx (k & Hk). destruct (N1 k d Hk) as (n & E & _). congruence.
Qed.

Lemma users_are_in_chains_witness :
  let s' := final (analyze 20 example_builtins example_builtin_use) in
  (forall d u, In u (users s' d) -> in_chains s' u) /\
  (forall scope l d, od_get scope (locals s') = Some l -> In d l -> in_chains s' d) /\
  (forall k d, od_get k (chains s') = Some d ->
     exists n, node_of s' d = ONode n /\ node_id n = k) /\
  (forall name d, od_get name (_builtins s') = Some d -> ~ in_chains s' d) /\
  (forall d x, node_of s' d = OStr x -> ~ in_chains s' d).
Proof.
  apply (users_are_in_chains 20 example_builtins example_builtin_use None).
  vm_compute. reflexivity.
Defined.

(** The claim fails for the [Def] itself: after the analysis of [len] the
    builtin [Def] of [len] has a user, the [Def] of the [Name] node, and is
    not a value of [chains]. *)
Lemma builtin_def_not_in_chains :
  let s' := final (analyze 20 example_builtins example_builtin_use) in
  exists d u,
    od_get "len" (_builtins s') = Some d /\ In u (users s' d) /\
    in_chains s' u /\ ~ in_chains s' d.
Proof.
  intros s'. exists 1, 3.
  assert (Hc : chains s' = [(2, 3)]) by (vm_compute; reflexivity).
  split; [vm_compute; reflexivity|]. split; [vm_compute; auto|].
  split; [exists 2; rewrite Hc; reflexivity|].
  intros (k & Hk). rewrite Hc in Hk. apply od_get_In in Hk.
  destruct Hk as [Hk|[]]. discriminate Hk.
Qed.

(** [class C: __class__] *)
Definition example_class : module_ :=
  Module 0 [ClassDef 1 "C" [] [] [Expr 2 (Name 3 "__class__" Load None)] []].

(** Likewise for the [Def("__class__")] of a class scope: after the
    analysis of [class C: __class__] it has a user and is not a value of
    [chains]. *)
Example class_def_not_in_chains :
  let s' := final (analyze 20 example_builtins example_class) in
  exists d u,
    node_of s' d = OStr "__class__" /\ In u (users s' d) /\
    in_chains s' u /\ ~ in_chains s' d.
Proof.
  intros s'. exists 4, 5.
  assert (Hc : chains s' = [(1, 3); (3, 5)]) by (vm_compute; reflexivity).
  split; [vm_compute; reflexivity|]. split; [vm_compute; auto|].
  split; [exists 3; rewrite Hc; reflexivity|].
  intros (k & Hk). rewrite Hc in Hk. apply od_get_In in Hk.
  destruct Hk as [Hk|[Hk|[]]]; discriminate Hk.
Qed.

(** The claim of the inverse fails on that [Def]: after the analysis of
    [class C: __class__] the [Def("__class__")] of the class scope has the
    [Def] of the name as user, and it is in neither of the two tables that
    [UseDefChains] reads; the inverse chains map the node of the user to
    the empty list. *)
Lemma class_def_missing_from_inverse :
  let s' := final (analyze 20 example_builtins example_class) in
  exists d u,
    node_of s' d = OStr "__class__" /\ In u (users s' d) /\
    ~ known s' d /\
    od_get (key_of (node_of s' u)) (UseDefChains s') = Some [] /\
    ~ (exists l, od_get (key_of (node_of s' u)) (UseDefChains s') = Some l /\ In d l).
Proof.
  intros s'. exists 4, 5.
  split; [vm_compute; reflexivity|]. split; [vm_compute; auto|].
  assert (E : od_get (key_of (node_of s' 5)) (UseDefChains s') = Some [])
    by (vm_compute; reflexivity).
  split; [|split; [exact E|]].
  - assert (Hc : od_values (chains s') = [3; 5]) by (vm_compute; reflexivity).
    assert (Hb : od_values (_builtins s') = [0; 1; 2]) by (vm_compute; reflexivity).
    unfold known. rewrite Hc, Hb. simpl. intuition discriminate.
  - intros (l & Hl & Hin). rewrite E in Hl. injection Hl as <-. destruct Hin.
Qed.

(** ** Augmented assignment *)

Lemma visit_AugAssign_other self target value :
  is_Name (NExpr target) = false ->
  visit_AugAssign self target value
  = (dvalue <- visit_e self value ;;
     dtarget <- visit_e self target ;;
     link dtarget dvalue ;;
     ret None).
Proof. destruct target; intros H; try reflexivity. discriminate H. Qed.

(** [x = 1; x.b += 2] *)
Definition example_augassign : module_ :=
  Module 0
    [Assign 1 [Name 2 "x" Store None] (Constant 3);
     AugAssign 4 (ValueOp (KAttribute "b") 5 (Name 6 "x" Load None)) (Constant 7)].

(** [users_kept s s']: the users of every [Def] are the same in [s'] as in
    [s], and the entries of [chains] stay. *)
Definition users_kept (s s' : DefUseChains) : Prop :=
  chains_le s s' /\ forall d, users s' d = users s d.

#[global] Instance users_kept_preorder : PreOrder users_kept.
Proof.
  split.
  - intros s. split; [apply PreOrder_Reflexive | reflexivity].
  - intros s1 s2 s3 (A1 & A2) (B1 & B2). split.
    + exact (PreOrder_Transitive _ _ _ A1 B1).
    + intros d. rewrite B2. apply A2.
Qed.

Lemma users_kept_defs n name quiet : respects users_kept (defs n name quiet).
Proof.
  apply (respects_weaken calm); [|apply calm_defs].
  intros s s' (H1 & H2 & _). split; assumption.
Qed.

Lemma users_kept_new_set l : respects users_kept (new_set l).
Proof. intros s. split; [intros k d H; exact H | reflexivity]. Qed.

Ltac users_kept_leaf :=
  first
    [ lazymatch goal with
      | |- respects users_kept (modify _) =>
          let H := fresh in
          apply respects_modify; intros ?; split; [intros ? ? H; exact H | reflexivity]
      | |- respects users_kept (defs _ _ _) => apply users_kept_defs
      | |- respects users_kept (new_set _) => apply users_kept_new_set
      end
    | solve [auto 2] ].

Lemma users_with_user_ne d u s d' :
  d' <> d -> users (with_user d u s) d' = users s d'.
Proof.
  intros Hne. unfold users, def_at, with_user. simpl.
  rewrite list_lookup_alter_ne by congruence. reflexivity.
Qed.

(** C9 (as the code has it). After the visit of an augmented assignment
    from a good instance, the [Def]s of the value and of the target are in
    [chains]; when the target is a [Name], the [Def] of the target is a user
    of the [Def] of the value; when it is not (an attribute, a subscript),
    the link goes the other way: the [Def] of the value is a user of the
    [Def] of the target, and the [Def] of the target is not added to the
    users of the [Def] of the value: once the value and the target are
    visited, the statement changes the users of the [Def] of the target
    only, so that the [Def] of the target is among the users of another
    [Def] afterwards only if the two visits had put it there. *)
Theorem augassign_link_direction fuel i target value s r s' :
  Good s ->
  run (S fuel) (Visit (NStmt (AugAssign i target value))) s = Ok r s' ->
  exists dvalue dtarget,
    od_get (expr_id value) (chains s') = Some dvalue /\
    od_get (expr_id target) (chains s') = Some dtarget /\
    if is_Name (NExpr target) then In dtarget (users s' dvalue)
    else
      In dvalue (users s' dtarget) /\
      exists s1 s2,
        run fuel (Visit (NExpr value)) s = Ok (Some dvalue) s1 /\
        run fuel (Visit (NExpr target)) s1 = Ok (Some dtarget) s2 /\
        (forall d, d <> dtarget -> users s' d = users s2 d) /\
        (dvalue <> dtarget ->
         In dtarget (users s' dvalue) -> In dtarget (users s2 dvalue)).
Proof.
  intros HG H.
  change (visit_AugAssign (run fuel) target value s = Ok r s') in H.
  destruct (is_Name (NExpr target)) eqn:EN.
  - destruct target as [| | | | | | | | | | | | | | | | | |nid id ctx annotation| |];
      try discriminate EN.
    unfold visit_AugAssign in H.
    apply bind_Ok in H. destruct H as (dvalue & s1 & Hv & H).
    apply bind_Ok in H. destruct H as (dtarget & s2 & Ht & H).
    apply bind_Ok in H. destruct H as (u & s3 & Hl & H).
    pose proof (wp_Ok _ _ _ _ _ (grows_run fuel _ _ HG) Hv) as (HG1 & Hext1 & Hr1).
    pose proof (wp_Ok _ _ _ _ _
                  (grows_visit_Name_read _ _ _ _ _ _ _ (or_introl eq_refl) HG1) Ht)
      as (HG2 & Hext2 & Hr2).
    destruct dvalue as [dv|]; [|discriminate Hl]. simpl in Hl, Hr1.
    apply add_user_Ok in Hl. subst s3.
    match type of H with ?m _ = _ =>
      assert (Htail : respects users_kept m) by (respects_go users_kept_leaf)
    end.
    pose proof (wp_Ok _ _ _ _ _ (Htail _) H) as (Hle & Hus).
    exists dv, dtarget. split; [|split].
    + apply Hle. simpl. eapply get_ext; eassumption.
    + apply Hle. exact Hr2.
    + rewrite Hus. apply users_with_user. right. repeat split.
      destruct HG1 as (_ & _ & G3). apply G3 in Hr1. destruct Hext2. lia.
  - rewrite (visit_AugAssign_other _ _ _ EN) in H.
    apply bind_Ok in H. destruct H as (dvalue & s1 & Hv & H).
    apply bind_Ok in H. destruct H as (dtarget & s2 & Ht & H).
    apply bind_Ok in H. destruct H as (u & s3 & Hl & H).
    apply ret_Ok in H. destruct H as [_ ->].
    pose proof (wp_Ok _ _ _ _ _ (grows_run fuel _ _ HG) Hv) as (HG1 & Hext1 & Hr1).
    pose proof (wp_Ok _ _ _ _ _ (grows_run fuel _ _ HG1) Ht) as (HG2 & Hext2 & Hr2).
    destruct dtarget as [dt|]; [|discriminate Hl].
    destruct dvalue as [dv|]; [|discriminate Hl].
    simpl in Hl, Hr1, Hr2. apply add_user_Ok in Hl. subst s3.
    exists dv, dt. split; [|split; [|split]].
    + simpl. eapply get_ext; eassumption.
    + exact Hr2.
    + apply users_with_user. right. repeat split.
      destruct HG2 as (_ & _ & G3). apply G3 in Hr2. exact Hr2.
    + exists s1, s2. split; [exact Hv|]. split; [exact Ht|]. split.
      * intros d Hd. apply users_with_user_ne. exact Hd.
      * intros Hd Hin. rewrite users_with_user_ne in Hin by exact Hd. exact Hin.
Qed.

Lemma augassign_link_direction_witness :
  let target := ValueOp (KAttribute "b") 31 (Name 32 "x" Load None) in
  let value := Constant 33 in
  let s' := final (run 4 (Visit (NStmt (AugAssign 30 target value)))
                     example_star_layers) in
  exists dvalue dtarget,
    od_get (expr_id value) (chains s') = Some dvalue /\
    od_get (expr_id target) (chains s') = Some dtarget /\
    if is_Name (NExpr target) then In dtarget (users s' dvalue)
    else
      In dvalue (users s' dtarget) /\
      exists s1 s2,
        run 3 (Visit (NExpr value)) example_star_layers = Ok (Some dvalue) s1 /\
        run 3 (Visit (NExpr target)) s1 = Ok (Some dtarget) s2 /\
        (forall d, d <> dtarget -> users s' d = users s2 d) /\
        (dvalue <> dtarget ->
         In dtarget (users s' dvalue) -> In dtarget (users s2 dvalue)).
Proof.
  apply (augassign_link_direction 3 30
           (ValueOp (KAttribute "b") 31 (Name 32 "x" Load None)) (Constant 33)
           example_star_layers None).
  - refine (conj _ (conj _ _)).
    + intros d u. destruct d as [|[|d]]; vm_compute; intros [].
    + intros k l d H. discriminate H.
    + intros k d H. discriminate H.
  - vm_compute. reflexivity.
Defined.

(** The claim fails: after the analysis of [x = 1; x.b += 2] the [Def] of
    the target [x.b] is not a user of the [Def] of the value [2], which has
    no user at all; the [Def] of the value is a user of that of the
    target. *)
Lemma augassign_target_not_user_of_value :
  let s' := final (analyze 20 example_builtins example_augassign) in
  exists dvalue dtarget,
    od_get 7 (chains s') = Some dvalue /\
    od_get 5 (chains s') = Some dtarget /\
    users s' dvalue = [] /\
    ~ In dtarget (users s' dvalue) /\
    In dvalue (users s' dtarget).
Proof.
  intros s'. exists 5, 6. vm_compute. repeat split; auto.
Qed.

(** ** The branches of an [If]

    The keys of a dictionary. *)

Lemma od_get_None_keys {V} (k : string) (m : list (string * V)) :
  od_get k m = None <-> ~ In k (od_keys m).
Proof.
  induction m as [|[k' v] r IH]; simpl; [tauto|].
  destruct (decide (k = k')) as [->|Hne].
  - split; [discriminate | intros H; exfalso; apply H; left; reflexivity].
  - rewrite IH. intuition congruence.
Qed.

Lemma od_get_Some_keys {V} (k : string) (m : list (string * V)) :
  In k (od_keys m) <-> exists v, od_get k m = Some v.
Proof.
  destruct (od_get k m) as [v|] eqn:E.
  - split; [eauto|]. intros _. destruct (in_dec string_dec k (od_keys m)) as [H|H]; [exact H|].
    apply od_get_None_keys in H. congruence.
  - apply od_get_None_keys in E. split; [tauto | intros [v Hv]; discriminate].
Qed.

Lemma od_keys_set_In {V} (k k' : string) (v : V) m :
  In k' (od_keys (od_set k v m)) <-> k' = k \/ In k' (od_keys m).
Proof.
  induction m as [|[k0 v0] r IH]; simpl.
  - intuition.
  - destruct (decide (k = k0)) as [->|Hne]; simpl; [|rewrite IH]; intuition congruence.
Qed.

Lemma NoDup_od_set {V} (k : string) (v : V) m :
  List.NoDup (od_keys m) -> List.NoDup (od_keys (od_set k v m)).
Proof.
  induction m as [|[k0 v0] r IH]; simpl; intros H.
  - constructor; [intros [] | constructor].
  - apply List.NoDup_cons_iff in H. destruct H as [Hk0 Hr].
    destruct (decide (k = k0)) as [->|Hne]; simpl.
    + constructor; assumption.
    + constructor; [|apply IH; assumption].
      rewrite od_keys_set_In. intuition congruence.
Qed.

(** [entry s lid name]: the definitions that the layer [lid] binds to
    [name], if it binds it. *)
Definition entry (s : DefUseChains) (lid : nat) (name : string) : option (list nat) :=
  match od_get name (dict_items s lid) with
  | Some sid => Some (set_elems s sid)
  | None => None
  end.

(** The dictionaries and their sets are well formed: a set held by a
    dictionary is allocated; a set is held under one name only, in however
    many dictionaries (a copy of a layer shares the sets of the layer); a
    key occurs once. *)
Definition Heap_ok (s : DefUseChains) : Prop :=
  (forall lid name sid,
     od_get name (dict_items s lid) = Some sid -> sid < length (heap_sets s)) /\
  (forall l1 l2 n1 n2 sid,
     od_get n1 (dict_items s l1) = Some sid ->
     od_get n2 (dict_items s l2) = Some sid -> n1 = n2) /\
  (forall lid, List.NoDup (od_keys (dict_items s lid))).

(** The instance after [d[name] = ordered_set(elems)] on the dictionary
    [lid]. *)
Definition bind_fresh (lid : nat) (name : string) (elems : list nat)
    (s : DefUseChains) : DefUseChains :=
  upd_heap_dicts (alter (od_set name (length (heap_sets s))) lid)
    (upd_heap_sets (fun h => h ++ [oset_update [] elems]) s).

(** The instance after the set [sid] is updated with [elems]. *)
Definition grow_set (sid : nat) (elems : list nat) (s : DefUseChains) : DefUseChains :=
  upd_heap_sets (alter (fun l => oset_update l elems) sid) s.

Lemma dict_items_alter f lid s L :
  dict_items (upd_heap_dicts (alter f lid) s) L
  = if decide (L = lid) then
      match heap_dicts s !! lid with Some items => f items | None => [] end
    else dict_items s L.
Proof.
  unfold dict_items. simpl. destruct (decide (L = lid)) as [->|Hne].
  - rewrite list_lookup_alter_eq. destruct (heap_dicts s !! lid); reflexivity.
  - rewrite list_lookup_alter_ne by congruence. reflexivity.
Qed.

Lemma dict_items_bind_fresh lid name elems s L :
  dict_items (bind_fresh lid name elems s) L
  = if decide (L = lid /\ lid < length (heap_dicts s))
    then od_set name (length (heap_sets s)) (dict_items s lid)
    else dict_items s L.
Proof.
  unfold bind_fresh. rewrite dict_items_alter. simpl.
  destruct (decide (L = lid)) as [->|Hne].
  - unfold dict_items. destruct (heap_dicts s !! lid) as [items|] eqn:E; simpl.
    + apply lookup_lt_Some in E. destruct (decide _) as [_|H]; [reflexivity | tauto].
    + apply lookup_ge_None in E. destruct (decide _) as [[_ H]|_]; [lia | reflexivity].
  - destruct (decide _) as [[H _]|_]; [congruence | reflexivity].
Qed.

Lemma od_get_bind_fresh lid name elems s L n sid :
  od_get n (dict_items (bind_fresh lid name elems s) L) = Some sid ->
  (L = lid /\ n = name /\ sid = length (heap_sets s)) \/
  (n <> name \/ L <> lid) /\ od_get n (dict_items s L) = Some sid \/
  (lid >= length (heap_dicts s) /\ od_get n (dict_items s L) = Some sid).
Proof.
  rewrite dict_items_bind_fresh.
  destruct (decide (L = lid /\ lid < length (heap_dicts s))) as [[-> Hlt]|Hn].
  - destruct (decide (name = n)) as [<-|Hne].
    + rewrite od_get_set_eq. intros E. inversion E. auto.
    + rewrite od_get_set_ne by assumption. intros E. right. left. auto.
  - intros E. destruct (decide (L = lid)) as [->|Hne].
    + right. right. split; [|exact E]. destruct (decide (lid < length (heap_dicts s))); [tauto | lia].
    + right. left. auto.
Qed.

Lemma set_elems_bind_fresh lid name elems s sid :
  sid < length (heap_sets s) ->
  set_elems (bind_fresh lid name elems s) sid = set_elems s sid.
Proof.
  intros H. unfold set_elems, bind_fresh. simpl. rewrite lookup_app_l by assumption.
  reflexivity.
Qed.

Lemma set_elems_bind_fresh_new lid name elems s :
  set_elems (bind_fresh lid name elems s) (length (heap_sets s)) = oset_update [] elems.
Proof.
  unfold set_elems, bind_fresh. simpl. rewrite lookup_app_r by lia.
  rewrite Nat.sub_diag. reflexivity.
Qed.

Lemma Heap_ok_bind_fresh lid name elems s :
  Heap_ok s -> Heap_ok (bind_fresh lid name elems s).
Proof.
  intros (H2 & H3 & H4). refine (conj _ (conj _ _)).
  - intros L n sid E. apply od_get_bind_fresh in E.
    assert (Hlen : length (heap_sets (bind_fresh lid name elems s)) = S (length (heap_sets s))).
    { unfold bind_fresh. simpl. rewrite length_app. simpl. lia. }
    rewrite Hlen. destruct E as [(_ & _ & ->) | [(_ & E) | (_ & E)]];
      [lia | apply H2 in E; lia | apply H2 in E; lia].
  - intros l1 l2 n1 n2 sid E1 E2.
    apply od_get_bind_fresh in E1. apply od_get_bind_fresh in E2.
    destruct E1 as [(_ & -> & ->) | E1]; destruct E2 as [(_ & -> & E2) | E2];
      try reflexivity.
    + destruct E2 as [(_ & E2) | (_ & E2)]; apply H2 in E2; lia.
    + subst sid. destruct E1 as [(_ & E1) | (_ & E1)]; apply H2 in E1; lia.
    + destruct E1 as [(_ & E1) | (_ & E1)]; destruct E2 as [(_ & E2) | (_ & E2)];
        eapply H3; eassumption.
  - intros L. rewrite dict_items_bind_fresh. destruct (decide _); [|apply H4].
    apply NoDup_od_set. apply H4.
Qed.

Lemma Heap_ok_grow_set sid elems s : Heap_ok s -> Heap_ok (grow_set sid elems s).
Proof.
  intros (H2 & H3 & H4). refine (conj _ (conj H3 H4)).
  intros L n x E. unfold grow_set. simpl. rewrite length_alter. eapply H2. exact E.
Qed.

Lemma Heap_ok_new_set elems s :
  Heap_ok s -> Heap_ok (upd_heap_sets (fun h => h ++ [oset_update [] elems]) s).
Proof.
  intros (H2 & H3 & H4). refine (conj _ (conj H3 H4)).
  intros L n x E. simpl. rewrite length_app. apply (H2 L n x) in E. lia.
Qed.

Lemma dict_items_new_dict items s L :
  dict_items (upd_heap_dicts (fun h => h ++ [items]) s) L
  = if decide (L = length (heap_dicts s)) then items else dict_items s L.
Proof.
  unfold dict_items. simpl. destruct (decide (L = length (heap_dicts s))) as [->|Hne].
  - rewrite lookup_app_r by lia. rewrite Nat.sub_diag. reflexivity.
  - destruct (decide (L < length (heap_dicts s))) as [Hlt|Hge].
    + rewrite lookup_app_l by assumption. reflexivity.
    + rewrite !lookup_ge_None_2; [reflexivity | lia | rewrite length_app; simpl; lia].
Qed.

(** A new dictionary with the items of an existing one (or none). *)
Lemma Heap_ok_new_dict L0 s :
  Heap_ok s -> Heap_ok (upd_heap_dicts (fun h => h ++ [dict_items s L0]) s).
Proof.
  intros (H2 & H3 & H4).
  assert (Hold : forall L n sid,
            od_get n (dict_items (upd_heap_dicts (fun h => h ++ [dict_items s L0]) s) L)
            = Some sid -> exists L', od_get n (dict_items s L') = Some sid).
  { intros L n sid. rewrite dict_items_new_dict. destruct (decide _); eauto. }
  refine (conj _ (conj _ _)).
  - intros L n sid E. apply Hold in E. destruct E as (L' & E). eapply H2. exact E.
  - intros l1 l2 n1 n2 sid E1 E2. apply Hold in E1, E2.
    destruct E1 as (l1' & E1). destruct E2 as (l2' & E2). eapply H3; eassumption.
  - intros L. rewrite dict_items_new_dict. destruct (decide _); apply H4.
Qed.

Lemma Heap_ok_new_dict_nil s :
  Heap_ok s -> Heap_ok (upd_heap_dicts (fun h => h ++ [[]]) s).
Proof.
  intros H. pose proof (Heap_ok_new_dict (length (heap_dicts s)) s H) as H'.
  unfold dict_items at 1 in H'. rewrite lookup_ge_None_2 in H' by lia. exact H'.
Qed.

Lemma Heap_ok_clear lid s :
  Heap_ok s -> Heap_ok (upd_heap_dicts (alter (fun _ => []) lid) s).
Proof.
  intros (H2 & H3 & H4).
  assert (Hold : forall L n sid,
            od_get n (dict_items (upd_heap_dicts (alter (fun _ => []) lid) s) L) = Some sid ->
            od_get n (dict_items s L) = Some sid).
  { intros L n sid. rewrite dict_items_alter. destruct (decide _); [|auto].
    destruct (heap_dicts s !! lid); discriminate. }
  refine (conj _ (conj _ _)).
  - intros L n sid E. apply Hold in E. eapply H2. exact E.
  - intros l1 l2 n1 n2 sid E1 E2. apply Hold in E1, E2. eapply H3; eassumption.
  - intros L. rewrite dict_items_alter. destruct (decide _); [|apply H4].
    destruct (heap_dicts s !! lid); constructor.
Qed.

(** [heap_rel s s']: well-formedness is kept and no dictionary is
    deallocated. *)
Definition heap_rel (s s' : DefUseChains) : Prop :=
  (Heap_ok s -> Heap_ok s') /\ length (heap_dicts s) <= length (heap_dicts s').

#[global] Instance heap_rel_preorder : PreOrder heap_rel.
Proof.
  split.
  - intros s. split; [auto | lia].
  - intros s1 s2 s3 (A1 & A2) (B1 & B2). split; [auto | lia].
Qed.

Lemma wf_new_Def o : respects heap_rel (new_Def o).
Proof. intros s. split; [exact (fun H => H) | simpl; lia]. Qed.

Lemma wf_new_set l : respects heap_rel (new_set l).
Proof. intros s. split; [apply Heap_ok_new_set | simpl; lia]. Qed.

Lemma wf_new_dict_nil : respects heap_rel (new_dict []).
Proof.
  intros s. split; [apply Heap_ok_new_dict_nil | simpl; rewrite length_app; lia].
Qed.

Lemma wf_copy_top_definitions : respects heap_rel copy_top_definitions.
Proof.
  intros s. apply wp_intro. intros a s' H. unfold copy_top_definitions in H. inv_ok.
  split; [apply Heap_ok_new_dict | simpl; rewrite length_app; lia].
Qed.

Lemma dict_getitem_Ok lid name s sid s' :
  dict_getitem lid name s = Ok sid s' ->
  (od_get name (dict_items s lid) = Some sid /\ s' = s) \/
  (od_get name (dict_items s lid) = None /\ sid = length (heap_sets s) /\
   s' = bind_fresh lid name [] s).
Proof.
  unfold dict_getitem. intros H. inv_ok.
  destruct (od_get name (dict_items _ lid)) eqn:E; inv_ok; [left; auto|].
  unfold dict_set in *. inv_ok. right. auto.
Qed.

Lemma length_dicts_bind_fresh lid name elems s :
  length (heap_dicts (bind_fresh lid name elems s)) = length (heap_dicts s).
Proof. unfold bind_fresh. simpl. apply length_alter. Qed.

Lemma wf_dict_getitem lid name : respects heap_rel (dict_getitem lid name).
Proof.
  intros s. apply wp_intro. intros sid s' H. apply dict_getitem_Ok in H.
  destruct H as [(_ & ->) | (_ & _ & ->)]; [apply PreOrder_Reflexive|].
  split; [apply Heap_ok_bind_fresh | rewrite length_dicts_bind_fresh; lia].
Qed.

Lemma wf_fresh_binding l c n :
  respects heap_rel (sid <- new_set l ;; dict_set c n sid).
Proof.
  intros s. change (heap_rel s (bind_fresh c n l s)).
  split; [apply Heap_ok_bind_fresh | rewrite length_dicts_bind_fresh; lia].
Qed.

Lemma wf_set_definition name a : respects heap_rel (set_definition name a).
Proof.
  intros s. apply wp_intro. intros u s' H. unfold set_definition in H. inv_ok.
  destruct (bool_decide _); inv_ok; [apply PreOrder_Reflexive|].
  unfold dict_set in H. inv_ok.
  match goal with |- heap_rel ?x _ => change (heap_rel x (bind_fresh a0 name (dnodes_elems x a) x)) end.
  split; [apply Heap_ok_bind_fresh | rewrite length_dicts_bind_fresh; lia].
Qed.

Lemma wf_grow_set sid elems :
  respects heap_rel
    (modify (upd_heap_sets (alter (fun l => oset_update l elems) sid))).
Proof. intros s. split; [apply Heap_ok_grow_set | simpl; lia]. Qed.

Lemma wf_dict_clear lid : respects heap_rel (dict_clear lid).
Proof. intros s. split; [apply Heap_ok_clear | simpl; rewrite length_alter; lia]. Qed.

Create HintDb heap.
#[local] Hint Resolve wf_new_Def wf_new_set wf_new_dict_nil
  wf_copy_top_definitions wf_dict_getitem wf_set_definition wf_grow_set
  wf_dict_clear : heap.

Ltac heap_leaf :=
  first
    [ lazymatch goal with
      | |- respects heap_rel (looked_up _) =>
          apply (respects_weaken unchanged);
          [unfold unchanged; intros ? ? ->; apply PreOrder_Reflexive
          | apply reads_looked_up]
      | |- respects heap_rel (modify _) =>
          first
            [ solve [auto 1 with heap]
            | apply respects_modify; intros ?; split; [exact (fun H => H) | simpl; lia] ]
      end
    | solve [auto 2 with heap] ].

Ltac heap_go :=
  repeat first
    [ apply wf_fresh_binding
    | respects_struct
    | heap_leaf
    | lazymatch goal with
      | |- respects _ ?m => let h := head_of m in unfold h
      end ].

Lemma wf_add_to_definition d name a : respects heap_rel (add_to_definition d name a).
Proof. heap_go. Qed.

Lemma wf_defs n name quiet : respects heap_rel (defs n name quiet).
Proof. heap_go. Qed.

#[local] Hint Resolve wf_add_to_definition wf_defs : heap.

Lemma wf_exec_items dnode items visible :
  respects heap_rel (exec_items dnode items visible).
Proof.
  revert visible. induction items as [|[dname sid] items IH]; intros visible; simpl;
    heap_go.
Qed.

#[local] Hint Resolve wf_exec_items : heap.

Lemma wf_exec_locals dnode layers visible :
  respects heap_rel (exec_locals dnode layers visible).
Proof.
  revert visible. induction layers as [|l layers IH]; intros visible; simpl; heap_go.
Qed.

#[local] Hint Resolve wf_exec_locals : heap.

Section HeapVisitor.
Variable self : Self.
Hypothesis wf_self : forall c, respects heap_rel (self c).

Hint Resolve wf_self : heap.

Lemma wf_process_body_loop stmts deadcode :
  respects heap_rel (process_body_loop self stmts deadcode).
Proof.
  revert deadcode. induction stmts as [|stmt stmts IH]; intros deadcode; simpl; heap_go.
Qed.

Hint Resolve wf_process_body_loop : heap.

Lemma wf_process_body stmts : respects heap_rel (process_body self stmts).
Proof. heap_go. Qed.

Hint Resolve wf_process_body : heap.

Lemma wf_visit_Name n id ctx annotation skip :
  respects heap_rel (visit_Name self n id ctx annotation skip).
Proof. heap_go. Qed.

Hint Resolve wf_visit_Name : heap.

Lemma wf_visit_FunctionDef n name args body decorator_list returns st :
  respects heap_rel (visit_FunctionDef self n name args body decorator_list returns st).
Proof. heap_go. Qed.

Lemma wf_visit_Lambda n args body st :
  respects heap_rel (visit_Lambda self n args body st).
Proof. heap_go. Qed.

Hint Resolve wf_visit_FunctionDef wf_visit_Lambda : heap.

Lemma wf_drain_defered fuel i : respects heap_rel (drain_defered self fuel i).
Proof.
  revert i. induction fuel as [|fuel IH]; intros i; simpl; [apply respects_out_of_fuel|].
  apply respects_bind; [exact _ | apply respects_get; exact _ |]. intros s.
  destruct (_defered s !! i) as [[[[[fnode defs] scopes] depths] pls]|];
    [|apply respects_ret; exact _].
  apply respects_bind; [exact _ | | intro; apply IH].
  unfold SwitchScopeContext. heap_go.
Qed.

Hint Resolve wf_drain_defered : heap.

Lemma wf_visit_Destructured n elts :
  respects heap_rel (visit_Destructured self n elts).
Proof. heap_go. Qed.

Hint Resolve wf_visit_Destructured : heap.

Lemma wf_visit_If test body orelse : respects heap_rel (visit_If self test body orelse).
Proof. heap_go. Qed.

Lemma wf_visit_Module fuel m : respects heap_rel (visit_Module self fuel m).
Proof. heap_go. Qed.

Hint Resolve wf_visit_If wf_visit_Module : heap.

Lemma wf_dispatch fuel n : respects heap_rel (dispatch self fuel n).
Proof. unfold dispatch. destruct n as [m|st|e|c|a|k|a|w|h]; heap_go. Qed.
End HeapVisitor.

Lemma wf_run fuel c : respects heap_rel (run fuel c).
Proof.
  revert c. induction fuel as [|fuel IH]; intros c; simpl.
  - apply respects_out_of_fuel.
  - destruct c as [n|e].
    + apply wf_dispatch. exact IH.
    + destruct e; try apply respects_raise. apply wf_visit_Destructured. exact IH.
Qed.

(** [live_on cur s]: the instance is well formed, the code is live and
    [cur] is the layer on top. *)
Definition live_on (cur : nat) (s : DefUseChains) : Prop :=
  Heap_ok s /\ _deadcode s = 0%Z /\ Py.last (_definitions s) = Some cur /\
  cur < length (heap_dicts s).

(** [only_name cur d s s']: from [s] to [s'] the other dictionaries are
    left as they were, and what any dictionary binds to a name other than
    [d] is the same. *)
Definition only_name (cur : nat) (d : string) (s s' : DefUseChains) : Prop :=
  (forall L, L <> cur -> dict_items s' L = dict_items s L) /\
  (forall L n, n <> d -> entry s' L n = entry s L n).

Lemma set_elems_grow_set sid elems s x :
  set_elems (grow_set sid elems s) x
  = if decide (x = sid) then
      match heap_sets s !! sid with
      | Some l => oset_update l elems
      | None => []
      end
    else set_elems s x.
Proof.
  unfold set_elems, grow_set. simpl. destruct (decide (x = sid)) as [->|Hne].
  - rewrite list_lookup_alter_eq. destruct (heap_sets s !! sid); reflexivity.
  - rewrite list_lookup_alter_ne by congruence. reflexivity.
Qed.

Lemma live_on_bind_fresh cur lid name elems s :
  live_on cur s -> live_on cur (bind_fresh lid name elems s).
Proof.
  intros (H1 & H2 & H3 & H4). refine (conj _ (conj H2 (conj H3 _))).
  - apply Heap_ok_bind_fresh. assumption.
  - rewrite length_dicts_bind_fresh. assumption.
Qed.

Lemma live_on_grow_set cur sid elems s :
  live_on cur s -> live_on cur (grow_set sid elems s).
Proof.
  intros (H1 & H2 & H3 & H4). refine (conj _ (conj H2 (conj H3 H4))).
  apply Heap_ok_grow_set. assumption.
Qed.

Lemma only_name_bind_fresh cur name elems s :
  live_on cur s -> only_name cur name s (bind_fresh cur name elems s).
Proof.
  intros ((H2 & _) & _). split.
  - intros L HL. rewrite dict_items_bind_fresh.
    destruct (decide _) as [[E _]|_]; [congruence | reflexivity].
  - intros L n Hn. unfold entry. rewrite dict_items_bind_fresh.
    assert (E : od_get n (if decide (L = cur /\ cur < length (heap_dicts s))
                          then od_set name (length (heap_sets s)) (dict_items s cur)
                          else dict_items s L) = od_get n (dict_items s L)).
    { destruct (decide _) as [[-> _]|_]; [|reflexivity].
      apply od_get_set_ne. congruence. }
    rewrite E. destruct (od_get n (dict_items s L)) as [sid|] eqn:Es; [|reflexivity].
    rewrite set_elems_bind_fresh; [reflexivity|]. eapply H2. exact Es.
Qed.

Lemma entry_bind_fresh cur name elems s :
  cur < length (heap_dicts s) ->
  entry (bind_fresh cur name elems s) cur name = Some (oset_update [] elems).
Proof.
  intros Hlt. unfold entry. rewrite dict_items_bind_fresh.
  destruct (decide _) as [_|Hn]; [|exfalso; apply Hn; auto].
  rewrite od_get_set_eq, set_elems_bind_fresh_new. reflexivity.
Qed.

(** [set_definition] in live code. *)
Lemma set_definition_spec cur name a s :
  live_on cur s ->
  exists s', set_definition name a s = Ok tt s' /\ live_on cur s' /\
    only_name cur name s s' /\
    entry s' cur name = Some (oset_update [] (dnodes_elems s a)).
Proof.
  intros Hl. pose proof Hl as (H1 & H2 & H3 & H4).
  rewrite (set_definition_live _ _ _ _ H2 H3).
  fold (bind_fresh cur name (dnodes_elems s a) s).
  eexists. split; [reflexivity|].
  split; [apply live_on_bind_fresh; assumption|].
  split; [apply only_name_bind_fresh; assumption|].
  apply entry_bind_fresh. assumption.
Qed.

(** The argument of a writer refers to an allocated set. *)
Definition dnodes_ok (s : DefUseChains) (a : dnodes) : Prop :=
  match a with SetRef b => b < length (heap_sets s) | _ => True end.

Lemma only_name_grow_set cur name sid elems s :
  Heap_ok s -> od_get name (dict_items s cur) = Some sid ->
  only_name cur name s (grow_set sid elems s).
Proof.
  intros (H2 & H3 & _) Hc. split; [reflexivity|].
  intros L n Hn. unfold entry.
  change (dict_items (grow_set sid elems s) L) with (dict_items s L).
  destruct (od_get n (dict_items s L)) as [x|] eqn:E; [|reflexivity].
  rewrite set_elems_grow_set. destruct (decide (x = sid)) as [->|_]; [|reflexivity].
  exfalso. apply Hn. eapply H3; eassumption.
Qed.

Lemma entry_grow_set cur name sid elems s :
  Heap_ok s -> od_get name (dict_items s cur) = Some sid ->
  entry (grow_set sid elems s) cur name = Some (oset_update (set_elems s sid) elems).
Proof.
  intros (H2 & _) Hc. unfold entry.
  change (dict_items (grow_set sid elems s) cur) with (dict_items s cur).
  rewrite Hc, set_elems_grow_set. destruct (decide (sid = sid)); [|congruence].
  unfold set_elems. apply H2 in Hc. apply lookup_lt_is_Some_2 in Hc.
  destruct Hc as [l ->]. reflexivity.
Qed.

Lemma only_name_trans cur d s1 s2 s3 :
  only_name cur d s1 s2 -> only_name cur d s2 s3 -> only_name cur d s1 s3.
Proof.
  intros (A1 & A2) (B1 & B2). split.
  - intros L HL. rewrite B1, A1 by assumption. reflexivity.
  - intros L n Hn. rewrite B2, A2 by assumption. reflexivity.
Qed.

(** [extend_definition] in live code: what the layer on top binds to the
    name is extended, a missing entry being created. *)
Lemma extend_definition_spec cur name a s :
  live_on cur s -> dnodes_ok s a ->
  exists s', extend_definition name a s = Ok tt s' /\ live_on cur s' /\
    only_name cur name s s' /\
    entry s' cur name
    = Some (oset_update (default [] (entry s cur name)) (dnodes_elems s a)).
Proof.
  intros Hl Ha. pose proof Hl as (H1 & H2 & H3 & H4).
  unfold extend_definition, bind at 1, get. rewrite H2. simpl.
  unfold top, bind at 1 2, get, expect. rewrite H3. simpl.
  unfold add_to_definition, bind at 1, dict_getitem, bind at 1, get.
  assert (He : default [] (entry s cur name)
               = match od_get name (dict_items s cur) with
                 | Some sid => set_elems s sid
                 | None => []
                 end)
    by (unfold entry; destruct (od_get name (dict_items s cur)); reflexivity).
  rewrite He. clear He.
  destruct (od_get name (dict_items s cur)) as [sid|] eqn:E.
  - simpl. unfold bind, get, modify. fold (grow_set sid (dnodes_elems s a) s).
    eexists. split; [reflexivity|].
    split; [apply live_on_grow_set; assumption|].
    split; [apply only_name_grow_set; assumption|].
    apply entry_grow_set; assumption.
  - unfold bind, new_set, dict_set, modify, get, ret.
    fold (bind_fresh cur name [] s).
    set (s1 := bind_fresh cur name [] s).
    fold (grow_set (length (heap_sets s)) (dnodes_elems s1 a) s1).
    assert (Hl1 : live_on cur s1) by (apply live_on_bind_fresh; assumption).
    assert (E1 : od_get name (dict_items s1 cur) = Some (length (heap_sets s))).
    { unfold s1. rewrite dict_items_bind_fresh.
      destruct (decide _) as [_|Hn]; [|exfalso; apply Hn; auto]. apply od_get_set_eq. }
    assert (Ea : dnodes_elems s1 a = dnodes_elems s a).
    { destruct a as [d|b|l]; try reflexivity. simpl in *.
      apply set_elems_bind_fresh. assumption. }
    eexists. split; [reflexivity|].
    split; [apply live_on_grow_set; assumption|].
    split.
    + eapply only_name_trans; [apply only_name_bind_fresh; assumption|].
      apply only_name_grow_set; [apply Hl1 | exact E1].
    + destruct Hl1 as (Hh1 & _).
      rewrite (entry_grow_set cur name _ _ s1 Hh1 E1).
      unfold s1 at 1. rewrite set_elems_bind_fresh_new, Ea. reflexivity.
Qed.

Lemma bind_eq {A B} (m : M A) (k : A -> M B) s a s1 :
  m s = Ok a s1 -> bind m k s = k a s1.
Proof. intros H. unfold bind. rewrite H. reflexivity. Qed.

Lemma bind_get {B} (k : DefUseChains -> M B) s : bind get k s = k s s.
Proof. reflexivity. Qed.

(** A loop over distinct names in which the step for a name writes what
    the layer on top binds to that name only. *)
Lemma forM_names cur (f : string -> M unit) (G : string -> option (list nat)) ds s0 :
  List.NoDup ds ->
  (forall d s, In d ds -> live_on cur s ->
     (forall L, L <> cur -> dict_items s L = dict_items s0 L) ->
     (forall L, entry s L d = entry s0 L d) ->
     exists s', f d s = Ok tt s' /\ live_on cur s' /\ only_name cur d s s' /\
       entry s' cur d = G d) ->
  live_on cur s0 ->
  exists s', forM_ ds f s0 = Ok tt s' /\ live_on cur s' /\
    (forall L, L <> cur -> dict_items s' L = dict_items s0 L) /\
    (forall L n, ~ In n ds -> entry s' L n = entry s0 L n) /\
    (forall d, In d ds -> entry s' cur d = G d).
Proof.
  intros Hnd Hf Hl0.
  assert (H : forall s, live_on cur s ->
            (forall L, L <> cur -> dict_items s L = dict_items s0 L) ->
            (forall d, In d ds -> forall L, entry s L d = entry s0 L d) ->
            exists s', forM_ ds f s = Ok tt s' /\ live_on cur s' /\
              (forall L, L <> cur -> dict_items s' L = dict_items s L) /\
              (forall L n, ~ In n ds -> entry s' L n = entry s L n) /\
              (forall d, In d ds -> entry s' cur d = G d)).
  { clear Hl0. induction ds as [|d ds IH]; intros s Hl Hd He.
    - exists s. simpl. split; [reflexivity|]. split; [assumption|].
      split; [reflexivity|]. split; [reflexivity|]. intros d [].
    - apply List.NoDup_cons_iff in Hnd. destruct Hnd as [Hd0 Hnd].
      destruct (Hf d s (or_introl eq_refl) Hl Hd (He d (or_introl eq_refl)))
        as (s1 & E1 & Hl1 & (O1 & O2) & G1).
      destruct (IH Hnd) with (s := s1) as (s' & E' & Hl' & D' & N' & G'); auto.
      + intros d' s2 Hin. apply Hf. right. assumption.
      + intros L HL. rewrite O1 by assumption. apply Hd. assumption.
      + intros d' Hin L. rewrite O2 by (intros ->; contradiction).
        apply He. right. assumption.
      + exists s'. split; [simpl; rewrite (bind_eq _ _ _ _ _ E1); exact E'|].
        split; [assumption|]. split; [|split].
        * intros L HL. rewrite D', O1 by assumption. reflexivity.
        * intros L n Hn. rewrite N' by (intros Hin; apply Hn; right; assumption).
          apply O2. intros ->. apply Hn. left. reflexivity.
        * intros d' [<-|Hin]; [|apply G'; assumption].
          rewrite N' by assumption. assumption. }
  apply (H s0 Hl0); auto.
Qed.

(** What the layer on top binds to a name after the branches are merged:
    [prior] is what it bound before, [b] and [o] are what the two branch
    layers bind.  A set built from a sequence keeps the first occurrence of
    each element. *)
Definition merged_entry (prior b o : option (list nat)) : option (list nat) :=
  match b, o with
  | Some b, Some o => Some (oset_update [] (oset_update b o))
  | Some b, None => Some (oset_update (default [] prior) b)
  | None, Some o => Some (oset_update (default [] prior) o)
  | None, None => prior
  end.

Lemma dict_getitem_present lid name s sid :
  od_get name (dict_items s lid) = Some sid -> dict_getitem lid name s = Ok sid s.
Proof. intros H. unfold dict_getitem, bind, get. rewrite H. reflexivity. Qed.

(** The two loops that close [visit_If], in live code. *)
Lemma merge_branches_spec cur body_defs orelse_defs s :
  live_on cur s -> body_defs <> cur -> orelse_defs <> cur ->
  exists s', merge_branches body_defs orelse_defs s = Ok tt s' /\ live_on cur s' /\
    (forall L, L <> cur -> dict_items s' L = dict_items s L) /\
    forall d, entry s' cur d
              = merged_entry (entry s cur d) (entry s body_defs d) (entry s orelse_defs d).
Proof.
  intros Hl HB HO. unfold merge_branches. rewrite bind_get.
  destruct (forM_names cur
              (fun d =>
                 s <- get ;;
                 if dict_mem s orelse_defs d then
                   b <- dict_getitem body_defs d ;;
                   o <- dict_getitem orelse_defs d ;;
                   s <- get ;;
                   set_definition d (DefList (oset_update (set_elems s b) (set_elems s o)))
                 else
                   b <- dict_getitem body_defs d ;;
                   extend_definition d (SetRef b))
              (fun d => merged_entry (entry s cur d) (entry s body_defs d)
                          (entry s orelse_defs d))
              (od_keys (dict_items s body_defs)) s)
    as (s1 & E1 & Hl1 & D1 & N1 & G1).
  { apply Hl. }
  { intros d s2 Hin Hl2 Hd He. apply od_get_Some_keys in Hin. destruct Hin as (b & Hb).
    rewrite bind_get.
    assert (Hb2 : od_get d (dict_items s2 body_defs) = Some b)
      by (rewrite Hd by assumption; exact Hb).
    assert (EB : entry s body_defs d = Some (set_elems s2 b)).
    { rewrite <- He. unfold entry. rewrite Hb2. reflexivity. }
    unfold dict_mem, od_mem.
    destruct (od_get d (dict_items s2 orelse_defs)) as [o|] eqn:Ho.
    - assert (EO : entry s orelse_defs d = Some (set_elems s2 o)).
      { rewrite <- He. unfold entry. rewrite Ho. reflexivity. }
      rewrite (bind_eq _ _ _ _ _ (dict_getitem_present _ _ _ _ Hb2)).
      rewrite (bind_eq _ _ _ _ _ (dict_getitem_present _ _ _ _ Ho)).
      rewrite bind_get.
      destruct (set_definition_spec cur d
                  (DefList (oset_update (set_elems s2 b) (set_elems s2 o))) s2 Hl2)
        as (s3 & E3 & Hl3 & O3 & G3).
      exists s3. rewrite EB, EO. auto.
    - assert (EO : entry s orelse_defs d = None).
      { rewrite <- He. unfold entry. rewrite Ho. reflexivity. }
      rewrite (bind_eq _ _ _ _ _ (dict_getitem_present _ _ _ _ Hb2)).
      destruct (extend_definition_spec cur d (SetRef b) s2 Hl2) as (s3 & E3 & Hl3 & O3 & G3).
      { destruct Hl2 as ((H2 & _) & _). simpl. eapply H2. exact Hb2. }
      exists s3. rewrite EB, EO, <- He. auto. }
  { apply Hl. }
  rewrite (bind_eq _ _ _ _ _ E1). rewrite bind_get.
  destruct (forM_names cur
              (fun d =>
                 s <- get ;;
                 if dict_mem s body_defs d then ret tt
                 else
                   o <- dict_getitem orelse_defs d ;;
                   extend_definition d (SetRef o))
              (fun d => match entry s1 body_defs d with
                        | Some _ => entry s1 cur d
                        | None => merged_entry (entry s1 cur d) None (entry s1 orelse_defs d)
                        end)
              (od_keys (dict_items s1 orelse_defs)) s1)
    as (s2 & E2 & Hl2 & D2 & N2 & G2).
  { apply Hl1. }
  { intros d s2 Hin Hl2 Hd He. apply od_get_Some_keys in Hin. destruct Hin as (o & Ho).
    rewrite bind_get.
    assert (Ho2 : od_get d (dict_items s2 orelse_defs) = Some o)
      by (rewrite Hd by assumption; exact Ho).
    assert (EO : entry s1 orelse_defs d = Some (set_elems s2 o)).
    { rewrite <- He. unfold entry. rewrite Ho2. reflexivity. }
    assert (EB : entry s1 body_defs d
                 = match od_get d (dict_items s2 body_defs) with
                   | Some x => Some (set_elems s2 x) | None => None end).
    { rewrite <- He. reflexivity. }
    unfold dict_mem, od_mem. rewrite EB.
    destruct (od_get d (dict_items s2 body_defs)) as [b|] eqn:Hb.
    - exists s2. split; [reflexivity|]. split; [assumption|].
      split; [split; reflexivity | apply He].
    - rewrite (bind_eq _ _ _ _ _ (dict_getitem_present _ _ _ _ Ho2)).
      destruct (extend_definition_spec cur d (SetRef o) s2 Hl2) as (s3 & E3 & Hl3 & O3 & G3).
      { destruct Hl2 as ((H2 & _) & _). simpl. eapply H2. exact Ho2. }
      exists s3. rewrite EO, <- He. auto. }
  { apply Hl1. }
  exists s2. split; [exact E2|]. split; [exact Hl2|]. split.
  { intros L HL. rewrite D2, D1 by assumption. reflexivity. }
  intros d.
  assert (KB : forall s0 L, In d (od_keys (dict_items s0 L)) <-> entry s0 L d <> None).
  { intros s0 L. rewrite od_get_Some_keys. unfold entry.
    destruct (od_get d (dict_items s0 L)); split; try congruence; eauto.
    intros [v Hv]. discriminate. }
  assert (DB : entry s1 body_defs d <> None <-> entry s body_defs d <> None).
  { rewrite <- !KB, D1 by assumption. reflexivity. }
  destruct (in_dec string_dec d (od_keys (dict_items s1 orelse_defs))) as [Hin2|Hin2];
    destruct (in_dec string_dec d (od_keys (dict_items s body_defs))) as [Hin1|Hin1].
  - rewrite G2 by assumption. apply KB in Hin1. apply DB in Hin1.
    destruct (entry s1 body_defs d); [|congruence]. apply G1. apply KB. apply DB. congruence.
  - rewrite G2 by assumption. rewrite !N1 by assumption.
    destruct (entry s body_defs d) eqn:EB.
    + exfalso. apply Hin1. apply KB. congruence.
    + reflexivity.
  - rewrite N2 by assumption. rewrite G1 by assumption. reflexivity.
  - rewrite N2, N1 by assumption.
    assert (EB : entry s body_defs d = None).
    { destruct (entry s body_defs d) eqn:EB; [|reflexivity].
      exfalso. apply Hin1. apply KB. congruence. }
    assert (EO : entry s orelse_defs d = None).
    { rewrite <- (N1 orelse_defs d) by assumption.
      destruct (entry s1 orelse_defs d) eqn:EO; [|reflexivity].
      exfalso. apply Hin2. apply KB. congruence. }
    rewrite EB, EO. reflexivity.
Qed.

Lemma live_on_step {A} cur (m : M A) s a s' :
  respects frame m -> respects heap_rel m ->
  live_on cur s -> m s = Ok a s' -> live_on cur s'.
Proof.
  intros Hf Hh (H1 & H2 & H3 & H4) E.
  pose proof (wp_Ok _ _ _ _ _ (Hf s) E) as (F1 & _ & _ & _ & F5 & _).
  pose proof (wp_Ok _ _ _ _ _ (Hh s) E) as (W1 & W2).
  refine (conj (W1 H1) (conj _ (conj _ _))); [congruence | congruence | lia].
Qed.

Lemma copy_top_definitions_Ok cur s :
  Py.last (_definitions s) = Some cur ->
  copy_top_definitions s
  = Ok (length (heap_dicts s)) (upd_heap_dicts (fun h => h ++ [dict_items s cur]) s).
Proof.
  intros H. unfold copy_top_definitions, top, bind, get, expect. rewrite H. reflexivity.
Qed.

Lemma keeps_copy_top_definitions : keeps copy_top_definitions.
Proof. keeps_go. Qed.

(** In dead code the writers do nothing, and neither do the two loops. *)
Lemma extend_definition_dead name a s :
  _deadcode s <> 0%Z -> extend_definition name a s = Ok tt s.
Proof.
  intros Hd. unfold extend_definition, bind, get.
  rewrite (bool_decide_eq_true_2 _ Hd). reflexivity.
Qed.

Lemma merge_branches_dead body_defs orelse_defs s :
  _deadcode s <> 0%Z -> merge_branches body_defs orelse_defs s = Ok tt s.
Proof.
  intros Hd.
  assert (H : forall (f : string -> M unit) ds,
            (forall d, In d ds -> f d s = Ok tt s) -> forM_ ds f s = Ok tt s).
  { intros f ds. induction ds as [|d ds IH]; intros Hf; [reflexivity|].
    simpl. rewrite (bind_eq _ _ _ _ _ (Hf d (or_introl eq_refl))).
    apply IH. intros d' Hin. apply Hf. right. assumption. }
  unfold merge_branches. rewrite bind_get.
  rewrite (bind_eq _ _ s tt s).
  - rewrite bind_get. apply H. intros d Hin. rewrite bind_get.
    destruct (dict_mem s body_defs d); [reflexivity|].
    apply od_get_Some_keys in Hin. destruct Hin as (o & Ho).
    rewrite (bind_eq _ _ _ _ _ (dict_getitem_present _ _ _ _ Ho)).
    apply extend_definition_dead. assumption.
  - apply H. intros d Hin. rewrite bind_get.
    apply od_get_Some_keys in Hin. destruct Hin as (b & Hb).
    destruct (dict_mem s orelse_defs d) eqn:Em.
    + apply od_mem_true in Em. destruct Em as (o & Ho).
      rewrite (bind_eq _ _ _ _ _ (dict_getitem_present _ _ _ _ Hb)).
      rewrite (bind_eq _ _ _ _ _ (dict_getitem_present _ _ _ _ Ho)).
      rewrite bind_get. apply set_definition_dead. assumption.
    + rewrite (bind_eq _ _ _ _ _ (dict_getitem_present _ _ _ _ Hb)).
      apply extend_definition_dead. assumption.
Qed.

(** The fresh analyzer is well formed, and so is the instance that an
    analysis leaves. *)
Lemma Heap_ok_init Builtins : Heap_ok (DefUseChains_init Builtins).
Proof.
  refine (conj _ (conj _ _)).
  - intros lid name sid. destruct lid; discriminate.
  - intros l1 l2 n1 n2 sid. destruct l1; discriminate.
  - intros lid. destruct lid; constructor.
Qed.

Lemma Heap_ok_analyze fuel Builtins m r s' :
  analyze fuel Builtins m = Ok r s' -> Heap_ok s'.
Proof.
  unfold analyze. intros H.
  pose proof (wp_Ok _ _ _ _ _ (wf_run fuel _ _) H) as (W & _).
  apply W. apply Heap_ok_init.
Qed.

(** * Further properties

    ** Ordered sets *)

Lemma NoDup_oset_add x l : List.NoDup l -> List.NoDup (oset_add x l).
Proof.
  intros H. unfold oset_add. destruct (bool_decide (x ∈ l)) eqn:E; [exact H|].
  apply bool_decide_eq_false in E. rewrite list_elem_of_In in E.
  apply List.NoDup_app; [exact H | constructor; [intros [] | constructor] |].
  intros y Hy [<-|[]]. exact (E Hy).
Qed.

Lemma NoDup_oset_update l xs : List.NoDup l -> List.NoDup (oset_update l xs).
Proof.
  unfold oset_update. revert l. induction xs as [|x xs IH]; intros l H; simpl; [exact H|].
  apply IH. apply NoDup_oset_add. exact H.
Qed.

(** X1. The elements of an ordered set that is built from a sequence, or
    updated with one, are those of the set and of the sequence, each once:
    adding a present element adds nothing. *)
Theorem ordered_set_elements_are_unique l xs :
  List.NoDup l ->
  List.NoDup (oset_update l xs) /\
  List.NoDup (oset_update [] xs) /\
  (forall x, In x (oset_update l xs) <-> In x l \/ In x xs) /\
  (forall x, length (oset_add x l) = if bool_decide (x ∈ l) then length l else S (length l)).
Proof.
  intros H. split; [apply NoDup_oset_update; exact H|].
  split; [apply NoDup_oset_update; constructor|].
  split; [intros x; apply oset_update_In|].
  intros x. unfold oset_add. destruct (bool_decide (x ∈ l)); [reflexivity|].
  rewrite length_app. simpl. lia.
Qed.

Lemma ordered_set_elements_are_unique_witness :
  List.NoDup (oset_update [3; 1] [1; 2; 3; 2]) /\
  List.NoDup (oset_update [] [1; 2; 3; 2]) /\
  (forall x, In x (oset_update [3; 1] [1; 2; 3; 2]) <-> In x [3; 1] \/ In x [1; 2; 3; 2]) /\
  (forall x, length (oset_add x [3; 1])
             = if bool_decide (x ∈ [3; 1]) then length [3; 1] else S (length [3; 1])).
Proof.
  apply (ordered_set_elements_are_unique [3; 1] [1; 2; 3; 2]).
  repeat (constructor; [simpl; intuition lia|]). constructor.
Defined.

Lemma oset_add_present x l : In x l -> oset_add x l = l.
Proof.
  intros H. unfold oset_add. apply list_elem_of_In in H.
  rewrite (bool_decide_eq_true_2 _ H). reflexivity.
Qed.

Lemma oset_update_absorb l xs : (forall x, In x xs -> In x l) -> oset_update l xs = l.
Proof.
  unfold oset_update. induction xs as [|x xs IH]; intros H; simpl; [reflexivity|].
  rewrite oset_add_present by (apply H; left; reflexivity).
  apply IH. intros y Hy. apply H. right. exact Hy.
Qed.

Lemma oset_update_prefix l xs : exists new, oset_update l xs = l ++ new.
Proof.
  unfold oset_update. revert l. induction xs as [|x xs IH]; intros l; simpl.
  - exists []. rewrite app_nil_r. reflexivity.
  - destruct (IH (oset_add x l)) as (new & E). rewrite E. unfold oset_add.
    destruct (bool_decide (x ∈ l)); [eauto|].
    exists ([x] ++ new). rewrite app_assoc. reflexivity.
Qed.

(** X2. An update of an ordered set only appends: the elements that were there
    keep their place (an element that is added again as well); two updates
    in a row are the update with the two sequences in a row, which is also
    what [__add__] builds; and an update with elements that are all there
    changes nothing, so that an update is idempotent. *)
Theorem ordered_set_update_appends l xs :
  (exists new, oset_update l xs = l ++ new) /\
  (forall ys, oset_update (oset_update l xs) ys = oset_update l (xs ++ ys)) /\
  (forall x, In x l -> oset_add x l = l) /\
  oset_update (oset_update l xs) xs = oset_update l xs /\
  oset_update l l = l.
Proof.
  split; [apply oset_update_prefix|].
  split; [intros ys; unfold oset_update; rewrite fold_left_app; reflexivity|].
  split; [intros x; apply oset_add_present|].
  split; apply oset_update_absorb; intros x Hx; [|exact Hx].
  apply oset_update_In. right. exact Hx.
Qed.

(** ** The name of an import *)

Definition has_dot (s : string) : Prop := In "."%char (list_ascii_of_string s).

Lemma split_dot_head_no_dot s : ~ has_dot (Py.split_dot_head s).
Proof.
  unfold has_dot. induction s as [|c r IH]; simpl; [tauto|].
  destruct (Ascii.eqb c ".") eqn:E; simpl; [tauto|].
  intros [H|H]; [|exact (IH H)]. subst c. discriminate E.
Qed.

Lemma split_dot_head_prefix s : exists r, s = (Py.split_dot_head s ++ r)%string.
Proof.
  induction s as [|c r IH]; simpl; [exists EmptyString; reflexivity|].
  destruct (Ascii.eqb c "."); simpl; [eexists; reflexivity|].
  destruct IH as (r' & E). exists r'.
  change (String c r = String c (Py.split_dot_head r ++ r')). f_equal. exact E.
Qed.

Lemma split_dot_head_app a b :
  ~ has_dot a -> Py.split_dot_head (a ++ String "." b) = a.
Proof.
  unfold has_dot. induction a as [|c r IH]; simpl; intros H; [reflexivity|].
  destruct (Ascii.eqb c ".") eqn:E.
  - apply Ascii.eqb_eq in E. exfalso. apply H. left. congruence.
  - rewrite IH; [reflexivity|]. intros Hr. apply H. right. exact Hr.
Qed.

(** X3. The name of the [Def] of an import alias without [asname] is the part
    of the module path before its first dot: it has no dot, the path starts
    with it, and it is the whole path when the path has no dot.  With a
    non-empty [asname] the name is the [asname]. *)
Theorem alias_name_is_first_component i path asname :
  let D := mkDef (ONode (NAlias (Alias i path asname))) [] in
  (asname = None \/ asname = Some EmptyString ->
   Def_name D = Py.split_dot_head path /\ ~ has_dot (Def_name D) /\
   (exists rest, path = (Def_name D ++ rest)%string) /\
   (~ has_dot path -> Def_name D = path)) /\
  (forall a b, path = (a ++ String "." b)%string -> ~ has_dot a ->
     Py.split_dot_head path = a) /\
  (forall x, asname = Some x -> x <> EmptyString -> Def_name D = x).
Proof.
  intros D. split; [|split].
  - intros Has.
    assert (E : Def_name D = Py.split_dot_head path)
      by (destruct Has as [-> | ->]; reflexivity).
    rewrite E. split; [reflexivity|]. split; [apply split_dot_head_no_dot|].
    split; [apply split_dot_head_prefix|].
    intros Hn. clear E Has D. unfold has_dot in Hn.
    induction path as [|c r IH]; simpl; [reflexivity|].
    destruct (Ascii.eqb c ".") eqn:Ec.
    + apply Ascii.eqb_eq in Ec. exfalso. apply Hn. left. congruence.
    + rewrite IH; [reflexivity|]. intros Hr. apply Hn. right. exact Hr.
  - intros a b -> Ha. apply split_dot_head_app. exact Ha.
  - intros x -> Hx. unfold D, Def_name. simpl. unfold Py.str_or.
    destruct (decide (x = EmptyString)); [contradiction | reflexivity].
Qed.

(** ** A name that no layer binds *)

Lemma chains_setdefault_Ok n s :
  chains_setdefault n s
  = match od_get (node_id n) (chains s) with
    | Some d => Ok d (upd_heap_defs (fun h => h ++ [mkDef (ONode n) []]) s)
    | None =>
        Ok (length (heap_defs s))
          (upd_chains (od_set (node_id n) (length (heap_defs s)))
             (upd_heap_defs (fun h => h ++ [mkDef (ONode n) []]) s))
    end.
Proof.
  unfold chains_setdefault, bind, new_Def, get. simpl.
  destruct (od_get (node_id n) (chains s)); reflexivity.
Qed.

Lemma defs_unbound s n name quiet l stars :
  looked_up name s = Ok l s ->
  lookup s name l [] = inr stars ->
  exists d s',
    defs n name quiet s = Ok (stars ++ [d]) s' /\
    od_get (node_id n) (chains s') = Some d /\
    (forall d0, od_get (node_id n) (chains s) = Some d0 -> d = d0) /\
    (od_get (node_id n) (chains s) = None ->
     d = length (heap_defs s) /\ node_of s' d = ONode n /\ users s' d = []) /\
    stdout s'
    = (if bool_decide (stars = []) && bool_decide (_undefs s = []) && negb quiet
       then stdout s ++ [(name, ONode n)] else stdout s) /\
    (forall u, Py.last (_undefs s) = Some u ->
       Py.last (_undefs s')
       = Some (od_set name (default [] (od_get name u) ++ [(d, stars)]) u)) /\
    heap_sets s' = heap_sets s /\ heap_dicts s' = heap_dicts s /\
    _definitions s' = _definitions s.
Proof.
  intros Hl Hs. unfold defs. rewrite (bind_eq _ _ _ _ _ Hl), bind_get, Hs.
  assert (Hnew : forall o, node_of (upd_heap_defs (fun h => h ++ [mkDef o []]) s)
                             (length (heap_defs s)) = o)
    by (intros o; apply node_of_new).
  assert (Husers : forall o, users (upd_heap_defs (fun h => h ++ [mkDef o []]) s)
                               (length (heap_defs s)) = []).
  { intros o. rewrite users_alloc. unfold users, def_at.
    rewrite lookup_ge_None_2 by lia. reflexivity. }
  unfold bind at 1. rewrite chains_setdefault_Ok.
  destruct (od_get (node_id n) (chains s)) as [d0|] eqn:Ec.
  - exists d0. rewrite bind_get. cbn [_undefs upd_heap_defs].
    destruct (Py.last (_undefs s)) as [u|] eqn:Eu.
    + assert (Hne : _undefs s <> []) by (intros E; rewrite E in Eu; discriminate Eu).
      rewrite (bool_decide_eq_false_2 _ Hne), andb_false_r.
      destruct stars as [|x stars]; eexists; (split; [reflexivity|]); simpl;
        (repeat split; auto; try congruence);
        intros u' Hu'; inversion Hu'; subst; unfold Py.set_last; apply Py.last_snoc.
    + assert (He : _undefs s = []).
      { destruct (_undefs s) as [|x xs] using List.rev_ind; [reflexivity|].
        rewrite Py.last_snoc in Eu. discriminate Eu. }
      rewrite He. destruct stars as [|x stars]; [destruct quiet|];
        eexists; (split; [reflexivity|]); simpl;
        (repeat split; auto; try congruence); intros u' Hu'; discriminate Hu'.
  - exists (length (heap_defs s)). rewrite bind_get. cbn [_undefs upd_heap_defs upd_chains].
    destruct (Py.last (_undefs s)) as [u|] eqn:Eu.
    + assert (Hne : _undefs s <> []) by (intros E; rewrite E in Eu; discriminate Eu).
      rewrite (bool_decide_eq_false_2 _ Hne), andb_false_r.
      destruct stars as [|x stars]; eexists; (split; [reflexivity|]); simpl;
        (repeat split; auto; try congruence; try apply od_get_set_eq;
         try apply Hnew; try apply Husers);
        intros u' Hu'; inversion Hu'; subst; unfold Py.set_last; apply Py.last_snoc.
    + assert (He : _undefs s = []).
      { destruct (_undefs s) as [|x xs] using List.rev_ind; [reflexivity|].
        rewrite Py.last_snoc in Eu. discriminate Eu. }
      rewrite He. destruct stars as [|x stars]; [destruct quiet|];
        eexists; (split; [reflexivity|]); simpl;
        (repeat split; auto; try congruence; try apply od_get_set_eq;
         try apply Hnew; try apply Husers); intros u' Hu'; discriminate Hu'.
Qed.



(** ** Reading a local before it is assigned *)

Lemma existsb_false {A} (f : A -> bool) l :
  (forall x, In x l -> f x = false) -> existsb f l = false.
Proof.
  induction l as [|x l IH]; intros H; simpl; [reflexivity|].
  rewrite (H x (or_introl eq_refl)). apply IH. intros y Hy. apply H. right. exact Hy.
Qed.

(** X5. In a scope that assigns the name somewhere (the name is among its
    precomputed locals), a read of the name that no layer of the scope
    binds yet, under its own name or under a wildcard, is unbound whatever
    the enclosing scopes bind: unless the scope is a class whose name some
    module-level layer binds, no layer at all is searched, and [defs]
    answers with the [Def] of the node alone. *)
Theorem local_read_before_assignment s n name quiet depths depth pls pl scopes base :
  existsb (name_in name) (_globals s) = false ->
  _scope_depths s = depths ++ [depth] ->
  _precomputed_locals s = pls ++ [pl] ->
  _scopes s = scopes ++ [base] ->
  name_in name pl = true ->
  (forall layer, In layer (Py.slice (_definitions s) (Some depth) None) ->
     dict_mem s layer name = false /\ dict_mem s layer "*" = false) ->
  (is_ClassDef base = true ->
   forall d0 layer,
     head (_scope_depths s) = Some d0 ->
     In layer (Py.slice (_definitions s) (Some 0%Z) (Some (- d0)%Z)) ->
     dict_mem s layer name = false /\ dict_mem s layer "*" = false) ->
  looked_up name s = Ok [] s /\
  exists d s', defs n name quiet s = Ok [d] s' /\
    od_get (node_id n) (chains s') = Some d /\
    stdout s' = (if bool_decide (_undefs s = []) && negb quiet
                 then stdout s ++ [(name, ONode n)] else stdout s).
Proof.
  intros Hg Hd Hp Hs Hin Hlocal Hclass.
  assert (Hinv : invalid_name_lookup name base pl
                   (Py.slice (_definitions s) (Some depth) None) s = Ok true s).
  { unfold invalid_name_lookup. rewrite Hin. simpl. rewrite bind_get.
    rewrite existsb_false
      by (intros x Hx; destruct (Hlocal x Hx) as [-> ->]; reflexivity).
    destruct (is_ClassDef base) eqn:Eb; [|reflexivity].
    destruct (head (_scope_depths s)) as [d0|] eqn:E0.
    - simpl. unfold bind, ret. simpl.
      rewrite existsb_false; [reflexivity|].
      intros x Hx. destruct (Hclass eq_refl d0 x eq_refl Hx) as [-> ->]. reflexivity.
    - rewrite Hd in E0. destruct depths; discriminate E0. }
  assert (Hl : looked_up name s = Ok [] s).
  { unfold looked_up. rewrite bind_get, Hg, Hd, Hp, Hs, !rev_unit.
    rewrite (bind_eq _ _ _ _ _ Hinv). reflexivity. }
  split; [exact Hl|].
  destruct (defs_unbound s n name quiet [] [] Hl eq_refl)
    as (d & s' & E & Hc & _ & _ & Ho & _).
  exists d, s'. split; [exact E|]. split; [exact Hc|]. exact Ho.
Qed.

(** The layer of a module that binds [x], below the empty layer of a
    function [f] that assigns [x] somewhere in its body. *)
Definition example_function_scope : DefUseChains :=
  mkDefUseChains
    [mkDef (OValue "int") []]
    [[0]]
    [[("x", 0)]; []]
    [] [] [] []
    [0; 1] [(-1)%Z; (-1)%Z] [[]; []] [["x"]; ["x"]] []
    [NModule example_expression;
     NStmt (FunctionDef false 50 "f" (no_arguments 51) [] [] None)]
    [] [] 0%Z None [].

Lemma local_read_before_assignment_witness :
  let s := example_function_scope in
  let n := NExpr (Name 9 "x" Load None) in
  looked_up "x" s = Ok [] s /\
  exists d s', defs n "x" false s = Ok [d] s' /\
    od_get (node_id n) (chains s') = Some d /\
    stdout s' = (if bool_decide (_undefs s = []) && negb false
                 then stdout s ++ [("x", ONode n)] else stdout s).
Proof.
  apply (local_read_before_assignment example_function_scope
           (NExpr (Name 9 "x" Load None)) "x" false [(-1)%Z] (-1)%Z [["x"]] ["x"]
           [NModule example_expression]
           (NStmt (FunctionDef false 50 "f" (no_arguments 51) [] [] None)));
    try reflexivity.
  - intros layer [<-|[]]. split; reflexivity.
  - intros H. discriminate H.
Defined.

(** ** [break] and [continue] outside a loop *)

Lemma drain_into_no_carrier (carriers : DefUseChains -> list nat) s cur kv items :
  carriers s = [] -> Py.last (_definitions s) = Some cur ->
  dict_items s cur = kv :: items ->
  drain_into carriers s = Raised IndexError.
Proof.
  intros Hc Ht Hi. unfold drain_into, top.
  unfold bind at 1. unfold bind at 1. unfold get at 1. unfold expect at 1.
  rewrite Ht. simpl. rewrite bind_get, Hi. simpl.
  unfold bind, get, expect. rewrite Hc. reflexivity.
Qed.

Lemma drain_into_no_layer (carriers : DefUseChains -> list nat) s :
  _definitions s = [] -> drain_into carriers s = Raised IndexError.
Proof.
  intros Hd. unfold drain_into, top, bind, get, expect. rewrite Hd. reflexivity.
Qed.

(** The module layer after the builtins are put in it. *)
Lemma builtins_loop_Ok cur (l : list (string * nat)) s :
  cur < length (heap_dicts s) ->
  exists s', forM_ l (fun kv => sid <- new_set [snd kv] ;; dict_set cur (fst kv) sid) s
             = Ok tt s' /\
    cur < length (heap_dicts s') /\
    _definitions s' = _definitions s /\ _breaks s' = _breaks s /\
    _continues s' = _continues s /\ _deadcode s' = _deadcode s /\
    (l <> [] \/ dict_items s cur <> [] -> dict_items s' cur <> []).
Proof.
  revert s. induction l as [|[k v] l IH]; intros s Hlt.
  - exists s. simpl. repeat split; auto. intros [H|H]; [congruence | exact H].
  - simpl.
    assert (Hlt' : cur < length (heap_dicts (bind_fresh cur k [v] s)))
      by (rewrite length_dicts_bind_fresh; exact Hlt).
    destruct (IH _ Hlt') as (s' & E & L & D & B & C & X & N).
    exists s'.
    rewrite (bind_eq (sid <- new_set [v] ;; dict_set cur k sid) _ s tt
               (bind_fresh cur k [v] s) eq_refl).
    split; [exact E|].
    repeat split; auto. intros _. apply N. right.
    rewrite dict_items_bind_fresh. destruct (decide _) as [_|Hn]; [|exfalso; apply Hn; auto].
    destruct (dict_items s cur) as [|[k0 v0] r]; simpl; [discriminate|].
    destruct (decide (k = k0)); discriminate.
Qed.

Lemma bind_raised {A B} (m : M A) (k : A -> M B) s e :
  m s = Raised e -> bind m k s = Raised e.
Proof. intros H. unfold bind. rewrite H. reflexivity. Qed.

Lemma bind_modify {B} f (k : unit -> M B) s : bind (modify f) k s = k tt (f s).
Proof. reflexivity. Qed.

(** The instance on which the body of [ScopeContext] starts. *)
Definition scope_entered (n : AST) (s : DefUseChains) : DefUseChains :=
  upd_precomputed_locals (fun l => l ++ [collect_locals n])
    (upd_globals (fun l => l ++ [[]])
       (upd_definitions (fun l => l ++ [length (heap_dicts s)])
          (upd_heap_dicts (fun h => h ++ [[]])
             (upd_scope_depths (fun l => l ++ [(-1)%Z])
                (upd_scopes (fun l => l ++ [n]) s))))).

Lemma ScopeContext_raised {A} n (body : M A) s e :
  body (scope_entered n s) = Raised e -> ScopeContext n body s = Raised e.
Proof.
  intros H. unfold ScopeContext. rewrite !bind_modify.
  unfold bind at 1. unfold new_dict at 1. rewrite !bind_modify.
  apply bind_raised. exact H.
Qed.

(** X6. A [break] that no loop encloses (the stack of break carriers is
    empty) raises [IndexError] as soon as the layer on top binds anything,
    and also when there is no layer at all; likewise for [continue].  So
    does the analysis of a module whose first statement is a [break] or a
    [continue], whatever follows, when the table of builtins is not
    empty. *)
Theorem jump_outside_loop_raises fuel i :
  (forall s cur kv items,
     Py.last (_definitions s) = Some cur -> dict_items s cur = kv :: items ->
     (_breaks s = [] ->
      run (S fuel) (Visit (NStmt (Break i))) s = Raised IndexError) /\
     (_continues s = [] ->
      run (S fuel) (Visit (NStmt (Continue i))) s = Raised IndexError)) /\
  (forall s, _definitions s = [] ->
     run (S fuel) (Visit (NStmt (Break i))) s = Raised IndexError /\
     run (S fuel) (Visit (NStmt (Continue i))) s = Raised IndexError) /\
  (forall Builtins j rest jump,
     Builtins <> [] -> jump = Break i \/ jump = Continue i ->
     analyze (S (S fuel)) Builtins (Module j (jump :: rest)) = Raised IndexError).
Proof.
  split; [|split].
  - intros s cur kv items Ht Hi. split; intros Hc;
      exact (drain_into_no_carrier _ s cur kv items Hc Ht Hi).
  - intros s Hd. split; exact (drain_into_no_layer _ s Hd).
  - intros Builtins j rest jump HB Hj. unfold analyze.
    change (run (S (S fuel)) (Visit (NModule (Module j (jump :: rest)))))
      with (visit_Module (run (S fuel)) (S fuel) (Module j (jump :: rest))).
    unfold visit_Module. rewrite bind_modify.
    apply bind_raised. apply ScopeContext_raised. rewrite bind_get.
    match goal with |- _ ?x = _ => set (s1 := x) end.
    assert (Ht : Py.last (_definitions s1) = Some 0) by reflexivity.
    assert (Etop : top _definitions s1 = Ok 0 s1) by reflexivity.
    rewrite (bind_eq _ _ _ _ _ Etop).
    assert (Hlt : 0 < length (heap_dicts s1)) by (unfold s1; simpl; lia).
    destruct (builtins_loop_Ok 0 (_builtins s1) s1 Hlt)
      as (s2 & E2 & L2 & D2 & B2 & C2 & X2 & N2).
    rewrite (bind_eq _ _ _ _ _ E2).
    assert (Hne : dict_items s2 0 <> []).
    { apply N2. left. unfold s1. simpl. destruct Builtins; [congruence | discriminate]. }
    destruct (dict_items s2 0) as [|kv items] eqn:Ei; [congruence|].
    assert (Hraise : run (S fuel) (Visit (NStmt jump))
                       (upd_deadcode (fun n => (n + 1)%Z) s2) = Raised IndexError).
    { destruct Hj as [-> | ->];
        apply (drain_into_no_carrier _ _ 0 kv items); simpl;
        first [rewrite B2; reflexivity | rewrite C2; reflexivity
              | rewrite D2; exact Ht | exact Ei]. }
    apply bind_raised. unfold process_body. apply bind_raised.
    cbn [process_body_loop].
    assert (Ej : is_jump jump = true) by (destruct Hj as [-> | ->]; reflexivity).
    rewrite Ej. cbn [andb negb].
    rewrite (bind_eq (modify (upd_deadcode (fun n => (n + 1)%Z)) ;; ret true) _ s2 true
               (upd_deadcode (fun n => (n + 1)%Z) s2) eq_refl).
    apply bind_raised. exact Hraise.
Qed.

(** ** The store of [Def]s only grows

    [store_grows s s']: every [Def] of [s] is still there in [s'], with the
    same node, and its users in [s] are its first users in [s'], in the
    same order. *)
Definition store_grows (s s' : DefUseChains) : Prop :=
  forall d D, heap_defs s !! d = Some D ->
    exists D', heap_defs s' !! d = Some D' /\ node D' = node D /\
      exists new, _users D' = _users D ++ new.

#[global] Instance store_grows_preorder : PreOrder store_grows.
Proof.
  split.
  - intros s d D H. exists D. split; [exact H|]. split; [reflexivity|].
    exists []. rewrite app_nil_r. reflexivity.
  - intros s1 s2 s3 H12 H23 d D H.
    destruct (H12 d D H) as (D2 & E2 & N2 & new2 & U2).
    destruct (H23 d D2 E2) as (D3 & E3 & N3 & new3 & U3).
    exists D3. split; [exact E3|]. split; [congruence|].
    exists (new2 ++ new3). rewrite U3, U2, app_assoc. reflexivity.
Qed.

Lemma store_grows_same s s' : heap_defs s' = heap_defs s -> store_grows s s'.
Proof.
  intros E d D H. rewrite E. exists D. split; [exact H|]. split; [reflexivity|].
  exists []. rewrite app_nil_r. reflexivity.
Qed.

Lemma store_new_Def o : respects store_grows (new_Def o).
Proof.
  intros s d D H. exists D. simpl. split.
  - rewrite lookup_app_l by (eapply lookup_lt_Some; exact H). exact H.
  - split; [reflexivity|]. exists []. rewrite app_nil_r. reflexivity.
Qed.

Lemma store_add_user d u : respects store_grows (add_user d u).
Proof.
  intros s x D H. simpl. destruct (decide (x = d)) as [->|Hne].
  - rewrite list_lookup_alter_eq, H. simpl. eexists. split; [reflexivity|].
    split; [reflexivity|]. simpl. unfold oset_add.
    destruct (bool_decide (u ∈ _users D)); [exists []; rewrite app_nil_r|exists [u]];
      reflexivity.
  - rewrite list_lookup_alter_ne by congruence. exists D. split; [exact H|].
    split; [reflexivity|]. exists []. rewrite app_nil_r. reflexivity.
Qed.

Create HintDb store.
#[local] Hint Resolve store_new_Def store_add_user : store.

Ltac store_leaf :=
  first
    [ lazymatch goal with
      | |- respects store_grows (looked_up _) =>
          apply (respects_weaken unchanged);
          [unfold unchanged; intros ? ? ->; apply PreOrder_Reflexive
          | apply reads_looked_up]
      | |- respects store_grows (modify _) =>
          apply respects_modify; intros ?; apply store_grows_same; reflexivity
      | |- respects store_grows (new_set _) =>
          intros ?; apply store_grows_same; reflexivity
      | |- respects store_grows (new_dict _) =>
          intros ?; apply store_grows_same; reflexivity
      end
    | solve [auto 2 with store] ].

Ltac store_go := respects_go store_leaf.

Lemma store_defs n name quiet : respects store_grows (defs n name quiet).
Proof. store_go. Qed.

#[local] Hint Resolve store_defs : store.

Lemma store_exec_items dnode items visible :
  respects store_grows (exec_items dnode items visible).
Proof.
  revert visible. induction items as [|[dname sid] items IH]; intros visible; simpl;
    store_go.
Qed.

#[local] Hint Resolve store_exec_items : store.

Lemma store_exec_locals dnode layers visible :
  respects store_grows (exec_locals dnode layers visible).
Proof.
  revert visible. induction layers as [|l layers IH]; intros visible; simpl; store_go.
Qed.

#[local] Hint Resolve store_exec_locals : store.

Section StoreVisitor.
Variable self : Self.
Hypothesis store_self : forall c, respects store_grows (self c).

Hint Resolve store_self : store.

Lemma store_process_body_loop stmts deadcode :
  respects store_grows (process_body_loop self stmts deadcode).
Proof.
  revert deadcode. induction stmts as [|stmt stmts IH]; intros deadcode; simpl; store_go.
Qed.

Hint Resolve store_process_body_loop : store.

Lemma store_process_body stmts : respects store_grows (process_body self stmts).
Proof. store_go. Qed.

Hint Resolve store_process_body : store.

Lemma store_visit_Name n id ctx annotation skip :
  respects store_grows (visit_Name self n id ctx annotation skip).
Proof. store_go. Qed.

Hint Resolve store_visit_Name : store.

Lemma store_visit_FunctionDef n name args body decorator_list returns st :
  respects store_grows (visit_FunctionDef self n name args body decorator_list returns st).
Proof. store_go. Qed.

Lemma store_visit_Lambda n args body st :
  respects store_grows (visit_Lambda self n args body st).
Proof. store_go. Qed.

Hint Resolve store_visit_FunctionDef store_visit_Lambda : store.

Lemma store_drain_defered fuel i : respects store_grows (drain_defered self fuel i).
Proof.
  revert i. induction fuel as [|fuel IH]; intros i; simpl; [apply respects_out_of_fuel|].
  apply respects_bind; [exact _ | apply respects_get; exact _ |]. intros s.
  destruct (_defered s !! i) as [[[[[fnode defs] scopes] depths] pls]|];
    [|apply respects_ret; exact _].
  apply respects_bind; [exact _ | | intro; apply IH].
  unfold SwitchScopeContext. store_go.
Qed.

Hint Resolve store_drain_defered : store.

Lemma store_visit_Destructured n elts :
  respects store_grows (visit_Destructured self n elts).
Proof. store_go. Qed.

Hint Resolve store_visit_Destructured : store.

Lemma store_visit_Module fuel m : respects store_grows (visit_Module self fuel m).
Proof. store_go. Qed.

Hint Resolve store_visit_Module : store.

Lemma store_dispatch fuel n : respects store_grows (dispatch self fuel n).
Proof. unfold dispatch. destruct n as [m|st|e|c|a|k|a|w|h]; store_go. Qed.
End StoreVisitor.

Lemma store_run fuel c : respects store_grows (run fuel c).
Proof.
  revert c. induction fuel as [|fuel IH]; intros c; simpl.
  - apply respects_out_of_fuel.
  - destruct c as [n|e].
    + apply store_dispatch. exact IH.
    + destruct e; try apply respects_raise. apply store_visit_Destructured. exact IH.
Qed.

(** X7. A visit never forgets: whatever the node and the instance, after a
    normal return every [Def] that existed is still at its place with the
    same node, none of its users was removed, and its new users come after
    the old ones. *)
Theorem visit_only_adds_users fuel c s r s' :
  run fuel c s = Ok r s' ->
  length (heap_defs s) <= length (heap_defs s') /\
  forall d, d < length (heap_defs s) ->
    node_of s' d = node_of s d /\
    (exists new, users s' d = users s d ++ new) /\
    (forall u, In u (users s d) -> In u (users s' d)).
Proof.
  intros H. pose proof (wp_Ok _ _ _ _ _ (store_run fuel c s) H) as Hs.
  split.
  - destruct (decide (length (heap_defs s) <= length (heap_defs s'))) as [Hle|Hgt];
      [exact Hle|exfalso].
    destruct (lookup_lt_is_Some_2 (heap_defs s) (length (heap_defs s) - 1)) as (D & HD);
      [lia|].
    destruct (Hs _ _ HD) as (D' & HD' & _). apply lookup_lt_Some in HD'. lia.
  - intros d Hd. destruct (lookup_lt_is_Some_2 _ _ Hd) as (D & HD).
    destruct (Hs _ _ HD) as (D' & HD' & HN & new & HU).
    unfold node_of, users, def_at. rewrite HD, HD'.
    split; [exact HN|]. split; [exists new; exact HU|].
    intros u Hu. rewrite HU. apply in_or_app. left. exact Hu.
Qed.

Lemma visit_only_adds_users_witness :
  let s := example_star_layers in
  let s' := final (run 3 (Visit (NStmt (Delete 20 [Name 21 "x" Del None]))) s) in
  length (heap_defs s) <= length (heap_defs s') /\
  forall d, d < length (heap_defs s) ->
    node_of s' d = node_of s d /\
    (exists new, users s' d = users s d ++ new) /\
    (forall u, In u (users s d) -> In u (users s' d)).
Proof.
  apply (visit_only_adds_users 3 (Visit (NStmt (Delete 20 [Name 21 "x" Del None])))
           example_star_layers None).
  vm_compute. reflexivity.
Defined.

(** ** Deletion, whatever the targets *)







(** [del (x, y)] after [x = 1; y = 2]: the names in the tuple are not
    visited, no del-site is recorded for them. *)
Example del_of_a_tuple :
  let m := Module 0 [Assign 1 [Name 2 "x" Store None] (Constant 3);
                     Assign 4 [Name 5 "y" Store None] (Constant 6);
                     Delete 7 [Seq KTuple 8 [Name 9 "x" Del None; Name 10 "y" Del None]
                                 Del]] in
  let s := final (analyze 20 example_builtins m) in
  od_get 9 (chains s) = None /\ od_get 10 (chains s) = None /\
  od_get 8 (chains s) = None /\
  (exists d, od_get 2 (chains s) = Some d /\ users s d = []).
Proof. vm_compute. repeat split. eexists. split; reflexivity. Qed.

(** ** What a visit returns *)

Lemma visit_expr_returns_Def fuel e s r s' :
  (forall k i elts ctx, e = Seq k i elts ctx -> ctx = Load \/ ctx = Store) ->
  run (S fuel) (Visit (NExpr e)) s = Ok r s' -> exists d, r = Some d.
Proof.
  intros Hseq H. cbn [run] in H.
  destruct e; cbn [dispatch] in H;
    unfold visit_BoolOp, visit_NamedExpr, visit_BinOp, visit_UnaryOp, visit_Lambda,
      visit_IfExp, visit_Dict, visit_Set, visit_ListComp, visit_DictComp, visit_Await,
      visit_Yield, visit_Compare, visit_Call, visit_Constant, visit_FormattedValue,
      visit_JoinedStr, visit_Subscript, visit_List, visit_Destructured, visit_Slice,
      CompScopeContext, ScopeContext in H;
    try (inv_ok; eauto; fail).
  destruct (Hseq _ _ _ _ eq_refl) as [-> | ->]; inv_ok; eauto.
Qed.

(** X8. From an instance in which the users of every [Def] are in
    [chains], a visit that returns a [Def] returns the one that [chains]
    holds for the visited node; it leaves the entries that [chains] had as
    they were, and the users of every [Def] are in [chains] again.  The
    visit of an expression always returns a [Def], except for a list or a
    tuple in a context other than [Load] and [Store]. *)
Theorem visit_returns_chains_entry fuel c s r s' :
  Good s ->
  run fuel c s = Ok r s' ->
  (forall d, r = Some d -> od_get (call_id c) (chains s') = Some d) /\
  (forall k d, od_get k (chains s) = Some d -> od_get k (chains s') = Some d) /\
  (forall d u, In u (users s' d) -> in_chains s' u) /\
  (forall e, c = Visit (NExpr e) ->
     (forall k i elts ctx, e = Seq k i elts ctx -> ctx = Load \/ ctx = Store) ->
     exists d, r = Some d).
Proof.
  intros HG H.
  pose proof (wp_Ok _ _ _ _ _ (grows_run fuel c s HG) H) as ((G1 & _) & (Hle & _) & Hr).
  split; [intros d ->; exact Hr|]. split; [exact Hle|]. split; [exact G1|].
  intros e -> Hseq. destruct fuel as [|fuel]; [discriminate H|].
  eapply visit_expr_returns_Def; eassumption.
Qed.

Lemma visit_returns_chains_entry_witness :
  let c := Visit (NExpr (BinOp 30 (Name 31 "x" Load None) (Constant 32))) in
  let s := example_star_layers in
  let s' := final (run 4 c s) in
  (forall d, Some 2 = Some d -> od_get (call_id c) (chains s') = Some d) /\
  (forall k d, od_get k (chains s) = Some d -> od_get k (chains s') = Some d) /\
  (forall d u, In u (users s' d) -> in_chains s' u) /\
  (forall e, c = Visit (NExpr e) ->
     (forall k i elts ctx, e = Seq k i elts ctx -> ctx = Load \/ ctx = Store) ->
     exists d, Some 2 = Some d).
Proof.
  apply (visit_returns_chains_entry 4
           (Visit (NExpr (BinOp 30 (Name 31 "x" Load None) (Constant 32))))
           example_star_layers (Some 2)).
  - refine (conj _ (conj _ _)).
    + intros d u. destruct d as [|[|d]]; vm_compute; intros [].
    + intros k l d H. discriminate H.
    + intros k d H. discriminate H.
  - vm_compute. reflexivity.
Defined.

(** ** Layers and their sets *)

Lemma Heap_ok_example_star_layers : Heap_ok example_star_layers.
Proof.
  refine (conj _ (conj _ _)).
  - intros lid name sid. destruct lid as [|[|lid]]; unfold dict_items; simpl;
      intros E; try discriminate E; destruct (decide _); inversion E; simpl; lia.
  - intros l1 l2 n1 n2 sid.
    destruct l1 as [|[|l1]]; destruct l2 as [|[|l2]]; unfold dict_items; simpl;
      intros E1 E2; try discriminate E1; try discriminate E2;
      repeat destruct (decide _); try discriminate E1; try discriminate E2;
      congruence.
  - intros lid. destruct lid as [|[|lid]]; unfold dict_items; simpl;
      repeat (constructor; [intros []|]); constructor.
Defined.

(** X9. Every visit keeps the dictionaries of definitions well formed:
    afterwards each set that a dictionary holds exists, a set is held under
    one name only (two dictionaries share a set only as the copies of a
    layer do, under the same name), and no key occurs twice; and no
    dictionary is lost. *)
Theorem layers_stay_well_formed fuel c s r s' :
  Heap_ok s ->
  run fuel c s = Ok r s' ->
  (forall lid name sid,
     od_get name (dict_items s' lid) = Some sid -> sid < length (heap_sets s')) /\
  (forall l1 l2 n1 n2 sid,
     od_get n1 (dict_items s' l1) = Some sid ->
     od_get n2 (dict_items s' l2) = Some sid -> n1 = n2) /\
  (forall lid, List.NoDup (od_keys (dict_items s' lid))) /\
  length (heap_dicts s) <= length (heap_dicts s').
Proof.
  intros Hs H. pose proof (wp_Ok _ _ _ _ _ (wf_run fuel c s) H) as (W & L).
  destruct (W Hs) as (H2 & H3 & H4). auto.
Qed.

Lemma layers_stay_well_formed_witness :
  let s := example_star_layers in
  let s' := final (visit_If (run 5) (Constant 40)
                     [Assign 45 [Name 41 "x" Store None] (Constant 42)]
                     [Assign 46 [Name 43 "y" Store None] (Constant 44)] s) in
  (forall lid name sid,
     od_get name (dict_items s' lid) = Some sid -> sid < length (heap_sets s')) /\
  (forall l1 l2 n1 n2 sid,
     od_get n1 (dict_items s' l1) = Some sid ->
     od_get n2 (dict_items s' l2) = Some sid -> n1 = n2) /\
  (forall lid, List.NoDup (od_keys (dict_items s' lid))) /\
  length (heap_dicts s) <= length (heap_dicts s').
Proof.
  apply (layers_stay_well_formed 6
           (Visit (NStmt (If 47 (Constant 40)
                            [Assign 45 [Name 41 "x" Store None] (Constant 42)]
                            [Assign 46 [Name 43 "y" Store None] (Constant 44)])))
           example_star_layers None).
  - exact Heap_ok_example_star_layers.
  - vm_compute. reflexivity.
Defined.

Lemma live_on_example_star_layers : live_on 1 example_star_layers.
Proof.
  refine (conj Heap_ok_example_star_layers (conj _ (conj _ _)));
    [reflexivity | reflexivity | simpl; lia].
Defined.

(** X10. A copy of a layer shares the sets of the layer.  When the layer on
    top and another dictionary hold the same set under a name, in live
    code, [extend_definition] updates that set in place, so that both see
    the extension; [set_definition] binds a fresh set on top and leaves
    what the other dictionary binds as it was. *)
Theorem writers_and_shared_sets cur other name sid a s :
  live_on cur s -> dnodes_ok s a -> other <> cur ->
  od_get name (dict_items s cur) = Some sid ->
  od_get name (dict_items s other) = Some sid ->
  (exists s', extend_definition name a s = Ok tt s' /\
     entry s' cur name = Some (oset_update (set_elems s sid) (dnodes_elems s a)) /\
     entry s' other name = entry s' cur name) /\
  (exists s', set_definition name a s = Ok tt s' /\
     entry s' cur name = Some (oset_update [] (dnodes_elems s a)) /\
     entry s' other name = entry s other name).
Proof.
  intros Hl Ha Hne Hc Ho. pose proof Hl as (Hh & Hd & Ht & Hlt). split.
  - exists (grow_set sid (dnodes_elems s a) s). split.
    + unfold extend_definition. rewrite bind_get, Hd. simpl.
      assert (Etop : top _definitions s = Ok cur s)
        by (unfold top; rewrite bind_get, Ht; reflexivity).
      rewrite (bind_eq _ _ _ _ _ Etop). unfold add_to_definition.
      rewrite (bind_eq _ _ _ _ _ (dict_getitem_present _ _ _ _ Hc)). reflexivity.
    + rewrite (entry_grow_set cur name sid _ s Hh Hc).
      rewrite (entry_grow_set other name sid _ s Hh Ho). auto.
  - destruct (set_definition_spec cur name a s Hl) as (s' & E & _ & _ & G).
    exists s'. split; [exact E|]. split; [exact G|].
    rewrite (set_definition_live _ _ _ _ Hd Ht) in E. inversion E; subst s'.
    fold (bind_fresh cur name (dnodes_elems s a) s).
    unfold entry. rewrite dict_items_bind_fresh.
    destruct (decide _) as [[E' _]|_]; [contradiction|].
    rewrite Ho. rewrite set_elems_bind_fresh; [reflexivity|].
    destruct Hh as (H2 & _). eapply H2. exact Ho.
Qed.

(** [example_star_layers] with a copy of its layer on top, as
    [copy_top_definitions] makes it. *)
Definition example_shared : DefUseChains :=
  upd_heap_dicts (fun h => h ++ [dict_items example_star_layers 1]) example_star_layers.

Lemma writers_and_shared_sets_witness :
  let s := example_shared in
  (exists s', extend_definition "*" (OneDef 0) s = Ok tt s' /\
     entry s' 1 "*" = Some (oset_update (set_elems s 1) (dnodes_elems s (OneDef 0))) /\
     entry s' 2 "*" = entry s' 1 "*") /\
  (exists s', set_definition "*" (OneDef 0) s = Ok tt s' /\
     entry s' 1 "*" = Some (oset_update [] (dnodes_elems s (OneDef 0))) /\
     entry s' 2 "*" = entry s 2 "*").
Proof.
  apply (writers_and_shared_sets 1 2 "*" 1 (OneDef 0) example_shared).
  - refine (conj _ (conj _ (conj _ _))).
    + apply Heap_ok_new_dict. exact Heap_ok_example_star_layers.
    + reflexivity.
    + reflexivity.
    + simpl. lia.
  - exact I.
  - discriminate.
  - reflexivity.
  - reflexivity.
Defined.

(** X11. In dead code the two loops that close [visit_If] write nothing:
    whatever the two branch layers hold, the instance is left as it
    was. *)
Theorem merge_is_silent_in_dead_code body_defs orelse_defs s :
  _deadcode s <> 0%Z ->
  merge_branches body_defs orelse_defs s = Ok tt s.
Proof. apply merge_branches_dead. Qed.

Lemma merge_is_silent_in_dead_code_witness :
  let s := upd_deadcode (fun _ => 1%Z) example_shared in
  merge_branches 2 1 s = Ok tt s.
Proof.
  apply (merge_is_silent_in_dead_code 2 1 (upd_deadcode (fun _ => 1%Z) example_shared)).
  discriminate.
Defined.

(** ** Binding a name *)

Lemma top_Ok_intro {A} (f : DefUseChains -> list A) s x :
  Py.last (f s) = Some x -> top f s = Ok x s.
Proof. intros H. unfold top. rewrite bind_get, H. reflexivity. Qed.

Lemma entry_same_heap s s' L n :
  heap_sets s' = heap_sets s -> heap_dicts s' = heap_dicts s ->
  entry s' L n = entry s L n.
Proof. intros H1 H2. unfold entry, dict_items, set_elems. rewrite H1, H2. reflexivity. Qed.

Lemma live_on_same_heap cur s s' :
  heap_sets s' = heap_sets s -> heap_dicts s' = heap_dicts s ->
  _deadcode s' = _deadcode s -> _definitions s' = _definitions s ->
  live_on cur s -> live_on cur s'.
Proof.
  intros H1 H2 H3 H4 (Hh & Hd & Ht & Hl).
  unfold live_on, Heap_ok, dict_items. rewrite H1, H2, H3, H4. auto.
Qed.

Lemma only_name_same_heap cur d s s1 s' :
  heap_sets s1 = heap_sets s -> heap_dicts s1 = heap_dicts s ->
  only_name cur d s1 s' -> only_name cur d s s'.
Proof.
  intros H1 H2 (A & B). split.
  - intros L HL. rewrite A by assumption. unfold dict_items. rewrite H2. reflexivity.
  - intros L n Hn. rewrite B by assumption. apply entry_same_heap; assumption.
Qed.

Lemma locals_getitem_Ok scope s :
  locals_getitem scope s
  = match od_get (node_id scope) (locals s) with
    | Some l => Ok l s
    | None => Ok [] (upd_locals (od_set (node_id scope) []) s)
    end.
Proof.
  unfold locals_getitem. rewrite bind_get.
  destruct (od_get (node_id scope) (locals s)); reflexivity.
Qed.

Lemma locals_append_Ok scope d s :
  locals_append scope d s
  = Ok tt (upd_locals (od_set (node_id scope)
                         (default [] (od_get (node_id scope) (locals s)) ++ [d])) 
             (match od_get (node_id scope) (locals s) with
              | Some _ => s
              | None => upd_locals (od_set (node_id scope) []) s
              end)).
Proof.
  unfold locals_append, bind. rewrite locals_getitem_Ok.
  destruct (od_get (node_id scope) (locals s)); reflexivity.
Qed.

(** The rest of [visit_Name] in a [Store] or [Param] context, once the
    [Def] of the node is known: the name is not declared [global] and the
    node has no annotation to visit. *)
Lemma bind_local_Ok cur sc id d s :
  live_on cur s -> Py.last (_scopes s) = Some sc ->
  exists s',
    (set_definition id (OneDef d) ;;
     scope <- top _scopes ;;
     l <- locals_getitem scope ;;
     when (negb (bool_decide (d ∈ l)))
       (scope <- top _scopes ;; locals_append scope d)) s = Ok tt s' /\
    chains s' = chains s /\ heap_defs s' = heap_defs s /\
    entry s' cur id = Some [d] /\ only_name cur id s s' /\
    let old := default [] (od_get (node_id sc) (locals s)) in
    od_get (node_id sc) (locals s')
    = Some (if bool_decide (d ∈ old) then old else old ++ [d]) /\
    forall k, k <> node_id sc -> od_get k (locals s') = od_get k (locals s).
Proof.
  intros Hl Hsc. pose proof Hl as (Hh & Hd & Ht & Hlt).
  rewrite (bind_eq _ _ _ _ _ (set_definition_live _ _ _ _ Hd Ht)).
  fold (bind_fresh cur id (dnodes_elems s (OneDef d)) s).
  set (s2 := bind_fresh cur id (dnodes_elems s (OneDef d)) s).
  assert (G2 : entry s2 cur id = Some [d]) by (apply entry_bind_fresh; assumption).
  assert (O2 : only_name cur id s s2) by (apply only_name_bind_fresh; assumption).
  assert (Hsc2 : Py.last (_scopes s2) = Some sc) by exact Hsc.
  rewrite (bind_eq _ _ _ _ _ (top_Ok_intro _ _ _ Hsc2)).
  unfold bind at 1. rewrite locals_getitem_Ok.
  change (locals s2) with (locals s). cbv zeta.
  destruct (od_get (node_id sc) (locals s)) as [l|] eqn:El; simpl default.
  - destruct (bool_decide (d ∈ l)) eqn:Ein; simpl negb; cbn [when].
    + exists s2. split; [reflexivity|].
      split; [reflexivity|]. split; [reflexivity|].
      split; [exact G2|]. split; [exact O2|].
      split; [exact El | reflexivity].
    + rewrite (bind_eq _ _ _ _ _ (top_Ok_intro _ _ _ Hsc2)).
      rewrite locals_append_Ok. change (locals s2) with (locals s). rewrite El.
      eexists. split; [reflexivity|]. simpl.
      split; [reflexivity|]. split; [reflexivity|].
      split; [exact G2|]. split; [exact O2|].
      split; [apply od_get_set_eq | intros k Hk; apply od_get_set_ne; congruence].
  - simpl negb; cbn [when].
    set (s3 := upd_locals (od_set (node_id sc) []) s2).
    assert (Hsc3 : Py.last (_scopes s3) = Some sc) by exact Hsc.
    rewrite (bind_eq _ _ _ _ _ (top_Ok_intro _ _ _ Hsc3)).
    rewrite locals_append_Ok.
    assert (E3 : od_get (node_id sc) (locals s3) = Some []) by apply od_get_set_eq.
    rewrite E3.
    eexists. split; [reflexivity|]. simpl.
    split; [reflexivity|]. split; [reflexivity|].
    split; [exact G2|]. split; [exact O2|].
    split; [apply od_get_set_eq|].
    intros k Hk. rewrite !od_get_set_ne by congruence. exact El || (change (locals s2) with (locals s); reflexivity).
Qed.

(** X12. A [Name] without annotation visited in a [Store] or [Param]
    context, in live code, when no enclosing scope declares the name
    [global]: the [Def] that [chains] holds for the node (a new one if
    there was none) becomes the only definition that the layer on top binds
    to the name; what any dictionary binds to another name is untouched;
    and the [Def] is listed in the locals of the current scope, once: it is
    added at the end if it was not there. *)
Theorem store_binds_name self n id ctx skip cur sc s :
  ctx = Store \/ ctx = Param ->
  live_on cur s ->
  existsb (name_in id) (_globals s) = false ->
  Py.last (_scopes s) = Some sc ->
  exists d s',
    visit_Name self n id ctx None skip s = Ok d s' /\
    od_get (expr_id n) (chains s') = Some d /\
    (forall d0, od_get (expr_id n) (chains s) = Some d0 -> d = d0) /\
    (od_get (expr_id n) (chains s) = None -> d = length (heap_defs s)) /\
    entry s' cur id = Some [d] /\
    only_name cur id s s' /\
    let old := default [] (od_get (node_id sc) (locals s)) in
    od_get (node_id sc) (locals s')
    = Some (if bool_decide (d ∈ old) then old else old ++ [d]).
Proof.
  intros Hctx Hl Hg Hsc.
  assert (E : visit_Name self n id ctx None skip
              = (dnode <- chains_setdefault (NExpr n) ;;
                 s <- get ;;
                 (if existsb (name_in id) (_globals s) then set_or_extend_global id dnode
                  else
                    set_definition id (OneDef dnode) ;;
                    scope <- top _scopes ;;
                    l <- locals_getitem scope ;;
                    when (negb (bool_decide (dnode ∈ l)))
                      (scope <- top _scopes ;; locals_append scope dnode)) ;;
                 ret tt ;;
                 ret dnode))
    by (destruct Hctx as [-> | ->]; reflexivity).
  rewrite E. clear E. unfold bind at 1. rewrite chains_setdefault_Ok.
  destruct (od_get (expr_id n) (chains s)) as [d0|] eqn:Ec;
    cbn [node_id] in *; rewrite Ec.
  - set (s1 := upd_heap_defs (fun h => h ++ [mkDef (ONode (NExpr n)) []]) s).
    assert (Hl1 : live_on cur s1)
      by (apply (live_on_same_heap cur s); auto).
    destruct (bind_local_Ok cur sc id d0 s1 Hl1 Hsc) as (s' & E & C & D & G & O & L & _).
    exists d0, s'. rewrite bind_get.
    change (_globals s1) with (_globals s). rewrite Hg.
    rewrite (bind_eq _ _ _ _ _ E). split; [reflexivity|].
    split; [rewrite C; exact Ec|]. split; [congruence|]. split; [discriminate|].
    split; [exact G|]. split; [exact (only_name_same_heap cur id s s1 s' eq_refl eq_refl O)|].
    exact L.
  - set (s1 := upd_chains (od_set (expr_id n) (length (heap_defs s)))
                 (upd_heap_defs (fun h => h ++ [mkDef (ONode (NExpr n)) []]) s)).
    assert (Hl1 : live_on cur s1)
      by (apply (live_on_same_heap cur s); auto).
    destruct (bind_local_Ok cur sc id (length (heap_defs s)) s1 Hl1 Hsc)
      as (s' & E & C & D & G & O & L & _).
    exists (length (heap_defs s)), s'. rewrite bind_get.
    change (_globals s1) with (_globals s). rewrite Hg.
    rewrite (bind_eq _ _ _ _ _ E). split; [reflexivity|].
    split; [rewrite C; apply od_get_set_eq|]. split; [discriminate|].
    split; [reflexivity|].
    split; [exact G|]. split; [exact (only_name_same_heap cur id s s1 s' eq_refl eq_refl O)|].
    exact L.
Qed.

Lemma store_binds_name_witness :
  let s := example_star_layers in
  let n := Name 41 "x" Store None in
  exists d s',
    visit_Name (run 0) n "x" Store None false s = Ok d s' /\
    od_get (expr_id n) (chains s') = Some d /\
    (forall d0, od_get (expr_id n) (chains s) = Some d0 -> d = d0) /\
    (od_get (expr_id n) (chains s) = None -> d = length (heap_defs s)) /\
    entry s' 1 "x" = Some [d] /\
    only_name 1 "x" s s' /\
    let old := default [] (od_get (node_id (NModule example_expression)) (locals s)) in
    od_get (node_id (NModule example_expression)) (locals s')
    = Some (if bool_decide (d ∈ old) then old else old ++ [d]).
Proof.
  apply (store_binds_name (run 0) (Name 41 "x" Store None) "x" Store false 1
           (NModule example_expression) example_star_layers).
  - left. reflexivity.
  - exact live_on_example_star_layers.
  - reflexivity.
  - reflexivity.
Defined.

(** ** The stacks of the loops

    [loops s s']: the stacks of [break] and [continue] carriers are the same
    in [s'] as in [s], and the stack of pending unbound names has the same
    height (a read of an unbound name adds to its top). *)
Definition loops (s s' : DefUseChains) : Prop :=
  _breaks s' = _breaks s /\ _continues s' = _continues s /\
  length (_undefs s') = length (_undefs s).

#[global] Instance loops_preorder : PreOrder loops.
Proof.
  split.
  - intros s. repeat split.
  - intros s1 s2 s3 (A1 & B1 & C1) (A2 & B2 & C2). unfold loops.
    repeat split; congruence.
Qed.

Lemma loops_same s s' :
  _breaks s' = _breaks s -> _continues s' = _continues s -> _undefs s' = _undefs s ->
  loops s s'.
Proof. intros A B C. unfold loops. rewrite A, B, C. repeat split. Qed.

Create HintDb loops.

Ltac loops_leaf :=
  first
    [ lazymatch goal with
      | |- respects loops (looked_up _) =>
          apply (respects_weaken unchanged);
          [unfold unchanged; intros ? ? ->; apply PreOrder_Reflexive
          | apply reads_looked_up]
      | |- respects loops (modify _) =>
          apply respects_modify; intros ?; apply loops_same; reflexivity
      | |- respects loops (new_Def _) =>
          intros ?; apply loops_same; reflexivity
      | |- respects loops (new_set _) =>
          intros ?; apply loops_same; reflexivity
      | |- respects loops (new_dict _) =>
          intros ?; apply loops_same; reflexivity
      | |- respects loops (add_user _ _) =>
          intros ?; apply loops_same; reflexivity
      end
    | solve [auto 2 with loops] ].

Ltac loops_go := respects_go loops_leaf.

Lemma loops_chains_setdefault n : respects loops (chains_setdefault n).
Proof. loops_go. Qed.

#[local] Hint Resolve loops_chains_setdefault : loops.

Lemma loops_defs n name quiet : respects loops (defs n name quiet).
Proof.
  unfold defs.
  apply respects_bind; [exact _ | loops_go |]. intros l.
  apply respects_bind; [exact _ | apply respects_get; exact _ |]. intros s0.
  destruct (lookup s0 name l []) as [found|stars]; [apply respects_ret; exact _|].
  apply respects_bind; [exact _ | loops_go |]. intros d.
  intros s. apply wp_bind, wp_get. apply wp_bind.
  destruct (Py.last (_undefs s)) as [u|] eqn:Eu.
  - apply wp_modify.
    assert (L : loops s (upd_undefs
                           (Py.set_last (od_set name (default [] (od_get name u) ++ [(d, stars)]) u))
                           s)).
    { unfold loops. simpl. repeat split. eapply Py.length_set_last. exact Eu. }
    revert L. generalize (upd_undefs
      (Py.set_last (od_set name (default [] (od_get name u) ++ [(d, stars)]) u)) s).
    intros s1 L.
    assert (R : respects loops
                  (match stars with
                   | [] => when (bool_decide (_undefs s = []) && negb quiet)
                             (unbound_identifier name (ONode n)) ;; ret [d]
                   | _ :: _ => ret (stars ++ [d])
                   end)) by loops_go.
    eapply wp_mono; [apply R|]. intros a s2 L2. exact (PreOrder_Transitive _ _ _ L L2).
  - apply wp_ret.
    assert (R : respects loops
                  (match stars with
                   | [] => when (bool_decide (_undefs s = []) && negb quiet)
                             (unbound_identifier name (ONode n)) ;; ret [d]
                   | _ :: _ => ret (stars ++ [d])
                   end)) by loops_go.
    apply R.
Qed.

#[local] Hint Resolve loops_defs : loops.

Lemma loops_exec_items dnode items visible :
  respects loops (exec_items dnode items visible).
Proof.
  revert visible. induction items as [|[dname sid] items IH]; intros visible; simpl;
    loops_go.
Qed.

#[local] Hint Resolve loops_exec_items : loops.

Lemma loops_exec_locals dnode layers visible :
  respects loops (exec_locals dnode layers visible).
Proof.
  revert visible. induction layers as [|l layers IH]; intros visible; simpl; loops_go.
Qed.

#[local] Hint Resolve loops_exec_locals : loops.

Lemma loops_extend_all d : respects loops (extend_all d).
Proof. loops_go. Qed.

Lemma loops_copy_top_definitions : respects loops copy_top_definitions.
Proof. loops_go. Qed.

#[local] Hint Resolve loops_extend_all loops_copy_top_definitions : loops.

(** [process_undefs] takes the top off the stack of pending names and
    leaves the carriers alone. *)
Lemma process_undefs_pops s :
  wp process_undefs
    (fun _ s' => _breaks s' = _breaks s /\ _continues s' = _continues s /\
                 _undefs s' = Py.pop (_undefs s)) s.
Proof.
  unfold process_undefs.
  apply wp_bind. eapply wp_mono;
    [apply (respects_top unchanged)|]. intros undefs s0 ->.
  apply wp_bind.
  assert (R : respects (fun s s' => _breaks s' = _breaks s /\
                          _continues s' = _continues s /\ _undefs s' = _undefs s)
                (forM_ undefs (fun item =>
                   let '(undef_name, _undefs) := item in
                   s <- get ;;
                   current <- expect (Py.last (_definitions s)) IndexError ;;
                   match od_get undef_name (dict_items s current) with
                   | Some sid =>
                       forM_ (set_elems s sid) (fun newdef =>
                         forM_ _undefs (fun undef =>
                           s <- get ;;
                           forM_ (users s (fst undef)) (fun user => add_user newdef user)))
                   | None =>
                       forM_ _undefs (fun undef =>
                         s <- get ;;
                         match snd undef with
                         | [] => unbound_identifier undef_name (node_of s (fst undef))
                         | _ => ret tt
                         end)
                   end))).
  { assert (P : PreOrder (fun s s' => _breaks s' = _breaks s /\
                          _continues s' = _continues s /\ _undefs s' = _undefs s)).
    { split; [intros x; repeat split | intros x y z (A1 & B1 & C1) (A2 & B2 & C2);
        repeat split; congruence]. }
    respects_go ltac:(first
      [ lazymatch goal with
        | |- respects _ (modify _) => apply respects_modify; intros ?; repeat split
        | |- respects _ (add_user _ _) => intros ?; repeat split
        end ]). }
  eapply wp_mono; [apply R|]. intros _ s1 (A & B & C).
  apply wp_intro. intros a s' H. inv_ok. simpl. rewrite A, B, C. repeat split.
Qed.

Lemma length_pop {A} (l : list A) : length (Py.pop l) = length l - 1.
Proof.
  destruct l as [|x l _] using List.rev_ind; [reflexivity|].
  rewrite Py.pop_snoc, length_app. simpl. lia.
Qed.

(** What the steps of a loop did to the three stacks, read off the
    equations of a normal return. *)
Ltac loops_facts :=
  repeat match goal with
  | H : process_undefs ?s = Ok _ _ |- _ =>
      apply (wp_Ok _ _ _ _ _ (process_undefs_pops s)) in H;
      let U := fresh "U" in
      destruct H as (? & ? & U); apply (f_equal (@length _)) in U;
      rewrite length_pop in U
  | H : ?m ?s = Ok _ _ |- _ =>
      let L := fresh "L" in
      assert (L : respects loops m) by auto 2 with loops;
      apply (wp_Ok _ _ _ _ _ (L s)) in H; clear L; destruct H as (? & ? & ?)
  end.

Ltac loops_chase :=
  repeat first
    [ rewrite Py.pop_snoc
    | match goal with H : ?f ?x = _ |- context [?f ?x] => rewrite H end ].

Ltac loops_close :=
  loops_facts; simpl in *; unfold loops;
  split; [loops_chase; reflexivity|];
  split; [loops_chase; reflexivity|];
  rewrite ?length_app in *; simpl in *; lia.

Section LoopsVisitor.
Variable self : Self.
Hypothesis loops_self : forall c, respects loops (self c).

Hint Resolve loops_self : loops.

Lemma loops_process_body_loop stmts deadcode :
  respects loops (process_body_loop self stmts deadcode).
Proof.
  revert deadcode. induction stmts as [|stmt stmts IH]; intros deadcode; simpl; loops_go.
Qed.

Hint Resolve loops_process_body_loop : loops.

Lemma loops_process_body stmts : respects loops (process_body self stmts).
Proof. loops_go. Qed.

Lemma loops_visit_ e : respects loops (visit_ self e).
Proof. loops_go. Qed.

Hint Resolve loops_process_body loops_visit_ : loops.

Lemma loops_visit_For target iter body orelse :
  respects loops (visit_For self target iter body orelse).
Proof.
  intros s. apply wp_intro. intros r s' H.
  unfold visit_For, push_carrier, DefinitionContext, shift_scope_depth in H.
  inv_ok. loops_close.
Qed.

Lemma loops_visit_While test body orelse :
  respects loops (visit_While self test body orelse).
Proof.
  intros s. apply wp_intro. intros r s' H.
  unfold visit_While, push_carrier, DefinitionContext, shift_scope_depth in H.
  inv_ok. loops_close.
Qed.

Hint Resolve loops_visit_For loops_visit_While : loops.

Lemma loops_visit_Name n id ctx annotation skip :
  respects loops (visit_Name self n id ctx annotation skip).
Proof. loops_go. Qed.

Hint Resolve loops_visit_Name : loops.

Lemma loops_visit_FunctionDef n name args body decorator_list returns st :
  respects loops (visit_FunctionDef self n name args body decorator_list returns st).
Proof. loops_go. Qed.

Lemma loops_visit_Lambda n args body st :
  respects loops (visit_Lambda self n args body st).
Proof. loops_go. Qed.

Hint Resolve loops_visit_FunctionDef loops_visit_Lambda : loops.

Lemma loops_drain_defered fuel i : respects loops (drain_defered self fuel i).
Proof.
  revert i. induction fuel as [|fuel IH]; intros i; simpl; [apply respects_out_of_fuel|].
  apply respects_bind; [exact _ | apply respects_get; exact _ |]. intros s.
  destruct (_defered s !! i) as [[[[[fnode defs] scopes] depths] pls]|];
    [|apply respects_ret; exact _].
  apply respects_bind; [exact _ | | intro; apply IH].
  unfold SwitchScopeContext. loops_go.
Qed.

Hint Resolve loops_drain_defered : loops.

Lemma loops_visit_Destructured n elts :
  respects loops (visit_Destructured self n elts).
Proof. loops_go. Qed.

Hint Resolve loops_visit_Destructured : loops.

Lemma loops_visit_Module fuel m : respects loops (visit_Module self fuel m).
Proof. loops_go. Qed.

Hint Resolve loops_visit_Module : loops.

Lemma loops_dispatch fuel n : respects loops (dispatch self fuel n).
Proof. unfold dispatch. destruct n as [m|st|e|c|a|k|a|w|h]; loops_go. Qed.
End LoopsVisitor.

Lemma loops_run fuel c : respects loops (run fuel c).
Proof.
  revert c. induction fuel as [|fuel IH]; intros c; simpl.
  - apply respects_out_of_fuel.
  - destruct c as [n|e].
    + apply loops_dispatch. exact IH.
    + destruct e; try apply respects_raise. apply loops_visit_Destructured. exact IH.
Qed.

(** [while a: break] after [a = 1] *)
Definition example_loop : module_ :=
  Module 0 [Assign 1 [Name 2 "a" Store None] (Constant 3);
            While 4 (Name 5 "a" Load None) [Break 6] [Continue 7]].

(** X13. The loops balance their stacks: after a normal return of any
    visit, the stacks of [break] carriers and of [continue] carriers are what
    they were, and the stack of pending unbound names has the height it had;
    so an analysis that returns leaves the three of them empty. *)
Theorem loop_stacks_balanced fuel c s r s' :
  run fuel c s = Ok r s' ->
  _breaks s' = _breaks s /\ _continues s' = _continues s /\
  length (_undefs s') = length (_undefs s) /\
  (_undefs s = [] -> _undefs s' = []).
Proof.
  intros H. destruct (wp_Ok _ _ _ _ _ (loops_run fuel c s) H) as (A & B & C).
  repeat split; auto.
  intros E. rewrite E in C. destruct (_undefs s'); [reflexivity | discriminate].
Qed.

Lemma loop_stacks_balanced_witness :
  let s' := final (analyze 6 [("len", "len")] example_loop) in
  _breaks s' = [] /\ _continues s' = [] /\
  length (_undefs s') = 0 /\
  (@nil (list (string * list (nat * list nat))) = [] -> _undefs s' = []).
Proof.
  apply (loop_stacks_balanced 6 (Visit (NModule example_loop))
           (DefUseChains_init [("len", "len")]) None).
  vm_compute. reflexivity.
Defined.

(** * The class [Ancestors] *)

Module Ancestors.

(** A node of the tree as [NodeVisitor.generic_visit] walks it: the identity
    of the object (a node is hashed by its identity), the names of its class
    and of the classes that one inherits from, and its child nodes in the
    order of the fields. *)
Inductive node := Node (nid : nat) (classes : list string) (children : list node).

Definition nid (n : node) : nat := match n with Node i _ _ => i end.
Definition classes (n : node) : list string := match n with Node _ c _ => c end.
Definition children (n : node) : list node := match n with Node _ _ l => l end.

Inductive error := IndexError | KeyError | ValueError.

(** The instance: [_parents] is keyed by the identity of a node. *)
Record t := mk {
  _parents : list (nat * list node);
  _current : list node;
}.

(** [__init__] *)
Definition init : t := mk [] [].

(** [generic_visit(node)]; the visit of the children is the loop of
    [NodeVisitor.generic_visit], which comes back here for each child. *)
Fixpoint generic_visit (n : node) (self : t) : error + t :=
  match n with
  | Node i _ l =>
      let self := mk (od_set i (_current self) (_parents self)) (_current self ++ [n]) in
      let r :=
        (fix visit_children (l : list node) (self : t) : error + t :=
           match l with
           | [] => inr self
           | c :: l =>
               match generic_visit c self with
               | inr self => visit_children l self
               | inl e => inl e
               end
           end) l self in
      match r with
      | inr self =>
          match _current self with
          | [] => inl IndexError
          | _ => inr (mk (_parents self) (Py.pop (_current self)))
          end
      | inl e => inl e
      end
  end.

Fixpoint visit_children (l : list node) (self : t) : error + t :=
  match l with
  | [] => inr self
  | c :: l =>
      match generic_visit c self with
      | inr self => visit_children l self
      | inl e => inl e
      end
  end.

(** [parents(node)] *)
Definition parents (self : t) (n : node) : error + list node :=
  match od_get (nid n) (_parents self) with
  | Some p => inr p
  | None => inl KeyError
  end.

(** [parent(node)] *)
Definition parent (self : t) (n : node) : error + node :=
  match od_get (nid n) (_parents self) with
  | Some p => match Py.last p with Some x => inr x | None => inl IndexError end
  | None => inl KeyError
  end.

(** [isinstance(n, cls)], [cls] a tuple of classes *)
Definition isinstance (cls : list string) (n : node) : bool :=
  existsb (fun c => bool_decide (c ∈ classes n)) cls.

(** [parentInstance(node, cls)] *)
Definition parentInstance (self : t) (n : node) (cls : list string) : error + node :=
  match od_get (nid n) (_parents self) with
  | Some p =>
      match List.find (isinstance cls) (rev p) with
      | Some x => inr x
      | None => inl ValueError
      end
  | None => inl KeyError
  end.

Definition parentFunction (self : t) (n : node) : error + node :=
  parentInstance self n ["FunctionDef"; "AsyncFunctionDef"].

Definition parentStmt (self : t) (n : node) : error + node :=
  parentInstance self n ["stmt"].

(** The identities of the nodes of a tree, in the order of the visit. *)
Fixpoint ids (n : node) : list nat :=
  match n with Node i _ l => i :: flat_map ids l end.

(** [path_to n q m]: [m] is in the tree under [n], and [q] lists the nodes
    from [n] down to the parent of [m]; it is empty when [m] is [n]. *)
Inductive path_to : node -> list node -> node -> Prop :=
| path_here n : path_to n [] n
| path_down n k q m : In k (children n) -> path_to k q m -> path_to n (n :: q) m.

Section node_induction.
Variable P : node -> Prop.
Hypothesis step : forall i c l, Forall P l -> P (Node i c l).

Fixpoint node_induction (n : node) : P n :=
  match n with
  | Node i c l =>
      step i c l
        ((fix all (l : list node) : Forall P l :=
            match l with
            | [] => @List.Forall_nil node P
            | k :: l => @List.Forall_cons node P k l (node_induction k) (all l)
            end) l)
  end.
End node_induction.

Lemma generic_visit_eq i c l self :
  generic_visit (Node i c l) self
  = match visit_children l
            (mk (od_set i (_current self) (_parents self))
                (_current self ++ [Node i c l])) with
    | inr self =>
        match _current self with
        | [] => inl IndexError
        | _ => inr (mk (_parents self) (Py.pop (_current self)))
        end
    | inl e => inl e
    end.
Proof.
  simpl.
  assert (E : forall l self,
    (fix visit_children (l : list node) (self : t) : error + t :=
       match l with
       | [] => inr self
       | c :: l =>
           match generic_visit c self with
           | inr self => visit_children l self
           | inl e => inl e
           end
       end) l self = visit_children l self).
  { clear. induction l as [|k l IH]; intros self; simpl; [reflexivity|].
    destruct (generic_visit k self); [reflexivity | apply IH]. }
  rewrite E. reflexivity.
Qed.

Lemma match_snoc {A B} (l : list A) (x : A) (a b : B) :
  match l ++ [x] with [] => a | _ :: _ => b end = b.
Proof. destruct l; reflexivity. Qed.

Lemma path_ids n q m : path_to n q m -> In (nid m) (ids n).
Proof.
  induction 1 as [n | n k q m Hk Hp IH].
  - destruct n; simpl. left. reflexivity.
  - destruct n as [i c l]; simpl in *. right. apply in_flat_map. exists k. auto.
Qed.

(** What a visit does, from any instance. *)
Definition visited (n : node) (self self' : t) : Prop :=
  _current self' = _current self /\
  (forall i, ~ In i (ids n) -> od_get i (_parents self') = od_get i (_parents self)) /\
  (forall i, In i (ids n) ->
     exists q m, path_to n q m /\ nid m = i /\
       od_get i (_parents self') = Some (_current self ++ q)) /\
  (List.NoDup (ids n) -> forall q m, path_to n q m ->
     od_get (nid m) (_parents self') = Some (_current self ++ q)).

Lemma visit_children_spec l :
  Forall (fun n => forall self, exists self', generic_visit n self = inr self' /\
                                              visited n self self') l ->
  forall self, exists self',
    visit_children l self = inr self' /\
    _current self' = _current self /\
    (forall i, ~ In i (flat_map ids l) ->
       od_get i (_parents self') = od_get i (_parents self)) /\
    (forall i, In i (flat_map ids l) ->
       exists k q m, In k l /\ path_to k q m /\ nid m = i /\
         od_get i (_parents self') = Some (_current self ++ q)) /\
    (List.NoDup (flat_map ids l) -> forall k q m, In k l -> path_to k q m ->
       od_get (nid m) (_parents self') = Some (_current self ++ q)).
Proof.
  induction 1 as [|k l Hk Hl IH]; intros self.
  - exists self. simpl. split; [reflexivity|]. split; [reflexivity|].
    split; [reflexivity|]. split; [intros i []|intros _ k q m []].
  - destruct (Hk self) as (s1 & E1 & C1 & A1 & B1 & D1).
    destruct (IH s1) as (s2 & E2 & C2 & A2 & B2 & D2).
    exists s2. simpl. rewrite E1. split; [exact E2|].
    split; [congruence|]. split; [|split].
    + intros i Hi. rewrite A2, A1; [reflexivity | |]; intros F; apply Hi, in_or_app; auto.
    + intros i Hi.
      destruct (in_dec Nat.eq_dec i (flat_map ids l)) as [Hr|Hr].
      * destruct (B2 i Hr) as (k' & q & m & Hk' & Hp & Hn & Hg).
        exists k', q, m. rewrite <- C1. auto.
      * apply in_app_or in Hi. destruct Hi as [Hi|Hi]; [|contradiction].
        destruct (B1 i Hi) as (q & m & Hp & Hn & Hg).
        exists k, q, m. rewrite A2 by exact Hr. auto.
    + intros Hnd k' q m Hk' Hp.
      apply NoDup_ListNoDup, NoDup_app in Hnd. destruct Hnd as (N1 & N2 & N3).
      destruct Hk' as [<- | Hk'].
      * rewrite A2.
        -- apply D1; [apply NoDup_ListNoDup; exact N1 | exact Hp].
        -- intros F. apply (N2 (nid m)); [|apply list_elem_of_In; exact F].
           apply list_elem_of_In. eapply path_ids. exact Hp.
      * rewrite <- C1. apply (D2 (proj1 (NoDup_ListNoDup _) N3) k' q m Hk' Hp).
Qed.

Lemma generic_visit_spec n :
  forall self, exists self', generic_visit n self = inr self' /\ visited n self self'.
Proof.
  induction n as [i c l IH] using node_induction. intros self.
  rewrite generic_visit_eq.
  destruct (visit_children_spec l IH
              (mk (od_set i (_current self) (_parents self))
                  (_current self ++ [Node i c l])))
    as (s2 & E2 & C2 & A2 & B2 & D2).
  rewrite E2. simpl in C2, A2, B2, D2. rewrite C2, match_snoc, Py.pop_snoc.
  eexists. split; [reflexivity|].
  unfold visited. simpl. split; [reflexivity|]. split; [|split].
  - intros j Hj. rewrite A2 by tauto. apply od_get_set_ne. intros ->. tauto.
  - intros j [<- | Hj].
    + destruct (in_dec Nat.eq_dec i (flat_map ids l)) as [Hr|Hr].
      * destruct (B2 i Hr) as (k & q & m & Hk & Hp & Hn & Hg).
        exists (Node i c l :: q), m. split; [apply path_down with k; assumption|].
        split; [exact Hn|]. rewrite Hg, <- app_assoc. reflexivity.
      * exists [], (Node i c l). split; [constructor|]. split; [reflexivity|].
        rewrite A2 by exact Hr. rewrite od_get_set_eq, app_nil_r. reflexivity.
    + destruct (B2 j Hj) as (k & q & m & Hk & Hp & Hn & Hg).
      exists (Node i c l :: q), m. split; [apply path_down with k; assumption|].
      split; [exact Hn|]. rewrite Hg, <- app_assoc. reflexivity.
  - intros Hnd q m Hp. inversion Hnd as [|? ? Hi Hnd']; subst.
    inversion Hp as [|? k q' ? Hk Hp']; subst.
    + simpl. rewrite A2 by exact Hi. rewrite od_get_set_eq, app_nil_r. reflexivity.
    + rewrite (D2 Hnd' k q' m Hk Hp'), <- app_assoc. reflexivity.
Qed.

Lemma path_snoc n q m k :
  path_to n q m -> In k (children m) -> path_to n (q ++ [m]) k.
Proof.
  induction 1 as [n | n k' q m Hk Hp IH]; intros Hin.
  - simpl. apply path_down with k; [exact Hin | constructor].
  - simpl. apply path_down with k'; [exact Hk | apply IH; exact Hin].
Qed.

Lemma find_skip {A} (f : A -> bool) l l' :
  Forall (fun x => f x = false) l -> List.find f (l ++ l') = List.find f l'.
Proof.
  induction 1 as [|x l Hx Hl IH]; simpl; [reflexivity|]. rewrite Hx. exact IH.
Qed.

Lemma find_nearest {A} (f : A -> bool) q1 a q2 :
  f a = true -> Forall (fun x => f x = false) q2 ->
  List.find f (rev (q1 ++ a :: q2)) = Some a.
Proof.
  intros Ha Hq. rewrite rev_app_distr. simpl. rewrite <- app_assoc.
  rewrite find_skip by (apply Forall_rev; exact Hq). simpl. rewrite Ha. reflexivity.
Qed.

Lemma find_nobody {A} (f : A -> bool) q :
  Forall (fun x => f x = false) q -> List.find f (rev q) = None.
Proof.
  intros Hq. rewrite <- (app_nil_r (rev q)).
  rewrite find_skip by (apply Forall_rev; exact Hq). reflexivity.
Qed.

(** [def foo(x): return x + 1], the example of the class *)
Definition example : node :=
  Node 0 ["Module"; "mod"; "AST"]
    [Node 1 ["FunctionDef"; "stmt"; "AST"]
       [Node 2 ["arguments"; "AST"] [Node 3 ["Name"; "expr"; "AST"] []];
        Node 4 ["Return"; "stmt"; "AST"]
          [Node 5 ["BinOp"; "expr"; "AST"]
             [Node 6 ["Name"; "expr"; "AST"] [];
              Node 7 ["Constant"; "expr"; "AST"] []]]]].

Definition example_binop : node :=
  Node 5 ["BinOp"; "expr"; "AST"]
    [Node 6 ["Name"; "expr"; "AST"] []; Node 7 ["Constant"; "expr"; "AST"] []].

Definition example_return : node := Node 4 ["Return"; "stmt"; "AST"] [example_binop].

Definition example_function : node :=
  Node 1 ["FunctionDef"; "stmt"; "AST"]
    [Node 2 ["arguments"; "AST"] [Node 3 ["Name"; "expr"; "AST"] []]; example_return].

(** The instance after [visit(module)] on a new instance. *)
Definition visited_from_init (root : node) : t :=
  match generic_visit root init with inr self => self | inl _ => init end.

Lemma example_path :
  path_to example [example; example_function; example_return] example_binop.
Proof.
  apply path_down with example_function; [simpl; auto|].
  apply path_down with example_return; [simpl; auto|].
  apply path_down with example_binop; [simpl; auto|].
  constructor.
Defined.

Lemma example_NoDup : List.NoDup (ids example).
Proof. simpl. repeat (constructor; [simpl; intuition lia|]). constructor. Defined.

End Ancestors.

(** X14. A visit of [Ancestors] never raises, whatever the tree and the
    instance: it leaves the list of current ancestors as it found it, keeps
    the entry of every node that is not in the tree, and gives every node of
    the tree an entry, which is the list of current ancestors followed by
    the nodes from the root of the visit down to the parent of an
    occurrence of that node. *)
Theorem ancestors_visit_records_paths root self :
  exists self',
    Ancestors.generic_visit root self = inr self' /\
    Ancestors._current self' = Ancestors._current self /\
    (forall i, ~ In i (Ancestors.ids root) ->
       od_get i (Ancestors._parents self') = od_get i (Ancestors._parents self)) /\
    (forall i, In i (Ancestors.ids root) ->
       exists q m, Ancestors.path_to root q m /\ Ancestors.nid m = i /\
         od_get i (Ancestors._parents self')
         = Some (Ancestors._current self ++ q)).
Proof.
  destruct (Ancestors.generic_visit_spec root self) as (self' & E & C & A & B & _).
  exists self'. auto.
Qed.

(** X15. After the visit of a tree of distinct nodes by a new instance,
    [parents] of a node of the tree is the list of the nodes from the root
    down to its parent, and [parent] of a child is the node it is a child
    of; [parent] of the root raises [IndexError]; [parents] and [parent] of
    a node that is not in the tree raise [KeyError]. *)
Theorem ancestors_parents_are_paths root self' :
  List.NoDup (Ancestors.ids root) ->
  Ancestors.generic_visit root Ancestors.init = inr self' ->
  (forall q m, Ancestors.path_to root q m -> Ancestors.parents self' m = inr q) /\
  (forall q m k, Ancestors.path_to root q m -> In k (Ancestors.children m) ->
     Ancestors.parent self' k = inr m) /\
  Ancestors.parent self' root = inl Ancestors.IndexError /\
  (forall x, ~ In (Ancestors.nid x) (Ancestors.ids root) ->
     Ancestors.parents self' x = inl Ancestors.KeyError /\
     Ancestors.parent self' x = inl Ancestors.KeyError).
Proof.
  intros Hnd E.
  destruct (Ancestors.generic_visit_spec root Ancestors.init) as (s & E' & C & A & B & D).
  rewrite E in E'. injection E' as <-. specialize (D Hnd). simpl in D.
  split; [|split; [|split]].
  - intros q m Hp. unfold Ancestors.parents. rewrite (D q m Hp). reflexivity.
  - intros q m k Hp Hk. unfold Ancestors.parent.
    rewrite (D _ _ (Ancestors.path_snoc _ _ _ _ Hp Hk)), Py.last_snoc. reflexivity.
  - unfold Ancestors.parent. rewrite (D [] root (Ancestors.path_here root)). reflexivity.
  - intros x Hx. unfold Ancestors.parents, Ancestors.parent. rewrite (A _ Hx).
    split; reflexivity.
Qed.

Lemma ancestors_parents_are_paths_witness :
  let root := Ancestors.example in
  let self' := Ancestors.visited_from_init root in
  (forall q m, Ancestors.path_to root q m -> Ancestors.parents self' m = inr q) /\
  (forall q m k, Ancestors.path_to root q m -> In k (Ancestors.children m) ->
     Ancestors.parent self' k = inr m) /\
  Ancestors.parent self' root = inl Ancestors.IndexError /\
  (forall x, ~ In (Ancestors.nid x) (Ancestors.ids root) ->
     Ancestors.parents self' x = inl Ancestors.KeyError /\
     Ancestors.parent self' x = inl Ancestors.KeyError).
Proof.
  apply (ancestors_parents_are_paths Ancestors.example
           (Ancestors.visited_from_init Ancestors.example)).
  - exact Ancestors.example_NoDup.
  - vm_compute. reflexivity.
Defined.

(** X16. After the visit of a tree of distinct nodes by a new instance,
    [parentInstance(node, cls)] is the nearest ancestor of the node that is
    an instance of [cls]: the one below which no node of the path to the
    node is an instance of [cls]; it raises [ValueError] when no ancestor
    is. *)
Theorem ancestors_nearest_instance root self' cls q m :
  List.NoDup (Ancestors.ids root) ->
  Ancestors.generic_visit root Ancestors.init = inr self' ->
  Ancestors.path_to root q m ->
  (forall q1 a q2, q = q1 ++ a :: q2 ->
     Ancestors.isinstance cls a = true ->
     Forall (fun x => Ancestors.isinstance cls x = false) q2 ->
     Ancestors.parentInstance self' m cls = inr a) /\
  (Forall (fun x => Ancestors.isinstance cls x = false) q ->
   Ancestors.parentInstance self' m cls = inl Ancestors.ValueError) /\
  (forall a, Ancestors.parentInstance self' m cls = inr a ->
     In a q /\ Ancestors.isinstance cls a = true).
Proof.
  intros Hnd E Hp.
  destruct (Ancestors.generic_visit_spec root Ancestors.init) as (s & E' & C & A & B & D).
  rewrite E in E'. injection E' as <-. specialize (D Hnd q m Hp). simpl in D.
  unfold Ancestors.parentInstance. rewrite D. split; [|split].
  - intros q1 a q2 -> Ha Hq. rewrite Ancestors.find_nearest by assumption. reflexivity.
  - intros Hq. rewrite Ancestors.find_nobody by assumption. reflexivity.
  - intros a Ha.
    destruct (List.find (Ancestors.isinstance cls) (rev q)) as [x|] eqn:Ef;
      [|discriminate].
    injection Ha as <-. apply List.find_some in Ef. destruct Ef as (Hin & Hx).
    split; [apply in_rev; exact Hin | exact Hx].
Qed.

Lemma ancestors_nearest_instance_witness :
  let self' := Ancestors.visited_from_init Ancestors.example in
  let q := [Ancestors.example; Ancestors.example_function; Ancestors.example_return] in
  let m := Ancestors.example_binop in
  let cls := ["FunctionDef"; "AsyncFunctionDef"] in
  (forall q1 a q2, q = q1 ++ a :: q2 ->
     Ancestors.isinstance cls a = true ->
     Forall (fun x => Ancestors.isinstance cls x = false) q2 ->
     Ancestors.parentInstance self' m cls = inr a) /\
  (Forall (fun x => Ancestors.isinstance cls x = false) q ->
   Ancestors.parentInstance self' m cls = inl Ancestors.ValueError) /\
  (forall a, Ancestors.parentInstance self' m cls = inr a ->
     In a q /\ Ancestors.isinstance cls a = true).
Proof.
  apply (ancestors_nearest_instance Ancestors.example
           (Ancestors.visited_from_init Ancestors.example)
           ["FunctionDef"; "AsyncFunctionDef"]
           [Ancestors.example; Ancestors.example_function; Ancestors.example_return]
           Ancestors.example_binop).
  - exact Ancestors.example_NoDup.
  - vm_compute. reflexivity.
  - exact Ancestors.example_path.
Defined.

(** [parentFunction] and [parentStmt] on the example of the class: the
    function and the [return] statement around [x + 1]. *)
Example ancestors_example :
  let self' := Ancestors.visited_from_init Ancestors.example in
  Ancestors.parentFunction self' Ancestors.example_binop = inr Ancestors.example_function /\
  Ancestors.parentStmt self' Ancestors.example_binop = inr Ancestors.example_return /\
  Ancestors.parentStmt self' Ancestors.example = inl Ancestors.ValueError.
Proof. vm_compute. repeat split. Qed.

(** * The helpers that dump the result *)

Definition is_Module (n : AST) : bool :=
  match n with NModule _ => true | _ => false end.

(** [sorted] on strings *)
Fixpoint insert_sorted (x : string) (l : list string) : list string :=
  match l with
  | [] => [x]
  | y :: r => if String.leb x y then x :: l else y :: insert_sorted x r
  end.

Definition sorted (l : list string) : list string := fold_right insert_sorted [] l.

(** [dump_definitions(node, ignore_builtins)]; [self.locals] is a
    [defaultdict]. *)
Definition dump_definitions (n : AST) (ignore_builtins : bool) : M (list string) :=
  if is_Module n && negb ignore_builtins then
    s <- get ;;
    let builtins := od_values (_builtins s) in
    l <- locals_getitem n ;;
    s <- get ;;
    ret (sorted (List.map (name_of s)
                   (List.filter (fun d => negb (bool_decide (d ∈ builtins))) l)))
  else
    l <- locals_getitem n ;;
    s <- get ;;
    ret (sorted (List.map (name_of s) l)).

(** ** The table of builtins is never written *)

Definition same_builtins (s s' : DefUseChains) : Prop := _builtins s' = _builtins s.

#[global] Instance same_builtins_preorder : PreOrder same_builtins.
Proof.
  split.
  - intros s. reflexivity.
  - intros s1 s2 s3. unfold same_builtins. congruence.
Qed.

Create HintDb builtins.

Ltac builtins_leaf :=
  first
    [ lazymatch goal with
      | |- respects same_builtins (looked_up _) =>
          apply (respects_weaken unchanged);
          [unfold unchanged; intros ? ? ->; apply PreOrder_Reflexive
          | apply reads_looked_up]
      | |- respects same_builtins (modify _) =>
          apply respects_modify; intros ?; reflexivity
      | |- respects same_builtins (new_Def _) => intros ?; reflexivity
      | |- respects same_builtins (new_set _) => intros ?; reflexivity
      | |- respects same_builtins (new_dict _) => intros ?; reflexivity
      | |- respects same_builtins (add_user _ _) => intros ?; reflexivity
      end
    | solve [auto 2 with builtins] ].

Ltac builtins_go := respects_go builtins_leaf.

Lemma builtins_defs n name quiet : respects same_builtins (defs n name quiet).
Proof. builtins_go. Qed.

#[local] Hint Resolve builtins_defs : builtins.

Lemma builtins_exec_items dnode items visible :
  respects same_builtins (exec_items dnode items visible).
Proof.
  revert visible. induction items as [|[dname sid] items IH]; intros visible; simpl;
    builtins_go.
Qed.

#[local] Hint Resolve builtins_exec_items : builtins.

Lemma builtins_exec_locals dnode layers visible :
  respects same_builtins (exec_locals dnode layers visible).
Proof.
  revert visible. induction layers as [|l layers IH]; intros visible; simpl; builtins_go.
Qed.

#[local] Hint Resolve builtins_exec_locals : builtins.

Section BuiltinsVisitor.
Variable self : Self.
Hypothesis builtins_self : forall c, respects same_builtins (self c).

Hint Resolve builtins_self : builtins.

Lemma builtins_process_body_loop stmts deadcode :
  respects same_builtins (process_body_loop self stmts deadcode).
Proof.
  revert deadcode. induction stmts as [|stmt stmts IH]; intros deadcode; simpl;
    builtins_go.
Qed.

Hint Resolve builtins_process_body_loop : builtins.

Lemma builtins_process_body stmts : respects same_builtins (process_body self stmts).
Proof. builtins_go. Qed.

Hint Resolve builtins_process_body : builtins.

Lemma builtins_visit_Name n id ctx annotation skip :
  respects same_builtins (visit_Name self n id ctx annotation skip).
Proof. builtins_go. Qed.

Hint Resolve builtins_visit_Name : builtins.

Lemma builtins_visit_FunctionDef n name args body decorator_list returns st :
  respects same_builtins
    (visit_FunctionDef self n name args body decorator_list returns st).
Proof. builtins_go. Qed.

Lemma builtins_visit_Lambda n args body st :
  respects same_builtins (visit_Lambda self n args body st).
Proof. builtins_go. Qed.

Hint Resolve builtins_visit_FunctionDef builtins_visit_Lambda : builtins.

Lemma builtins_drain_defered fuel i : respects same_builtins (drain_defered self fuel i).
Proof.
  revert i. induction fuel as [|fuel IH]; intros i; simpl; [apply respects_out_of_fuel|].
  apply respects_bind; [exact _ | apply respects_get; exact _ |]. intros s.
  destruct (_defered s !! i) as [[[[[fnode defs] scopes] depths] pls]|];
    [|apply respects_ret; exact _].
  apply respects_bind; [exact _ | | intro; apply IH].
  unfold SwitchScopeContext. builtins_go.
Qed.

Hint Resolve builtins_drain_defered : builtins.

Lemma builtins_visit_Destructured n elts :
  respects same_builtins (visit_Destructured self n elts).
Proof. builtins_go. Qed.

Hint Resolve builtins_visit_Destructured : builtins.

Lemma builtins_visit_Module fuel m : respects same_builtins (visit_Module self fuel m).
Proof. builtins_go. Qed.

Hint Resolve builtins_visit_Module : builtins.

Lemma builtins_dispatch fuel n : respects same_builtins (dispatch self fuel n).
Proof. unfold dispatch. destruct n as [m|st|e|c|a|k|a|w|h]; builtins_go. Qed.
End BuiltinsVisitor.

Lemma builtins_run fuel c : respects same_builtins (run fuel c).
Proof.
  revert c. induction fuel as [|fuel IH]; intros c; simpl.
  - apply respects_out_of_fuel.
  - destruct c as [n|e].
    + apply builtins_dispatch. exact IH.
    + destruct e; try apply respects_raise. apply builtins_visit_Destructured. exact IH.
Qed.

Lemma filter_all {A} (f : A -> bool) l :
  (forall x, In x l -> f x = true) -> List.filter f l = l.
Proof.
  induction l as [|x l IH]; intros H; simpl; [reflexivity|].
  rewrite (H x) by (left; reflexivity). f_equal. apply IH.
  intros y Hy. apply H. right. exact Hy.
Qed.

Lemma builtins_init_values Builtins d :
  In d (od_values (_builtins (DefUseChains_init Builtins))) -> d < length Builtins.
Proof.
  unfold od_values. simpl. rewrite List.map_map. simpl.
  intros H. apply List.in_map_iff in H. destruct H as ([i kv] & <- & Hin).
  apply in_combine_l in Hin. apply in_seq in Hin. simpl. lia.
Qed.

(** No [Def] of the locals of a scope is a [Def] of the table of
    builtins. *)
Lemma locals_not_builtins fuel Builtins m r s scope l d :
  analyze fuel Builtins m = Ok r s ->
  od_get scope (locals s) = Some l -> In d l ->
  ~ In d (od_values (_builtins s)).
Proof.
  unfold analyze. intros H Hl Hd Hb.
  pose proof (wp_Ok _ _ _ _ _ (grows_run fuel _ _ (Good_init Builtins)) H)
    as ((_ & G2 & _) & _).
  pose proof (wp_Ok _ _ _ _ _ (node_run fuel _ _) H) as (N & K).
  pose proof (wp_Ok _ _ _ _ _ (builtins_run fuel _ _) H) as B.
  destruct (N (Nodes_ok_init Builtins)) as (N1 & _).
  destruct (G2 scope l d Hl Hd) as (k & Hk).
  destruct (N1 k d Hk) as (n & E & _).
  unfold same_builtins in B. rewrite B in Hb. apply builtins_init_values in Hb.
  destruct (K d) as (_ & E'); [simpl; rewrite length_map; exact Hb|].
  rewrite E in E'. unfold node_of, def_at in E'. simpl in E'.
  rewrite list_lookup_fmap in E'.
  destruct (Builtins !! d); simpl in E'; discriminate.
Qed.

(** X17. After an analysis, [dump_definitions] gives the same list and
    leaves the same instance whatever [ignore_builtins] is, for every node:
    the locals of a scope never hold a [Def] of the table of builtins, so
    the filter that the flag turns on removes nothing. *)
Theorem dump_definitions_flag_is_idle fuel Builtins m r s n ignore_builtins :
  analyze fuel Builtins m = Ok r s ->
  dump_definitions n ignore_builtins s = dump_definitions n true s.
Proof.
  intros H. unfold dump_definitions.
  destruct (is_Module n && negb ignore_builtins) eqn:Eb;
    [|rewrite andb_false_r; reflexivity].
  rewrite andb_false_r. rewrite bind_get. unfold bind.
  rewrite locals_getitem_Ok.
  destruct (od_get (node_id n) (locals s)) as [l|] eqn:El; [|reflexivity].
  simpl. rewrite filter_all; [reflexivity|].
  intros d Hd. apply negb_true_iff, bool_decide_eq_false. intros Hb.
  apply list_elem_of_In in Hb.
  exact (locals_not_builtins fuel Builtins m r s _ l d H El Hd Hb).
Qed.

Lemma dump_definitions_flag_is_idle_witness :
  let s := final (analyze 20 example_builtins example_expression) in
  dump_definitions (NModule example_expression) false s
  = dump_definitions (NModule example_expression) true s.
Proof.
  apply (dump_definitions_flag_is_idle 20 example_builtins example_expression None).
  vm_compute. reflexivity.
Defined.

(** ** Printing a chain *)

From Stdlib Require DecimalString.

(** [str(n)] on a natural number *)
Definition str_of_nat (n : nat) : string :=
  DecimalString.NilEmpty.string_of_uint (Nat.to_uint n).

(** [d._str(nodes)]: [nodes] numbers the [Def]s on the way from the [Def]
    that is printed; each user gets a copy of it.  The fuel counts the
    calls of [_str] that may nest: [None] when a call would nest deeper. *)
Fixpoint Def_str (fuel : nat) (s : DefUseChains) (d : nat) (nodes : list (nat * nat))
    : option string :=
  match fuel with
  | 0 => None
  | S fuel =>
      match od_get d nodes with
      | Some k => Some ("(#" +:+ str_of_nat k +:+ ")")
      | None =>
          let nodes := od_set d (length nodes) nodes in
          match mapM (fun u => Def_str fuel s u nodes) (users s d) with
          | Some strs =>
              Some (name_of s d +:+ " -> (" +:+ String.concat ", " strs +:+ ")")
          | None => None
          end
      end
  end.

(** [dump_chains(node)] *)
Definition dump_chains (fuel : nat) (n : AST) : M (list string) :=
  l <- locals_getitem n ;;
  s <- get ;;
  match mapM (fun d => Def_str fuel s d []) l with
  | Some chains => ret chains
  | None => out_of_fuel
  end.

Lemma od_get_None_fresh {V} (k : nat) (v : V) m :
  od_get k m = None -> od_set k v m = m ++ [(k, v)] /\ ~ In k (od_keys m).
Proof.
  induction m as [|[k' v'] m IH]; simpl; [intros _; split; [reflexivity | tauto]|].
  destruct (decide (k = k')) as [->|Hne]; [discriminate|]. intros H.
  destruct (IH H) as (E & Hn). rewrite E. split; [reflexivity|].
  intros [F|F]; [congruence | contradiction].
Qed.

Lemma mapM_total {A B} (f : A -> option B) l :
  (forall x, In x l -> exists y, f x = Some y) -> exists ys, mapM f l = Some ys.
Proof.
  induction l as [|x l IH]; intros H; simpl; [eexists; reflexivity|].
  destruct (H x) as (y & Ey); [left; reflexivity|].
  destruct IH as (ys & Eys); [intros z Hz; apply H; right; exact Hz|].
  rewrite Ey. simpl. rewrite Eys. simpl. eexists. reflexivity.
Qed.

Lemma mapM_Some_length {A B} (f : A -> option B) l ys :
  mapM f l = Some ys -> length ys = length l.
Proof.
  revert ys. induction l as [|x l IH]; intros ys; simpl.
  - intros E. injection E as <-. reflexivity.
  - destruct (f x) as [y|]; simpl; [|discriminate].
    destruct (mapM f l) as [zs|]; simpl; [|discriminate].
    intros E. injection E as <-. simpl. f_equal. apply IH. reflexivity.
Qed.

Lemma Def_str_total fuel s : forall d nodes,
  List.NoDup (od_keys nodes) ->
  (forall k, In k (od_keys nodes) -> k < length (heap_defs s)) ->
  length (heap_defs s) < fuel + length nodes ->
  exists str, Def_str fuel s d nodes = Some str.
Proof.
  induction fuel as [|fuel IH]; intros d nodes Hnd Hk Hlen.
  - exfalso. simpl in Hlen.
    assert (L : length (od_keys nodes) <= length (seq 0 (length (heap_defs s)))).
    { apply List.NoDup_incl_length; [exact Hnd|].
      intros k Hin. apply in_seq. specialize (Hk k Hin). lia. }
    unfold od_keys in L. rewrite length_map, length_seq in L. lia.
  - simpl. destruct (od_get d nodes) as [k|] eqn:Eg; [eexists; reflexivity|].
    destruct (od_get_None_fresh d (length nodes) nodes Eg) as (Es & Hfresh).
    rewrite Es.
    destruct (mapM_total (fun u => Def_str fuel s u (nodes ++ [(d, length nodes)]))
                (users s d)) as (strs & E).
    + intros u Hu. apply IH.
      * unfold od_keys. rewrite List.map_app. simpl.
        apply NoDup_ListNoDup, NoDup_app. split; [apply NoDup_ListNoDup; exact Hnd|].
        split; [|apply NoDup_singleton].
        intros x Hx Hx'. apply list_elem_of_In in Hx.
        apply list_elem_of_singleton in Hx'. subst. contradiction.
      * unfold od_keys. rewrite List.map_app. simpl. intros k Hin.
        apply in_app_or in Hin. destruct Hin as [Hin | [<- | []]]; [apply Hk; exact Hin|].
        unfold users, def_at in Hu.
        destruct (heap_defs s !! d) eqn:Ed; [|destruct Hu].
        eapply lookup_lt_Some. exact Ed.
      * rewrite length_app. simpl. lia.
    + rewrite E. eexists. reflexivity.
Qed.

(** X18. The recursion of [Def._str] is bounded, also on chains with
    cycles: a [Def] that is met again on the way is printed as a number, so
    the calls of [_str] nest at most one deeper than there are [Def]s in the
    instance.  Allowed to nest that deep, [str(d)] is a string for every
    [Def], and [dump_chains(node)] comes to an end for every node, with one
    string for each [Def] of the locals of the node.  The bound is on the
    nesting of [_str] alone: a level of it takes several frames of the
    interpreter, whose own limit on the depth of the stack is not part of
    the model, so a chain that is deep for that limit still raises
    [RecursionError]. *)
Theorem printing_depth_is_bounded s d n :
  (exists str, Def_str (S (length (heap_defs s))) s d [] = Some str) /\
  (exists chains s',
     dump_chains (S (length (heap_defs s))) n s = Ok chains s' /\
     length chains = length (default [] (od_get (node_id n) (locals s))) /\
     heap_defs s' = heap_defs s).
Proof.
  assert (T : forall s d, exists str, Def_str (S (length (heap_defs s))) s d [] = Some str).
  { intros s0 d0. apply Def_str_total; simpl; [constructor | tauto | lia]. }
  split; [apply T|].
  unfold dump_chains, bind. rewrite locals_getitem_Ok.
  destruct (od_get (node_id n) (locals s)) as [l|] eqn:El; cbn -[Def_str mapM].
  - destruct (mapM_total (fun d => Def_str (S (length (heap_defs s))) s d []) l)
      as (strs & E); [intros x _; apply T|].
    rewrite E. exists strs, s. split; [reflexivity|]. split; [|reflexivity].
    apply mapM_Some_length in E. exact E.
  - do 2 eexists. split; [reflexivity|]. split; reflexivity.
Qed.

(** [from b import c, d; c()], the example of the class: the chain of the
    first alias prints as [c -> (c -> (Call -> ()))], and the locals of the
    module as [c] and [d]. *)
Definition example_import : module_ :=
  Module 0 [ImportFrom 1 [Alias 2 "c" None; Alias 3 "d" None];
            Expr 4 (Call 5 (Name 6 "c" Load None) [] [])].

Example printing_example :
  let s := final (analyze 20 example_builtins example_import) in
  (exists d, od_get 2 (chains s) = Some d /\
     Def_str (S (length (heap_defs s))) s d [] = Some "c -> (c -> (Call -> ()))") /\
  (exists s', dump_definitions (NModule example_import) true s = Ok ["c"; "d"] s').
Proof.
  split.
  - eexists. split; vm_compute; reflexivity.
  - eexists. vm_compute. reflexivity.
Qed.

(** * Names bound later in a loop *)

(** [only_users s s']: from [s] to [s'] nothing but users were added to the
    [Def]s (and warnings printed). *)
Definition only_users (s s' : DefUseChains) : Prop :=
  heap_sets s' = heap_sets s /\ heap_dicts s' = heap_dicts s /\
  _definitions s' = _definitions s /\ _undefs s' = _undefs s /\
  chains s' = chains s /\ length (heap_defs s') = length (heap_defs s) /\
  (forall d u, In u (users s d) -> In u (users s' d)).

#[global] Instance only_users_preorder : PreOrder only_users.
Proof.
  split.
  - intros s. unfold only_users. auto 10.
  - intros s1 s2 s3 (A1 & B1 & C1 & D1 & E1 & F1 & G1) (A2 & B2 & C2 & D2 & E2 & F2 & G2).
    unfold only_users. repeat split; try congruence. auto.
Qed.

(** A loop whose steps all return: what a step establishes still holds at
    the end when the later steps keep it. *)
Lemma forM_establish {A} (R : DefUseChains -> DefUseChains -> Prop) `{!PreOrder R}
    (P : A -> DefUseChains -> Prop) (l : list A) (f : A -> M unit) s0 :
  (forall x s s', P x s -> R s s' -> P x s') ->
  (forall x s, In x l -> R s0 s -> exists s', f x s = Ok tt s' /\ R s s' /\ P x s') ->
  forall s, R s0 s ->
    exists s', forM_ l f s = Ok tt s' /\ R s s' /\ forall x, In x l -> P x s'.
Proof.
  intros Hstable. induction l as [|x l IH]; intros Hstep s Hs.
  - exists s. split; [reflexivity|]. split; [reflexivity | intros x []].
  - destruct (Hstep x s (or_introl eq_refl) Hs) as (s1 & E1 & R1 & P1).
    destruct (IH (fun y s Hy => Hstep y s (or_intror Hy))
                s1 (PreOrder_Transitive _ _ _ Hs R1)) as (s2 & E2 & R2 & P2).
    exists s2. simpl. rewrite (bind_eq _ _ _ _ _ E1). split; [exact E2|].
    split; [exact (PreOrder_Transitive _ _ _ R1 R2)|].
    intros y [<- | Hy]; [exact (Hstable _ _ _ P1 R2) | exact (P2 y Hy)].
Qed.

Lemma only_users_with_user d u s : only_users s (with_user d u s).
Proof.
  unfold only_users. repeat split; try reflexivity.
  - apply length_with_user.
  - intros d' x Hx. apply users_with_user. left. exact Hx.
Qed.

(** [for user in undef.users(): newdef.add_user(user)] *)
Lemma copy_users_Ok newdef (us : list nat) s0 s :
  only_users s0 s ->
  exists s', forM_ us (fun user => add_user newdef user) s = Ok tt s' /\
    only_users s s' /\
    forall user, In user us ->
      newdef < length (heap_defs s0) -> In user (users s' newdef).
Proof.
  intros Hs.
  apply (forM_establish only_users
           (fun user s' => newdef < length (heap_defs s0) -> In user (users s' newdef))
           us _ s0); [| |exact Hs].
  - intros x s1 s2 HP (_ & _ & _ & _ & _ & _ & Hm) Hlt. apply Hm, HP, Hlt.
  - intros user s1 _ H1. exists (with_user newdef user s1).
    split; [reflexivity|]. split; [apply only_users_with_user|].
    intros Hlt. apply users_with_user. right.
    destruct H1 as (_ & _ & _ & _ & _ & L & _). rewrite L. auto.
Qed.

(** X19. [process_undefs] binds late: for each name that was read unbound
    in the loop and that the layer on top binds by now, every user of a
    [Def] queued for the name becomes a user of every definition that the
    layer binds to the name.  The call returns whenever there is a queue
    and a layer, takes the queue off its stack, and writes no layer and no
    entry of [chains]; no user is removed. *)
Theorem process_undefs_binds_late s undefs cur :
  Py.last (_undefs s) = Some undefs ->
  Py.last (_definitions s) = Some cur ->
  exists s',
    process_undefs s = Ok tt s' /\
    _undefs s' = Py.pop (_undefs s) /\
    heap_sets s' = heap_sets s /\ heap_dicts s' = heap_dicts s /\
    chains s' = chains s /\
    (forall d u, In u (users s d) -> In u (users s' d)) /\
    (forall name pending sid newdef undef stars user,
       In (name, pending) undefs ->
       od_get name (dict_items s cur) = Some sid ->
       In newdef (set_elems s sid) -> newdef < length (heap_defs s) ->
       In (undef, stars) pending -> In user (users s undef) ->
       In user (users s' newdef)).
Proof.
  intros Hu Hd. unfold process_undefs.
  rewrite (bind_eq _ _ _ _ _ (top_Ok_intro _ _ _ Hu)).
  pose (P := fun (item : string * list (nat * list nat)) (s' : DefUseChains) =>
    forall sid newdef undef stars user,
      od_get (fst item) (dict_items s cur) = Some sid ->
      In newdef (set_elems s sid) -> newdef < length (heap_defs s) ->
      In (undef, stars) (snd item) -> In user (users s undef) ->
      In user (users s' newdef)).
  match goal with |- context [forM_ undefs ?f] =>
    assert (X : exists s', forM_ undefs f s = Ok tt s' /\ only_users s s' /\
                           forall x, In x undefs -> P x s')
  end.
  { apply (forM_establish only_users P undefs _ s); [| |reflexivity].
    - intros x s1 s2 HP (_ & _ & _ & _ & _ & _ & Hm) sid newdef undef stars user
        H1 H2 H3 H4 H5. apply Hm. eapply HP; eassumption.
    - intros [name pending] s1 _ R1. rewrite bind_get.
      pose proof R1 as (Rs & Rd & Rdef & _ & _ & Rlen & Rm).
      rewrite Rdef, Hd. cbn [expect]. rewrite (bind_eq _ _ s1 cur s1 eq_refl).
      assert (Ei : dict_items s1 cur = dict_items s cur)
        by (unfold dict_items; rewrite Rd; reflexivity).
      rewrite Ei.
      destruct (od_get name (dict_items s cur)) as [sid|] eqn:Eg.
      + assert (Ee : set_elems s1 sid = set_elems s sid)
          by (unfold set_elems; rewrite Rs; reflexivity).
        rewrite Ee.
        match goal with |- context [forM_ (set_elems s sid) ?f] =>
          assert (X : exists s', forM_ (set_elems s sid) f s1 = Ok tt s' /\
                    only_users s1 s' /\
                    forall newdef, In newdef (set_elems s sid) ->
                      newdef < length (heap_defs s) ->
                      forall undef stars user, In (undef, stars) pending ->
                        In user (users s undef) -> In user (users s' newdef))
        end.
        { apply (forM_establish only_users
                   (fun newdef s' => newdef < length (heap_defs s) ->
                      forall undef stars user, In (undef, stars) pending ->
                        In user (users s undef) -> In user (users s' newdef))
                   (set_elems s sid) _ s); [| |exact R1].
          - intros x sa sb HP (_ & _ & _ & _ & _ & _ & Hm) Hlt undef stars user H4 H5.
            apply Hm. eapply HP; eassumption.
          - intros newdef sa _ Ra.
            match goal with |- context [forM_ pending ?f] =>
              assert (X : exists s', forM_ pending f sa = Ok tt s' /\
                        only_users sa s' /\
                        forall undef, In undef pending ->
                          newdef < length (heap_defs s) ->
                          forall user, In user (users s (fst undef)) ->
                            In user (users s' newdef))
            end.
            { apply (forM_establish only_users
                       (fun (undef : nat * list nat) s' =>
                          newdef < length (heap_defs s) ->
                          forall user, In user (users s (fst undef)) ->
                            In user (users s' newdef))
                       pending _ s); [| |exact Ra].
              - intros x sb sc HP (_ & _ & _ & _ & _ & _ & Hm) Hlt user H5.
                apply Hm. apply HP; assumption.
              - intros [undef stars] sb _ Rb. rewrite bind_get. cbn [fst].
                destruct (copy_users_Ok newdef (users sb undef) s sb Rb)
                  as (sc & Ec & Rc & Pc).
                exists sc. split; [exact Ec|]. split; [exact Rc|].
                intros Hlt user H5. apply Pc; [|exact Hlt].
                destruct Rb as (_ & _ & _ & _ & _ & _ & Hm). apply Hm. exact H5. }
            destruct X as (s3 & E3 & R3 & P3).
            exists s3. split; [exact E3|]. split; [exact R3|].
            intros Hlt undef stars user H4 H5.
            exact (P3 (undef, stars) H4 Hlt user H5). }
        destruct X as (s2 & E2 & R2 & P2).
        exists s2. split; [exact E2|]. split; [exact R2|].
        intros sid' newdef undef stars user H1 H2 H3 H4 H5. cbn [fst snd] in *.
        rewrite Eg in H1. injection H1 as <-.
        exact (P2 newdef H2 H3 undef stars user H4 H5).
      + match goal with |- context [forM_ pending ?f] =>
          assert (X : exists s', forM_ pending f s1 = Ok tt s' /\ only_users s1 s' /\
                                 forall x, In x pending -> True)
        end.
        { apply (forM_establish only_users (fun _ _ => True) pending _ s);
            [auto| |exact R1].
          intros [undef stars] sa _ Ra. rewrite bind_get. cbn [snd].
          destruct stars; eexists; (split; [reflexivity|]); (split; [|exact I]).
          - unfold only_users. simpl. auto 10.
          - reflexivity. }
        destruct X as (s2 & E2 & R2 & _).
        exists s2. split; [exact E2|]. split; [exact R2|].
        intros sid newdef undef stars user H1. cbn [fst] in H1. congruence. }
  destruct X as (s1 & E1 & R1 & P1).
  rewrite (bind_eq _ _ _ _ _ E1).
  destruct R1 as (Rs & Rd & Rdef & Ru & Rc & Rlen & Rm).
  assert (Hu1 : Py.last (_undefs s1) = Some undefs) by (rewrite Ru; exact Hu).
  assert (Ep : pop_from _undefs upd_undefs s1 = Ok undefs (upd_undefs Py.pop s1))
    by (unfold pop_from; rewrite (bind_eq _ _ _ _ _ (top_Ok_intro _ _ _ Hu1));
        reflexivity).
  rewrite (bind_eq _ _ _ _ _ Ep). eexists. split; [reflexivity|]. simpl.
  split; [rewrite Ru; reflexivity|]. split; [exact Rs|]. split; [exact Rd|].
  split; [exact Rc|]. split; [exact Rm|].
  intros name pending sid newdef undef stars user H0 H1 H2 H3 H4 H5.
  exact (P1 (name, pending) H0 sid newdef undef stars user H1 H2 H3 H4 H5).
Qed.

(** A layer that binds [x] to the [Def] 0, in a loop where [x] was read
    unbound: the [Def] 1 is queued, and is its own user. *)
Definition example_pending : DefUseChains :=
  upd_undefs (fun _ => [[("x", [(1, [])])]])
    (upd_heap_defs (fun _ => [mkDef (OValue "int") []; mkDef (OValue "int") [1]])
       (upd_definitions (fun _ => [0]) example_star_layers)).

Lemma process_undefs_binds_late_witness :
  let s := example_pending in
  exists s',
    process_undefs s = Ok tt s' /\
    _undefs s' = Py.pop (_undefs s) /\
    heap_sets s' = heap_sets s /\ heap_dicts s' = heap_dicts s /\
    chains s' = chains s /\
    (forall d u, In u (users s d) -> In u (users s' d)) /\
    (forall name pending sid newdef undef stars user,
       In (name, pending) [("x", [(1, @nil nat)])] ->
       od_get name (dict_items s 0) = Some sid ->
       In newdef (set_elems s sid) -> newdef < length (heap_defs s) ->
       In (undef, stars) pending -> In user (users s undef) ->
       In user (users s' newdef)).
Proof.
  apply (process_undefs_binds_late example_pending [("x", [(1, @nil nat)])] 0);
    reflexivity.
Defined.

(** [while 1: y; y = 2]: the read of [y] in the first round of the loop is
    a user of the assignment that follows it. *)
Example late_binding_example :
  let m := Module 0 [While 1 (Constant 2)
                       [Expr 3 (Name 4 "y" Load None);
                        Assign 5 [Name 6 "y" Store None] (Constant 7)] []] in
  let s := final (analyze 20 example_builtins m) in
  exists use def,
    od_get 4 (chains s) = Some use /\ od_get 6 (chains s) = Some def /\
    In use (users s def).
Proof. exists 4, 7. vm_compute. split; [reflexivity|]. split; [reflexivity|]. auto. Qed.

(** * The queue of function bodies

    [queue_grows s s']: the queue of [s'] is the queue of [s] with entries
    added at its end. *)
Definition queue_grows (s s' : DefUseChains) : Prop :=
  exists q, _defered s' = _defered s ++ q.

#[global] Instance queue_grows_preorder : PreOrder queue_grows.
Proof.
  split.
  - intros s. exists []. rewrite app_nil_r. reflexivity.
  - intros s1 s2 s3 (q1 & E1) (q2 & E2). exists (q1 ++ q2).
    rewrite E2, E1, app_assoc. reflexivity.
Qed.

Lemma queue_same s s' : _defered s' = _defered s -> queue_grows s s'.
Proof. intros E. exists []. rewrite E, app_nil_r. reflexivity. Qed.

Lemma queue_defer n : respects queue_grows (defer n).
Proof. intros s. unfold defer. simpl. eexists. reflexivity. Qed.

Create HintDb queue.
#[local] Hint Resolve queue_defer : queue.

Ltac queue_leaf :=
  first
    [ lazymatch goal with
      | |- respects queue_grows (looked_up _) =>
          apply (respects_weaken unchanged);
          [unfold unchanged; intros ? ? ->; apply PreOrder_Reflexive
          | apply reads_looked_up]
      | |- respects queue_grows (modify _) =>
          apply respects_modify; intros ?; apply queue_same; reflexivity
      | |- respects queue_grows (new_Def _) => intros ?; apply queue_same; reflexivity
      | |- respects queue_grows (new_set _) => intros ?; apply queue_same; reflexivity
      | |- respects queue_grows (new_dict _) => intros ?; apply queue_same; reflexivity
      | |- respects queue_grows (add_user _ _) => intros ?; apply queue_same; reflexivity
      end
    | solve [auto 2 with queue] ].

Ltac queue_go := respects_go queue_leaf.

Lemma queue_defs n name quiet : respects queue_grows (defs n name quiet).
Proof. queue_go. Qed.

#[local] Hint Resolve queue_defs : queue.

Lemma queue_exec_items dnode items visible :
  respects queue_grows (exec_items dnode items visible).
Proof.
  revert visible. induction items as [|[dname sid] items IH]; intros visible; simpl;
    queue_go.
Qed.

#[local] Hint Resolve queue_exec_items : queue.

Lemma queue_exec_locals dnode layers visible :
  respects queue_grows (exec_locals dnode layers visible).
Proof.
  revert visible. induction layers as [|l layers IH]; intros visible; simpl; queue_go.
Qed.

#[local] Hint Resolve queue_exec_locals : queue.

Section QueueVisitor.
Variable self : Self.
Hypothesis queue_self : forall c, respects queue_grows (self c).

Hint Resolve queue_self : queue.

Lemma queue_process_body_loop stmts deadcode :
  respects queue_grows (process_body_loop self stmts deadcode).
Proof.
  revert deadcode. induction stmts as [|stmt stmts IH]; intros deadcode; simpl;
    queue_go.
Qed.

Hint Resolve queue_process_body_loop : queue.

Lemma queue_process_body stmts : respects queue_grows (process_body self stmts).
Proof. queue_go. Qed.

Hint Resolve queue_process_body : queue.

Lemma queue_visit_Name n id ctx annotation skip :
  respects queue_grows (visit_Name self n id ctx annotation skip).
Proof. queue_go. Qed.

Hint Resolve queue_visit_Name : queue.

Lemma queue_visit_FunctionDef n name args body decorator_list returns st :
  respects queue_grows
    (visit_FunctionDef self n name args body decorator_list returns st).
Proof. queue_go. Qed.

Lemma queue_visit_Lambda n args body st :
  respects queue_grows (visit_Lambda self n args body st).
Proof. queue_go. Qed.

Hint Resolve queue_visit_FunctionDef queue_visit_Lambda : queue.

Lemma queue_drain_defered fuel i : respects queue_grows (drain_defered self fuel i).
Proof.
  revert i. induction fuel as [|fuel IH]; intros i; simpl; [apply respects_out_of_fuel|].
  apply respects_bind; [exact _ | apply respects_get; exact _ |]. intros s.
  destruct (_defered s !! i) as [[[[[fnode defs] scopes] depths] pls]|];
    [|apply respects_ret; exact _].
  apply respects_bind; [exact _ | | intro; apply IH].
  unfold SwitchScopeContext. queue_go.
Qed.

Hint Resolve queue_drain_defered : queue.

Lemma queue_visit_Destructured n elts :
  respects queue_grows (visit_Destructured self n elts).
Proof. queue_go. Qed.

Hint Resolve queue_visit_Destructured : queue.

Lemma queue_visit_Module fuel m : respects queue_grows (visit_Module self fuel m).
Proof. queue_go. Qed.

Hint Resolve queue_visit_Module : queue.

Lemma queue_dispatch fuel n : respects queue_grows (dispatch self fuel n).
Proof. unfold dispatch. destruct n as [m|st|e|c|a|k|a|w|h]; queue_go. Qed.
End QueueVisitor.

Lemma queue_run fuel c : respects queue_grows (run fuel c).
Proof.
  revert c. induction fuel as [|fuel IH]; intros c; simpl.
  - apply respects_out_of_fuel.
  - destruct c as [n|e].
    + apply queue_dispatch. exact IH.
    + destruct e; try apply respects_raise. apply queue_visit_Destructured. exact IH.
Qed.

(** The stacks are kept and the queue grows. *)
Definition stacks_queue (s s' : DefUseChains) : Prop := frame s s' /\ queue_grows s s'.

#[global] Instance stacks_queue_preorder : PreOrder stacks_queue.
Proof.
  split.
  - intros s. split; reflexivity.
  - intros s1 s2 s3 (A1 & B1) (A2 & B2).
    split; [exact (PreOrder_Transitive _ _ _ A1 A2) | exact (PreOrder_Transitive _ _ _ B1 B2)].
Qed.

Lemma respects_both {A} (m : M A) :
  respects frame m -> respects queue_grows m -> respects stacks_queue m.
Proof.
  intros H1 H2 s. specialize (H1 s). specialize (H2 s). unfold wp in *.
  destruct (m s); [split; assumption | exact I | exact I].
Qed.

#[local] Hint Resolve keeps_run : keeps.
#[local] Hint Resolve queue_run : queue.

Lemma wp_after {A B} (m : M A) (k : A -> M B) (Q : B -> DefUseChains -> Prop) s0 s :
  stacks_queue s0 s -> respects stacks_queue m ->
  (forall a s1, stacks_queue s0 s1 -> wp (k a) Q s1) ->
  wp (bind m k) Q s.
Proof.
  intros Hs Hm Hk. apply wp_bind. eapply wp_mono; [apply Hm|].
  intros a s1 H1. apply Hk. exact (PreOrder_Transitive _ _ _ Hs H1).
Qed.

(** X20. A function definition is deferred.  The visit of a [def] statement
    returns [None] after it has put at the end of the queue the node with
    the stacks of layers, scopes, scope depths and precomputed locals as
    they were when the statement was met; no visit ever removes or changes
    an entry of the queue. *)
Theorem def_is_deferred fuel :
  (forall c s r s', run fuel c s = Ok r s' -> exists q, _defered s' = _defered s ++ q) /\
  (forall async i name args body decorator_list returns s r s',
     let n := FunctionDef async i name args body decorator_list returns in
     run (S fuel) (Visit (NStmt n)) s = Ok r s' ->
     r = None /\
     exists q, _defered s' = _defered s ++ q
                 ++ [(NStmt n, _definitions s, _scopes s, _scope_depths s,
                      _precomputed_locals s)]).
Proof.
  split.
  - intros c s r s' H. exact (wp_Ok _ _ _ _ _ (queue_run fuel c s) H).
  - intros async i name args body decorator_list returns s r s' n H.
    assert (W : forall s0, stacks_queue s s0 ->
              wp (visit_FunctionDef (run fuel) n name args body decorator_list returns
                    DeclarationStep)
                 (fun r s' => r = None /\
                    exists q, _defered s' = _defered s ++ q
                      ++ [(NStmt n, _definitions s, _scopes s, _scope_depths s,
                           _precomputed_locals s)]) s0);
      [|exact (wp_Ok _ _ _ _ _ (W s (PreOrder_Reflexive s)) H)].
    clear H. intros s0 Hs.
    unfold visit_FunctionDef. destruct args.
    repeat lazymatch goal with
    | |- wp (bind (defer _) _) _ _ => fail
    | |- wp (bind ?m _) _ _ =>
        apply (wp_after m _ _ s s0 Hs);
          [apply respects_both; [keeps_go | queue_go]
          | clear dependent s0; intros ? s0 Hs]
    end.
    destruct Hs as ((F1 & F2 & F3 & F4 & _) & (q & Eq)).
    apply wp_bind. unfold defer. apply wp_bind, wp_get, wp_modify, wp_ret.
    split; [reflexivity|]. exists q. simpl.
    rewrite Eq, F1, F2, F3, F4, app_assoc. reflexivity.
Qed.

(** * Dead code writes no layer

    In dead code the writers of definitions return at once; what is left is
    [break] and [continue], which pour the layer on top into a carrier and
    clear it, and the fresh layers of the scopes and of the branches.

    [carrier_of s L]: the dictionary [L] is on one of the two stacks of
    carriers. *)
Definition carrier_of (s : DefUseChains) (L : nat) : Prop :=
  In L (_breaks s) \/ In L (_continues s).

(** What the relations below share: the stack of layers is kept, no
    dictionary is lost, and a carrier of [s'] is a carrier of [s] or a new
    dictionary. *)
Definition dead_frame (s s' : DefUseChains) : Prop :=
  _definitions s' = _definitions s /\
  length (heap_dicts s) <= length (heap_dicts s') /\
  (forall c, carrier_of s' c -> carrier_of s c \/ length (heap_dicts s) <= c).

(** A dictionary of [s] that is no carrier has in [s'] the items it had. *)
Definition all_kept (s s' : DefUseChains) : Prop :=
  dead_frame s s' /\
  forall L, L < length (heap_dicts s) -> ~ carrier_of s L ->
    dict_items s' L = dict_items s L.

(** ... or none, if it is the layer on top. *)
Definition top_cleared (s s' : DefUseChains) : Prop :=
  dead_frame s s' /\
  forall L, L < length (heap_dicts s) -> ~ carrier_of s L ->
    dict_items s' L = dict_items s L \/
    (Py.last (_definitions s) = Some L /\ dict_items s' L = []).

(** ... with nothing said of the layer on top. *)
Definition below_kept (s s' : DefUseChains) : Prop :=
  dead_frame s s' /\
  forall L, L < length (heap_dicts s) -> ~ carrier_of s L ->
    Py.last (_definitions s) <> Some L ->
    dict_items s' L = dict_items s L.

(** [in_dead_code R s s']: when [s] is in dead code, so is [s'], with the
    same counter, and [R s s']. *)
Definition in_dead_code (R : DefUseChains -> DefUseChains -> Prop)
    (s s' : DefUseChains) : Prop :=
  (0 < _deadcode s)%Z -> _deadcode s' = _deadcode s /\ R s s'.

Definition dead_strong := in_dead_code all_kept.
Definition dead_rel := in_dead_code top_cleared.
Definition dead_below := in_dead_code below_kept.

Lemma dead_frame_refl s : dead_frame s s.
Proof. unfold dead_frame. repeat split; auto. Qed.

Lemma dead_frame_trans s1 s2 s3 :
  dead_frame s1 s2 -> dead_frame s2 s3 -> dead_frame s1 s3.
Proof.
  intros (A2 & A3 & A4) (B2 & B3 & B4).
  unfold dead_frame. split; [congruence|]. split; [lia|].
  intros c Hc. destruct (B4 c Hc) as [H|H]; [|right; lia].
  destruct (A4 c H) as [H'|H']; [left; exact H' | right; exact H'].
Qed.

Lemma dead_frame_carrier s s' L :
  dead_frame s s' -> L < length (heap_dicts s) -> ~ carrier_of s L -> ~ carrier_of s' L.
Proof.
  intros (_ & _ & A4) Hlt Hn Hc. destruct (A4 L Hc) as [H|H]; [auto | lia].
Qed.

#[global] Instance all_kept_preorder : PreOrder all_kept.
Proof.
  split.
  - intros s. split; [apply dead_frame_refl | intros L _ _; reflexivity].
  - intros s1 s2 s3 (F1 & D1) (F2 & D2).
    split; [exact (dead_frame_trans _ _ _ F1 F2)|].
    intros L Hlt Hn.
    assert (Hlt2 : L < length (heap_dicts s2)) by (destruct F1 as (_ & E & _); lia).
    pose proof (dead_frame_carrier _ _ _ F1 Hlt Hn) as Hn2.
    rewrite D2; [apply D1; assumption | assumption | assumption].
Qed.

#[global] Instance top_cleared_preorder : PreOrder top_cleared.
Proof.
  split.
  - intros s. split; [apply dead_frame_refl | intros L _ _; left; reflexivity].
  - intros s1 s2 s3 (F1 & D1) (F2 & D2).
    split; [exact (dead_frame_trans _ _ _ F1 F2)|].
    intros L Hlt Hn.
    assert (Hlt2 : L < length (heap_dicts s2)) by (destruct F1 as (_ & E & _); lia).
    pose proof (dead_frame_carrier _ _ _ F1 Hlt Hn) as Hn2.
    destruct F1 as (Edef & _).
    destruct (D2 L Hlt2 Hn2) as [E2 | (T2 & E2)]; destruct (D1 L Hlt Hn) as [E1 | (T1 & E1)].
    + left. congruence.
    + right. split; [exact T1 | congruence].
    + right. split; [rewrite <- Edef; exact T2 | exact E2].
    + right. split; [exact T1 | exact E2].
Qed.

#[global] Instance below_kept_preorder : PreOrder below_kept.
Proof.
  split.
  - intros s. split; [apply dead_frame_refl | intros L _ _ _; reflexivity].
  - intros s1 s2 s3 (F1 & D1) (F2 & D2).
    split; [exact (dead_frame_trans _ _ _ F1 F2)|].
    intros L Hlt Hn Ht.
    assert (Hlt2 : L < length (heap_dicts s2)) by (destruct F1 as (_ & E & _); lia).
    pose proof (dead_frame_carrier _ _ _ F1 Hlt Hn) as Hn2.
    destruct F1 as (Edef & _).
    rewrite D2; [apply D1; assumption | assumption | assumption |].
    rewrite Edef. exact Ht.
Qed.

Lemma in_dead_code_preorder R : PreOrder R -> PreOrder (in_dead_code R).
Proof.
  intros HR. split.
  - intros s _. split; reflexivity.
  - intros s1 s2 s3 H12 H23 Hpos.
    destruct (H12 Hpos) as (E1 & R1).
    assert (Hpos2 : (0 < _deadcode s2)%Z) by (rewrite E1; exact Hpos).
    destruct (H23 Hpos2) as (E2 & R2).
    split; [congruence | etransitivity; eassumption].
Qed.

#[global] Instance dead_strong_preorder : PreOrder dead_strong :=
  in_dead_code_preorder _ _.
#[global] Instance dead_rel_preorder : PreOrder dead_rel :=
  in_dead_code_preorder _ _.
#[global] Instance dead_below_preorder : PreOrder dead_below :=
  in_dead_code_preorder _ _.

Lemma all_kept_top_cleared s s' : all_kept s s' -> top_cleared s s'.
Proof.
  intros (F & D). split; [exact F|]. intros L Hlt Hn. left. apply D; assumption.
Qed.

Lemma top_cleared_below_kept s s' : top_cleared s s' -> below_kept s s'.
Proof.
  intros (F & D). split; [exact F|].
  intros L Hlt Hn Ht. destruct (D L Hlt Hn) as [E | (T & _)]; [exact E | congruence].
Qed.

Lemma dead_strong_rel s s' : dead_strong s s' -> dead_rel s s'.
Proof.
  intros H Hpos. destruct (H Hpos) as (E & K). split; [exact E|].
  apply all_kept_top_cleared, K.
Qed.

Lemma dead_rel_below s s' : dead_rel s s' -> dead_below s s'.
Proof.
  intros H Hpos. destruct (H Hpos) as (E & K). split; [exact E|].
  apply top_cleared_below_kept, K.
Qed.

Lemma dead_strong_below s s' : dead_strong s s' -> dead_below s s'.
Proof. intros H. apply dead_rel_below, dead_strong_rel, H. Qed.

Lemma respects_strong_rel {A} (m : M A) : respects dead_strong m -> respects dead_rel m.
Proof. apply respects_weaken. exact dead_strong_rel. Qed.

Lemma respects_rel_below {A} (m : M A) : respects dead_rel m -> respects dead_below m.
Proof. apply respects_weaken. exact dead_rel_below. Qed.

Lemma respects_strong_below {A} (m : M A) :
  respects dead_strong m -> respects dead_below m.
Proof. apply respects_weaken. exact dead_strong_below. Qed.

(** A step that touches neither the counter, nor the stacks, nor a
    dictionary. *)
Lemma all_kept_same s s' :
  _definitions s' = _definitions s ->
  _breaks s' = _breaks s -> _continues s' = _continues s ->
  heap_dicts s' = heap_dicts s -> all_kept s s'.
Proof.
  intros E2 E3 E4 E5. split.
  - unfold dead_frame, carrier_of. rewrite E2, E3, E4, E5.
    repeat split; auto.
  - intros L _ _. unfold dict_items. rewrite E5. reflexivity.
Qed.

Lemma dead_same s s' :
  _deadcode s' = _deadcode s -> _definitions s' = _definitions s ->
  _breaks s' = _breaks s -> _continues s' = _continues s ->
  heap_dicts s' = heap_dicts s -> dead_strong s s'.
Proof. intros E1 E2 E3 E4 E5 _. split; [exact E1 | apply all_kept_same; assumption]. Qed.

Lemma dead_new_dict items : respects dead_strong (new_dict items).
Proof.
  intros s _. simpl. split; [reflexivity|]. split.
  - unfold dead_frame, carrier_of. simpl. rewrite length_app. simpl.
    repeat split; auto; lia.
  - intros L Hlt _. unfold dict_items. simpl. rewrite lookup_app_l by exact Hlt.
    reflexivity.
Qed.

(** The four writers of definitions are guarded by the counter. *)
Lemma dead_guarded (m : DefUseChains -> M unit) :
  respects dead_strong
    (s <- get ;; if bool_decide (_deadcode s <> 0%Z) then ret tt else m s).
Proof.
  intros s. apply wp_bind, wp_get.
  destruct (bool_decide (_deadcode s <> 0%Z)) eqn:E.
  - apply wp_ret. reflexivity.
  - apply bool_decide_eq_false in E. apply wp_intro. intros a s' _ Hpos. lia.
Qed.

Lemma dead_set_definition name a : respects dead_strong (set_definition name a).
Proof. unfold set_definition. apply dead_guarded. Qed.

Lemma dead_extend_definition name a : respects dead_strong (extend_definition name a).
Proof. unfold extend_definition. apply dead_guarded. Qed.

Lemma dead_extend_global name a : respects dead_strong (extend_global name a).
Proof. unfold extend_global. apply dead_guarded. Qed.

Lemma dead_set_or_extend_global name d :
  respects dead_strong (set_or_extend_global name d).
Proof. unfold set_or_extend_global. apply dead_guarded. Qed.

Lemma dead_merge_branches body_defs orelse_defs :
  respects dead_strong (merge_branches body_defs orelse_defs).
Proof.
  intros s. apply wp_intro. intros a s' H Hpos.
  rewrite merge_branches_dead in H by lia. injection H as E. subst s'.
  split; reflexivity.
Qed.

(** A new carrier is a new dictionary. *)
Lemma dead_push_breaks : respects dead_strong (push_carrier upd_breaks).
Proof.
  intros s _. simpl. split; [reflexivity|]. split.
  - unfold dead_frame, carrier_of. simpl. rewrite length_app. simpl.
    split; [reflexivity|]. split; [lia|].
    intros c [H|H]; [|left; right; exact H].
    apply in_app_or in H. destruct H as [H|[<-|[]]]; [left; left; exact H | right; lia].
  - intros L Hlt _. unfold dict_items. simpl. rewrite lookup_app_l by exact Hlt.
    reflexivity.
Qed.

Lemma dead_push_continues : respects dead_strong (push_carrier upd_continues).
Proof.
  intros s _. simpl. split; [reflexivity|]. split.
  - unfold dead_frame, carrier_of. simpl. rewrite length_app. simpl.
    split; [reflexivity|]. split; [lia|].
    intros c [H|H]; [left; left; exact H|].
    apply in_app_or in H. destruct H as [H|[<-|[]]]; [left; right; exact H | right; lia].
  - intros L Hlt _. unfold dict_items. simpl. rewrite lookup_app_l by exact Hlt.
    reflexivity.
Qed.

Lemma In_pop {A} (x : A) l : In x (Py.pop l) -> In x l.
Proof.
  destruct l as [|y l _] using List.rev_ind; [auto|].
  rewrite Py.pop_snoc. intros H. apply in_or_app. left. exact H.
Qed.

Lemma dead_pop_breaks : respects dead_strong (pop_from _breaks upd_breaks).
Proof.
  intros s. apply wp_intro. intros a s' H. apply pop_from_Ok in H.
  destruct H as [_ ->]. intros _. split; [reflexivity|]. split.
  - unfold dead_frame, carrier_of. simpl. split; [reflexivity|]. split; [lia|].
    intros c [H|H]; left; [left; apply In_pop, H | right; exact H].
  - intros L _ _. reflexivity.
Qed.

Lemma dead_pop_continues : respects dead_strong (pop_from _continues upd_continues).
Proof.
  intros s. apply wp_intro. intros a s' H. apply pop_from_Ok in H.
  destruct H as [_ ->]. intros _. split; [reflexivity|]. split.
  - unfold dead_frame, carrier_of. simpl. split; [reflexivity|]. split; [lia|].
    intros c [H|H]; left; [left; exact H | right; apply In_pop, H].
  - intros L _ _. reflexivity.
Qed.

(** ** A fresh layer on top

    A scope and a branch put a dictionary that they have just made on the
    stack of layers, so what their body clears is that one. *)
Lemma fresh_layer_kept s s1 s2 s' items :
  _deadcode s1 = _deadcode s ->
  _definitions s1 = _definitions s ++ [length (heap_dicts s)] ->
  _breaks s1 = _breaks s -> _continues s1 = _continues s ->
  heap_dicts s1 = heap_dicts s ++ [items] ->
  dead_below s1 s2 ->
  _deadcode s' = _deadcode s2 ->
  _definitions s' = Py.pop (_definitions s2) ->
  _breaks s' = _breaks s2 -> _continues s' = _continues s2 ->
  heap_dicts s' = heap_dicts s2 ->
  dead_strong s s'.
Proof.
  intros A1 A2 A3 A4 A5 Hb B1 B2 B3 B4 B5 Hpos.
  destruct Hb as (E & (F1 & F2 & F3) & D); [rewrite A1; exact Hpos|].
  split; [congruence|]. split.
  - unfold dead_frame. split; [rewrite B2, F1, A2, Py.pop_snoc; reflexivity|].
    split; [rewrite B5; rewrite A5, length_app in F2; simpl in F2; lia|].
    intros c Hc.
    assert (H : carrier_of s2 c)
      by (unfold carrier_of in *; rewrite <- B3, <- B4; exact Hc).
    destruct (F3 c H) as [H1|H1].
    + left. unfold carrier_of in *. rewrite <- A3, <- A4. exact H1.
    + right. rewrite A5, length_app in H1. lia.
  - intros L Hlt Hn. unfold dict_items at 1. rewrite B5.
    change (dict_items s2 L = dict_items s L).
    rewrite D.
    + unfold dict_items. rewrite A5, lookup_app_l by exact Hlt. reflexivity.
    + rewrite A5, length_app. lia.
    + unfold carrier_of in *. rewrite A3, A4. exact Hn.
    + rewrite A2, Py.last_snoc. intros E'. injection E' as E'. lia.
Qed.

Lemma dead_in_fresh_layer {A} (body : M A) s items :
  respects dead_below body ->
  wp (DefinitionContext (length (heap_dicts s)) body) (fun _ s' => dead_strong s s')
     (upd_heap_dicts (fun h => h ++ [items]) s).
Proof.
  intros Hb. apply wp_intro. intros r s' H.
  unfold DefinitionContext, shift_scope_depth in H. inv_ok.
  match goal with H : body _ = Ok _ _ |- _ =>
    apply (wp_Ok _ _ _ _ _ (Hb _)) in H; rename H into Hbody end.
  eapply (fresh_layer_kept s _ _ _ items); [| | | | | exact Hbody | | | | |];
    reflexivity.
Qed.

Lemma dead_ScopeContext {A} n (body : M A) :
  respects dead_below body -> respects dead_strong (ScopeContext n body).
Proof.
  intros Hb s. apply wp_intro. intros r s' H. unfold ScopeContext in H. inv_ok.
  match goal with H : body _ = Ok _ _ |- _ =>
    apply (wp_Ok _ _ _ _ _ (Hb _)) in H; rename H into Hbody end.
  eapply (fresh_layer_kept s _ _ _ []); [| | | | | exact Hbody | | | | |];
    reflexivity.
Qed.

Lemma dead_SwitchScopeContext {A} defs scopes depths pls (body : M A) :
  respects dead_strong body ->
  respects dead_strong (SwitchScopeContext defs scopes depths pls body).
Proof.
  intros Hb s. apply wp_intro. intros r s' H. unfold SwitchScopeContext in H.
  inv_ok.
  match goal with H : body _ = Ok _ _ |- _ =>
    apply (wp_Ok _ _ _ _ _ (Hb _)) in H; rename H into Hbody end.
  intros Hpos. destruct (Hbody Hpos) as (E & (F1 & F2 & F3) & D).
  split; [exact E|]. split; [|exact D].
  split; [reflexivity | split; [exact F2 | exact F3]].
Qed.

(** The two ways of making the dictionary of a branch. *)
Definition allocates (mk : M nat) : Prop :=
  forall s d s1, mk s = Ok d s1 ->
    d = length (heap_dicts s) /\
    exists items, s1 = upd_heap_dicts (fun h => h ++ [items]) s.

Lemma allocates_new_dict items : allocates (new_dict items).
Proof. intros s d s1 H. apply new_dict_Ok in H. destruct H as [-> ->]. eauto. Qed.

Lemma allocates_copy : allocates copy_top_definitions.
Proof.
  intros s d s1 H. unfold copy_top_definitions in H. inv_ok. eauto.
Qed.

(** [d = ...; with self.DefinitionContext(d): ...; ...] *)
Lemma dead_branch (R : DefUseChains -> DefUseChains -> Prop) `{!PreOrder R}
    {A B} (mk : M nat) (b : nat -> M A) (k : nat -> A -> M B) :
  (forall s s', dead_strong s s' -> R s s') ->
  allocates mk ->
  (forall d, respects dead_below (b d)) ->
  (forall d r, respects R (k d r)) ->
  respects R (d <- mk ;; r <- DefinitionContext d (b d) ;; k d r).
Proof.
  intros HR Hmk Hb Hk s. apply wp_intro. intros x s' H.
  apply bind_Ok in H. destruct H as (d & s1 & H1 & H).
  apply bind_Ok in H. destruct H as (r & s2 & H2 & H3).
  destruct (Hmk _ _ _ H1) as (-> & items & ->).
  apply (wp_Ok _ _ _ _ _ (dead_in_fresh_layer _ _ _ (Hb _))) in H2.
  apply (wp_Ok _ _ _ _ _ (Hk _ _ _)) in H3.
  etransitivity; [apply HR; exact H2 | exact H3].
Qed.

(** ** [break] and [continue] *)

Lemma dead_add_to_definition c name a s :
  carrier_of s c ->
  wp (add_to_definition c name a) (fun _ s' => dead_strong s s') s.
Proof.
  intros Hc. apply wp_intro. intros u s' H _.
  assert (K : _deadcode s' = _deadcode s /\ _definitions s' = _definitions s /\
              _breaks s' = _breaks s /\ _continues s' = _continues s /\
              length (heap_dicts s') = length (heap_dicts s) /\
              forall L, L <> c -> dict_items s' L = dict_items s L).
  { unfold add_to_definition, dict_getitem, dict_set in H. inv_ok.
    destruct (od_get name (dict_items s c)); inv_ok; simpl.
    - repeat split; reflexivity.
    - repeat split; try reflexivity.
      + apply length_alter.
      + intros L HL. unfold dict_items. simpl.
        rewrite list_lookup_alter_ne by congruence. reflexivity. }
  destruct K as (K1 & K2 & K3 & K4 & K5 & K6).
  split; [exact K1|]. split.
  - unfold dead_frame, carrier_of. rewrite K2, K3, K4, K5. repeat split; auto.
  - intros L _ Hn. apply K6. intros ->. exact (Hn Hc).
Qed.

Lemma last_In {A} (l : list A) x : Py.last l = Some x -> In x l.
Proof.
  intros H. apply Py.last_Some_snoc in H. rewrite H. apply in_or_app. right. left.
  reflexivity.
Qed.

Lemma dead_pour_breaks name a :
  respects dead_strong (carrier <- top _breaks ;; add_to_definition carrier name a).
Proof.
  intros s. apply wp_intro. intros u s' H.
  apply bind_Ok in H. destruct H as (c & s1 & H1 & H).
  apply top_Ok in H1. destruct H1 as [T ->].
  refine (wp_Ok _ _ _ _ _ (dead_add_to_definition c name a s _) H).
  left. apply last_In, T.
Qed.

Lemma dead_pour_continues name a :
  respects dead_strong (carrier <- top _continues ;; add_to_definition carrier name a).
Proof.
  intros s. apply wp_intro. intros u s' H.
  apply bind_Ok in H. destruct H as (c & s1 & H1 & H).
  apply top_Ok in H1. destruct H1 as [T ->].
  refine (wp_Ok _ _ _ _ _ (dead_add_to_definition c name a s _) H).
  right. apply last_In, T.
Qed.

(** [self._definitions[-1].clear()] *)
Lemma dead_clear_top {A} (r : A) :
  respects dead_rel (current <- top _definitions ;; dict_clear current ;; ret r).
Proof.
  intros s. apply wp_intro. intros u s' H. unfold dict_clear in H. inv_ok.
  intros _. split; [reflexivity|]. split.
  - unfold dead_frame, carrier_of. simpl. rewrite length_alter. repeat split; auto.
  - intros L Hlt _. unfold dict_items. simpl.
    destruct (decide (L = a)) as [->|Hne].
    + right. split; [assumption|].
      rewrite list_lookup_alter_eq.
      destruct (heap_dicts s !! a); reflexivity.
    + left. rewrite list_lookup_alter_ne by congruence. reflexivity.
Qed.

Lemma dead_visit_Break : respects dead_rel visit_Break.
Proof.
  unfold visit_Break, drain_into.
  apply respects_bind; [exact _ | apply respects_top; exact _ | intros current].
  apply respects_bind; [exact _ | apply respects_get; exact _ | intros s].
  apply respects_bind; [exact _ | | intros _; apply dead_clear_top].
  apply respects_strong_rel, respects_forM; [exact _|].
  intros kv. apply dead_pour_breaks.
Qed.

Lemma dead_visit_Continue : respects dead_rel visit_Continue.
Proof.
  unfold visit_Continue, drain_into.
  apply respects_bind; [exact _ | apply respects_top; exact _ | intros current].
  apply respects_bind; [exact _ | apply respects_get; exact _ | intros s].
  apply respects_bind; [exact _ | | intros _; apply dead_clear_top].
  apply respects_strong_rel, respects_forM; [exact _|].
  intros kv. apply dead_pour_continues.
Qed.

(** ** The visitor in dead code *)

Create HintDb dead.

#[local] Hint Resolve dead_new_dict dead_set_definition dead_extend_definition
  dead_extend_global dead_set_or_extend_global dead_merge_branches
  dead_push_breaks dead_push_continues dead_pop_breaks dead_pop_continues
  dead_visit_Break dead_visit_Continue : dead.

Ltac dead_weaken :=
  lazymatch goal with
  | |- respects dead_strong _ => idtac
  | |- respects dead_rel _ => apply respects_strong_rel
  | |- respects dead_below _ => apply respects_strong_below
  end.

Ltac dead_leaf :=
  first
    [ lazymatch goal with
      | |- respects _ (looked_up _) =>
          apply (respects_weaken unchanged);
          [unfold unchanged; intros ? ? ->; apply PreOrder_Reflexive
          | apply reads_looked_up]
      | |- respects _ (modify _) =>
          dead_weaken; apply respects_modify; intros ?; apply dead_same; reflexivity
      | |- respects _ (new_Def _) =>
          dead_weaken; intros ?; apply dead_same; reflexivity
      | |- respects _ (new_set _) =>
          dead_weaken; intros ?; apply dead_same; reflexivity
      | |- respects _ (add_user _ _) =>
          dead_weaken; intros ?; apply dead_same; reflexivity
      | |- respects _ (ScopeContext _ _) => dead_weaken; apply dead_ScopeContext
      | |- respects _ (CompScopeContext _ _) => dead_weaken; apply dead_ScopeContext
      end
    | solve [auto 2 with dead]
    | solve [dead_weaken; auto 2 with dead]
    | solve [apply respects_rel_below; auto 2 with dead] ].

(** A branch is taken as a whole, before the sequence is cut at its first
    step. *)
Ltac dead_shape :=
  lazymatch goal with
  | |- respects ?R (bind ?mk _) =>
      lazymatch mk with
      | copy_top_definitions => idtac
      | new_dict _ => idtac
      end;
      apply (dead_branch R);
      [ first [ exact (fun _ _ H => H) | exact dead_strong_rel
              | exact dead_strong_below ]
      | first [ exact allocates_copy | apply allocates_new_dict ]
      | intro
      | intros ? ? ]
  end.

Ltac dead_go :=
  repeat first
    [ dead_shape
    | respects_struct
    | dead_leaf
    | lazymatch goal with
      | |- respects _ ?m => let h := head_of m in unfold h
      end ].

Lemma dead_chains_setdefault n : respects dead_strong (chains_setdefault n).
Proof. dead_go. Qed.

Lemma dead_locals_append n d : respects dead_strong (locals_append n d).
Proof. dead_go. Qed.

Lemma dead_defs n name quiet : respects dead_strong (defs n name quiet).
Proof. dead_go. Qed.

Lemma dead_process_undefs : respects dead_strong process_undefs.
Proof. dead_go. Qed.

#[local] Hint Resolve dead_chains_setdefault dead_locals_append dead_defs
  dead_process_undefs : dead.

Lemma dead_exec_items dnode items visible :
  respects dead_strong (exec_items dnode items visible).
Proof.
  revert visible. induction items as [|[dname sid] items IH]; intros visible; simpl;
    dead_go.
Qed.

#[local] Hint Resolve dead_exec_items : dead.

Lemma dead_exec_locals dnode layers visible :
  respects dead_strong (exec_locals dnode layers visible).
Proof.
  revert visible. induction layers as [|l layers IH]; intros visible; simpl; dead_go.
Qed.

Lemma dead_extend_all d : respects dead_strong (extend_all d).
Proof. dead_go. Qed.

#[local] Hint Resolve dead_exec_locals dead_extend_all : dead.

Section DeadVisitor.
Variable self : Self.
Hypothesis dead_self : forall c, respects dead_rel (self c).

Hint Resolve dead_self : dead.

(** The counter goes up at the first jump of a body, and down again at its
    end. *)
Lemma dead_process_body_loop stmts deadcode s :
  wp (process_body_loop self stmts deadcode)
     (fun deadcode' s' =>
        (0 < _deadcode s)%Z ->
        _deadcode s' = (_deadcode s + (Z_of_bool deadcode' - Z_of_bool deadcode))%Z /\
        top_cleared s s')
     s.
Proof.
  revert deadcode s. induction stmts as [|stmt stmts IH]; intros deadcode s; simpl.
  - apply wp_ret. intros _. split; [lia | reflexivity].
  - apply wp_intro. intros dc' s' H Hpos. inv_ok.
    match goal with H : self _ _ = Ok _ _ |- _ =>
      pose proof (wp_Ok _ _ _ _ _ (dead_self _ _) H) as Hv end.
    pose proof (wp_Ok _ _ _ _ _ (IH _ _) H) as HI. cbv beta in Hv, HI.
    assert (Hs : _deadcode s0 = (_deadcode s + (Z_of_bool a - Z_of_bool deadcode))%Z /\
                 (0 <= Z_of_bool a - Z_of_bool deadcode)%Z /\ top_cleared s s0).
    { destruct (is_jump stmt && negb deadcode) eqn:E; inv_ok.
      - apply andb_prop in E. destruct E as [_ E]. destruct deadcode; [discriminate|].
        simpl. split; [reflexivity|]. split; [lia|].
        apply all_kept_top_cleared, all_kept_same; reflexivity.
      - split; [lia|]. split; [lia | reflexivity]. }
    destruct Hs as (A1 & A2 & A3).
    assert (Hpos0 : (0 < _deadcode s0)%Z) by lia.
    destruct (Hv Hpos0) as (B1 & B2).
    assert (Hpos1 : (0 < _deadcode s1)%Z) by lia.
    destruct (HI Hpos1) as (C1 & C2).
    split; [lia|]. etransitivity; [exact A3|]. etransitivity; eassumption.
Qed.

Lemma dead_process_body stmts : respects dead_rel (process_body self stmts).
Proof.
  intros s. unfold process_body. apply wp_intro. intros u s' H Hpos. inv_ok.
  match goal with H : process_body_loop _ _ _ _ = Ok _ _ |- _ =>
    pose proof (wp_Ok _ _ _ _ _ (dead_process_body_loop _ _ _) H) as HL;
    cbv beta in HL; destruct (HL Hpos) as (A1 & A2) end.
  destruct a; simpl in *; inv_ok; simpl; (split; [lia | exact A2]).
Qed.

Hint Resolve dead_process_body : dead.

Lemma dead_visit_Name n id ctx annotation skip :
  respects dead_rel (visit_Name self n id ctx annotation skip).
Proof. dead_go. Qed.

Hint Resolve dead_visit_Name : dead.

(** The body of a function is a scope of its own. *)
Lemma dead_visit_FunctionDef_body n name args body decorator_list returns :
  respects dead_strong
    (visit_FunctionDef self n name args body decorator_list returns DefinitionStep).
Proof.
  unfold visit_FunctionDef. destruct args.
  apply respects_bind; [exact _ | | intro; apply respects_ret; exact _].
  apply dead_ScopeContext. dead_go.
Qed.

Lemma dead_visit_Lambda_body n args body :
  respects dead_strong (visit_Lambda self n args body DefinitionStep).
Proof.
  unfold visit_Lambda.
  apply respects_bind; [exact _ | apply respects_get; exact _ | intros s].
  apply respects_bind; [exact _ | apply respects_expect; exact _ | intros dnode].
  apply respects_bind; [exact _ | | intro; apply respects_ret; exact _].
  apply dead_ScopeContext. dead_go.
Qed.

Lemma dead_visit_FunctionDef n name args body decorator_list returns st :
  respects dead_rel (visit_FunctionDef self n name args body decorator_list returns st).
Proof.
  destruct st; [dead_go | apply respects_strong_rel, dead_visit_FunctionDef_body].
Qed.

Lemma dead_visit_Lambda n args body st :
  respects dead_rel (visit_Lambda self n args body st).
Proof.
  destruct st; [dead_go | apply respects_strong_rel, dead_visit_Lambda_body].
Qed.

Hint Resolve dead_visit_FunctionDef dead_visit_Lambda : dead.

Lemma dead_drain_defered fuel i : respects dead_strong (drain_defered self fuel i).
Proof.
  revert i. induction fuel as [|fuel IH]; intros i; simpl; [apply respects_out_of_fuel|].
  apply respects_bind; [exact _ | apply respects_get; exact _ |]. intros s.
  destruct (_defered s !! i) as [[[[[fnode defs] scopes] depths] pls]|];
    [|apply respects_ret; exact _].
  apply respects_bind; [exact _ | | intro; apply IH].
  apply dead_SwitchScopeContext.
  destruct fnode as [m|st|e|c|a|k|a|w|h]; try apply respects_raise.
  - destruct st; try apply respects_raise. apply dead_visit_FunctionDef_body.
  - destruct e; try apply respects_raise. apply dead_visit_Lambda_body.
Qed.

Hint Resolve dead_drain_defered : dead.

Lemma dead_visit_Destructured n elts :
  respects dead_rel (visit_Destructured self n elts).
Proof. dead_go. Qed.

Hint Resolve dead_visit_Destructured : dead.

(** The table of builtins is written to the layer of the module, which is
    new. *)
Lemma dead_fill_top (builtins : list (string * nat)) current s :
  Py.last (_definitions s) = Some current ->
  wp (forM_ builtins (fun kv =>
        sid <- new_set [snd kv] ;; dict_set current (fst kv) sid))
     (fun _ s' => dead_below s s') s.
Proof.
  intros T.
  pose (R := fun s s' : DefUseChains =>
    _deadcode s' = _deadcode s /\ _definitions s' = _definitions s /\
    _breaks s' = _breaks s /\ _continues s' = _continues s /\
    length (heap_dicts s') = length (heap_dicts s) /\
    forall L, L <> current -> dict_items s' L = dict_items s L).
  assert (P : PreOrder R).
  { split.
    - intros x. unfold R. repeat split; reflexivity.
    - intros x y z (A1 & A2 & A3 & A4 & A5 & A6) (B1 & B2 & B3 & B4 & B5 & B6).
      unfold R. repeat split; try congruence.
      intros L HL. rewrite B6, A6 by exact HL. reflexivity. }
  assert (H : respects R (forM_ builtins (fun kv =>
                sid <- new_set [snd kv] ;; dict_set current (fst kv) sid))).
  { apply respects_forM; [exact _|]. intros kv s0. apply wp_intro. intros u s' H.
    unfold dict_set in H. inv_ok. unfold R. simpl.
    repeat split; try reflexivity.
    - apply length_alter.
    - intros L HL. unfold dict_items. simpl.
      rewrite list_lookup_alter_ne by congruence. reflexivity. }
  eapply wp_mono; [apply H|]. intros _ s' (K1 & K2 & K3 & K4 & K5 & K6) _.
  split; [exact K1|]. split.
  - unfold dead_frame, carrier_of. rewrite K2, K3, K4, K5. repeat split; auto.
  - intros L _ _ HL. apply K6. intros ->. exact (HL T).
Qed.

Lemma dead_visit_Module fuel m : respects dead_rel (visit_Module self fuel m).
Proof.
  unfold visit_Module. destruct m as [i body].
  apply respects_bind; [exact _ | dead_go | intros _].
  apply respects_bind; [exact _ | | intros _; dead_go].
  apply respects_strong_rel, dead_ScopeContext.
  intros s. apply wp_bind, wp_get. apply wp_intro. intros r s' H.
  apply bind_Ok in H. destruct H as (current & s0 & H1 & H).
  apply top_Ok in H1. destruct H1 as [T ->].
  apply bind_Ok in H. destruct H as (u & s1 & H1 & H).
  apply (wp_Ok _ _ _ _ _ (dead_fill_top _ _ _ T)) in H1.
  assert (K : respects dead_below
                (process_body self body ;;
                 drain_defered self fuel 0 ;;
                 sanity_checks (NModule (Module i body)))) by dead_go.
  apply (wp_Ok _ _ _ _ _ (K _)) in H.
  etransitivity; eassumption.
Qed.

Hint Resolve dead_visit_Module : dead.

Lemma dead_dispatch fuel n : respects dead_rel (dispatch self fuel n).
Proof. unfold dispatch. destruct n as [m|st|e|c|a|k|a|w|h]; dead_go. Qed.
End DeadVisitor.

Lemma dead_run fuel c : respects dead_rel (run fuel c).
Proof.
  revert c. induction fuel as [|fuel IH]; intros c; simpl.
  - apply respects_out_of_fuel.
  - destruct c as [n|e].
    + apply dead_dispatch. exact IH.
    + destruct e; try apply respects_raise. apply dead_visit_Destructured. exact IH.
Qed.

(** ** The branches of an [If]

    What [DefinitionContext] does around its body: the statements before
    the [yield], and those after it. *)
Definition DefinitionContext_enter (definitions : nat) (s : DefUseChains)
    : DefUseChains :=
  upd_scope_depths
    (Py.set_last (default 0%Z (Py.last (_scope_depths s)) + (-1))%Z)
    (upd_definitions (fun l => l ++ [definitions]) s).

Definition DefinitionContext_exit (s : DefUseChains) : DefUseChains :=
  upd_definitions Py.pop
    (upd_scope_depths
       (Py.set_last (default 0%Z (Py.last (_scope_depths s)) + 1)%Z) s).

Lemma DefinitionContext_Ok {A} d (body : M A) s r s' :
  DefinitionContext d body s = Ok r s' ->
  exists sb,
    body (DefinitionContext_enter d s) = Ok r sb /\ s' = DefinitionContext_exit sb.
Proof.
  unfold DefinitionContext, shift_scope_depth. intros H.
  apply bind_Ok in H. destruct H as ([] & s1 & H1 & H). apply modify_Ok in H1. subst s1.
  apply bind_Ok in H. destruct H as ([] & s2 & H2 & H).
  apply bind_Ok in H2. destruct H2 as (depth & s1 & H1 & H2).
  apply top_Ok in H1. destruct H1 as [T ->]. apply modify_Ok in H2. subst s2.
  apply bind_Ok in H. destruct H as (r' & sb & Hb & H).
  apply bind_Ok in H. destruct H as ([] & s3 & H3 & H).
  apply bind_Ok in H3. destruct H3 as (depth' & s1 & H1 & H3).
  apply top_Ok in H1. destruct H1 as [T' ->]. apply modify_Ok in H3. subst s3.
  apply bind_Ok in H. destruct H as (x & s4 & H4 & H).
  apply pop_from_Ok in H4. destruct H4 as [_ ->].
  apply ret_Ok in H. destruct H as [-> ->].
  exists sb. simpl in T. unfold DefinitionContext_enter, DefinitionContext_exit.
  rewrite T, T'. split; [exact Hb | reflexivity].
Qed.

(** Two sets with the same elements, or none on both sides. *)
Definition same_elems (a b : option (list nat)) : Prop :=
  match a, b with
  | Some l, Some l' => forall x, In x l <-> In x l'
  | None, None => True
  | _, _ => False
  end.

Lemma same_elems_eq a b : a = b -> same_elems a b.
Proof. intros ->. destruct b; simpl; [intros x; reflexivity | exact I]. Qed.

(** Merging a layer with copies of itself, cleared or not, gives the
    elements that it has. *)
Lemma merged_entry_of_copies prior b o :
  (b = None \/ b = prior) -> (o = None \/ o = prior) ->
  same_elems prior (merged_entry prior b o).
Proof.
  intros [->| ->] [->| ->]; destruct prior as [l|]; simpl; try exact I;
    intros x; rewrite ?oset_update_In; simpl; tauto.
Qed.

(** One branch: the body runs with a copy of the layer on top above it. *)
Lemma branch_runs fuel stmts cur s1 s2 :
  Py.last (_definitions s1) = Some cur -> cur < length (heap_dicts s1) ->
  DefinitionContext (length (heap_dicts s1)) (process_body (run fuel) stmts)
    (upd_heap_dicts (fun h => h ++ [dict_items s1 cur]) s1) = Ok tt s2 ->
  exists sb,
    process_body (run fuel) stmts
      (DefinitionContext_enter (length (heap_dicts s1))
         (upd_heap_dicts (fun h => h ++ [dict_items s1 cur]) s1)) = Ok tt sb /\
    s2 = DefinitionContext_exit sb /\
    frame s1 s2 /\ loops s1 s2 /\
    ((0 < _deadcode s1)%Z -> ~ carrier_of s1 cur ->
     (forall c, carrier_of s1 c -> c < length (heap_dicts s1)) ->
     length (heap_dicts s1) < length (heap_dicts s2) /\
     (forall L, L < length (heap_dicts s1) -> ~ carrier_of s1 L ->
        dict_items s2 L = dict_items s1 L) /\
     (dict_items s2 (length (heap_dicts s1)) = dict_items s1 cur \/
      dict_items s2 (length (heap_dicts s1)) = [])).
Proof.
  intros T A E.
  pose proof (keeps_process_body _ (keeps_run fuel) stmts) as Kp.
  pose proof (loops_process_body _ (loops_run fuel) stmts) as Lp.
  pose proof (dead_process_body _ (dead_run fuel) stmts) as Dp.
  assert (F : frame s1 s2).
  { transitivity (upd_heap_dicts (fun h => h ++ [dict_items s1 cur]) s1).
    - unfold frame. simpl. repeat split; reflexivity.
    - exact (wp_Ok _ _ _ _ _ (keeps_DefinitionContext _ _ Kp _) E). }
  destruct (DefinitionContext_Ok _ _ _ _ _ E) as (sb & Eb & ->).
  exists sb. split; [exact Eb|]. split; [reflexivity|]. split; [exact F|].
  pose proof (wp_Ok _ _ _ _ _ (Lp _) Eb) as (L1 & L2 & L3).
  split; [unfold loops; simpl in *; auto|].
  intros Hpos Hn Hc.
  pose proof (wp_Ok _ _ _ _ _ (Dp _) Eb) as D. cbv beta in D.
  destruct (D Hpos) as (_ & (D1 & D2 & D3) & D4). simpl in *.
  rewrite length_app in D2. simpl in D2.
  assert (NC : forall L, ~ carrier_of s1 L ->
            ~ carrier_of (DefinitionContext_enter (length (heap_dicts s1))
                 (upd_heap_dicts (fun h => h ++ [dict_items s1 cur]) s1)) L)
    by (intros L HL; exact HL).
  split; [lia|]. split.
  - intros L HL HnL.
    destruct (D4 L) as [K|[K _]].
    + simpl. rewrite length_app. simpl. lia.
    + apply NC, HnL.
    + change (dict_items sb L = dict_items s1 L). rewrite K.
      unfold dict_items. simpl. rewrite lookup_app_l by exact HL. reflexivity.
    + simpl in K. rewrite Py.last_snoc in K. injection K as K. lia.
  - assert (HnB : ~ carrier_of s1 (length (heap_dicts s1))).
    { intros HB. apply Hc in HB. lia. }
    assert (EB : dict_items
              (DefinitionContext_enter (length (heap_dicts s1))
                 (upd_heap_dicts (fun h => h ++ [dict_items s1 cur]) s1))
              (length (heap_dicts s1)) = dict_items s1 cur).
    { unfold dict_items at 1. simpl.
      rewrite lookup_app_r by lia. rewrite Nat.sub_diag. reflexivity. }
    destruct (D4 (length (heap_dicts s1))) as [K|[_ K]].
    + simpl. rewrite length_app. simpl. lia.
    + apply NC, HnB.
    + left. change (dict_items sb (length (heap_dicts s1)) = dict_items s1 cur).
      rewrite K. exact EB.
    + right. exact K.
Qed.

Lemma keeps_visit_ fuel e : keeps (visit_ (run fuel) e).
Proof.
  unfold visit_, visit_e, visit.
  apply respects_bind; [exact _ | apply keeps_run | intro; apply respects_ret; exact _].
Qed.

Lemma wf_visit_ fuel e : respects heap_rel (visit_ (run fuel) e).
Proof.
  unfold visit_, visit_e, visit.
  apply respects_bind; [exact _ | apply wf_run | intro; apply respects_ret; exact _].
Qed.

Lemma loops_visit_run fuel e : respects loops (visit_ (run fuel) e).
Proof.
  unfold visit_, visit_e, visit.
  apply respects_bind; [exact _ | apply loops_run | intro; apply respects_ret; exact _].
Qed.

Lemma dead_visit_ fuel e : respects dead_rel (visit_ (run fuel) e).
Proof.
  unfold visit_, visit_e, visit.
  apply respects_bind; [exact _ | apply dead_run | intro; apply respects_ret; exact _].
Qed.

Lemma entry_same_items s L L' d :
  dict_items s L = dict_items s L' -> entry s L d = entry s L' d.
Proof. unfold entry. intros ->. reflexivity. Qed.

Lemma entry_no_items s L d : dict_items s L = [] -> entry s L d = None.
Proof. unfold entry. intros ->. reflexivity. Qed.

(** C4. An [If], in live code or in dead code, on a well-formed instance
    whose layer on top is [cur].  The test is visited.  A copy of [cur] is
    made, [body_defs], which has the items of [cur] and shares its sets; the
    body is processed in the instance that [DefinitionContext] enters, where
    [body_defs] is the layer on top, and the instance is then left with
    [cur] on top again.  The [orelse] likewise, from the items that [cur]
    has by then.  The two loops of the merge come last.  In live code, for
    every name, what [cur] binds to it at the end is: the union of what the
    two branch layers bind, in a fresh set, when both bind it; what [cur]
    bound before extended with what the branch layer binds, when one of
    them binds it; what it was, when none does.  In dead code the merge
    writes nothing; there each branch layer is still the copy of [cur] that
    it was, or has been cleared by a [break] or a [continue], as long as
    [cur] is none of the carriers of the enclosing loops and these are
    allocated, so that the layer on top has the elements that the merge
    describes, in the sets that it had. *)
Theorem if_merges_branches fuel test body orelse cur s r s' :
  Heap_ok s ->
  Py.last (_definitions s) = Some cur -> cur < length (heap_dicts s) ->
  visit_If (run fuel) test body orelse s = Ok r s' ->
  exists s1 body_defs s1' sb s2 orelse_defs s2' so s3,
    visit_ (run fuel) test s = Ok tt s1 /\
    copy_top_definitions s1 = Ok body_defs s1' /\
    body_defs <> cur /\ dict_items s1' body_defs = dict_items s1 cur /\
    Py.last (_definitions (DefinitionContext_enter body_defs s1')) = Some body_defs /\
    process_body (run fuel) body (DefinitionContext_enter body_defs s1') = Ok tt sb /\
    s2 = DefinitionContext_exit sb /\ Py.last (_definitions s2) = Some cur /\
    copy_top_definitions s2 = Ok orelse_defs s2' /\
    orelse_defs <> cur /\ dict_items s2' orelse_defs = dict_items s2 cur /\
    Py.last (_definitions (DefinitionContext_enter orelse_defs s2')) = Some orelse_defs /\
    process_body (run fuel) orelse (DefinitionContext_enter orelse_defs s2') = Ok tt so /\
    s3 = DefinitionContext_exit so /\ Py.last (_definitions s3) = Some cur /\
    merge_branches body_defs orelse_defs s3 = Ok tt s' /\
    (_deadcode s = 0%Z ->
     forall d,
       entry s' cur d
       = merged_entry (entry s3 cur d) (entry s3 body_defs d) (entry s3 orelse_defs d)) /\
    (_deadcode s <> 0%Z -> s' = s3) /\
    ((0 < _deadcode s)%Z -> ~ carrier_of s cur ->
     (forall c, carrier_of s c -> c < length (heap_dicts s)) ->
     (dict_items s3 body_defs = dict_items s3 cur \/ dict_items s3 body_defs = []) /\
     (dict_items s3 orelse_defs = dict_items s3 cur \/ dict_items s3 orelse_defs = []) /\
     forall d,
       same_elems (entry s' cur d)
         (merged_entry (entry s3 cur d) (entry s3 body_defs d) (entry s3 orelse_defs d))) /\
    r = None.
Proof.
  intros H1 H3 H4 H.
  pose proof (keeps_run fuel) as Kr. pose proof (wf_run fuel) as Wr.
  pose proof (keeps_process_body _ Kr) as Kp. pose proof (wf_process_body _ Wr) as Wp.
  unfold visit_If in H.
  apply bind_Ok in H. destruct H as ([] & s1 & Et & H).
  pose proof (wp_Ok _ _ _ _ _ (keeps_visit_ fuel test s) Et) as Ft.
  pose proof (wp_Ok _ _ _ _ _ (loops_visit_run fuel test s) Et) as Lt.
  pose proof (wp_Ok _ _ _ _ _ (wf_visit_ fuel test s) Et) as (Wt & Gt).
  pose proof (wp_Ok _ _ _ _ _ (dead_visit_ fuel test s) Et) as Dt. cbv beta in Dt.
  assert (T1 : Py.last (_definitions s1) = Some cur)
    by (destruct Ft as (F & _); rewrite F; exact H3).
  assert (A1 : cur < length (heap_dicts s1)) by lia.
  rewrite (bind_eq _ _ _ _ _ (copy_top_definitions_Ok cur s1 T1)) in H.
  apply bind_Ok in H. destruct H as ([] & s2 & Eb & H).
  destruct (branch_runs fuel body cur s1 s2 T1 A1 Eb) as (sb & Pb & E2 & Fb & Lb & Db).
  assert (T2 : Py.last (_definitions s2) = Some cur)
    by (destruct Fb as (F & _); rewrite F; exact T1).
  assert (Wb : heap_rel s1 s2).
  { transitivity (upd_heap_dicts (fun h => h ++ [dict_items s1 cur]) s1).
    - exact (wp_Ok _ _ _ _ _ (wf_copy_top_definitions s1)
               (copy_top_definitions_Ok cur s1 T1)).
    - assert (R : respects heap_rel
                (DefinitionContext (length (heap_dicts s1))
                   (process_body (run fuel) body))) by heap_go.
      exact (wp_Ok _ _ _ _ _ (R _) Eb). }
  destruct Wb as (Wb & Gb).
  assert (A2 : cur < length (heap_dicts s2)) by lia.
  rewrite (bind_eq _ _ _ _ _ (copy_top_definitions_Ok cur s2 T2)) in H.
  apply bind_Ok in H. destruct H as ([] & s3 & Eo & H).
  destruct (branch_runs fuel orelse cur s2 s3 T2 A2 Eo) as (so & Po & E3 & Fo & Lo & Do).
  assert (T3 : Py.last (_definitions s3) = Some cur)
    by (destruct Fo as (F & _); rewrite F; exact T2).
  assert (Wo : heap_rel s2 s3).
  { transitivity (upd_heap_dicts (fun h => h ++ [dict_items s2 cur]) s2).
    - exact (wp_Ok _ _ _ _ _ (wf_copy_top_definitions s2)
               (copy_top_definitions_Ok cur s2 T2)).
    - assert (R : respects heap_rel
                (DefinitionContext (length (heap_dicts s2))
                   (process_body (run fuel) orelse))) by heap_go.
      exact (wp_Ok _ _ _ _ _ (R _) Eo). }
  destruct Wo as (Wo & Go).
  apply bind_Ok in H. destruct H as ([] & s4 & Em & H).
  apply ret_Ok in H. destruct H as [-> ->].
  assert (NB : length (heap_dicts s1) <> cur) by lia.
  assert (NO : length (heap_dicts s2) <> cur) by lia.
  assert (Edc : _deadcode s3 = _deadcode s).
  { destruct Ft as (_ & _ & _ & _ & X1 & _). destruct Fb as (_ & _ & _ & _ & X2 & _).
    destruct Fo as (_ & _ & _ & _ & X3 & _). congruence. }
  exists s1, (length (heap_dicts s1)),
    (upd_heap_dicts (fun h => h ++ [dict_items s1 cur]) s1), sb,
    s2, (length (heap_dicts s2)),
    (upd_heap_dicts (fun h => h ++ [dict_items s2 cur]) s2), so, s3.
  split; [exact Et|].
  split; [apply copy_top_definitions_Ok; assumption|].
  split; [exact NB|].
  split; [rewrite dict_items_new_dict; destruct (decide _); [reflexivity | congruence]|].
  split; [simpl; apply Py.last_snoc|].
  split; [exact Pb|].
  split; [exact E2|].
  split; [exact T2|].
  split; [apply copy_top_definitions_Ok; assumption|].
  split; [exact NO|].
  split; [rewrite dict_items_new_dict; destruct (decide _); [reflexivity | congruence]|].
  split; [simpl; apply Py.last_snoc|].
  split; [exact Po|].
  split; [exact E3|].
  split; [exact T3|].
  split; [exact Em|].
  split; [|split; [|split; [|reflexivity]]].
  - intros Hlive.
    assert (Hl3 : live_on cur s3).
    { refine (conj (Wo (Wb (Wt H1))) (conj _ (conj T3 _))); [congruence | lia]. }
    destruct (merge_branches_spec cur _ _ s3 Hl3 NB NO) as (s5 & Em' & _ & _ & Hm).
    rewrite Em in Em'. inversion Em'; subst s5. exact Hm.
  - intros Hdead.
    rewrite merge_branches_dead in Em by congruence. inversion Em. reflexivity.
  - intros Hpos Hn Hc.
    assert (E' : s4 = s3).
    { rewrite merge_branches_dead in Em by lia. inversion Em. reflexivity. }
    subst s4.
    destruct (Dt Hpos) as (Dc1 & (_ & Dl1 & _) & _).
    destruct Lt as (Lt1 & Lt2 & _).
    assert (Hn1 : ~ carrier_of s1 cur)
      by (unfold carrier_of in *; rewrite Lt1, Lt2; exact Hn).
    assert (Hc1 : forall c, carrier_of s1 c -> c < length (heap_dicts s1)).
    { intros c Hcc. unfold carrier_of in Hcc. rewrite Lt1, Lt2 in Hcc.
      apply Hc in Hcc. lia. }
    assert (Hpos1 : (0 < _deadcode s1)%Z) by lia.
    destruct (Db Hpos1 Hn1 Hc1) as (Gb' & Kb & Bb).
    destruct Lb as (Lb1 & Lb2 & _).
    assert (Hn2 : ~ carrier_of s2 cur)
      by (unfold carrier_of in *; rewrite Lb1, Lb2; exact Hn1).
    assert (Hc2 : forall c, carrier_of s2 c -> c < length (heap_dicts s2)).
    { intros c Hcc. unfold carrier_of in Hcc. rewrite Lb1, Lb2 in Hcc.
      apply Hc1 in Hcc. lia. }
    assert (Hpos2 : (0 < _deadcode s2)%Z).
    { destruct Fb as (_ & _ & _ & _ & X & _). lia. }
    destruct (Do Hpos2 Hn2 Hc2) as (Go' & Ko & Bo).
    assert (HnB : ~ carrier_of s2 (length (heap_dicts s1))).
    { intros HB. unfold carrier_of in HB. rewrite Lb1, Lb2 in HB.
      apply Hc1 in HB. lia. }
    assert (C2 : dict_items s2 cur = dict_items s1 cur) by (apply Kb; assumption).
    assert (C3 : dict_items s3 cur = dict_items s1 cur)
      by (rewrite (Ko cur A2 Hn2); exact C2).
    assert (B3 : dict_items s3 (length (heap_dicts s1))
                 = dict_items s2 (length (heap_dicts s1)))
      by (apply Ko; [lia | exact HnB]).
    assert (PB : dict_items s3 (length (heap_dicts s1)) = dict_items s3 cur \/
                 dict_items s3 (length (heap_dicts s1)) = []).
    { rewrite B3, C3. exact Bb. }
    assert (PO : dict_items s3 (length (heap_dicts s2)) = dict_items s3 cur \/
                 dict_items s3 (length (heap_dicts s2)) = []).
    { rewrite C3, <- C2. exact Bo. }
    split; [exact PB|]. split; [exact PO|].
    intros d. apply merged_entry_of_copies.
    + destruct PB as [K|K]; [right; apply entry_same_items, K
                            | left; apply entry_no_items, K].
    + destruct PO as [K|K]; [right; apply entry_same_items, K
                            | left; apply entry_no_items, K].
Qed.

Lemma if_merges_branches_witness :
  let test := Constant 40 in
  let body := [Assign 45 [Name 41 "x" Store None] (Constant 42)] in
  let orelse := [Assign 46 [Name 43 "y" Store None] (Constant 44)] in
  let s := example_star_layers in
  let s' := final (visit_If (run 5) test body orelse s) in
  exists s1 body_defs s1' sb s2 orelse_defs s2' so s3,
    visit_ (run 5) test s = Ok tt s1 /\
    copy_top_definitions s1 = Ok body_defs s1' /\
    body_defs <> 1 /\ dict_items s1' body_defs = dict_items s1 1 /\
    Py.last (_definitions (DefinitionContext_enter body_defs s1')) = Some body_defs /\
    process_body (run 5) body (DefinitionContext_enter body_defs s1') = Ok tt sb /\
    s2 = DefinitionContext_exit sb /\ Py.last (_definitions s2) = Some 1 /\
    copy_top_definitions s2 = Ok orelse_defs s2' /\
    orelse_defs <> 1 /\ dict_items s2' orelse_defs = dict_items s2 1 /\
    Py.last (_definitions (DefinitionContext_enter orelse_defs s2')) = Some orelse_defs /\
    process_body (run 5) orelse (DefinitionContext_enter orelse_defs s2') = Ok tt so /\
    s3 = DefinitionContext_exit so /\ Py.last (_definitions s3) = Some 1 /\
    merge_branches body_defs orelse_defs s3 = Ok tt s' /\
    (_deadcode s = 0%Z ->
     forall d,
       entry s' 1 d
       = merged_entry (entry s3 1 d) (entry s3 body_defs d) (entry s3 orelse_defs d)) /\
    (_deadcode s <> 0%Z -> s' = s3) /\
    ((0 < _deadcode s)%Z -> ~ carrier_of s 1 ->
     (forall c, carrier_of s c -> c < length (heap_dicts s)) ->
     (dict_items s3 body_defs = dict_items s3 1 \/ dict_items s3 body_defs = []) /\
     (dict_items s3 orelse_defs = dict_items s3 1 \/ dict_items s3 orelse_defs = []) /\
     forall d,
       same_elems (entry s' 1 d)
         (merged_entry (entry s3 1 d) (entry s3 body_defs d) (entry s3 orelse_defs d))) /\
    @None nat = None.
Proof.
  intros test body orelse s s'.
  apply (if_merges_branches 5 test body orelse 1 s None s').
  - refine (conj _ (conj _ _)).
    + intros lid name sid. destruct lid as [|[|lid]]; unfold dict_items; simpl;
        intros E; try discriminate E; destruct (decide _); inversion E; simpl; lia.
    + intros l1 l2 n1 n2 sid.
      destruct l1 as [|[|l1]]; destruct l2 as [|[|l2]]; unfold dict_items; simpl;
        intros E1 E2; try discriminate E1; try discriminate E2;
        repeat destruct (decide _); try discriminate E1; try discriminate E2;
        congruence.
    + intros lid. destruct lid as [|[|lid]]; unfold dict_items; simpl;
        repeat (constructor; [intros []|]); constructor.
  - reflexivity.
  - simpl. lia.
  - vm_compute. reflexivity.
Defined.

(** On the example: [*] is bound by both branch layers (to the set that
    the top layer held), [x] by the body's alone and [y] by the [orelse]'s
    alone; the top layer ends with the three, each in a set of its own. *)
Example if_merges_example :
  let s' := final (visit_If (run 5) (Constant 40)
                     [Assign 45 [Name 41 "x" Store None] (Constant 42)]
                     [Assign 46 [Name 43 "y" Store None] (Constant 44)]
                     example_star_layers) in
  entry example_star_layers 1 "*" = Some [1] /\
  entry example_star_layers 1 "x" = None /\
  entry example_star_layers 1 "y" = None /\
  dict_items s' 1 = [("*", 4); ("x", 5); ("y", 6)] /\
  entry s' 1 "*" = Some [1] /\ entry s' 1 "x" = Some [4] /\ entry s' 1 "y" = Some [6].
Proof. vm_compute. repeat split; reflexivity. Qed.

(** The same layers inside a loop, after a jump: the dictionary [2] is the
    carrier of the [break]s, and the counter of dead code is [1]. *)
Definition example_dead_layers : DefUseChains :=
  upd_deadcode (fun _ => 1%Z)
    (upd_breaks (fun _ => [2])
       (upd_heap_dicts (fun h => h ++ [[]]) example_star_layers)).

(** An [If] there, with a [break] in its body and an assignment in its
    [orelse]: the layer on top, [1], is no carrier and the carrier is
    allocated; the layer of the body, [3], is poured into the carrier and
    cleared; the layer of the [orelse], [4], is the copy that it was; the
    layer on top is left as it was, [y] is not bound. *)
Example if_in_dead_code :
  let s := example_dead_layers in
  let s' := final (visit_If (run 5) (Constant 40) [Break 47]
                     [Assign 46 [Name 43 "y" Store None] (Constant 44)] s) in
  visit_If (run 5) (Constant 40) [Break 47]
    [Assign 46 [Name 43 "y" Store None] (Constant 44)] s = Ok None s' /\
  ((0 < _deadcode s)%Z /\ ~ carrier_of s 1 /\
   forall c, carrier_of s c -> c < length (heap_dicts s)) /\
  dict_items s 1 = [("*", 1)] /\ dict_items s 2 = [] /\
  dict_items s' 1 = [("*", 1)] /\
  dict_items s' 3 = [] /\ dict_items s' 4 = [("*", 1)] /\
  entry s' 2 "*" = Some [1] /\ entry s' 1 "y" = None /\
  _deadcode s' = 1%Z.
Proof.
  split; [vm_compute; reflexivity|]. split.
  - split; [reflexivity|]. unfold carrier_of. simpl. split.
    + intros [[H|[]]|[]]. discriminate H.
    + intros c [[<-|[]]|[]]. lia.
  - vm_compute. repeat split; reflexivity.
Qed.
